(** * The tile-parallel coordinates of the nonblocking backend

    A shallow embedding of [grb::internal::Coordinates< nonblocking >]
    (include/graphblas/nonblocking/coordinates.hpp) and proofs of the
    properties its specification states.

    The class does not own memory: it keeps raw pointers into two blocks the
    container supplies, a [bool] array (the presence flags) and a block of
    [StackType] words (the compacted stack, followed by the scratch buffer of
    the tile mechanism).  The embedding keeps that shape: a [Memory] holds the
    two blocks, a pointer is an offset into one of them, and every member
    function is a computation over the memory that may fault.  A subset view is
    a second [Coordinates] value whose pointers alias the same memory.

    Indices and counters ([size_t], [config::VectorIndexType]) are natural
    numbers.  The index type is declared outside the sources at hand, so its
    width is unknown here; an unsigned subtraction that would wrap is written
    [usub] and yields an uninterpreted value, and an index computed by a
    wrapped subtraction is beyond every buffer. *)

From Stdlib Require Import Arith Lia List Bool PeanoNat NArith.
From stdpp Require Import base tactics option list.

(** ** Memory and faults *)

Inductive fault : Type :=
| AssertionFailure
| MemoryFault
| DivisionByZero.

Inductive outcome (A : Type) : Type :=
| Ok (a : A)
| Fault (f : fault).

Arguments Ok {A} a.
Arguments Fault {A} f.

Record Memory : Type := mkMemory {
  flags : list bool;
  words : list nat
}.

(** A pointer is an offset into its block; [None] is [nullptr] (or a pointer
    that does not point into the block at all). *)
Definition ptr : Type := option nat.

Definition ptr_add (p : ptr) (k : nat) : ptr :=
  match p with
  | Some b => Some (b + k)
  | None => None
  end.

Definition ptr_sub (p : ptr) (k : nat) : ptr :=
  match p with
  | Some b => if k <=? b then Some (b - k) else None
  | None => None
  end.

Definition is_null (p : ptr) : bool :=
  match p with
  | Some _ => false
  | None => true
  end.

Definition M (A : Type) : Type := Memory -> outcome (A * Memory).

Definition ret {A : Type} (a : A) : M A := fun m => Ok (a, m).

Definition bind {A B : Type} (c : M A) (k : A -> M B) : M B :=
  fun m =>
    match c m with
    | Ok (a, m') => k a m'
    | Fault f => Fault f
    end.

Definition fail {A : Type} (f : fault) : M A := fun _ => Fault f.

Notation "x <- c ;; k" := (bind c (fun x => k))
  (at level 100, c at next level, right associativity).
Notation "c ;; k" := (bind c (fun _ => k))
  (at level 100, right associativity).

Definition load_flag (p : ptr) (i : nat) : M bool :=
  fun m =>
    match p with
    | Some b =>
        match flags m !! (b + i) with
        | Some v => Ok (v, m)
        | None => Fault MemoryFault
        end
    | None => Fault MemoryFault
    end.

Definition store_flag (p : ptr) (i : nat) (v : bool) : M unit :=
  fun m =>
    match p with
    | Some b =>
        if b + i <? length (flags m)
        then Ok (tt, mkMemory (<[b + i := v]> (flags m)) (words m))
        else Fault MemoryFault
    | None => Fault MemoryFault
    end.

Definition load_word (p : ptr) (i : nat) : M nat :=
  fun m =>
    match p with
    | Some b =>
        match words m !! (b + i) with
        | Some v => Ok (v, m)
        | None => Fault MemoryFault
        end
    | None => Fault MemoryFault
    end.

Definition store_word (p : ptr) (i : nat) (v : nat) : M unit :=
  fun m =>
    match p with
    | Some b =>
        if b + i <? length (words m)
        then Ok (tt, mkMemory (flags m) (<[b + i := v]> (words m)))
        else Fault MemoryFault
    | None => Fault MemoryFault
    end.

(** [for( size_t i = start; i < start + count; ++i )], threading the local
    variables [s] of the enclosing function through the body. *)
Fixpoint for_loop {L : Type} (start count : nat) (body : nat -> L -> M L)
    (s : L) : M L :=
  match count with
  | 0 => ret s
  | S k => s' <- body start s ;; for_loop (S start) k body s'
  end.

Definition for_range {L : Type} (lo hi : nat) (body : nat -> L -> M L)
    (s : L) : M L :=
  for_loop lo (hi - lo) body s.

(** The iterations of an OpenMP work-sharing loop, run one after the other in
    the order [sched] the runtime happens to pick. *)
Fixpoint for_each {L : Type} (sched : list nat) (body : nat -> L -> M L)
    (s : L) : M L :=
  match sched with
  | [] => ret s
  | i :: rest => s' <- body i s ;; for_each rest body s'
  end.

Definition div_ (a b : nat) : M nat :=
  if b =? 0 then fail DivisionByZero else ret (a / b).

(** [v[ i ]] on a [std::vector]. *)
Definition vector_at (v : list ptr) (i : nat) : M ptr :=
  match v !! i with
  | Some p => ret p
  | None => fail MemoryFault
  end.

(** [a[ i - 1 ]] and the like: when the subtraction wraps the index is beyond
    the block. *)
Definition index_sub (a b : nat) : M nat :=
  if b <=? a then ret (a - b) else fail MemoryFault.

(** ** The data model *)

(** The part of [AnalyticModel] the coordinates read. *)
Record AnalyticModel : Type := mkAnalyticModel {
  getNumThreads : nat;
  getTileSize : nat;
  getNumTiles : nat
}.

Record Coordinates : Type := mkCoordinates {
  _assigned : ptr;
  _stack : ptr;
  _buffer : ptr;
  _n : nat;
  _cap : nat;
  _buf : nat;
  local_buffer : list ptr;
  local_new_nnzs : ptr;
  pref_sum : ptr;
  analytic_model : AnalyticModel
}.

Definition with_n (c : Coordinates) (n : nat) : Coordinates :=
  mkCoordinates (_assigned c) (_stack c) (_buffer c) n (_cap c) (_buf c)
    (local_buffer c) (local_new_nnzs c) (pref_sum c) (analytic_model c).

Definition with_buf (c : Coordinates) (b : nat) : Coordinates :=
  mkCoordinates (_assigned c) (_stack c) (_buffer c) (_n c) (_cap c) b
    (local_buffer c) (local_new_nnzs c) (pref_sum c) (analytic_model c).

Definition with_pointers (c : Coordinates) (a s b : ptr) (n cap buf : nat)
    : Coordinates :=
  mkCoordinates a s b n cap buf
    (local_buffer c) (local_new_nnzs c) (pref_sum c) (analytic_model c).

(** What the build and the headers outside these sources fix: the two
    debugging macros, the size of a stack word, the buffer-sizing functions of
    [internal::NONBLOCKING], the OpenMP configuration with its range splitter
    [config::OMP::localRange( start, end, block_size, t, T )], and the
    constructors of [AnalyticModel].  [wrapped_sub a b] stands for what
    [a - b] evaluates to in the index type when [a < b]. *)
Record Config : Type := mkConfig {
  NDEBUG : bool;
  _DEBUG : bool;
  sizeof_StackType : positive;
  vectorBufferSize : nat -> nat;
  maxBufferTiles : nat -> nat;
  minLoopSize : nat;
  CACHE_LINE_SIZE : nat;
  omp_num_threads : nat;
  localRange : nat -> nat -> nat -> nat -> nat -> nat * nat;
  AnalyticModel_new : nat -> nat -> nat -> AnalyticModel;
  AnalyticModel_default : AnalyticModel;
  wrapped_sub : nat -> nat -> nat
}.

Section Operations.

Variable cfg : Config.

Definition assert_ (b : bool) : M unit :=
  if NDEBUG cfg || b then ret tt else fail AssertionFailure.

(** An assertion whose condition reads memory: not even evaluated under
    [NDEBUG]. *)
Definition assertM (c : M bool) : M unit :=
  if NDEBUG cfg then ret tt
  else (b <- c ;; if b then ret tt else fail AssertionFailure).

(** [a - b] on unsigned operands that nothing keeps ordered. *)
Definition usub (a b : nat) : nat :=
  if b <=? a then a - b else wrapped_sub cfg a b.

Definition Coordinates_default : Coordinates :=
  mkCoordinates None None None 0 0 0 [] None None (AnalyticModel_default cfg).

(** [void set( arr, arr_initialized, buf, dim, parallel )].  [arr] points into
    the flag block; [buf] is a byte address in the word block, which the
    function aligns to a stack word. *)
Definition set (c : Coordinates) (arr : ptr) (arr_initialized : bool)
    (buf : ptr) (dim : nat) (parallel : bool) : M Coordinates :=
  match arr, buf with
  | Some _, Some buf_raw =>
      let size := Pos.to_nat (sizeof_StackType cfg) in
      let md := buf_raw mod size in
      let buf_raw := if negb (md =? 0) then buf_raw + (size - md) else buf_raw in
      let stack := Some (buf_raw / size) in
      let c := with_pointers c arr stack (ptr_add stack dim) 0 dim
                 (vectorBufferSize cfg dim) in
      (if (0 <? dim) && negb arr_initialized then
         if parallel then
           for_each (seq 0 (omp_num_threads cfg)) (fun t _ =>
             let '(start, end_) :=
               localRange cfg 0 dim (CACHE_LINE_SIZE cfg) t (omp_num_threads cfg) in
             for_range start end_ (fun i _ => store_flag (_assigned c) i false) tt) tt
         else
           for_range 0 dim (fun i _ => store_flag (_assigned c) i false) tt
       else ret tt) ;;
      ret c
  | _, _ =>
      assert_ (is_null arr) ;;
      assert_ (is_null buf) ;;
      assert_ (dim =? 0) ;;
      ret (with_pointers c None None None 0 0 0)
  end.

(** [bool assign( i )]. *)
Definition assign (c : Coordinates) (i : nat) : M (bool * Coordinates) :=
  if _n c =? _cap c then ret (true, c)
  else
    a <- load_flag (_assigned c) i ;;
    if negb a then
      store_flag (_assigned c) i true ;;
      let newSize := _n c + 1 in
      assert_ (_n c <=? _cap c) ;;
      assert_ (newSize <=? _cap c) ;;
      store_word (_stack c) (_n c) i ;;
      ret (false, with_n c newSize)
    else ret (true, c).

(** [local_assignAll< maybe_invalid >()]. *)
Definition local_assignAll (maybe_invalid : bool) (c : Coordinates)
    : M Coordinates :=
  c' <- (if maybe_invalid || negb (_n c =? _cap c) then
           if negb (is_null (_assigned c)) then
             assert_ (negb (is_null (_stack c))) ;;
             assert_ (maybe_invalid || (_n c <? _cap c)) ;;
             assert_ (negb maybe_invalid || (_n c <=? _cap c)) ;;
             let c := with_n c (_cap c) in
             for_range 0 (_n c) (fun i _ =>
               store_flag (_assigned c) i true ;;
               store_word (_stack c) i i) tt ;;
             ret c
           else ret c
         else ret c) ;;
  let local_nnzs := ptr_sub (_stack c') 1 in
  store_word local_nnzs 0 0 ;;
  ret c'.

(** [local_assignAllNotAlreadyAssigned< maybe_invalid >()]. *)
Definition local_assignAllNotAlreadyAssigned (maybe_invalid : bool)
    (c : Coordinates) : M Coordinates :=
  if maybe_invalid || negb (_n c =? _cap c) then
    if negb (is_null (_assigned c)) then
      assert_ (negb (is_null (_stack c))) ;;
      assert_ (maybe_invalid || (_n c <? _cap c)) ;;
      assert_ (negb maybe_invalid || (_n c <=? _cap c)) ;;
      n <- for_range 0 (_cap c) (fun i n =>
             a <- load_flag (_assigned c) i ;;
             if negb a then
               store_flag (_assigned c) i true ;;
               store_word (_stack c) n i ;;
               ret (n + 1)
             else ret n) (_n c) ;;
      assert_ (n =? _cap c) ;;
      ret (with_n c n)
    else ret c
  else ret c.

(** [void clear()].  Its loops are OpenMP loops whose iterations write
    [false] to distinct flags; they are run in index order.  *)
Definition clear (c : Coordinates) : M Coordinates :=
  (if _n c =? _cap c then
     assert_ (negb (is_null (_assigned c) && (0 <? _cap c))) ;;
     for_range 0 (_cap c) (fun i _ => store_flag (_assigned c) i false) tt
   else
     if _n c <? minLoopSize cfg then
       for_range 0 (_n c) (fun k _ =>
         s <- load_word (_stack c) k ;;
         store_flag (_assigned c) s false) tt
     else
       for_range 0 (_n c) (fun k _ =>
         s <- load_word (_stack c) k ;;
         store_flag (_assigned c) s false) tt) ;;
  ret (with_n c 0).

(** [void local_clear()]. *)
Definition local_clear (c : Coordinates) : M Coordinates :=
  (if _n c =? _cap c then
     assert_ (negb (is_null (_assigned c) && (0 <? _cap c))) ;;
     for_range 0 (_cap c) (fun i _ => store_flag (_assigned c) i false) tt
   else
     for_range 0 (_n c) (fun k _ =>
       s <- load_word (_stack c) k ;;
       store_flag (_assigned c) s false) tt) ;;
  let c := with_n c 0 in
  let local_nnzs := ptr_sub (_stack c) 1 in
  store_word local_nnzs 0 0 ;;
  ret c.

Definition reset_global_nnz_counter (c : Coordinates) : Coordinates :=
  with_n c 0.

Definition isEmpty (c : Coordinates) : bool :=
  if _n c =? 0 then true else false.

Definition isDense (c : Coordinates) : bool := _n c =? _cap c.

Definition size (c : Coordinates) : nat := _cap c.

(** [bool assigned( i )]: the flag is not read when the structure is dense. *)
Definition assigned (c : Coordinates) (i : nat) : M bool :=
  assert_ (i <? _cap c) ;;
  if _n c =? _cap c then ret true else load_flag (_assigned c) i.

Definition nonzeroes (c : Coordinates) : M nat :=
  assert_ (_n c <=? _cap c) ;;
  ret (_n c).

(** [size_t index( k )]. *)
Definition index (c : Coordinates) (k : nat) : M nat :=
  assert_ (k <? _n c) ;;
  if isDense c then ret k else load_word (_stack c) k.

(** [void localCoordinatesInit( am )].  [local_buffer] is resized to
    [num_tiles] entries and the loop then overwrites each of them. *)
Definition localCoordinatesInit (c : Coordinates) (am : AnalyticModel)
    : M Coordinates :=
  let tile_size := getTileSize am in
  let num_tiles := getNumTiles am in
  assert_ (0 <? num_tiles) ;;
  assert_ (num_tiles <=? maxBufferTiles cfg (_cap c)) ;;
  assert_ (4 * num_tiles <=? _buf c) ;;
  ret (mkCoordinates (_assigned c) (_stack c) (_buffer c) (_n c) (_cap c)
         (_buf c)
         (map (fun tile_id => ptr_add (_buffer c) (tile_id * (tile_size + 1)))
            (seq 0 num_tiles))
         (ptr_add (_buffer c) (num_tiles * (tile_size + 1)))
         (ptr_add (_buffer c) (num_tiles * (tile_size + 2)))
         am).

(** The push [local_stack[ local_nnzs[ 0 ]++ ] = v] onto a tile's stack. *)
Definition push_local (local_nnzs local_stack : ptr) (v : nat) : M unit :=
  k <- load_word local_nnzs 0 ;;
  store_word local_nnzs 0 (k + 1) ;;
  store_word local_stack k v.

(** The first branch of [asyncSubsetInit]: walk the tile's index range over
    the flags. *)
Definition scan_tile_range (c : Coordinates) (local_nnzs local_stack : ptr)
    (lower_bound upper_bound : nat) : M unit :=
  for_range lower_bound upper_bound (fun i _ =>
    a <- load_flag (_assigned c) i ;;
    if a then push_local local_nnzs local_stack (i - lower_bound)
    else ret tt) tt.

(** The second branch: walk the global stack and keep what lies in the
    tile. *)
Definition scan_global_stack (c : Coordinates) (local_nnzs local_stack : ptr)
    (lower_bound upper_bound : nat) : M unit :=
  for_range 0 (_n c) (fun i _ =>
    k <- load_word (_stack c) i ;;
    if (lower_bound <=? k) && (k <? upper_bound) then
      assertM (load_flag (_assigned c) k) ;;
      push_local local_nnzs local_stack (k - lower_bound)
    else ret tt) tt.

(** [void asyncSubsetInit( lower_bound, upper_bound )]. *)
Definition asyncSubsetInit (c : Coordinates) (lower_bound upper_bound : nat)
    : M unit :=
  if _cap c =? 0 then ret tt
  else
    tile_id <- div_ lower_bound (getTileSize (analytic_model c)) ;;
    lb <- vector_at (local_buffer c) tile_id ;;
    let local_nnzs := lb in
    let local_stack := ptr_add lb 1 in
    store_word local_nnzs 0 0 ;;
    (if usub upper_bound lower_bound <? _n c
     then scan_tile_range c local_nnzs local_stack lower_bound upper_bound
     else scan_global_stack c local_nnzs local_stack lower_bound upper_bound) ;;
    store_word (local_new_nnzs c) tile_id 0.

(** A [StackType *] handed over as [void *]: its byte address. *)
Definition to_void (p : ptr) : ptr :=
  match p with
  | Some w => Some (w * Pos.to_nat (sizeof_StackType cfg))
  | None => None
  end.

(** [Coordinates asyncSubset( lower_bound, upper_bound ) const]. *)
Definition asyncSubset (c : Coordinates) (lower_bound upper_bound : nat)
    : M Coordinates :=
  assert_ (0 <? _cap c) ;;
  tile_id <- div_ lower_bound (getTileSize (analytic_model c)) ;;
  lb <- vector_at (local_buffer c) tile_id ;;
  let local_nnzs := lb in
  let local_stack := ptr_add lb 1 in
  assert_ (usub upper_bound lower_bound <=? getTileSize (analytic_model c)) ;;
  r <- set Coordinates_default (ptr_add (_assigned c) lower_bound) true
         (to_void local_stack) (usub upper_bound lower_bound) false ;;
  a <- load_word local_nnzs 0 ;;
  b <- load_word (local_new_nnzs c) tile_id ;;
  let r := with_n r (a + b) in
  assert_ (_n r <=? _cap r) ;;
  ret (with_buf r 0).

(** [void asyncJoinSubset( subset, lower_bound, upper_bound )]. *)
Definition asyncJoinSubset (c subset : Coordinates)
    (lower_bound upper_bound : nat) : M unit :=
  assert_ (0 <? _cap c) ;;
  tile_id <- div_ lower_bound (getTileSize (analytic_model c)) ;;
  lb <- vector_at (local_buffer c) tile_id ;;
  let local_nnzs := lb in
  assert_ (_n subset <=? _cap subset) ;;
  assertM (a <- load_word local_nnzs 0 ;; ret (a <=? _cap subset)) ;;
  a <- load_word local_nnzs 0 ;;
  store_word (local_new_nnzs c) tile_id (usub (_n subset) a).

Fixpoint newNonZeroes_loop (c : Coordinates) (i count : nat) : M bool :=
  match count with
  | 0 => ret false
  | S k =>
      x <- load_word (local_new_nnzs c) i ;;
      if 0 <? x then ret true else newNonZeroes_loop c (S i) k
  end.

(** [bool newNonZeroes() const]. *)
Definition newNonZeroes (c : Coordinates) : M bool :=
  if _cap c =? 0 then ret false
  else newNonZeroes_loop c 0 (getNumTiles (analytic_model c)).

(** A local array ([size_t a[ len ]]): its cells hold no value until
    written, and reading such a cell or indexing beyond the array faults. *)
Definition local_array (len : nat) : list (option nat) := replicate len None.

Definition local_get (a : list (option nat)) (i : nat) : M nat :=
  match a !! i with
  | Some (Some v) => ret v
  | _ => fail MemoryFault
  end.

Definition local_set (a : list (option nat)) (i : nat) (v : nat)
    : M (list (option nat)) :=
  if i <? length a then ret (<[i := Some v]> a) else fail MemoryFault.

(** [prefixSumComputation], first with its sums kept as natural numbers:
    what the code computes as long as the new count fits
    [config::VectorIndexType] and [size_t], as it does for a count within a
    capacity those types hold.  [prefixSumComputation_words] further down
    writes the widths of the words out, and
    [prefixSumComputation_words_agrees] shows the two to agree in that
    range. *)

(** The sequential branch of [prefixSumComputation]. *)
Definition prefix_sum_sequential (c : Coordinates) (num_tiles : nat) : M unit :=
  x <- load_word (local_new_nnzs c) 0 ;;
  store_word (pref_sum c) 0 (_n c + x) ;;
  for_range 1 num_tiles (fun i _ =>
    p <- load_word (pref_sum c) (i - 1) ;;
    x <- load_word (local_new_nnzs c) i ;;
    store_word (pref_sum c) i (p + x)) tt.

(** The parallel branch, loop by loop.  First every chunk of tiles gets its
    own prefix sums, and its total goes to [local_prefix_sum[ id ]]. *)
Definition prefix_sum_chunk (c : Coordinates)
    (num_tiles prefix_sum_tile_size prefix_sum_num_tiles : nat)
    (id : nat) (local_prefix_sum : list (option nat))
    : M (list (option nat)) :=
  let '(lower, upper) :=
    localRange cfg 0 num_tiles prefix_sum_tile_size id prefix_sum_num_tiles in
  assert_ (id <=? num_tiles) ;;
  assert_ ((id <? usub prefix_sum_num_tiles 1) || (upper =? num_tiles)) ;;
  assert_ (lower <=? upper) ;;
  assert_ (upper <=? num_tiles) ;;
  x <- load_word (local_new_nnzs c) lower ;;
  store_word (pref_sum c) lower x ;;
  for_range (lower + 1) upper (fun i _ =>
    p <- load_word (pref_sum c) (i - 1) ;;
    x <- load_word (local_new_nnzs c) i ;;
    store_word (pref_sum c) i (p + x)) tt ;;
  last <- index_sub upper 1 ;;
  v <- load_word (pref_sum c) last ;;
  local_set local_prefix_sum id v.

(** Then a single thread turns the totals into their own prefix sums. *)
Definition prefix_sum_totals (prefix_sum_num_tiles : nat)
    (local_prefix_sum : list (option nat)) : M (list (option nat)) :=
  for_range 1 prefix_sum_num_tiles (fun i local_prefix_sum =>
    a <- local_get local_prefix_sum i ;;
    b <- local_get local_prefix_sum (i - 1) ;;
    local_set local_prefix_sum i (a + b)) local_prefix_sum.

(** Last, every chunk adds the count and the totals before it to its
    entries. *)
Definition prefix_sum_add_back (c : Coordinates)
    (num_tiles prefix_sum_tile_size prefix_sum_num_tiles : nat)
    (local_prefix_sum : list (option nat)) (id : nat) (_ : unit) : M unit :=
  let '(lower, upper) :=
    localRange cfg 0 num_tiles prefix_sum_tile_size id prefix_sum_num_tiles in
  prev <- (if 0 <? id then local_get local_prefix_sum (id - 1) else ret 0) ;;
  let acc := _n c + prev in
  for_range lower upper (fun i _ =>
    p <- load_word (pref_sum c) i ;;
    store_word (pref_sum c) i (p + acc)) tt.

(** [sched1] and [sched2] are the orders in which the iterations of the two
    [omp for] loops happen to run; the barrier after the first loop and the
    [omp single] block separate the three steps. *)
Definition prefix_sum_parallel (sched1 sched2 : list nat) (c : Coordinates)
    (num_tiles prefix_sum_tile_size prefix_sum_num_tiles : nat) : M unit :=
  local_prefix_sum <-
    for_each sched1
      (prefix_sum_chunk c num_tiles prefix_sum_tile_size prefix_sum_num_tiles)
      (local_array prefix_sum_num_tiles) ;;
  local_prefix_sum <- prefix_sum_totals prefix_sum_num_tiles local_prefix_sum ;;
  for_each sched2
    (prefix_sum_add_back c num_tiles prefix_sum_tile_size prefix_sum_num_tiles
       local_prefix_sum) tt.

(** The [_DEBUG] block that follows the parallel branch. *)
Definition prefix_sum_cross_check (c : Coordinates) (num_tiles : nat)
    : M unit :=
  x <- load_word (local_new_nnzs c) 0 ;;
  seq_offsets <- local_set (local_array num_tiles) 0 (_n c + x) ;;
  seq_offsets <-
    for_range 1 num_tiles (fun i seq_offsets =>
      p <- local_get seq_offsets (i - 1) ;;
      x <- load_word (local_new_nnzs c) i ;;
      local_set seq_offsets i (p + x)) seq_offsets ;;
  for_range 0 num_tiles (fun i _ =>
    assertM (a <- local_get seq_offsets i ;;
             p <- load_word (pref_sum c) i ;;
             ret (a =? p))) tt.

(** [void prefixSumComputation()]. *)
Definition prefixSumComputation (sched1 sched2 : list nat) (c : Coordinates)
    : M Coordinates :=
  let num_tiles := getNumTiles (analytic_model c) in
  let size_of_data := 2 * Pos.to_nat (sizeof_StackType cfg) in
  let am := AnalyticModel_new cfg size_of_data num_tiles 1 in
  let prefix_sum_tile_size := getTileSize am in
  let prefix_sum_num_tiles := getNumTiles am in
  (if num_tiles <? prefix_sum_tile_size then
     prefix_sum_sequential c num_tiles
   else
     prefix_sum_parallel sched1 sched2 c num_tiles prefix_sum_tile_size
       prefix_sum_num_tiles ;;
     if _DEBUG cfg then prefix_sum_cross_check c num_tiles else ret tt) ;;
  last <- index_sub num_tiles 1 ;;
  v <- load_word (pref_sum c) last ;;
  ret (with_n c v).

(** [void joinSubset( lower_bound, upper_bound )]. *)
Definition joinSubset (c : Coordinates) (lower_bound upper_bound : nat)
    : M unit :=
  if _cap c =? 0 then ret tt
  else
    tile_id <- div_ lower_bound (getTileSize (analytic_model c)) ;;
    lb <- vector_at (local_buffer c) tile_id ;;
    let local_nnzs := lb in
    let local_stack := ptr_add lb 1 in
    local_stack_start <- load_word local_nnzs 0 ;;
    new_nnzs <- load_word (local_new_nnzs c) tile_id ;;
    let local_stack_end := local_stack_start + new_nnzs in
    assert_ (local_stack_start <=? local_stack_end) ;;
    offset <- load_word (pref_sum c) tile_id ;;
    let pos := usub offset new_nnzs in
    for_range local_stack_start local_stack_end (fun k pos =>
      local_index <- load_word local_stack k ;;
      let global_index := local_index + lower_bound in
      assert_ (lower_bound <=? global_index) ;;
      assert_ (global_index <? upper_bound) ;;
      assertM (load_flag (_assigned c) global_index) ;;
      assert_ (pos <? _cap c) ;;
      store_word (_stack c) pos global_index ;;
      ret (pos + 1)) pos ;;
    store_word (local_new_nnzs c) tile_id 0.

End Operations.

(** ** The representation invariant *)

(** [compactedStack[0..count)]. *)
Definition stack_prefix (c : Coordinates) (m : Memory) : list nat :=
  match _stack c with
  | Some s => take (_n c) (drop s (words m))
  | None => []
  end.

(** [presence[i]]. *)
Definition flag_at (c : Coordinates) (m : Memory) (i : nat) : bool :=
  match _assigned c with
  | Some a =>
      match flags m !! (a + i) with
      | Some b => b
      | None => false
      end
  | None => false
  end.

(** The structure is bound to [capacity] flags and [capacity] stack words that
    exist, or to nothing at all when the capacity is zero. *)
Definition bound_in (c : Coordinates) (m : Memory) : Prop :=
  match _assigned c, _stack c with
  | Some a, Some s =>
      a + _cap c <= length (flags m) /\ s + _cap c <= length (words m)
  | None, None => _cap c = 0
  | _, _ => False
  end.

(** I1 of the data model. *)
Definition set_equivalence (c : Coordinates) (m : Memory) : Prop :=
  bound_in c m /\
  _n c <= _cap c /\
  NoDup (stack_prefix c m) /\
  forall i, i ∈ stack_prefix c m <-> i < _cap c /\ flag_at c m i = true.

(** ** Sequences of sequential calls *)

Inductive call : Type :=
| Assign (i : nat)
| Clear.

Definition call_in_range (cap : nat) (k : call) : Prop :=
  match k with
  | Assign i => i < cap
  | Clear => True
  end.

Section Drivers.

Variable cfg : Config.

Definition run_call (c : Coordinates) (k : call) : M Coordinates :=
  match k with
  | Assign i => r <- assign cfg c i ;; ret (snd r)
  | Clear => clear cfg c
  end.

Fixpoint run_calls (ks : list call) (c : Coordinates) : M Coordinates :=
  match ks with
  | [] => ret c
  | k :: rest => c' <- run_call c k ;; run_calls rest c'
  end.

(** All of [order] inserted one after the other. *)
Fixpoint assign_each (order : list nat) (c : Coordinates) : M Coordinates :=
  match order with
  | [] => ret c
  | i :: rest => r <- assign cfg c i ;; assign_each rest (snd r)
  end.

End Drivers.

(** ** Conditions on the configuration *)

Section Conditions.

Variable cfg : Config.

(** The ranges [localRange] hands to the threads of the parallel
    initialisation in [set] stay within [0, dim) and together cover it. *)
Definition init_ranges_cover (dim : nat) : bool :=
  let T := omp_num_threads cfg in
  let range t := localRange cfg 0 dim (CACHE_LINE_SIZE cfg) t T in
  forallb (fun t => snd (range t) <=? dim) (seq 0 T) &&
  forallb (fun i =>
    existsb (fun t => (fst (range t) <=? i) && (i <? snd (range t))) (seq 0 T))
    (seq 0 dim).

(** The chunks [localRange] cuts [0, num_tiles) into for the parallel prefix
    sum are non-empty, adjacent, and reach from [0] to [num_tiles]. *)
Definition chunks_partition (num_tiles tile_size chunks : nat) : bool :=
  let chunk id := localRange cfg 0 num_tiles tile_size id chunks in
  (0 <? chunks) &&
  (fst (chunk 0) =? 0) &&
  (snd (chunk (chunks - 1)) =? num_tiles) &&
  forallb (fun id =>
    (fst (chunk id) <? snd (chunk id)) &&
    (negb (id + 1 <? chunks) || (snd (chunk id) =? fst (chunk (id + 1)))))
    (seq 0 chunks).

End Conditions.

(** ** A concrete configuration

    One instance of the configuration, on which the statements below are
    evaluated: a debug build, four-byte stack words, two threads, a range
    splitter that deals out whole blocks, and an analytic model with tiles of
    two elements. *)

Definition blockRange (start end_ block_size t T : nat) : nat * nat :=
  let blocks :=
    (end_ - start) / block_size
    + (if 0 <? (end_ - start) mod block_size then 1 else 0) in
  let blocks_per_thread := blocks / T + (if 0 <? blocks mod T then 1 else 0) in
  let local_start := start + t * blocks_per_thread * block_size in
  let local_end := local_start + blocks_per_thread * block_size in
  let local_end := if end_ <? local_end then end_ else local_end in
  let local_start := if local_end <? local_start then local_end else local_start in
  (local_start, local_end).

Definition pair_model (size n vectors : nat) : AnalyticModel :=
  mkAnalyticModel 2 2 ((n + 1) / 2).

Definition debug_config : Config :=
  mkConfig false true 4%positive (fun n => 4 * n) (fun n => n) 4 8 2
    blockRange pair_model (mkAnalyticModel 0 0 0)
    (fun a b => 2 ^ 32 - (b - a)).

(** The same under [NDEBUG], with an analytic model whose tiles are so large
    that the prefix sum runs sequentially. *)
Definition release_config : Config :=
  mkConfig true false 4%positive (fun n => 4 * n) (fun n => n) 4 8 2
    blockRange (fun _ n _ => mkAnalyticModel 1 (n + 1) 1)
    (mkAnalyticModel 0 0 0)
    (fun a b => 2 ^ 32 - (b - a)).

(** A dense structure of capacity three whose stack was filled in the order
    2, 1, 0. *)
Definition reversed_dense : Coordinates :=
  mkCoordinates (Some 0) (Some 0) (Some 3) 3 3 0 [] None None
    (mkAnalyticModel 0 0 0).

Definition reversed_dense_memory : Memory :=
  mkMemory [true; true; true] [2; 1; 0].

Definition Coordinates_default_debug : Coordinates :=
  Coordinates_default debug_config.

(** Caller-supplied memory with stale contents: every flag is set. *)
Definition stale_memory : Memory :=
  mkMemory [true; true; true; true; true] [7; 7; 7; 7; 7; 7; 7; 7].

(** The word index [set] derives from the byte address [buf_raw] for the
    stack (the alignment step of [set], on its own). *)
Definition aligned_stack (cfg : Config) (buf_raw : nat) : nat :=
  let size := Pos.to_nat (sizeof_StackType cfg) in
  let md := buf_raw mod size in
  (if negb (md =? 0) then buf_raw + (size - md) else buf_raw) / size.

(** A dense structure of capacity 100 that is a view on words 1..100 of its
    block, so that the word before its stack exists. *)
Definition dense_hundred : Coordinates :=
  mkCoordinates (Some 0) (Some 1) (Some 101) 100 100 0 [] None None
    (mkAnalyticModel 0 0 0).

Definition dense_hundred_memory : Memory :=
  mkMemory (replicate 100 true) (0 :: rev (seq 0 100)).

(** ** The invariant, decided *)

Fixpoint memb (x : nat) (l : list nat) : bool :=
  match l with
  | [] => false
  | y :: rest => (x =? y) || memb x rest
  end.

Fixpoint nodupb (l : list nat) : bool :=
  match l with
  | [] => true
  | x :: rest => negb (memb x rest) && nodupb rest
  end.

Definition bound_inb (c : Coordinates) (m : Memory) : bool :=
  match _assigned c, _stack c with
  | Some a, Some s =>
      (a + _cap c <=? length (flags m)) && (s + _cap c <=? length (words m))
  | None, None => _cap c =? 0
  | _, _ => false
  end.

Definition set_equivalenceb (c : Coordinates) (m : Memory) : bool :=
  bound_inb c m &&
  (_n c <=? _cap c) &&
  nodupb (stack_prefix c m) &&
  forallb (fun x => (x <? _cap c) && flag_at c m x) (stack_prefix c m) &&
  forallb (fun i => negb (flag_at c m i) || memb i (stack_prefix c m))
    (seq 0 (_cap c)).

(** A structure of capacity three that holds index 1. *)
Definition sparse_three : Coordinates :=
  mkCoordinates (Some 0) (Some 0) (Some 3) 1 3 0 [] None None
    (mkAnalyticModel 0 0 0).

Definition sparse_three_memory : Memory :=
  mkMemory [false; true; false] [1; 9; 9].

(** ** The scratch buffer of the tile mechanism *)

(** [local_buffer[ tile_id ]], the tile's segment: its first word counts the
    indices the tile held at [asyncSubsetInit], the local stack follows. *)
Definition tile_segment (c : Coordinates) (tile_id : nat) : ptr :=
  match local_buffer c !! tile_id with
  | Some p => p
  | None => None
  end.

Definition word_at (p : ptr) (i : nat) (m : Memory) : option nat :=
  match p with
  | Some b => words m !! (b + i)
  | None => None
  end.

(** [*local_nnzs] of a tile. *)
Definition local_count (c : Coordinates) (m : Memory) (tile_id : nat)
    : option nat :=
  word_at (tile_segment c tile_id) 0 m.

(** [local_stack[ k ]] of a tile. *)
Definition local_entry (c : Coordinates) (m : Memory) (tile_id k : nat)
    : option nat :=
  word_at (tile_segment c tile_id) (1 + k) m.

(** [local_new_nnzs[ tile_id ]]. *)
Definition new_count (c : Coordinates) (m : Memory) (tile_id : nat)
    : option nat :=
  word_at (local_new_nnzs c) tile_id m.

(** [pref_sum[ tile_id ]]. *)
Definition prefix_at (c : Coordinates) (m : Memory) (tile_id : nat)
    : option nat :=
  word_at (pref_sum c) tile_id m.

(** [_stack[ k ]]. *)
Definition stack_at (c : Coordinates) (m : Memory) (k : nat) : option nat :=
  word_at (_stack c) k m.

(** The scratch buffer starts behind the global stack and has room for what
    [localCoordinatesInit] lays out in it: a segment of [tile_size + 1] words
    per tile, then a counter per tile, then a prefix-sum slot per tile. *)
Definition scratch_fits (c : Coordinates) (m : Memory) : Prop :=
  match _stack c, _buffer c with
  | Some s, Some b =>
      s + _cap c <= b /\
      b + getNumTiles (analytic_model c) * (getTileSize (analytic_model c) + 3)
        <= length (words m)
  | _, _ => False
  end.

(** The tile fields of [c] are the ones [localCoordinatesInit] installs. *)
Definition installed (c : Coordinates) : Prop :=
  let tile_size := getTileSize (analytic_model c) in
  let num_tiles := getNumTiles (analytic_model c) in
  local_buffer c
  = map (fun tile_id => ptr_add (_buffer c) (tile_id * (tile_size + 1)))
      (seq 0 num_tiles) /\
  local_new_nnzs c = ptr_add (_buffer c) (num_tiles * (tile_size + 1)) /\
  pref_sum c = ptr_add (_buffer c) (num_tiles * (tile_size + 2)).

(** A structure of capacity zero with nothing bound, and one bound to
    zero-length ranges of existing blocks and laid out for one tile. *)
Definition unbound : Coordinates :=
  mkCoordinates None None None 0 0 0 [] None None (mkAnalyticModel 0 0 0).

Definition empty_memory : Memory := mkMemory [] [].

Definition zero_capacity_tiled : Coordinates :=
  mkCoordinates (Some 0) (Some 0) (Some 0) 0 0 0 [Some 0] (Some 2) (Some 3)
    (mkAnalyticModel 1 1 1).

Definition zero_capacity_memory : Memory := mkMemory [] [5; 5; 7; 5].

(** The scenario of section 8: capacity 8, bound at the start of both blocks,
    four tiles of two elements.  The scratch buffer starts at word 8: the
    segments of the tiles at words 8, 11, 14 and 17, the counters at word 20,
    the prefix sums at word 24. *)
Definition four_tiles : AnalyticModel := mkAnalyticModel 2 2 4.

Definition scenario_bound : Coordinates :=
  mkCoordinates (Some 0) (Some 0) (Some 8) 0 8 32 [] None None
    (mkAnalyticModel 0 0 0).

Definition scenario : Coordinates :=
  mkCoordinates (Some 0) (Some 0) (Some 8) 0 8 32
    [Some 8; Some 11; Some 14; Some 17] (Some 20) (Some 24) four_tiles.

Definition scenario_memory : Memory :=
  mkMemory (replicate 8 false) (replicate 28 9).

Definition scenario_insertions : list (list nat) := [[1]; [3]; []; [6; 7]].

(** The view of tile [2, 4) after it inserted index 3 into an empty tile, and
    the memory at that point. *)
Definition commit_view : Coordinates :=
  mkCoordinates (Some 2) (Some 12) (Some 14) 1 2 0 [] None None
    (mkAnalyticModel 0 0 0).

Definition commit_memory : Memory :=
  mkMemory [false; false; false; true; false; false; false; false]
    (replicate 11 9 ++ [0; 1] ++ replicate 15 9).

(** ** What the two scans of [asyncSubsetInit] collect *)

(** The offsets the range scan pushes, in the order it pushes them. *)
Definition offsets_by_range (c : Coordinates) (m : Memory)
    (lower_bound upper_bound : nat) : list nat :=
  (fun i => i - lower_bound)
  <$> filter (fun i => flag_at c m i = true)
        (seq lower_bound (upper_bound - lower_bound)).

(** The offsets the stack scan pushes, in the order it pushes them. *)
Definition offsets_by_stack (c : Coordinates) (m : Memory)
    (lower_bound upper_bound : nat) : list nat :=
  (fun k => k - lower_bound)
  <$> filter (fun k => lower_bound <= k < upper_bound) (stack_prefix c m).

(** The segment at word [b] has [count] in its first word and [entries] at the
    start of the local stack behind it. *)
Definition segment_holds (w : list nat) (b count : nat) (entries : list nat)
    : Prop :=
  w !! b = Some count /\
  forall k x, entries !! k = Some x -> w !! (b + 1 + k) = Some x.

(** Where [localCoordinatesInit] puts things in a scratch buffer that starts
    at word [b]: the segment of a tile, the counters, the prefix sums. *)
Definition segment_of (c : Coordinates) (b tile_id : nat) : nat :=
  b + tile_id * (getTileSize (analytic_model c) + 1).

Definition counters_of (c : Coordinates) (b : nat) : nat :=
  b + getNumTiles (analytic_model c) * (getTileSize (analytic_model c) + 1).

Definition sums_of (c : Coordinates) (b : nat) : nat :=
  b + getNumTiles (analytic_model c) * (getTileSize (analytic_model c) + 2).

(** The blocks are large enough for a structure whose flags start at [a] and
    whose scratch buffer starts at [b]. *)
Definition fits (c : Coordinates) (a b : nat) (m : Memory) : Prop :=
  a + _cap c <= length (flags m) /\
  b + getNumTiles (analytic_model c) * (getTileSize (analytic_model c) + 3)
    <= length (words m).

(** The local stack of a tile, as far as its count says. *)
Definition local_stack (c : Coordinates) (m : Memory) (tile_id : nat)
    : list nat :=
  match tile_segment c tile_id with
  | Some sg =>
      match words m !! sg with
      | Some k => take k (drop (sg + 1) (words m))
      | None => []
      end
  | None => []
  end.

(** The scenario after index 3 was inserted sequentially. *)
Definition scenario_three : Coordinates :=
  mkCoordinates (Some 0) (Some 0) (Some 8) 1 8 32
    [Some 8; Some 11; Some 14; Some 17] (Some 20) (Some 24) four_tiles.

Definition scenario_three_bound : Coordinates :=
  mkCoordinates (Some 0) (Some 0) (Some 8) 1 8 32 [] None None
    (mkAnalyticModel 0 0 0).

Definition scenario_three_memory : Memory :=
  mkMemory [false; false; false; true; false; false; false; false]
    (3 :: replicate 27 9).

(** ** Prefix sums *)

(** The sequential recurrence, in the words of the specification (P4 and
    section 4.3, step 6): [pref_sum[0] = oldCount + counts[0]] and
    [pref_sum[i] = pref_sum[i-1] + counts[i]]. *)
Fixpoint running_sums (oldCount : nat) (counts : list nat) : list nat :=
  match counts with
  | [] => []
  | x :: rest => (oldCount + x) :: running_sums (oldCount + x) rest
  end.

(** [counts[lo] + ... + counts[hi - 1]]. *)
Definition range_sum (counts : list nat) (lo hi : nat) : nat :=
  sum_list (take (hi - lo) (drop lo counts)).

(** The counters of new nonzeroes hold [counts]. *)
Definition counts_at (nn : nat) (counts : list nat) (m : Memory) : Prop :=
  take (length counts) (drop nn (words m)) = counts.

(** [m'] differs from [m] at most in the [len] prefix-sum slots at [ps]. *)
Definition sums_frame (ps len : nat) (m m' : Memory) : Prop :=
  flags m' = flags m /\
  length (words m') = length (words m) /\
  forall j, ~ ps <= j < ps + len -> words m' !! j = words m !! j.

(** The analytic model [prefixSumComputation] builds for its own loop over
    [num_tiles] counters. *)
Definition prefix_sum_model (cfg : Config) (num_tiles : nat) : AnalyticModel :=
  AnalyticModel_new cfg (2 * Pos.to_nat (sizeof_StackType cfg)) num_tiles 1.

(** The scenario at the prefix sum: the counters hold 1, 1, 0 and 2. *)
Definition scenario_counts : list nat := [1; 1; 0; 2].

Definition scenario_counted_memory : Memory :=
  mkMemory (replicate 8 false) (replicate 20 9 ++ scenario_counts ++ replicate 4 9).

(** ** The episode *)

(** The tile [tile_id] of the tiling installed in [c]. *)
Definition tile_lower (c : Coordinates) (tile_id : nat) : nat :=
  tile_id * getTileSize (analytic_model c).

Definition tile_upper (c : Coordinates) (tile_id : nat) : nat :=
  Nat.min ((tile_id + 1) * getTileSize (analytic_model c)) (_cap c).

Definition tile_width (c : Coordinates) (tile_id : nat) : nat :=
  tile_upper c tile_id - tile_lower c tile_id.

(** The tiles of the installed tiling are non-empty and cover [0, capacity):
    the last tile starts below the capacity and ends at or beyond it. *)
Definition tiles_partition (c : Coordinates) : Prop :=
  0 < getTileSize (analytic_model c) /\
  (getNumTiles (analytic_model c) - 1) * getTileSize (analytic_model c) < _cap c /\
  _cap c <= getNumTiles (analytic_model c) * getTileSize (analytic_model c).

(** Every tile inserts indices of its own range only. *)
Definition insertions_in_tiles (c : Coordinates) (ins : list (list nat)) : Prop :=
  length ins = getNumTiles (analytic_model c) /\
  forall t i, i ∈ nth t ins [] -> tile_lower c t <= i < tile_upper c t.

(** The indices of [ins] that are not yet present, each once. *)
Definition fresh (c : Coordinates) (m : Memory) (ins : list nat) : list nat :=
  remove_dups (filter (fun i => flag_at c m i = false) ins).

Section Episode.

Variable cfg : Config.

(** Modelled from the spec: the work of one thread on one tile in the local
    phase of section 4.3 (steps 3 and 4), which the execution engine, outside
    these sources, drives: obtain the view, insert the tile's indices through
    it, commit the view. *)
Definition tile_worker (c : Coordinates) (ins : list nat) (tile_id : nat)
    : M unit :=
  let lower_bound := tile_lower c tile_id in
  let upper_bound := tile_upper c tile_id in
  view <- asyncSubset cfg c lower_bound upper_bound ;;
  view <- assign_each cfg ((fun i => i - lower_bound) <$> ins) view ;;
  asyncJoinSubset cfg c view lower_bound upper_bound.

(** Modelled from the spec: one episode of the four-phase protocol of section
    4.3 as the execution engine, outside these sources, runs it.  Each phase
    visits the tiles in the order given for it ([order1], [order2],
    [order3]); [sched1] and [sched2] are the orders of the chunks inside the
    prefix sum. *)
Definition episode (order1 order2 order3 sched1 sched2 : list nat)
    (ins : list (list nat)) (c : Coordinates) : M Coordinates :=
  for_each order1 (fun t _ =>
    asyncSubsetInit cfg c (tile_lower c t) (tile_upper c t)) tt ;;
  for_each order2 (fun t _ => tile_worker c (nth t ins []) t) tt ;;
  c' <- prefixSumComputation cfg sched1 sched2 c ;;
  for_each order3 (fun t _ =>
    joinSubset cfg c' (tile_lower c' t) (tile_upper c' t)) tt ;;
  ret c'.

End Episode.

(** ** The state of a tile during an episode *)

(** The entries the tile found at [asyncSubsetInit], and the ones its worker
    pushed after them. *)
Definition tile_old (c : Coordinates) (b : nat) (m : Memory) (t : nat)
    : list nat :=
  match words m !! segment_of c b t with
  | Some pre => take pre (drop (segment_of c b t + 1) (words m))
  | None => []
  end.

Definition tile_new (c : Coordinates) (b : nat) (m : Memory) (t : nat)
    : list nat :=
  match words m !! segment_of c b t, words m !! (counters_of c b + t) with
  | Some pre, Some new =>
      take new (drop (segment_of c b t + 1 + pre) (words m))
  | _, _ => []
  end.

(** After [asyncSubsetInit]: the local stack holds the offsets of the tile's
    indices that were present in [m0], the counter is zero, the flags of the
    tile are those of [m0]. *)
Definition tile_ready (c : Coordinates) (b : nat) (m0 m : Memory) (t : nat)
    : Prop :=
  words m !! segment_of c b t = Some (length (tile_old c b m t)) /\
  NoDup (tile_old c b m t) /\
  (forall j, j ∈ tile_old c b m t <->
     j < tile_width c t /\ flag_at c m0 (tile_lower c t + j) = true) /\
  words m !! (counters_of c b + t) = Some 0 /\
  (forall j, j < tile_width c t ->
     flag_at c m (tile_lower c t + j) = flag_at c m0 (tile_lower c t + j)).

(** After the worker: the local stack is the old entries followed by the new
    ones, together the offsets of what is present in the tile now; the counter
    counts the new ones; the flags of the tile are those of [m0] and the
    insertions. *)
Definition tile_done (c : Coordinates) (b : nat) (ins : list nat)
    (m0 m : Memory) (t : nat) : Prop :=
  words m !! segment_of c b t = Some (length (tile_old c b m t)) /\
  words m !! (counters_of c b + t) = Some (length (tile_new c b m t)) /\
  NoDup (tile_old c b m t ++ tile_new c b m t) /\
  (forall j, j ∈ tile_old c b m t <->
     j < tile_width c t /\ flag_at c m0 (tile_lower c t + j) = true) /\
  (forall j, j ∈ tile_old c b m t ++ tile_new c b m t <->
     j < tile_width c t /\ flag_at c m (tile_lower c t + j) = true) /\
  (forall j, j < tile_width c t ->
     flag_at c m (tile_lower c t + j)
     = flag_at c m0 (tile_lower c t + j) || memb (tile_lower c t + j) ins).

(** [m'] agrees with [m] on what belongs to tile [t]: its segment, its
    counter, and the flags of its range ([a] is where the flags start). *)
Definition tile_same (c : Coordinates) (a b : nat) (m m' : Memory) (t : nat)
    : Prop :=
  (forall k, k <= getTileSize (analytic_model c) ->
     words m' !! (segment_of c b t + k) = words m !! (segment_of c b t + k)) /\
  words m' !! (counters_of c b + t) = words m !! (counters_of c b + t) /\
  (forall j, j < tile_width c t ->
     flags m' !! (a + (tile_lower c t + j)) = flags m !! (a + (tile_lower c t + j))).

(** The counters of new nonzeroes, tile by tile, and the new global indices of
    the first [k] tiles in the order [joinSubset] lays them out. *)
Definition tile_counts (c : Coordinates) (b : nat) (m : Memory) : list nat :=
  (fun t => length (tile_new c b m t))
  <$> seq 0 (getNumTiles (analytic_model c)).

Definition joined (c : Coordinates) (b : nat) (m : Memory) (k : nat)
    : list nat :=
  seq 0 k ≫= (fun t => (fun j => j + tile_lower c t) <$> tile_new c b m t).

(** The counters the tiles end with: for every tile, how many of its insertions
    were not present in [m]. *)
Definition fresh_counts (c : Coordinates) (m : Memory) (ins : list (list nat))
    : list nat :=
  (fun t => length (fresh c m (nth t ins [])))
  <$> seq 0 (getNumTiles (analytic_model c)).

(** The count an episode ends with: the old count and the fresh insertions of
    all tiles. *)
Definition final_count (c : Coordinates) (m : Memory) (ins : list (list nat))
    : nat :=
  _n c + sum_list (fresh_counts c m ins).

(** ** The queries and the represented set *)

(** The indices of [0, capacity) whose flag is set, in increasing order, and
    those whose flag is not. *)
Definition flagged (c : Coordinates) (m : Memory) : list nat :=
  filter (fun i => flag_at c m i = true) (seq 0 (_cap c)).

Definition unflagged (c : Coordinates) (m : Memory) : list nat :=
  filter (fun i => flag_at c m i = false) (seq 0 (_cap c)).

(** What [index] runs through as [k] goes from zero to the count: the stack,
    or the identity when the structure is dense. *)
Definition enumeration (c : Coordinates) (m : Memory) : list nat :=
  if isDense c then seq 0 (_n c) else stack_prefix c m.

(** ** Sizing the blocks *)

(** The static sizing functions.  [sizeof( ArrayType )], the size of a
    [bool], is fixed by the compiler and enters as a parameter. *)
Definition arraySize (sizeof_ArrayType : positive) (dim : nat) : nat :=
  if dim =? 0 then 0 else (dim + 1) * Pos.to_nat sizeof_ArrayType.

Definition stackSize (cfg : Config) (dim : nat) : nat :=
  if dim =? 0 then 0 else (dim + 1) * Pos.to_nat (sizeof_StackType cfg).

Definition prefixbufSize (cfg : Config) : nat :=
  let P := 1 in
  (P + 1) * Pos.to_nat (sizeof_StackType cfg).

Definition parbufSize (cfg : Config) (n : nat) : nat :=
  vectorBufferSize cfg n * Pos.to_nat (sizeof_StackType cfg).

Definition bufferSize (cfg : Config) (dim : nat) : nat :=
  let ret := stackSize cfg dim in
  let ret := ret + parbufSize cfg dim in
  let ret := ret + prefixbufSize cfg in
  ret.

(** ** Views *)

(** The view [asyncSubset] hands out for a tile when the tile holds [n]
    entries: its flags are the parent's flags from the tile's lower bound on,
    its stack is the tile's local stack, and it has no tile fields of its
    own. *)
Definition tile_view (cfg : Config) (c : Coordinates) (tile_id n : nat)
    : Coordinates :=
  mkCoordinates (ptr_add (_assigned c) (tile_lower c tile_id))
    (ptr_add (tile_segment c tile_id) 1)
    (ptr_add (tile_segment c tile_id) (1 + tile_width c tile_id))
    n (tile_width c tile_id) 0 [] None None (AnalyticModel_default cfg).

(** How a tile operation ends on a structure without a tile layout: with the
    division by the tile size when that is zero, else at [local_buffer]. *)
Definition unprepared_fault (c : Coordinates) : fault :=
  if getTileSize (analytic_model c) =? 0 then DivisionByZero else MemoryFault.

(** ** The order of the stack *)

(** The stack after the indices of [order] were inserted one after the other
    into a structure whose stack was [present]: every index that is not yet
    there goes to the end. *)
Fixpoint insertion_order (present order : list nat) : list nat :=
  match order with
  | [] => present
  | i :: rest =>
      insertion_order (if memb i present then present else present ++ [i]) rest
  end.

(** The scenario when tile [2, 4) has committed its insertion of index 3 and
    the prefix sum has assigned it position 0 of the global stack. *)
Definition join_memory : Memory :=
  mkMemory [false; false; false; true; false; false; false; false]
    (replicate 11 9 ++ [0; 1] ++ replicate 8 9 ++ [1] ++ replicate 3 9
     ++ [1] ++ replicate 2 9).

(** * The row generators of ndim_matrix_builders.hpp

    The header that follows the coordinates in the same file: generators of
    the rows and columns of a matrix over an n-dimensional grid.  Rows and
    coordinates are [std::size_t]; their width is a parameter [size_bits], and
    the wrap-around of every addition, subtraction and multiplication is
    written out.  A [std::array] is a list of its length; an index beyond it,
    and a division or remainder by zero, are undefined behaviour, recorded as
    such. *)

Inductive argument_error : Type :=
| sizes_must_be_positive
| halo_must_be_positive
| halo_beyond_sizes
| finer_not_multiple (dimension : nat).

Inductive raised : Type :=
| invalid_argument (what : argument_error)
| division_by_zero
| index_out_of_range.

Definition G (A : Type) : Type := (raised + A)%type.

Definition gret {A : Type} (a : A) : G A := inr a.

Definition throw {A : Type} (e : raised) : G A := inl e.

Definition gbind {A B : Type} (c : G A) (k : A -> G B) : G B :=
  match c with
  | inl e => inl e
  | inr a => k a
  end.

Notation "x <~ c ;; k" := (gbind c (fun x => k))
  (at level 100, c at next level, right associativity).

Definition array_at (l : list N) (i : nat) : G N :=
  match l !! i with
  | Some x => gret x
  | None => throw index_out_of_range
  end.

Definition array_set (l : list N) (i : nat) (v : N) : G (list N) :=
  if i <? length l then gret (<[i := v]> l) else throw index_out_of_range.

Record row_generator : Type := mkRowGenerator {
  physical_sizes : list N;
  row_coords : list N
}.

Section SizeT.

Variable size_bits : N.

Definition size_wrap (x : N) : N := (x mod 2 ^ size_bits)%N.

Definition size_add (a b : N) : N := size_wrap (a + b).

Definition size_mul (a b : N) : N := size_wrap (a * b).

Definition size_sub (a b : N) : N :=
  size_wrap (a + 2 ^ size_bits - size_wrap b).

Definition size_div (a b : N) : G N :=
  if (b =? 0)%N then throw division_by_zero else gret (a / b)%N.

Definition size_mod (a b : N) : G N :=
  if (b =? 0)%N then throw division_by_zero else gret (a mod b)%N.

(** The first loop of [row_to_coords]:
    [for( i = 0; i < row_coords.size() - 1; i++ ) s *= physical_sizes[ i ]],
    from index [i] on for [count] rounds. *)
Fixpoint row_to_coords_scale (sizes : list N) (i count : nat) (s : N) : G N :=
  match count with
  | 0 => gret s
  | S k =>
      x <~ array_at sizes i ;;
      row_to_coords_scale sizes (S i) k (size_mul s x)
  end.

(** Its second loop, [for( i = row_coords.size() - 1; i > 0; i-- )]. *)
Fixpoint row_to_coords_split (sizes : list N) (i : nat) (coords : list N)
    (rowcol s : N) : G (list N * N) :=
  match i with
  | 0 => gret (coords, rowcol)
  | S i' =>
      q <~ size_div rowcol s ;;
      coords <~ array_set coords i q ;;
      let rowcol := size_sub rowcol (size_mul q s) in
      d <~ array_at sizes i ;;
      s <~ size_div s d ;;
      row_to_coords_split sizes i' coords rowcol s
  end.

(** [void row_to_coords( rowcol )]. *)
Definition row_to_coords (g : row_generator) (rowcol : N) : G row_generator :=
  let size := length (row_coords g) in
  s <~ row_to_coords_scale (physical_sizes g) 0 (size - 1) 1%N ;;
  r <~ row_to_coords_split (physical_sizes g) (size - 1) (row_coords g)
         rowcol s ;;
  d <~ array_at (physical_sizes g) 0 ;;
  x <~ size_mod (snd r) d ;;
  coords <~ array_set (fst r) 0 x ;;
  gret (mkRowGenerator (physical_sizes g) coords).

(** The loop of [coords_to_rowcol], from index [i] on for [count] rounds. *)
Fixpoint coords_to_rowcol_loop (sizes a : list N) (i count : nat)
    (row s : N) : G N :=
  match count with
  | 0 => gret row
  | S k =>
      x <~ array_at a i ;;
      let row := size_add row (size_mul s x) in
      d <~ array_at sizes i ;;
      coords_to_rowcol_loop sizes a (S i) k row (size_mul s d)
  end.

(** [row_coordinate_type coords_to_rowcol( a ) const]. *)
Definition coords_to_rowcol (g : row_generator) (a : list N) : G N :=
  coords_to_rowcol_loop (physical_sizes g) a 0 (length a) 0%N 1%N.

(** The [do ... while( rewind && i < row_coords.size() - 1 )] of
    [increment_row], entered at index [i]; [remaining] is
    [row_coords.size() - 1 - ( i + 1 )], so that the loop goes on exactly when
    [rewind] holds and [remaining] is not zero. *)
Fixpoint increment_row_loop (sizes : list N) (remaining i : nat)
    (coords : list N) : G (list N * bool) :=
  coord <~ array_at coords i ;;
  d <~ array_at sizes i ;;
  new_coord <~ size_mod (size_add coord 1) d ;;
  let rewind := (new_coord <? coord)%N in
  coords <~ array_set coords i new_coord ;;
  match remaining with
  | 0 => gret (coords, rewind)
  | S r =>
      if rewind then increment_row_loop sizes r (S i) coords
      else gret (coords, rewind)
  end.

(** [void increment_row()]. *)
Definition increment_row (g : row_generator) : G row_generator :=
  let size := length (row_coords g) in
  r <~ increment_row_loop (physical_sizes g) (size - 1 - 1) 0 (row_coords g) ;;
  if snd r then
    back <~ array_at (fst r) (size - 1) ;;
    coords <~ array_set (fst r) (size - 1) (size_add back 1) ;;
    gret (mkRowGenerator (physical_sizes g) coords)
  else gret (mkRowGenerator (physical_sizes g) (fst r)).

(** The check of the constructor: [for( const auto i : _sizes )]. *)
Fixpoint check_sizes (sizes : list N) : G unit :=
  match sizes with
  | [] => gret tt
  | i :: rest =>
      if (i =? 0)%N then throw (invalid_argument sizes_must_be_positive)
      else check_sizes rest
  end.

(** [row_generator( _sizes, first_row )]; [uninitialized] is what the
    coordinates hold before [row_to_coords] overwrites them. *)
Definition row_generator_new (sizes : list N) (first_row : N)
    (uninitialized : list N) : G row_generator :=
  gbind (check_sizes sizes) (fun _ =>
    row_to_coords (mkRowGenerator sizes uninitialized) first_row).

End SizeT.

(** ** Rows and coordinates *)

Definition size_prod (l : list N) : N := foldr N.mul 1%N l.

(** The number of rows one step along dimension [i] skips: the product of the
    sizes of the dimensions before it. *)
Definition stride (sizes : list N) (i : nat) : N := size_prod (take i sizes).

(** The row of the point whose first [k] coordinates are those of [a] and
    whose other coordinates are zero. *)
Fixpoint row_value (sizes a : list N) (k : nat) : N :=
  match k with
  | 0 => 0%N
  | S j => (row_value sizes a j + nth j a 0%N * stride sizes j)%N
  end.

(** What [row_to_coords] needs of the sizes: it derives the divisor for
    dimension [i - 1] from the one for dimension [i] by dividing by the size
    of dimension [i], and that must give the stride of dimension [i - 1].  It
    does when all sizes are equal, and says nothing when there are at most two
    dimensions. *)
Definition strides_recoverable (sizes : list N) : bool :=
  forallb (fun i =>
    (stride sizes i / nth i sizes 1 =? stride sizes (i - 1))%N)
    (seq 2 (length sizes - 2)).

(** All coordinates but the last are within their dimension. *)
Definition coords_in_range (sizes a : list N) : Prop :=
  forall j d x, S j < length a ->
    sizes !! j = Some d -> a !! j = Some x -> (x < d)%N.

(** What [increment_row] needs of the sizes: it takes a coordinate to have
    wrapped around when the new value is below the old one, which a dimension
    of size one never shows. *)
Definition dimensions_wrap (sizes : list N) : Prop :=
  forall j d, S j < length sizes -> sizes !! j = Some d -> (2 <= d)%N.

(** ** The coarsening generator *)

(** [coarsener_generator_iterator< DIMS, T >]: a [row_generator] over the
    coarser sizes, the finer sizes, the steps between them, and the current
    triple of row, column and value. *)
Record coarsener_generator_iterator (T : Type) : Type := mkCoarsener {
  coarsener_base : row_generator;
  finer_sizes : list N;
  steps : list N;
  coarsener_current_values : N * N * T
}.

Arguments mkCoarsener {T} _ _ _ _.
Arguments coarsener_base {T} _.
Arguments finer_sizes {T} _.
Arguments steps {T} _.
Arguments coarsener_current_values {T} _.

Section Coarsener.

Variable size_bits : N.
Variable T : Type.

(** [static_cast< nonzero_value_type >( 1 )]. *)
Variable one : T.

(** The loop of [coords_to_finer_col] over the fields it reads. *)
Fixpoint coords_to_finer_col_loop (sizes step coords : list N)
    (i count : nat) (row s : N) : G N :=
  match count with
  | 0 => gret row
  | S k =>
      st <~ array_at step i ;;
      let s := size_mul size_bits s st in
      x <~ array_at coords i ;;
      let row := size_add size_bits row (size_mul size_bits s x) in
      d <~ array_at sizes i ;;
      coords_to_finer_col_loop sizes step coords (S i) k row
        (size_mul size_bits s d)
  end.

(** [column_coordinate_type coords_to_finer_col() const]. *)
Definition coords_to_finer_col (g : row_generator) (step : list N) : G N :=
  coords_to_finer_col_loop (physical_sizes g) step (row_coords g) 0
    (length (row_coords g)) 0%N 1%N.

(** The loop of the constructor that derives and checks the steps. *)
Fixpoint coarsener_steps (coarser finer : list N) (i count : nat)
    (step_array : list N) : G (list N) :=
  match count with
  | 0 => gret step_array
  | S k =>
      f <~ array_at finer i ;;
      c <~ array_at coarser i ;;
      step <~ size_div f c ;;
      bad <~ (if (step =? 0)%N then gret true
              else q <~ size_div f step ;; gret (negb (q =? c)%N)) ;;
      if bad then throw (invalid_argument (finer_not_multiple i))
      else
        step_array <~ array_set step_array i step ;;
        coarsener_steps coarser finer (S i) k step_array
  end.

(** [coarsener_generator_iterator( _coarser_sizes, _finer_sizes,
    _current_row )]. *)
Definition coarsener_new (coarser finer : list N) (current_row : N)
    (uninitialized : list N) : G (coarsener_generator_iterator T) :=
  g <~ row_generator_new size_bits coarser current_row uninitialized ;;
  step_array <~ coarsener_steps coarser finer 0 (length coarser)
                  (replicate (length coarser) 0%N) ;;
  col <~ coords_to_finer_col g step_array ;;
  gret (mkCoarsener g finer step_array (current_row, col, one)).

(** [operator++()]. *)
Definition coarsener_next (c : coarsener_generator_iterator T)
    : G (coarsener_generator_iterator T) :=
  g <~ increment_row size_bits (coarsener_base c) ;;
  row <~ coords_to_rowcol size_bits g (row_coords g) ;;
  col <~ coords_to_finer_col g (steps c) ;;
  gret (mkCoarsener g (finer_sizes c) (steps c) (row, col, one)).

Definition coarsener_i (c : coarsener_generator_iterator T) : N :=
  fst (fst (coarsener_current_values c)).

Definition coarsener_j (c : coarsener_generator_iterator T) : N :=
  snd (fst (coarsener_current_values c)).

End Coarsener.

(** The point of the finer grid a point of the coarser grid is projected to:
    every coordinate scaled by the step of its dimension. *)
Definition finer_point (size_bits : N) (step coords : list N) : list N :=
  zip_with (size_mul size_bits) step coords.

(** ** The matrix generator *)

(** [matrix_generator_iterator< DIMS, T >]: a [row_generator] with the halo,
    the two values, the coordinates of the current column, the largest value
    each of them may take, and the current triple of row, column and value. *)
Record matrix_generator_iterator (T : Type) : Type := mkMatrixGenerator {
  matrix_base : row_generator;
  halo : N;
  diagonal_value : T;
  non_diagonal_value : T;
  col_coords : list N;
  column_max_values : list N;
  matrix_current_values : N * N * T
}.

Arguments mkMatrixGenerator {T} _ _ _ _ _ _ _.
Arguments matrix_base {T} _.
Arguments halo {T} _.
Arguments diagonal_value {T} _.
Arguments non_diagonal_value {T} _.
Arguments col_coords {T} _.
Arguments column_max_values {T} _.
Arguments matrix_current_values {T} _.

Section MatrixGenerator.

Variable size_bits : N.
Variable T : Type.

Definition with_matrix_base (m : matrix_generator_iterator T)
    (g : row_generator) : matrix_generator_iterator T :=
  mkMatrixGenerator g (halo m) (diagonal_value m) (non_diagonal_value m)
    (col_coords m) (column_max_values m) (matrix_current_values m).

Definition with_col_coords (m : matrix_generator_iterator T)
    (cols : list N) : matrix_generator_iterator T :=
  mkMatrixGenerator (matrix_base m) (halo m) (diagonal_value m)
    (non_diagonal_value m) cols (column_max_values m)
    (matrix_current_values m).

Definition with_column_max_values (m : matrix_generator_iterator T)
    (maxes : list N) : matrix_generator_iterator T :=
  mkMatrixGenerator (matrix_base m) (halo m) (diagonal_value m)
    (non_diagonal_value m) (col_coords m) maxes (matrix_current_values m).

Definition with_current_values (m : matrix_generator_iterator T)
    (values : N * N * T) : matrix_generator_iterator T :=
  mkMatrixGenerator (matrix_base m) (halo m) (diagonal_value m)
    (non_diagonal_value m) (col_coords m) (column_max_values m) values.

(** [i()]. *)
Definition matrix_i (m : matrix_generator_iterator T) : N :=
  fst (fst (matrix_current_values m)).

(** [j()]. *)
Definition matrix_j (m : matrix_generator_iterator T) : N :=
  snd (fst (matrix_current_values m)).

(** [v()]. *)
Definition matrix_v (m : matrix_generator_iterator T) : T :=
  if (matrix_j m =? matrix_i m)%N then diagonal_value m
  else non_diagonal_value m.

(** [current_values.first.first = row]. *)
Definition set_current_row (m : matrix_generator_iterator T) (row : N)
    : matrix_generator_iterator T :=
  with_current_values m (row, matrix_j m, snd (matrix_current_values m)).

(** [current_values.first.second = col]. *)
Definition set_current_column (m : matrix_generator_iterator T) (col : N)
    : matrix_generator_iterator T :=
  with_current_values m (matrix_i m, col, snd (matrix_current_values m)).

(** [current_values.second = v()]. *)
Definition set_current_value (m : matrix_generator_iterator T)
    : matrix_generator_iterator T :=
  with_current_values m (matrix_i m, matrix_j m, matrix_v m).

(** The loop of [update_column_max_values], from index [i] on for [count]
    rounds. *)
Fixpoint update_column_max_values_loop (sizes coords : list N) (_halo : N)
    (i count : nat) (maxes : list N) : G (list N) :=
  match count with
  | 0 => gret maxes
  | S k =>
      d <~ array_at sizes i ;;
      x <~ array_at coords i ;;
      maxes <~ array_set maxes i
                 (N.min (size_sub size_bits d 1) (size_add size_bits x _halo)) ;;
      update_column_max_values_loop sizes coords _halo (S i) k maxes
  end.

(** [void update_column_max_values()]. *)
Definition update_column_max_values (m : matrix_generator_iterator T)
    : G (matrix_generator_iterator T) :=
  maxes <~ update_column_max_values_loop (physical_sizes (matrix_base m))
             (row_coords (matrix_base m)) (halo m) 0
             (length (column_max_values m)) (column_max_values m) ;;
  gret (with_column_max_values m maxes).

(** [row_coords[ dim ] <= halo ? 0 : ( row_coords[ dim ] - halo )]. *)
Definition first_column_coord (_halo x : N) : N :=
  if (x <=? _halo)%N then 0%N else size_sub size_bits x _halo.

(** [void reset_column_coords( dim )], over the fields it reads and the
    column coordinates it writes. *)
Definition reset_column_coords (coords : list N) (_halo : N)
    (cols : list N) (dim : nat) : G (list N) :=
  x <~ array_at coords dim ;;
  array_set cols dim (first_column_coord _halo x).

(** The loop of [reset_all_columns]. *)
Fixpoint reset_all_columns_loop (coords : list N) (_halo : N)
    (i count : nat) (cols : list N) : G (list N) :=
  match count with
  | 0 => gret cols
  | S k =>
      cols <~ reset_column_coords coords _halo cols i ;;
      reset_all_columns_loop coords _halo (S i) k cols
  end.

(** [void reset_all_columns()]. *)
Definition reset_all_columns (m : matrix_generator_iterator T)
    : G (matrix_generator_iterator T) :=
  cols <~ reset_all_columns_loop (row_coords (matrix_base m)) (halo m) 0
            (length (col_coords m)) (col_coords m) ;;
  gret (with_col_coords m cols).

(** The [do ... while( rewind && i < col_coords.size() )] of
    [increment_column], entered at index [i]; [remaining] is
    [col_coords.size() - ( i + 1 )], so that the loop goes on exactly when
    [rewind] holds and [remaining] is not zero. *)
Fixpoint increment_column_loop (coords maxes : list N) (_halo : N)
    (remaining i : nat) (cols : list N) : G (list N * bool) :=
  col <~ array_at cols i ;;
  max_value <~ array_at maxes i ;;
  let rewind := (col =? max_value)%N in
  cols <~ (if rewind then reset_column_coords coords _halo cols i
           else array_set cols i (size_add size_bits col 1)) ;;
  match remaining with
  | 0 => gret (cols, rewind)
  | S r =>
      if rewind then increment_column_loop coords maxes _halo r (S i) cols
      else gret (cols, rewind)
  end.

(** [bool increment_column()]. *)
Definition increment_column (m : matrix_generator_iterator T)
    : G (matrix_generator_iterator T * bool) :=
  r <~ increment_column_loop (row_coords (matrix_base m))
         (column_max_values m) (halo m) (length (col_coords m) - 1) 0
         (col_coords m) ;;
  gret (with_col_coords m (fst r), snd r).

(** The second check of the constructor: [for( const auto i : sizes )]. *)
Fixpoint check_halo (sizes : list N) (_halo : N) : G unit :=
  match sizes with
  | [] => gret tt
  | i :: rest =>
      if (i <? size_add size_bits (size_mul size_bits 2 _halo) 1)%N
      then throw (invalid_argument halo_beyond_sizes)
      else check_halo rest _halo
  end.

(** [matrix_generator_iterator( sizes, row, _halo, diag, non_diag )];
    [uninitialized] is what the object holds before the constructor has
    written its members. *)
Definition matrix_generator_new (sizes : list N) (row _halo : N)
    (diag non_diag : T) (uninitialized : matrix_generator_iterator T)
    : G (matrix_generator_iterator T) :=
  g <~ row_generator_new size_bits sizes row
         (row_coords (matrix_base uninitialized)) ;;
  let m := mkMatrixGenerator g _halo diag non_diag
             (col_coords uninitialized) (column_max_values uninitialized)
             (matrix_current_values uninitialized) in
  if (_halo <=? 0)%N then throw (invalid_argument halo_must_be_positive)
  else
    gbind (check_halo sizes _halo) (fun _ =>
      let m := set_current_row m row in
      m <~ update_column_max_values m ;;
      m <~ reset_all_columns m ;;
      col <~ coords_to_rowcol size_bits (matrix_base m) (col_coords m) ;;
      let m := set_current_column m col in
      gret (set_current_value m)).

(** [operator++()]. *)
Definition matrix_next (m : matrix_generator_iterator T)
    : G (matrix_generator_iterator T) :=
  r <~ increment_column m ;;
  let m := fst r in
  m <~ (if snd r then
          g <~ increment_row size_bits (matrix_base m) ;;
          let m := with_matrix_base m g in
          m <~ reset_all_columns m ;;
          row <~ coords_to_rowcol size_bits (matrix_base m)
                   (row_coords (matrix_base m)) ;;
          let m := set_current_row m row in
          update_column_max_values m
        else gret m) ;;
  col <~ coords_to_rowcol size_bits (matrix_base m) (col_coords m) ;;
  let m := set_current_column m col in
  gret (set_current_value m).

End MatrixGenerator.

(** ** The window of columns around a row *)

(** A value that [std::size_t] holds. *)
Definition representable (size_bits : N) (l : list N) : Prop :=
  Forall (fun x => (x < 2 ^ size_bits)%N) l.

(** The first column coordinate of every dimension, as
    [reset_column_coords] computes it. *)
Definition first_columns (size_bits _halo : N) (coords : list N) : list N :=
  map (first_column_coord size_bits _halo) coords.

(** The column coordinates lie between the first ones and the largest
    ones. *)
Definition in_window (lows highs cols : list N) : Prop :=
  forall j lo hi x,
    lows !! j = Some lo -> highs !! j = Some hi -> cols !! j = Some x ->
    (lo <= x <= hi)%N.

(** How many values each column coordinate takes. *)
Definition window_widths (lows highs : list N) : list N :=
  zip_with (fun lo hi => (hi - lo + 1)%N) lows highs.

(** The position of a column among those of its row: the coordinates, taken
    from the first ones, read as the digits of a number whose bases are the
    widths. *)
Definition window_rank (lows highs cols : list N) : N :=
  row_value (window_widths lows highs) (zip_with N.sub cols lows)
    (length cols).

(** The window of radius [_halo] around a coordinate [x] of a dimension of
    size [d], cut at the borders. *)
Definition window_low (_halo x : N) : N := (x - _halo)%N.

Definition window_high (_halo d x : N) : N := N.min (d - 1) (x + _halo).

(** ** The state of a matrix generator *)

(** The first column of the row the generator is on. *)
Definition matrix_lows (size_bits : N) {T : Type}
    (m : matrix_generator_iterator T) : list N :=
  first_columns size_bits (halo m) (row_coords (matrix_base m)).

(** What [increment_column] relies on: arrays of one length, which is not
    zero; sizes that [std::size_t] holds; largest column coordinates within
    the sizes; and column coordinates within the window of the row. *)
Definition columns_ready (size_bits : N) {T : Type}
    (m : matrix_generator_iterator T) : Prop :=
  1 <= length (col_coords m) /\
  length (col_coords m) = length (physical_sizes (matrix_base m)) /\
  length (row_coords (matrix_base m))
  = length (physical_sizes (matrix_base m)) /\
  length (column_max_values m) = length (physical_sizes (matrix_base m)) /\
  representable size_bits (physical_sizes (matrix_base m)) /\
  (forall j hi d,
     column_max_values m !! j = Some hi ->
     physical_sizes (matrix_base m) !! j = Some d -> (hi < d)%N) /\
  in_window (matrix_lows size_bits m) (column_max_values m) (col_coords m).

(** The position of the current column among the columns of its row. *)
Definition column_rank (size_bits : N) {T : Type}
    (m : matrix_generator_iterator T) : N :=
  window_rank (matrix_lows size_bits m) (column_max_values m) (col_coords m).

(** The column the column coordinates stand for. *)
Definition column_value {T : Type} (m : matrix_generator_iterator T) : N :=
  row_value (physical_sizes (matrix_base m)) (col_coords m)
    (length (col_coords m)).

(** How many columns the row of the generator has. *)
Definition columns_of_row (size_bits : N) {T : Type}
    (m : matrix_generator_iterator T) : N :=
  size_prod (window_widths (matrix_lows size_bits m) (column_max_values m)).

(** The largest column coordinate of every dimension, as
    [update_column_max_values] computes it. *)
Definition last_columns (size_bits _halo : N) (sizes coords : list N)
    : list N :=
  zip_with (fun d x =>
              N.min (size_sub size_bits d 1) (size_add size_bits x _halo))
    sizes coords.

(** Every coordinate is within its dimension. *)
Definition coords_inside (sizes a : list N) : Prop :=
  forall j d x, sizes !! j = Some d -> a !! j = Some x -> (x < d)%N.

(** ** Generators to run *)

(** The coarsening generator of a grid of 4 x 3 x 2 points into one of
    8 x 6 x 4, on row 11. *)
Definition coarsener_example : coarsener_generator_iterator nat :=
  mkCoarsener (mkRowGenerator [4; 3; 2]%N [3; 2; 0]%N) [8; 6; 4]%N
    [2; 2; 2]%N (11%N, 38%N, 1).

(** A matrix generator over a grid of 4 x 4 points with a halo of 1, on row 5
    and on the first column of its window. *)
Definition window_example : matrix_generator_iterator nat :=
  mkMatrixGenerator (mkRowGenerator [4; 4]%N [1; 1]%N) 1%N 2 1
    [0; 0]%N [2; 2]%N (5%N, 0%N, 1).

(** The same generator on the last column of the window. *)
Definition window_end_example : matrix_generator_iterator nat :=
  mkMatrixGenerator (mkRowGenerator [4; 4]%N [1; 1]%N) 1%N 2 1
    [2; 2]%N [2; 2]%N (5%N, 10%N, 1).

(** The memory of a matrix generator before its constructor has run. *)
Definition unbuilt_example : matrix_generator_iterator nat :=
  mkMatrixGenerator (mkRowGenerator [] [9; 9]%N) 0%N 0 0
    [8; 8]%N [7; 7]%N (5%N, 5%N, 3).

(** [count] applications of [operator++] in a row, as a loop over the
    generator makes them. *)
Fixpoint matrix_advance (size_bits : N) (T : Type) (count : nat)
    (m : matrix_generator_iterator T) : G (matrix_generator_iterator T) :=
  match count with
  | 0 => gret m
  | S k =>
      m <~ matrix_next size_bits T m ;;
      matrix_advance size_bits T k m
  end.

(** Every coordinate of the row is at least the halo away from both borders
    of its dimension. *)
Definition interior (_halo : N) (sizes coords : list N) : Prop :=
  forall j d x, sizes !! j = Some d -> coords !! j = Some x ->
    (_halo <= x /\ x + _halo < d)%N.

(** * The prefix sum in machine words

    [prefixSumComputation] once more, with the widths of its integer types
    written out.  Above, its sums are natural numbers, which is what the code
    computes as long as every sum fits the types that hold it.  Here
    [pref_sum] and [local_new_nnzs] point to words of
    [config::VectorIndexType], an unsigned type of [sizeof( StackType )]
    bytes of eight bits, and [_n], [acc], [local_prefix_sum] and
    [seq_offsets] are [size_t], of [size_bits] bits.  A sum is formed in the
    type of its operands, the wider one when they differ, and an assignment
    converts it to the type it assigns to: each reduces the value modulo a
    power of two. *)

Definition index_bits (cfg : Config) : N := (8 * Npos (sizeof_StackType cfg))%N.

(** The value [v] as an unsigned type of [bits] bits holds it. *)
Definition wrap_to (bits : N) (v : nat) : nat :=
  N.to_nat (N.of_nat v mod 2 ^ bits)%N.

Section IndexWords.

Variable cfg : Config.
Variable size_bits : N.

(** Conversion to [config::VectorIndexType]. *)
Definition to_index (v : nat) : nat := wrap_to (index_bits cfg) v.

(** Conversion to [size_t]. *)
Definition to_size_t (v : nat) : nat := wrap_to size_bits v.

(** The type in which a [size_t] and a [config::VectorIndexType] operand
    meet: the wider of the two. *)
Definition in_common (v : nat) : nat :=
  wrap_to (N.max size_bits (index_bits cfg)) v.

(** The sequential branch of [prefixSumComputation]. *)
Definition prefix_sum_sequential_words (c : Coordinates) (num_tiles : nat)
    : M unit :=
  x <- load_word (local_new_nnzs c) 0 ;;
  store_word (pref_sum c) 0 (to_index (in_common (_n c + x))) ;;
  for_range 1 num_tiles (fun i _ =>
    p <- load_word (pref_sum c) (i - 1) ;;
    x <- load_word (local_new_nnzs c) i ;;
    store_word (pref_sum c) i (to_index (p + x))) tt.

(** The first [omp for] loop of the parallel branch. *)
Definition prefix_sum_chunk_words (c : Coordinates)
    (num_tiles prefix_sum_tile_size prefix_sum_num_tiles : nat)
    (id : nat) (local_prefix_sum : list (option nat))
    : M (list (option nat)) :=
  let '(lower, upper) :=
    localRange cfg 0 num_tiles prefix_sum_tile_size id prefix_sum_num_tiles in
  assert_ cfg (id <=? num_tiles) ;;
  assert_ cfg ((id <? usub cfg prefix_sum_num_tiles 1) || (upper =? num_tiles)) ;;
  assert_ cfg (lower <=? upper) ;;
  assert_ cfg (upper <=? num_tiles) ;;
  x <- load_word (local_new_nnzs c) lower ;;
  store_word (pref_sum c) lower x ;;
  for_range (lower + 1) upper (fun i _ =>
    p <- load_word (pref_sum c) (i - 1) ;;
    x <- load_word (local_new_nnzs c) i ;;
    store_word (pref_sum c) i (to_index (p + x))) tt ;;
  last <- index_sub upper 1 ;;
  v <- load_word (pref_sum c) last ;;
  local_set local_prefix_sum id (to_size_t v).

(** The [omp single] block. *)
Definition prefix_sum_totals_words (prefix_sum_num_tiles : nat)
    (local_prefix_sum : list (option nat)) : M (list (option nat)) :=
  for_range 1 prefix_sum_num_tiles (fun i local_prefix_sum =>
    a <- local_get local_prefix_sum i ;;
    b <- local_get local_prefix_sum (i - 1) ;;
    local_set local_prefix_sum i (to_size_t (a + b))) local_prefix_sum.

(** The second [omp for] loop. *)
Definition prefix_sum_add_back_words (c : Coordinates)
    (num_tiles prefix_sum_tile_size prefix_sum_num_tiles : nat)
    (local_prefix_sum : list (option nat)) (id : nat) (_ : unit) : M unit :=
  let '(lower, upper) :=
    localRange cfg 0 num_tiles prefix_sum_tile_size id prefix_sum_num_tiles in
  prev <- (if 0 <? id then local_get local_prefix_sum (id - 1) else ret 0) ;;
  let acc := to_size_t (_n c + prev) in
  for_range lower upper (fun i _ =>
    p <- load_word (pref_sum c) i ;;
    store_word (pref_sum c) i (to_index (in_common (p + acc)))) tt.

Definition prefix_sum_parallel_words (sched1 sched2 : list nat)
    (c : Coordinates)
    (num_tiles prefix_sum_tile_size prefix_sum_num_tiles : nat) : M unit :=
  local_prefix_sum <-
    for_each sched1
      (prefix_sum_chunk_words c num_tiles prefix_sum_tile_size
         prefix_sum_num_tiles)
      (local_array prefix_sum_num_tiles) ;;
  local_prefix_sum <-
    prefix_sum_totals_words prefix_sum_num_tiles local_prefix_sum ;;
  for_each sched2
    (prefix_sum_add_back_words c num_tiles prefix_sum_tile_size
       prefix_sum_num_tiles local_prefix_sum) tt.

(** The [_DEBUG] block: [seq_offsets] holds [size_t] sums, which the
    assertion compares with the words of [pref_sum]. *)
Definition prefix_sum_cross_check_words (c : Coordinates) (num_tiles : nat)
    : M unit :=
  x <- load_word (local_new_nnzs c) 0 ;;
  seq_offsets <-
    local_set (local_array num_tiles) 0 (to_size_t (in_common (_n c + x))) ;;
  seq_offsets <-
    for_range 1 num_tiles (fun i seq_offsets =>
      p <- local_get seq_offsets (i - 1) ;;
      x <- load_word (local_new_nnzs c) i ;;
      local_set seq_offsets i (to_size_t (in_common (p + x)))) seq_offsets ;;
  for_range 0 num_tiles (fun i _ =>
    assertM cfg (a <- local_get seq_offsets i ;;
                 p <- load_word (pref_sum c) i ;;
                 ret (in_common a =? in_common p))) tt.

(** [void prefixSumComputation()]. *)
Definition prefixSumComputation_words (sched1 sched2 : list nat)
    (c : Coordinates) : M Coordinates :=
  let num_tiles := getNumTiles (analytic_model c) in
  let size_of_data := 2 * Pos.to_nat (sizeof_StackType cfg) in
  let am := AnalyticModel_new cfg size_of_data num_tiles 1 in
  let prefix_sum_tile_size := getTileSize am in
  let prefix_sum_num_tiles := getNumTiles am in
  (if num_tiles <? prefix_sum_tile_size then
     prefix_sum_sequential_words c num_tiles
   else
     prefix_sum_parallel_words sched1 sched2 c num_tiles prefix_sum_tile_size
       prefix_sum_num_tiles ;;
     if _DEBUG cfg then prefix_sum_cross_check_words c num_tiles
     else ret tt) ;;
  last <- index_sub num_tiles 1 ;;
  v <- load_word (pref_sum c) last ;;
  ret (with_n c (to_size_t v)).

End IndexWords.

(** The sum [v] fits an unsigned type of [bits] bits. *)
Definition fits_bits (bits : N) (v : nat) : Prop :=
  (N.of_nat v < 2 ^ bits)%N.

(** ** Counts at the edge of the index type *)

(** The scenario with a count of [2 ^ 32 - 1], the largest a four-byte
    index holds. *)
Definition scenario_full : Coordinates :=
  mkCoordinates (Some 0) (Some 0) (Some 8) (N.to_nat 4294967295) 8 32
    [Some 8; Some 11; Some 14; Some 17] (Some 20) (Some 24) four_tiles.

(** A debug build with one-byte stack words, and the scenario with a count
    of 255, the largest such a word holds. *)
Definition byte_debug_config : Config :=
  mkConfig false true 1%positive (fun n => n) (fun n => n) 4 8 2
    blockRange pair_model (mkAnalyticModel 0 0 0)
    (fun a b => 2 ^ 8 - (b - a)).

Definition scenario_byte_full : Coordinates :=
  mkCoordinates (Some 0) (Some 0) (Some 8) 255 8 32
    [Some 8; Some 11; Some 14; Some 17] (Some 20) (Some 24) four_tiles.

(** The scenario when no tile has inserted anything: every counter is 0. *)
Definition scenario_idle_memory : Memory :=
  mkMemory (replicate 8 false) (replicate 20 9 ++ [0; 0; 0; 0] ++ replicate 4 9).

(** * Proofs *)

(** ** Running computations *)

Lemma bind_ok {A B : Type} (c : M A) (k : A -> M B) m a m' :
  c m = Ok (a, m') -> bind c k m = k a m'.
Proof. intros H. unfold bind. rewrite H. reflexivity. Qed.

Lemma bind_bind {A B C : Type} (c : M A) (k : A -> M B) (k' : B -> M C) m :
  bind (bind c k) k' m = bind c (fun a => bind (k a) k') m.
Proof. unfold bind. destruct (c m) as [[a m'] | f]; reflexivity. Qed.

Lemma bind_fault {A B : Type} (c : M A) (k : A -> M B) m f :
  c m = Fault f -> bind c k m = Fault f.
Proof. intros H. unfold bind. rewrite H. reflexivity. Qed.

(** One step of a computation: reassociate the binds so that the first
    primitive is in front, then run it with the lemma [tac] finds. *)
Ltac mstep tac := rewrite ?bind_bind; erewrite bind_ok by tac.

Section Proofs.

Variable cfg : Config.

Lemma assert_ok (b : bool) m : b = true -> assert_ cfg b m = Ok (tt, m).
Proof. intros ->. unfold assert_. rewrite orb_true_r. reflexivity. Qed.

Lemma load_flag_ok b i v m :
  flags m !! (b + i) = Some v -> load_flag (Some b) i m = Ok (v, m).
Proof. intros H. unfold load_flag. rewrite H. reflexivity. Qed.

Lemma load_word_ok b i v m :
  words m !! (b + i) = Some v -> load_word (Some b) i m = Ok (v, m).
Proof. intros H. unfold load_word. rewrite H. reflexivity. Qed.

Lemma store_flag_ok b i v m :
  b + i < length (flags m) ->
  store_flag (Some b) i v m
  = Ok (tt, mkMemory (<[b + i := v]> (flags m)) (words m)).
Proof.
  intros H. unfold store_flag.
  destruct (Nat.ltb_spec (b + i) (length (flags m))); [reflexivity | lia].
Qed.

Lemma store_word_ok b i v m :
  b + i < length (words m) ->
  store_word (Some b) i v m
  = Ok (tt, mkMemory (flags m) (<[b + i := v]> (words m))).
Proof.
  intros H. unfold store_word.
  destruct (Nat.ltb_spec (b + i) (length (words m))); [reflexivity | lia].
Qed.

Lemma ret_ok {A : Type} (a : A) m : ret a m = Ok (a, m).
Proof. reflexivity. Qed.

Lemma ptr_sub_ok b k : k <= b -> ptr_sub (Some b) k = Some (b - k).
Proof.
  intros H. unfold ptr_sub.
  destruct (Nat.leb_spec k b); [reflexivity | lia].
Qed.

Lemma local_set_ok (l : list (option nat)) i v m :
  i < length l -> local_set l i v m = Ok (<[i := Some v]> l, m).
Proof.
  intros H. unfold local_set.
  destruct (Nat.ltb_spec i (length l)); [reflexivity | lia].
Qed.

Lemma local_get_ok (l : list (option nat)) i v m :
  l !! i = Some (Some v) -> local_get l i m = Ok (v, m).
Proof. intros H. unfold local_get. rewrite H. reflexivity. Qed.

Lemma index_sub_ok a k m : k <= a -> index_sub a k m = Ok (a - k, m).
Proof.
  intros H. unfold index_sub.
  destruct (Nat.leb_spec k a); [reflexivity | lia].
Qed.

Lemma flag_lookup (l : list bool) (k : nat) :
  k < length l -> exists v, l !! k = Some v.
Proof. intros H. apply lookup_lt_is_Some_2 in H. destruct H as [v H]. eauto. Qed.

Lemma word_lookup (l : list nat) (k : nat) :
  k < length l -> exists v, l !! k = Some v.
Proof. intros H. apply lookup_lt_is_Some_2 in H. destruct H as [v H]. eauto. Qed.

(** ** Loops *)

Lemma for_loop_inv {L : Type} (I : nat -> L -> Memory -> Prop)
    (body : nat -> L -> M L) (count : nat) :
  forall start s m,
    I start s m ->
    (forall i s m, start <= i < start + count -> I i s m ->
       exists s' m', body i s m = Ok (s', m') /\ I (S i) s' m') ->
    exists s' m',
      for_loop start count body s m = Ok (s', m') /\ I (start + count) s' m'.
Proof.
  induction count as [| k IH]; intros start s m HI Hbody.
  - exists s, m. rewrite Nat.add_0_r. split; [reflexivity | exact HI].
  - destruct (Hbody start s m ltac:(lia) HI) as (s1 & m1 & Hrun & HI1).
    destruct (IH (S start) s1 m1 HI1) as (s2 & m2 & Hrun2 & HI2).
    { intros i s' m' Hi. apply Hbody. lia. }
    exists s2, m2. split.
    + simpl. erewrite bind_ok by exact Hrun. exact Hrun2.
    + replace (start + S k) with (S start + k) by lia. exact HI2.
Qed.

Lemma for_range_inv {L : Type} (I : nat -> L -> Memory -> Prop)
    (body : nat -> L -> M L) (lo hi : nat) s m :
  lo <= hi ->
  I lo s m ->
  (forall i s m, lo <= i < hi -> I i s m ->
     exists s' m', body i s m = Ok (s', m') /\ I (S i) s' m') ->
  exists s' m', for_range lo hi body s m = Ok (s', m') /\ I hi s' m'.
Proof.
  intros Hle HI Hbody. unfold for_range.
  destruct (for_loop_inv I body (hi - lo) lo s m HI) as (s' & m' & Hrun & HI').
  { intros i s1 m1 Hi. apply Hbody. lia. }
  exists s', m'. split; [exact Hrun |].
  replace hi with (lo + (hi - lo)) by lia. exact HI'.
Qed.

Lemma for_range_empty {L : Type} (body : nat -> L -> M L) (lo hi : nat) s m :
  hi <= lo -> for_range lo hi body s m = Ok (s, m).
Proof.
  intros H. unfold for_range. replace (hi - lo) with 0 by lia. reflexivity.
Qed.

(** The invariant of a work-sharing loop speaks of the iterations already
    run. *)
Lemma for_each_inv {L : Type} (I : list nat -> L -> Memory -> Prop)
    (body : nat -> L -> M L) (sched : list nat) :
  forall ran s m,
    I ran s m ->
    (forall ran' i rest s m, ran ++ sched = ran' ++ i :: rest -> I ran' s m ->
       exists s' m', body i s m = Ok (s', m') /\ I (ran' ++ [i]) s' m') ->
    exists s' m',
      for_each sched body s m = Ok (s', m') /\ I (ran ++ sched) s' m'.
Proof.
  induction sched as [| i rest IH]; intros ran s m HI Hbody.
  - exists s, m. rewrite app_nil_r. split; [reflexivity | exact HI].
  - destruct (Hbody ran i rest s m eq_refl HI) as (s1 & m1 & Hrun & HI1).
    destruct (IH (ran ++ [i]) s1 m1 HI1) as (s2 & m2 & Hrun2 & HI2).
    { intros ran' j rest' s' m' Heq. apply Hbody with (rest := rest').
      rewrite <- Heq, <- app_assoc. reflexivity. }
    exists s2, m2. split.
    + simpl. erewrite bind_ok by exact Hrun. exact Hrun2.
    + rewrite <- app_assoc in HI2. exact HI2.
Qed.

(** Writing one value over a range of flags. *)
Lemma store_flag_range a lo hi v m :
  a + hi <= length (flags m) ->
  exists fl,
    for_range lo hi (fun i _ => store_flag (Some a) i v) tt m
    = Ok (tt, mkMemory fl (words m)) /\
    length fl = length (flags m) /\
    forall j, fl !! j
      = if decide (a + lo <= j < a + hi) then Some v else flags m !! j.
Proof.
  intros Hlen.
  destruct (Nat.le_gt_cases hi lo) as [Hemp | Hlt].
  { exists (flags m). rewrite for_range_empty by exact Hemp.
    destruct m; simpl. split; [reflexivity |]. split; [reflexivity |].
    intros j. case_decide; [lia | reflexivity]. }
  destruct (for_range_inv
    (fun i (_ : unit) m' =>
       words m' = words m /\ length (flags m') = length (flags m) /\
       forall j, flags m' !! j
         = if decide (a + lo <= j < a + i) then Some v else flags m !! j)
    (fun i _ => store_flag (Some a) i v) lo hi tt m) as ([] & m' & Hrun & Hw & Hl & Hj).
  - lia.
  - split; [reflexivity |]. split; [reflexivity |].
    intros j. case_decide; [lia | reflexivity].
  - intros i [] m1 Hi (Hw & Hl & Hj).
    eexists tt, _. split.
    + apply store_flag_ok. lia.
    + simpl. split; [exact Hw |]. split; [rewrite length_insert; exact Hl |].
      intros j. destruct (Nat.eq_dec j (a + i)) as [-> | Hne].
      * rewrite list_lookup_insert_eq by lia. case_decide; [reflexivity | lia].
      * rewrite list_lookup_insert_ne by lia. rewrite Hj.
        repeat case_decide; try reflexivity; lia.
  - exists (flags m'). destruct m' as [fl' w']; simpl in *. subst w'.
    split; [exact Hrun |]. split; [exact Hl | exact Hj].
Qed.

(** ** The compacted stack as a list *)

Lemma take_drop_insert_end (l : list nat) (s n x : nat) :
  s + n < length l ->
  take (n + 1) (drop s (<[s + n := x]> l)) = take n (drop s l) ++ [x].
Proof.
  intros H. apply list_eq. intros k.
  destruct (Nat.lt_ge_cases k n) as [Hk | Hk].
  - rewrite lookup_take_lt by lia. rewrite lookup_drop.
    rewrite list_lookup_insert_ne by lia.
    rewrite lookup_app_l.
    + rewrite lookup_take_lt by lia. rewrite lookup_drop. reflexivity.
    + rewrite length_take, length_drop. lia.
  - destruct (Nat.eq_dec k n) as [-> | Hne].
    + rewrite lookup_take_lt by lia. rewrite lookup_drop.
      rewrite list_lookup_insert_eq by lia.
      rewrite lookup_app_r; rewrite length_take, length_drop.
      * replace (n - n `min` (length l - s)) with 0 by lia. reflexivity.
      * lia.
    + rewrite lookup_take_ge by lia. symmetry. apply lookup_ge_None_2.
      rewrite length_app, length_take, length_drop. simpl. lia.
Qed.

Lemma flag_at_true c m a i :
  _assigned c = Some a ->
  flag_at c m i = true <-> flags m !! (a + i) = Some true.
Proof.
  intros Ha. unfold flag_at. rewrite Ha.
  destruct (flags m !! (a + i)) as [[|]|]; split; congruence.
Qed.

Lemma bound_in_pointers c m :
  bound_in c m -> 0 < _cap c ->
  exists a s, _assigned c = Some a /\ _stack c = Some s /\
    a + _cap c <= length (flags m) /\ s + _cap c <= length (words m).
Proof.
  unfold bound_in. intros H Hc.
  destruct (_assigned c) as [a|], (_stack c) as [s|]; try contradiction.
  - exists a, s. tauto.
  - lia.
Qed.

(** ** assign *)

Lemma assign_present c m i :
  bound_in c m -> i < _cap c ->
  _n c = _cap c \/ flag_at c m i = true ->
  assign cfg c i m = Ok ((true, c), m).
Proof.
  intros Hb Hi Hcase. unfold assign.
  destruct (Nat.eqb_spec (_n c) (_cap c)) as [Heq | Hne]; [reflexivity |].
  destruct Hcase as [? | Hf]; [contradiction |].
  destruct (bound_in_pointers c m Hb ltac:(lia)) as (a & s & Ha & Hs & Hla & Hls).
  apply (flag_at_true c m a i Ha) in Hf.
  rewrite Ha. erewrite bind_ok by (apply load_flag_ok; exact Hf).
  reflexivity.
Qed.

Lemma assign_absent c m i :
  bound_in c m -> _n c <= _cap c -> i < _cap c ->
  _n c <> _cap c -> flag_at c m i = false ->
  exists a s, _assigned c = Some a /\ _stack c = Some s /\
    assign cfg c i m
    = Ok ((false, with_n c (_n c + 1)),
          mkMemory (<[a + i := true]> (flags m))
                   (<[s + _n c := i]> (words m))).
Proof.
  intros Hb Hn Hi Hne Hf.
  destruct (bound_in_pointers c m Hb ltac:(lia)) as (a & s & Ha & Hs & Hla & Hls).
  exists a, s. split; [exact Ha |]. split; [exact Hs |].
  unfold assign.
  destruct (Nat.eqb_spec (_n c) (_cap c)) as [Heq | _]; [contradiction |].
  destruct (flag_lookup (flags m) (a + i) ltac:(lia)) as [v Hv].
  assert (v = false) as ->.
  { unfold flag_at in Hf. rewrite Ha, Hv in Hf. exact Hf. }
  rewrite Ha, Hs.
  erewrite bind_ok by (apply load_flag_ok; exact Hv). simpl.
  erewrite bind_ok by (apply store_flag_ok; lia).
  erewrite bind_ok by (apply assert_ok; apply Nat.leb_le; lia).
  erewrite bind_ok by (apply assert_ok; apply Nat.leb_le; lia).
  erewrite bind_ok by (apply store_word_ok; simpl; lia).
  reflexivity.
Qed.

(** C4: the contract of [assign] on a bound structure, and its idempotence. *)
Theorem assign_contract (c : Coordinates) (m : Memory) (i : nat) :
  bound_in c m -> _n c <= _cap c -> i < _cap c ->
  (_n c = _cap c \/ flag_at c m i = true ->
   assign cfg c i m = Ok ((true, c), m)) /\
  (_n c <> _cap c /\ flag_at c m i = false ->
   exists c' m',
     assign cfg c i m = Ok ((false, c'), m') /\
     _n c' = _n c + 1 /\ _cap c' = _cap c /\
     flag_at c' m' i = true /\
     (forall j, j <> i -> flag_at c' m' j = flag_at c m j) /\
     stack_prefix c' m' = stack_prefix c m ++ [i]) /\
  (forall r c1 m1,
     assign cfg c i m = Ok ((r, c1), m1) ->
     assign cfg c1 i m1 = Ok ((true, c1), m1)).
Proof.
  intros Hb Hn Hi.
  assert (Hpresent := assign_present c m i Hb Hi).
  assert (Habsent := assign_absent c m i Hb Hn Hi).
  split; [exact Hpresent |].
  assert (Hnew : _n c <> _cap c -> flag_at c m i = false ->
    exists c' m',
      assign cfg c i m = Ok ((false, c'), m') /\
      _n c' = _n c + 1 /\ _cap c' = _cap c /\
      flag_at c' m' i = true /\
      (forall j, j <> i -> flag_at c' m' j = flag_at c m j) /\
      stack_prefix c' m' = stack_prefix c m ++ [i] /\
      bound_in c' m').
  { intros Hne Hf.
    destruct (Habsent Hne Hf) as (a & s & Ha & Hs & Hrun).
    destruct (bound_in_pointers c m Hb ltac:(lia)) as (a' & s' & Ha' & Hs' & Hla & Hls).
    assert (a' = a) as -> by congruence. assert (s' = s) as -> by congruence.
    eexists _, _. split; [exact Hrun |].
    split; [reflexivity |]. split; [reflexivity |].
    split; [| split; [| split]].
    - unfold flag_at. simpl. rewrite Ha. simpl.
      rewrite list_lookup_insert_eq by lia. reflexivity.
    - intros j Hj. unfold flag_at. simpl. rewrite Ha. simpl.
      rewrite list_lookup_insert_ne by lia. reflexivity.
    - unfold stack_prefix. simpl. rewrite Hs. simpl.
      apply take_drop_insert_end. lia.
    - unfold bound_in. simpl. rewrite Ha, Hs. simpl.
      rewrite !length_insert. lia. }
  split.
  - intros [Hne Hf]. destruct (Hnew Hne Hf) as (c' & m' & H1 & H2 & H3 & H4 & H5 & H6 & _).
    exists c', m'. tauto.
  - intros r c1 m1 Hrun.
    destruct (Nat.eq_dec (_n c) (_cap c)) as [Heq | Hne].
    { rewrite (Hpresent (or_introl Heq)) in Hrun. inversion Hrun; subst.
      apply Hpresent. left. exact Heq. }
    destruct (bool_dec (flag_at c m i) true) as [Hf | Hf].
    { rewrite (Hpresent (or_intror Hf)) in Hrun. inversion Hrun; subst.
      apply Hpresent. right. exact Hf. }
    apply not_true_is_false in Hf.
    destruct (Hnew Hne Hf) as (c' & m' & H1 & H2 & H3 & H4 & H5 & H6 & H7).
    rewrite H1 in Hrun. inversion Hrun; subst.
    apply assign_present; [exact H7 | lia | right; exact H4].
Qed.

End Proofs.

Lemma assign_contract_witness :
  (_n sparse_three = _cap sparse_three
   \/ flag_at sparse_three sparse_three_memory 2 = true ->
   assign debug_config sparse_three 2 sparse_three_memory
   = Ok ((true, sparse_three), sparse_three_memory)) /\
  (_n sparse_three <> _cap sparse_three
   /\ flag_at sparse_three sparse_three_memory 2 = false ->
   exists c' m',
     assign debug_config sparse_three 2 sparse_three_memory
     = Ok ((false, c'), m') /\
     _n c' = _n sparse_three + 1 /\ _cap c' = _cap sparse_three /\
     flag_at c' m' 2 = true /\
     (forall j, j <> 2 -> flag_at c' m' j = flag_at sparse_three sparse_three_memory j) /\
     stack_prefix c' m' = stack_prefix sparse_three sparse_three_memory ++ [2]) /\
  (forall r c1 m1,
     assign debug_config sparse_three 2 sparse_three_memory = Ok ((r, c1), m1) ->
     assign debug_config c1 2 m1 = Ok ((true, c1), m1)).
Proof.
  apply (assign_contract debug_config sparse_three sparse_three_memory 2).
  - unfold bound_in. simpl. lia.
  - simpl. lia.
  - simpl. lia.
Defined.

(** ** Queries *)

Section Queries.

Variable cfg : Config.

(** C9: once the count equals the capacity, [isDense] holds and [index( k )]
    is [k] for every valid [k], whatever the stack holds. *)
Theorem dense_index_identity (c : Coordinates) (m : Memory) :
  _n c = _cap c ->
  isDense c = true /\
  forall k, k < _n c -> index cfg c k m = Ok (k, m).
Proof.
  intros Hd.
  assert (Hdense : isDense c = true).
  { unfold isDense. apply Nat.eqb_eq. exact Hd. }
  split; [exact Hdense |].
  intros k Hk. unfold index.
  erewrite bind_ok by (apply assert_ok; apply Nat.ltb_lt; exact Hk).
  rewrite Hdense. reflexivity.
Qed.

End Queries.

Lemma dense_index_identity_witness :
  isDense reversed_dense = true /\
  forall k, k < 3 ->
    index debug_config reversed_dense k reversed_dense_memory
    = Ok (k, reversed_dense_memory).
Proof.
  apply (dense_index_identity debug_config reversed_dense reversed_dense_memory).
  reflexivity.
Defined.

(** ** Binding and clearing *)

Section Binding.

Variable cfg : Config.

Lemma init_ranges_cover_bound dim t :
  init_ranges_cover cfg dim = true -> t < omp_num_threads cfg ->
  snd (localRange cfg 0 dim (CACHE_LINE_SIZE cfg) t (omp_num_threads cfg)) <= dim.
Proof.
  unfold init_ranges_cover. intros H Ht.
  apply andb_true_iff in H as [H _].
  rewrite forallb_forall in H.
  apply Nat.leb_le. apply H. apply in_seq. lia.
Qed.

Lemma init_ranges_cover_each dim i :
  init_ranges_cover cfg dim = true -> i < dim ->
  exists t, t < omp_num_threads cfg /\
    fst (localRange cfg 0 dim (CACHE_LINE_SIZE cfg) t (omp_num_threads cfg)) <= i
    /\ i < snd (localRange cfg 0 dim (CACHE_LINE_SIZE cfg) t (omp_num_threads cfg)).
Proof.
  unfold init_ranges_cover. intros H Hi.
  apply andb_true_iff in H as [_ H].
  rewrite forallb_forall in H.
  specialize (H i ltac:(apply in_seq; lia)).
  apply existsb_exists in H as (t & Ht & Hc).
  apply in_seq in Ht. apply andb_true_iff in Hc as [H1 H2].
  apply Nat.leb_le in H1. apply Nat.ltb_lt in H2.
  exists t. repeat split; [lia | exact H1 | exact H2].
Qed.

(** The parallel initialisation of [set]: every thread clears its range. *)
Lemma parallel_init a dim m :
  a + dim <= length (flags m) ->
  init_ranges_cover cfg dim = true ->
  exists fl,
    for_each (seq 0 (omp_num_threads cfg)) (fun t (_ : unit) =>
      let '(start, end_) :=
        localRange cfg 0 dim (CACHE_LINE_SIZE cfg) t (omp_num_threads cfg) in
      for_range start end_ (fun i _ => store_flag (Some a) i false) tt) tt m
    = Ok (tt, mkMemory fl (words m)) /\
    length fl = length (flags m) /\
    (forall i, i < dim -> fl !! (a + i) = Some false) /\
    (forall j, ~ a <= j < a + dim -> fl !! j = flags m !! j).
Proof.
  intros Hlen Hcov.
  set (range t := localRange cfg 0 dim (CACHE_LINE_SIZE cfg) t (omp_num_threads cfg)).
  destruct (for_each_inv
    (fun ran (_ : unit) m' =>
       words m' = words m /\ length (flags m') = length (flags m) /\
       (forall j, ~ a <= j < a + dim -> flags m' !! j = flags m !! j) /\
       (forall i t, t ∈ ran -> fst (range t) <= i < snd (range t) ->
          flags m' !! (a + i) = Some false))
    (fun t (_ : unit) =>
      let '(start, end_) := range t in
      for_range start end_ (fun i _ => store_flag (Some a) i false) tt)
    (seq 0 (omp_num_threads cfg)) [] tt m)
    as ([] & m' & Hrun & Hw & Hl & Hout & Hin).
  - split; [reflexivity |]. split; [reflexivity |]. split; [reflexivity |].
    intros i t Ht. apply elem_of_nil in Ht. contradiction.
  - intros ran' t rest [] m1 Heq (Hw & Hl & Hout & Hin).
    assert (Ht : t < omp_num_threads cfg).
    { assert (Hel : t ∈ seq 0 (omp_num_threads cfg)).
      { simpl in Heq. rewrite Heq. apply elem_of_app. right. apply elem_of_cons. left; reflexivity. }
      apply elem_of_seq in Hel. lia. }
    assert (Hb := init_ranges_cover_bound dim t Hcov Ht). fold (range t) in Hb.
    destruct (range t) as [start end_] eqn:Hr. simpl in Hb.
    destruct (store_flag_range a start end_ false m1 ltac:(lia)) as (fl & Hrun & Hlf & Hj).
    exists tt, (mkMemory fl (words m1)). split; [exact Hrun |]. simpl.
    split; [exact Hw |]. split; [lia |]. split.
    + intros j Hj'. rewrite Hj. case_decide; [lia |]. apply Hout. exact Hj'.
    + intros i t' Ht' Hi. rewrite Hj.
      case_decide; [reflexivity |].
      apply elem_of_app in Ht' as [Hold | Hnew].
      * apply Hin with (t := t'); assumption.
      * apply list_elem_of_singleton in Hnew. subst t'. rewrite Hr in Hi. simpl in Hi. lia.
  - exists (flags m'). destruct m' as [fl w]; simpl in *. subst w.
    split; [exact Hrun |]. split; [exact Hl |]. split; [| exact Hout].
    intros i Hi.
    destruct (init_ranges_cover_each dim i Hcov Hi) as (t & Ht & H1 & H2).
    apply Hin with (t := t); [apply elem_of_seq; lia |].
    fold (range t) in H1, H2. lia.
Qed.

Lemma set_fresh (c0 : Coordinates) (m : Memory) (a b dim : nat)
    (parallel : bool) :
  a + dim <= length (flags m) ->
  (parallel = true -> init_ranges_cover cfg dim = true) ->
  exists fl,
    set cfg c0 (Some a) false (Some b) dim parallel m
    = Ok (with_pointers c0 (Some a) (Some (aligned_stack cfg b))
            (Some (aligned_stack cfg b + dim)) 0 dim
            (vectorBufferSize cfg dim),
          mkMemory fl (words m)) /\
    length fl = length (flags m) /\
    (forall i, i < dim -> fl !! (a + i) = Some false) /\
    (forall j, ~ a <= j < a + dim -> fl !! j = flags m !! j).
Proof.
  intros Hlen Hpar. unfold set, aligned_stack. cbv zeta.
  simpl ptr_add. simpl _assigned.
  destruct (Nat.ltb_spec 0 dim) as [Hpos | Hzero]; simpl.
  - destruct parallel.
    + destruct (parallel_init a dim m Hlen (Hpar eq_refl)) as (fl & Hrun & Hl & Hin & Hout).
      exists fl. split; [| tauto].
      erewrite bind_ok by exact Hrun. reflexivity.
    + destruct (store_flag_range a 0 dim false m Hlen) as (fl & Hrun & Hl & Hj).
      exists fl. split; [erewrite bind_ok by exact Hrun; reflexivity |].
      split; [exact Hl |]. split.
      * intros i Hi. rewrite Hj. case_decide; [reflexivity | lia].
      * intros j Hj'. rewrite Hj. case_decide; [lia | reflexivity].
  - exists (flags m). destruct m as [fl w]; simpl.
    split; [reflexivity |]. split; [reflexivity |].
    split; [intros i Hi; lia | reflexivity].
Qed.

(** C10: [set] on uninitialised flags binds an empty structure with every flag
    of the range written to [false], and the degenerate call leaves nothing
    bound. *)
Theorem set_binds_empty (c0 : Coordinates) (m : Memory) (a b dim : nat)
    (parallel : bool) :
  a + dim <= length (flags m) ->
  (parallel = true -> init_ranges_cover cfg dim = true) ->
  (exists c m',
     set cfg c0 (Some a) false (Some b) dim parallel m = Ok (c, m') /\
     _n c = 0 /\ _cap c = dim /\ _assigned c = Some a /\
     isEmpty c = true /\ stack_prefix c m' = [] /\
     words m' = words m /\
     (forall i, i < dim -> flags m' !! (a + i) = Some false) /\
     (forall i, i < dim -> assigned cfg c i m' = Ok (false, m'))) /\
  (forall arr_initialized par m0,
     exists c,
       set cfg c0 None arr_initialized None 0 par m0 = Ok (c, m0) /\
       _n c = 0 /\ _cap c = 0 /\
       _assigned c = None /\ _stack c = None /\ _buffer c = None).
Proof.
  intros Hlen Hpar. split.
  - destruct (set_fresh c0 m a b dim parallel Hlen Hpar)
      as (fl & Hrun & Hl & Hin & Hout).
    eexists _, _. split; [exact Hrun |]. simpl.
    split; [reflexivity |]. split; [reflexivity |]. split; [reflexivity |].
    split; [reflexivity |]. split; [reflexivity |]. split; [reflexivity |].
    split; [exact Hin |].
    intros i Hi. unfold assigned. simpl.
    erewrite bind_ok by (apply assert_ok; apply Nat.ltb_lt; exact Hi).
    destruct dim as [| d]; [lia |].
    apply load_flag_ok. simpl. apply Hin. exact Hi.
  - intros arr_initialized par m0. eexists. split.
    + unfold set.
      erewrite bind_ok by (apply assert_ok; reflexivity).
      erewrite bind_ok by (apply assert_ok; reflexivity).
      erewrite bind_ok by (apply assert_ok; reflexivity).
      reflexivity.
    + simpl. repeat split; reflexivity.
Qed.

End Binding.

Lemma set_binds_empty_witness :
  (exists c m',
     set debug_config Coordinates_default_debug (Some 1) false (Some 6) 3 true
       stale_memory = Ok (c, m') /\
     _n c = 0 /\ _cap c = 3 /\ _assigned c = Some 1 /\
     isEmpty c = true /\ stack_prefix c m' = [] /\
     words m' = words stale_memory /\
     (forall i, i < 3 -> flags m' !! (1 + i) = Some false) /\
     (forall i, i < 3 -> assigned debug_config c i m' = Ok (false, m'))) /\
  (forall arr_initialized par m0,
     exists c,
       set debug_config Coordinates_default_debug None arr_initialized None 0
         par m0 = Ok (c, m0) /\
       _n c = 0 /\ _cap c = 0 /\
       _assigned c = None /\ _stack c = None /\ _buffer c = None).
Proof.
  apply (set_binds_empty debug_config Coordinates_default_debug stale_memory
           1 6 3 true).
  - simpl. lia.
  - intros _. vm_compute. reflexivity.
Defined.

(** ** clear and the invariant *)

Section Clearing.

Variable cfg : Config.

Lemma stack_prefix_lookup c m s k :
  _stack c = Some s -> k < _n c ->
  stack_prefix c m !! k = words m !! (s + k).
Proof.
  intros Hs Hk. unfold stack_prefix. rewrite Hs.
  rewrite lookup_take_lt by exact Hk. apply lookup_drop.
Qed.

Lemma stack_prefix_length c m s :
  _stack c = Some s -> s + _n c <= length (words m) ->
  length (stack_prefix c m) = _n c.
Proof.
  intros Hs Hl. unfold stack_prefix. rewrite Hs.
  rewrite length_take, length_drop. lia.
Qed.

Lemma flag_at_false_lookup c m a i :
  _assigned c = Some a -> a + i < length (flags m) ->
  flag_at c m i = false -> flags m !! (a + i) = Some false.
Proof.
  intros Ha Hi Hf. unfold flag_at in Hf. rewrite Ha in Hf.
  destruct (flag_lookup (flags m) (a + i) Hi) as [v Hv].
  rewrite Hv in Hf. congruence.
Qed.

(** The sparse branch of [clear]: walk the stack and reset the flags it
    names. *)
Lemma clear_walk a s n cap m :
  (forall k, k < n -> exists x, words m !! (s + k) = Some x /\ x < cap) ->
  a + cap <= length (flags m) ->
  exists fl,
    for_range 0 n (fun k (_ : unit) =>
      x <- load_word (Some s) k ;; store_flag (Some a) x false) tt m
    = Ok (tt, mkMemory fl (words m)) /\
    length fl = length (flags m) /\
    (forall k x, k < n -> words m !! (s + k) = Some x ->
       fl !! (a + x) = Some false) /\
    (forall j, fl !! j = flags m !! j \/ fl !! j = Some false) /\
    (forall j, ~ a <= j < a + cap -> fl !! j = flags m !! j).
Proof.
  intros Hst Hlen.
  destruct (for_range_inv
    (fun i (_ : unit) m' =>
       words m' = words m /\ length (flags m') = length (flags m) /\
       (forall k x, k < i -> words m !! (s + k) = Some x ->
          flags m' !! (a + x) = Some false) /\
       (forall j, flags m' !! j = flags m !! j \/ flags m' !! j = Some false) /\
       (forall j, ~ a <= j < a + cap -> flags m' !! j = flags m !! j))
    (fun k (_ : unit) =>
      x <- load_word (Some s) k ;; store_flag (Some a) x false) 0 n tt m)
    as ([] & m' & Hrun & Hw & Hl & Hin & Hmono & Hout).
  - lia.
  - split; [reflexivity |]. split; [reflexivity |].
    split; [intros k x Hk; lia |]. split; [left; reflexivity | reflexivity].
  - intros i [] m1 Hi (Hw & Hl & Hin & Hmono & Hout).
    destruct (Hst i ltac:(lia)) as (x & Hx & Hxc).
    eexists tt, _. split.
    + erewrite bind_ok by (apply load_word_ok; rewrite Hw; exact Hx).
      apply store_flag_ok. lia.
    + simpl. split; [exact Hw |]. split; [rewrite length_insert; exact Hl |].
      split; [| split].
      * intros k y Hk Hy.
        destruct (Nat.eq_dec (a + y) (a + x)) as [-> | Hne].
        { apply list_lookup_insert_eq. lia. }
        rewrite list_lookup_insert_ne by lia.
        apply Hin with (k := k); [| exact Hy].
        destruct (Nat.eq_dec k i) as [-> | ?]; [| lia].
        rewrite Hx in Hy. inversion Hy; subst. lia.
      * intros j. destruct (Nat.eq_dec j (a + x)) as [-> | Hne].
        { right. apply list_lookup_insert_eq. lia. }
        rewrite list_lookup_insert_ne by lia. apply Hmono.
      * intros j Hj. rewrite list_lookup_insert_ne by lia. apply Hout. exact Hj.
  - exists (flags m'). destruct m' as [fl w]; simpl in *. subst w.
    split; [exact Hrun |]. tauto.
Qed.

Lemma clear_spec c m :
  set_equivalence c m ->
  exists fl,
    clear cfg c m = Ok (with_n c 0, mkMemory fl (words m)) /\
    length fl = length (flags m) /\
    (forall i, i < _cap c -> flag_at c (mkMemory fl (words m)) i = false) /\
    (forall a j, _assigned c = Some a -> ~ a <= j < a + _cap c ->
       fl !! j = flags m !! j).
Proof.
  intros (Hb & Hn & Hnd & Hel). unfold clear.
  destruct (Nat.eq_dec (_cap c) 0) as [Hz | Hpos].
  { (* nothing to clear *)
    assert (Hn0 : _n c = 0) by lia.
    exists (flags m). rewrite Hn0, Hz. simpl. rewrite bind_bind.
    erewrite bind_ok by (apply assert_ok; rewrite andb_false_r; reflexivity).
    destruct m; simpl. split; [reflexivity |]. split; [reflexivity |].
    split; [intros i Hi; lia | reflexivity]. }
  destruct (bound_in_pointers c m Hb ltac:(lia)) as (a & s & Ha & Hs & Hla & Hls).
  destruct (Nat.eqb_spec (_n c) (_cap c)) as [Hdense | Hsparse].
  - rewrite Ha. simpl. rewrite bind_bind.
    erewrite bind_ok by (apply assert_ok; reflexivity).
    destruct (store_flag_range a 0 (_cap c) false m Hla) as (fl & Hrun & Hl & Hj).
    exists fl. erewrite bind_ok by exact Hrun.
    split; [reflexivity |]. split; [exact Hl |]. split.
    + intros i Hi. unfold flag_at. rewrite Ha. simpl. rewrite Hj.
      case_decide; [reflexivity | lia].
    + intros a' j Ha' Hj'. assert (a' = a) as -> by congruence.
      rewrite Hj. case_decide; [lia | reflexivity].
  - assert (Hst : forall k, k < _n c ->
              exists x, words m !! (s + k) = Some x /\ x < _cap c).
    { intros k Hk.
      destruct (word_lookup (words m) (s + k) ltac:(lia)) as [x Hx].
      exists x. split; [exact Hx |].
      apply (Hel x). apply list_elem_of_lookup. exists k.
      rewrite (stack_prefix_lookup c m s k Hs Hk). exact Hx. }
    destruct (clear_walk a s (_n c) (_cap c) m Hst Hla)
      as (fl & Hrun & Hl & Hin & Hmono & Hout).
    exists fl. rewrite Ha, Hs.
    assert (Hwalk : (if _n c <? minLoopSize cfg
              then for_range 0 (_n c) (fun k (_ : unit) =>
                     x <- load_word (Some s) k ;; store_flag (Some a) x false) tt
              else for_range 0 (_n c) (fun k (_ : unit) =>
                     x <- load_word (Some s) k ;; store_flag (Some a) x false) tt) m
            = Ok (tt, mkMemory fl (words m))).
    { destruct (_n c <? minLoopSize cfg); exact Hrun. }
    erewrite bind_ok by exact Hwalk.
    split; [reflexivity |]. split; [exact Hl |]. split.
    + intros i Hi.
      destruct (bool_dec (flag_at c m i) true) as [Hf | Hf].
      * assert (Hin' : i ∈ stack_prefix c m) by (apply Hel; split; assumption).
        apply list_elem_of_lookup in Hin' as (k & Hk).
        assert (Hkn : k < _n c).
        { apply lookup_lt_Some in Hk.
          rewrite (stack_prefix_length c m s Hs) in Hk by lia. exact Hk. }
        rewrite (stack_prefix_lookup c m s k Hs Hkn) in Hk.
        unfold flag_at. rewrite Ha. simpl.
        rewrite (Hin k i Hkn Hk). reflexivity.
      * apply not_true_is_false in Hf.
        apply (flag_at_false_lookup c m a i Ha ltac:(lia)) in Hf.
        unfold flag_at. rewrite Ha. simpl.
        destruct (Hmono (a + i)) as [-> | ->]; [rewrite Hf |]; reflexivity.
    + intros a' j Ha' Hj. assert (a' = a) as -> by congruence.
      apply Hout. exact Hj.
Qed.

Lemma clear_invariant c m :
  set_equivalence c m ->
  exists m',
    clear cfg c m = Ok (with_n c 0, m') /\
    words m' = words m /\
    (forall i, i < _cap c -> flag_at (with_n c 0) m' i = false) /\
    set_equivalence (with_n c 0) m'.
Proof.
  intros Hinv. destruct (clear_spec c m Hinv) as (fl & Hrun & Hl & Hf & _).
  eexists _. split; [exact Hrun |].
  split; [reflexivity |].
  split; [exact Hf |].
  destruct Hinv as (Hb & Hn & _ & _).
  split; [| split; [| split]].
  - unfold bound_in in *. simpl.
    destruct (_assigned c), (_stack c); simpl in *; try tauto. lia.
  - simpl. lia.
  - unfold stack_prefix. simpl. destruct (_stack c); apply NoDup_nil_2.
  - intros i. assert (Hnil : stack_prefix (with_n c 0) (mkMemory fl (words m)) = []).
    { unfold stack_prefix. simpl. destruct (_stack c); reflexivity. }
    rewrite Hnil. split.
    + intros Hi. apply elem_of_nil in Hi. contradiction.
    + intros [Hi Ht]. simpl in Hi.
      assert (Hff := Hf i Hi). unfold flag_at in *. simpl in *. congruence.
Qed.

End Clearing.

Section Checking.

Lemma memb_elem_of x l : memb x l = true <-> x ∈ l.
Proof.
  induction l as [| y rest IH]; simpl.
  - split; [discriminate | intros H; apply elem_of_nil in H; contradiction].
  - rewrite orb_true_iff, IH, elem_of_cons, Nat.eqb_eq. reflexivity.
Qed.

Lemma nodupb_NoDup l : nodupb l = true -> NoDup l.
Proof.
  induction l as [| x rest IH]; simpl; intros H.
  - apply NoDup_nil_2.
  - apply andb_true_iff in H as [Hx Hrest].
    apply NoDup_cons. split; [| apply IH; exact Hrest].
    intros Hin. apply memb_elem_of in Hin. rewrite Hin in Hx. discriminate.
Qed.

Lemma set_equivalence_check c m :
  set_equivalenceb c m = true -> set_equivalence c m.
Proof.
  unfold set_equivalenceb. intros H.
  repeat (apply andb_true_iff in H as [H ?]).
  rename H into Hb, H0 into Hall, H1 into Hstack, H2 into Hnd, H3 into Hn.
  split; [| split; [| split]].
  - unfold bound_inb in Hb. unfold bound_in.
    destruct (_assigned c), (_stack c); try discriminate.
    + apply andb_true_iff in Hb as [H1 H2].
      apply Nat.leb_le in H1. apply Nat.leb_le in H2. tauto.
    + apply Nat.eqb_eq. exact Hb.
  - apply Nat.leb_le. exact Hn.
  - apply nodupb_NoDup. exact Hnd.
  - intros i. rewrite forallb_forall in Hstack, Hall. split.
    + intros Hi. apply list_elem_of_In in Hi. specialize (Hstack i Hi).
      apply andb_true_iff in Hstack as [H1 H2]. apply Nat.ltb_lt in H1. tauto.
    + intros [Hi Hf]. specialize (Hall i ltac:(apply in_seq; lia)).
      rewrite Hf in Hall. simpl in Hall. apply memb_elem_of. exact Hall.
Qed.

End Checking.

Section AssignAll.

Variable cfg : Config.

(** The loop of [local_assignAll]. *)
Lemma fill_identity a s cap m :
  a + cap <= length (flags m) -> s + cap <= length (words m) ->
  exists fl w,
    for_range 0 cap (fun i (_ : unit) =>
      store_flag (Some a) i true ;; store_word (Some s) i i) tt m
    = Ok (tt, mkMemory fl w) /\
    length fl = length (flags m) /\ length w = length (words m) /\
    (forall j, fl !! j
       = if decide (a <= j < a + cap) then Some true else flags m !! j) /\
    (forall j, w !! j
       = if decide (s <= j < s + cap) then Some (j - s) else words m !! j).
Proof.
  intros Hlf Hlw.
  destruct (for_range_inv
    (fun i (_ : unit) m' =>
       length (flags m') = length (flags m) /\
       length (words m') = length (words m) /\
       (forall j, flags m' !! j
          = if decide (a <= j < a + i) then Some true else flags m !! j) /\
       (forall j, words m' !! j
          = if decide (s <= j < s + i) then Some (j - s) else words m !! j))
    (fun i (_ : unit) =>
      store_flag (Some a) i true ;; store_word (Some s) i i) 0 cap tt m)
    as ([] & m' & Hrun & H1 & H2 & H3 & H4).
  - lia.
  - split; [reflexivity |]. split; [reflexivity |].
    split; intros j; case_decide; try reflexivity; lia.
  - intros i [] m1 Hi (H1 & H2 & H3 & H4).
    eexists tt, _. split.
    + erewrite bind_ok by (apply store_flag_ok; lia).
      apply store_word_ok. simpl. lia.
    + simpl. rewrite !length_insert.
      split; [exact H1 |]. split; [exact H2 |]. split; intros j.
      * destruct (Nat.eq_dec j (a + i)) as [-> | Hne].
        { rewrite list_lookup_insert_eq by lia. case_decide; [reflexivity | lia]. }
        rewrite list_lookup_insert_ne by lia. rewrite H3.
        repeat case_decide; try reflexivity; lia.
      * destruct (Nat.eq_dec j (s + i)) as [-> | Hne].
        { rewrite list_lookup_insert_eq by lia.
          case_decide; [f_equal; lia | lia]. }
        rewrite list_lookup_insert_ne by lia. rewrite H4.
        repeat case_decide; try reflexivity; lia.
  - exists (flags m'), (words m'). destruct m'; simpl in *. tauto.
Qed.

Lemma local_assignAll_fills c m s :
  bound_in c m -> _n c < _cap c -> _stack c = Some s -> 1 <= s ->
  exists c' m',
    local_assignAll cfg false c m = Ok (c', m') /\
    _n c' = _cap c /\ _cap c' = _cap c /\
    (forall i, i < _cap c -> flag_at c' m' i = true) /\
    stack_prefix c' m' = seq 0 (_cap c).
Proof.
  intros Hb Hn Hs Hs1.
  destruct (bound_in_pointers c m Hb ltac:(lia)) as (a & s' & Ha & Hs' & Hla & Hls).
  assert (s' = s) as -> by congruence.
  destruct (fill_identity a s (_cap c) m Hla Hls) as (fl & w & Hrun & Hlf & Hlw & Hfl & Hw).
  unfold local_assignAll. simpl.
  destruct (Nat.eqb_spec (_n c) (_cap c)) as [? | _]; [lia |]. simpl.
  rewrite Ha. simpl.
  mstep ltac:(apply assert_ok; rewrite Hs; reflexivity).
  mstep ltac:(apply assert_ok; apply Nat.ltb_lt; exact Hn).
  mstep ltac:(apply assert_ok; reflexivity).
  simpl. rewrite Hs.
  mstep ltac:(exact Hrun).
  mstep ltac:(apply ret_ok).
  cbv zeta. simpl _stack. rewrite Hs, ptr_sub_ok by exact Hs1.
  mstep ltac:(apply store_word_ok; simpl; lia).
  eexists _, _. split; [reflexivity |]. simpl.
  split; [reflexivity |]. split; [reflexivity |]. split.
  - intros i Hi. unfold flag_at. simpl. rewrite Ha. rewrite Hfl.
    case_decide; [reflexivity | lia].
  - unfold stack_prefix. simpl. rewrite Hs.
    apply list_eq. intros k.
    destruct (Nat.lt_ge_cases k (_cap c)) as [Hk | Hk].
    + rewrite lookup_take_lt by exact Hk. rewrite lookup_drop.
      rewrite list_lookup_insert_ne by lia. rewrite Hw.
      case_decide; [| lia]. rewrite lookup_seq_lt by exact Hk. f_equal. lia.
    + rewrite lookup_take_ge by exact Hk. rewrite lookup_seq_ge by exact Hk.
      reflexivity.
Qed.

(** C7: [clear] empties the structure through either of its branches, and a
    cleared structure can be made dense again. *)
Theorem clear_resets (c : Coordinates) (m : Memory) :
  set_equivalence c m ->
  exists c' m',
    clear cfg c m = Ok (c', m') /\
    _n c' = 0 /\ _cap c' = _cap c /\
    (forall i, i < _cap c -> flag_at c' m' i = false) /\
    (forall s, 0 < _cap c -> _stack c = Some s -> 1 <= s ->
       exists c'' m'',
         local_assignAll cfg false c' m' = Ok (c'', m'') /\
         _n c'' = _cap c /\
         (forall i, i < _cap c -> flag_at c'' m'' i = true) /\
         stack_prefix c'' m'' = seq 0 (_cap c)).
Proof.
  intros Hinv.
  destruct (clear_invariant cfg c m Hinv) as (m' & Hrun & Hw & Hf & Hinv').
  exists (with_n c 0), m'. split; [exact Hrun |]. split; [reflexivity |].
  split; [reflexivity |]. split; [exact Hf |].
  intros s Hpos Hs Hs1.
  destruct (local_assignAll_fills (with_n c 0) m' s (proj1 Hinv') Hpos Hs Hs1)
    as (c'' & m'' & Hrun2 & H1 & H2 & H3 & H4).
  exists c'', m''. tauto.
Qed.

End AssignAll.

Lemma clear_resets_witness :
  exists c' m',
    clear debug_config dense_hundred dense_hundred_memory = Ok (c', m') /\
    _n c' = 0 /\ _cap c' = 100 /\
    (forall i, i < 100 -> flag_at c' m' i = false) /\
    (forall s, 0 < 100 -> Some 1 = Some s -> 1 <= s ->
       exists c'' m'',
         local_assignAll debug_config false c' m' = Ok (c'', m'') /\
         _n c'' = 100 /\
         (forall i, i < 100 -> flag_at c'' m'' i = true) /\
         stack_prefix c'' m'' = seq 0 100).
Proof.
  apply (clear_resets debug_config dense_hundred dense_hundred_memory).
  apply set_equivalence_check. vm_compute. reflexivity.
Defined.

(** ** The invariant under sequential calls *)

Section Sequential.

Variable cfg : Config.

Lemma flag_at_with_n c n m i : flag_at (with_n c n) m i = flag_at c m i.
Proof. reflexivity. Qed.

(** [assign] keeps the invariant, and tells what it did to the flags. *)
Lemma assign_invariant c m i :
  set_equivalence c m -> i < _cap c ->
  exists r n' m',
    assign cfg c i m = Ok ((r, with_n c n'), m') /\
    set_equivalence (with_n c n') m' /\
    length (flags m') = length (flags m) /\
    length (words m') = length (words m) /\
    flag_at c m' i = true /\
    (forall j, j <> i -> flag_at c m' j = flag_at c m j).
Proof.
  intros Hinv Hi. destruct Hinv as (Hb & Hn & Hnd & Hel).
  destruct (Nat.eq_dec (_n c) (_cap c)) as [Hd | Hnd'].
  { exists true, (_n c), m.
    replace (with_n c (_n c)) with c by (destruct c; reflexivity).
    split; [apply (assign_present cfg); auto |].
    split; [exact (conj Hb (conj Hn (conj Hnd Hel))) |].
    split; [reflexivity |]. split; [reflexivity |]. split; [| reflexivity].
    (* a dense structure holds every index *)
    destruct (bool_dec (flag_at c m i) true) as [Hf | Hf]; [exact Hf |].
    exfalso.
    assert (Hsub : forall x, x ∈ stack_prefix c m -> x ∈ seq 0 (_cap c)).
    { intros x Hx. apply Hel in Hx. apply elem_of_seq. lia. }
    destruct (bound_in_pointers c m Hb ltac:(lia)) as (a & s & Ha & Hs & Hla & Hls).
    assert (Hlen := stack_prefix_length c m s Hs ltac:(lia)).
    assert (Hperm : stack_prefix c m ≡ₚ seq 0 (_cap c)).
    { apply submseteq_length_Permutation.
      - apply NoDup_submseteq; assumption.
      - rewrite length_seq. lia. }
    assert (Hin : i ∈ stack_prefix c m).
    { rewrite Hperm. apply elem_of_seq. lia. }
    apply Hel in Hin. tauto. }
  destruct (bool_dec (flag_at c m i) true) as [Hf | Hf].
  { exists true, (_n c), m.
    replace (with_n c (_n c)) with c by (destruct c; reflexivity).
    split; [apply (assign_present cfg); auto |].
    split; [exact (conj Hb (conj Hn (conj Hnd Hel))) |].
    split; [reflexivity |]. split; [reflexivity |]. split; [exact Hf | reflexivity]. }
  apply not_true_is_false in Hf.
  destruct (assign_absent cfg c m i Hb Hn Hi Hnd' Hf) as (a & s & Ha & Hs & Hrun).
  destruct (bound_in_pointers c m Hb ltac:(lia)) as (a' & s' & Ha' & Hs' & Hla & Hls).
  assert (a' = a) as -> by congruence. assert (s' = s) as -> by congruence.
  eexists false, (_n c + 1), _. split; [exact Hrun |].
  assert (Hfi : flag_at c (mkMemory (<[a + i := true]> (flags m))
                  (<[s + _n c := i]> (words m))) i = true).
  { unfold flag_at. rewrite Ha. simpl.
    rewrite list_lookup_insert_eq by lia. reflexivity. }
  assert (Hfj : forall j, j <> i ->
            flag_at c (mkMemory (<[a + i := true]> (flags m))
              (<[s + _n c := i]> (words m))) j = flag_at c m j).
  { intros j Hj. unfold flag_at. rewrite Ha. simpl.
    rewrite list_lookup_insert_ne by lia. reflexivity. }
  assert (Hsp : stack_prefix (with_n c (_n c + 1))
                  (mkMemory (<[a + i := true]> (flags m))
                     (<[s + _n c := i]> (words m)))
                = stack_prefix c m ++ [i]).
  { unfold stack_prefix. simpl. rewrite Hs. apply take_drop_insert_end. lia. }
  split; [| simpl; rewrite !length_insert; auto].
  split; [| split; [| split]].
  - unfold bound_in. simpl. rewrite Ha, Hs. rewrite !length_insert. lia.
  - simpl. lia.
  - rewrite Hsp. apply NoDup_app. split; [exact Hnd |]. split.
    + intros x Hx Hxi. apply list_elem_of_singleton in Hxi. subst x.
      apply Hel in Hx. destruct Hx as [_ Hx]. congruence.
    + apply NoDup_singleton.
  - intros j. rewrite Hsp, elem_of_app, list_elem_of_singleton.
    rewrite flag_at_with_n. simpl _cap.
    destruct (Nat.eq_dec j i) as [-> | Hne].
    + rewrite Hfi. split; [auto | intros _; right; reflexivity].
    + rewrite (Hfj j Hne), Hel. split; [intros [H | H]; [exact H | contradiction] | auto].
Qed.

Lemma run_call_invariant c m k :
  set_equivalence c m -> call_in_range (_cap c) k ->
  exists c' m',
    run_call cfg c k m = Ok (c', m') /\ _cap c' = _cap c /\
    set_equivalence c' m'.
Proof.
  intros Hinv Hk. destruct k as [i |]; simpl in *.
  - destruct (assign_invariant c m i Hinv Hk) as (r & n' & m' & Hrun & Hinv' & _).
    exists (with_n c n'), m'.
    erewrite bind_ok by exact Hrun. split; [reflexivity |].
    split; [reflexivity | exact Hinv'].
  - destruct (clear_invariant cfg c m Hinv) as (m' & Hrun & _ & _ & Hinv').
    exists (with_n c 0), m'. split; [exact Hrun |].
    split; [reflexivity | exact Hinv'].
Qed.

Lemma run_calls_invariant ks : forall c m,
  set_equivalence c m -> Forall (call_in_range (_cap c)) ks ->
  exists c' m',
    run_calls cfg ks c m = Ok (c', m') /\ _cap c' = _cap c /\
    set_equivalence c' m'.
Proof.
  induction ks as [| k rest IH]; intros c m Hinv Hks.
  - exists c, m. split; [reflexivity |]. split; [reflexivity | exact Hinv].
  - apply Forall_cons in Hks as [Hk Hrest].
    destruct (run_call_invariant c m k Hinv Hk) as (c1 & m1 & Hrun & Hcap & Hinv1).
    destruct (IH c1 m1 Hinv1) as (c2 & m2 & Hrun2 & Hcap2 & Hinv2).
    { rewrite Hcap. exact Hrest. }
    exists c2, m2. simpl. erewrite bind_ok by exact Hrun.
    split; [exact Hrun2 |]. split; [lia | exact Hinv2].
Qed.

Lemma set_aligned (c0 : Coordinates) (m : Memory) (a b dim : nat)
    (parallel : bool) :
  a + dim <= length (flags m) ->
  (parallel = true -> init_ranges_cover cfg dim = true) ->
  exists c fl,
    set cfg c0 (Some a) false (Some b) dim parallel m
    = Ok (c, mkMemory fl (words m)) /\
    _assigned c = Some a /\ _stack c = Some (aligned_stack cfg b) /\
    _n c = 0 /\ _cap c = dim /\
    length fl = length (flags m) /\
    (forall i, i < dim -> fl !! (a + i) = Some false).
Proof.
  intros Hlen Hpar.
  destruct (set_fresh cfg c0 m a b dim parallel Hlen Hpar)
    as (fl & Hrun & Hl & Hin & Hout).
  eexists _, fl. split; [exact Hrun |]. simpl.
  split; [reflexivity |]. split; [reflexivity |].
  split; [reflexivity |]. split; [reflexivity |]. split; assumption.
Qed.

(** C3: after binding with [set], the representation invariant holds after
    every call of any sequence of [assign] and [clear] calls. *)
Theorem invariant_after_every_call (c0 : Coordinates) (m : Memory)
    (a b dim : nat) (parallel : bool) (ks : list call) :
  a + dim <= length (flags m) ->
  aligned_stack cfg b + dim <= length (words m) ->
  (parallel = true -> init_ranges_cover cfg dim = true) ->
  Forall (call_in_range dim) ks ->
  exists c1 m1,
    set cfg c0 (Some a) false (Some b) dim parallel m = Ok (c1, m1) /\
    forall k,
      exists c2 m2,
        run_calls cfg (take k ks) c1 m1 = Ok (c2, m2) /\
        _cap c2 = dim /\
        _n c2 <= dim /\
        NoDup (stack_prefix c2 m2) /\
        (forall i, i ∈ stack_prefix c2 m2 <-> i < dim /\ flag_at c2 m2 i = true).
Proof.
  intros Hlf Hlw Hpar Hks.
  destruct (set_aligned c0 m a b dim parallel Hlf Hpar)
    as (c1 & fl & Hrun & Ha & Hs & Hn & Hcap & Hl & Hfalse).
  exists c1, (mkMemory fl (words m)). split; [exact Hrun |].
  assert (Hinv : set_equivalence c1 (mkMemory fl (words m))).
  { assert (Hnil : stack_prefix c1 (mkMemory fl (words m)) = []).
    { unfold stack_prefix. rewrite Hs, Hn. reflexivity. }
    split; [| split; [| split]].
    - unfold bound_in. rewrite Ha, Hs, Hcap. simpl. lia.
    - lia.
    - rewrite Hnil. apply NoDup_nil_2.
    - intros i. rewrite Hnil. split.
      + intros H. apply elem_of_nil in H. contradiction.
      + intros [Hi Hf]. rewrite Hcap in Hi.
        unfold flag_at in Hf. rewrite Ha in Hf. simpl in Hf.
        rewrite (Hfalse i Hi) in Hf. discriminate. }
  intros k.
  destruct (run_calls_invariant (take k ks) c1 (mkMemory fl (words m)) Hinv)
    as (c2 & m2 & Hrun2 & Hcap2 & Hinv2).
  { rewrite Hcap. apply Forall_take. exact Hks. }
  exists c2, m2. split; [exact Hrun2 |].
  destruct Hinv2 as (_ & Hn2 & Hnd2 & Hel2).
  rewrite Hcap2, Hcap in *. tauto.
Qed.

End Sequential.

Lemma invariant_after_every_call_witness :
  exists c1 m1,
    set debug_config Coordinates_default_debug (Some 1) false (Some 6) 3 true
      stale_memory = Ok (c1, m1) /\
    forall k,
      exists c2 m2,
        run_calls debug_config
          (take k [Assign 2; Assign 0; Assign 2; Clear; Assign 1]) c1 m1
        = Ok (c2, m2) /\
        _cap c2 = 3 /\
        _n c2 <= 3 /\
        NoDup (stack_prefix c2 m2) /\
        (forall i, i ∈ stack_prefix c2 m2 <-> i < 3 /\ flag_at c2 m2 i = true).
Proof.
  apply (invariant_after_every_call debug_config Coordinates_default_debug
           stale_memory 1 6 3 true).
  - simpl. lia.
  - vm_compute. lia.
  - intros _. vm_compute. reflexivity.
  - repeat constructor; simpl; lia.
Defined.

(** ** The tile layout *)

Section Layout.

Variable cfg : Config.

Lemma localCoordinatesInit_installs c0 am m0 c m :
  localCoordinatesInit cfg c0 am m0 = Ok (c, m) ->
  m = m0 /\ installed c /\ analytic_model c = am /\
  _assigned c = _assigned c0 /\ _stack c = _stack c0 /\
  _buffer c = _buffer c0 /\ _n c = _n c0 /\ _cap c = _cap c0.
Proof.
  unfold localCoordinatesInit, bind, assert_, ret, fail. intros H.
  destruct (NDEBUG cfg || (0 <? getNumTiles am)); [| discriminate].
  destruct (NDEBUG cfg || (getNumTiles am <=? maxBufferTiles cfg (_cap c0)));
    [| discriminate].
  destruct (NDEBUG cfg || (4 * getNumTiles am <=? _buf c0)); [| discriminate].
  inversion H; subst. unfold installed. simpl. repeat split; reflexivity.
Qed.

Lemma installed_segment c b t :
  installed c -> _buffer c = Some b ->
  t < getNumTiles (analytic_model c) ->
  local_buffer c !! t
  = Some (Some (b + t * (getTileSize (analytic_model c) + 1))).
Proof.
  intros (Hlb & _ & _) Hb Ht. rewrite Hlb, Hb.
  change (map ?f ?l) with (f <$> l). rewrite list_lookup_fmap.
  rewrite lookup_seq_lt by exact Ht. reflexivity.
Qed.

Lemma installed_tile_segment c b t :
  installed c -> _buffer c = Some b ->
  t < getNumTiles (analytic_model c) ->
  tile_segment c t = Some (b + t * (getTileSize (analytic_model c) + 1)).
Proof.
  intros Hinst Hb Ht. unfold tile_segment.
  pose proof (installed_segment c b t Hinst Hb Ht) as H.
  unfold ptr in *. rewrite H. reflexivity.
Qed.

End Layout.

(** ** Arithmetic of the layout *)

Lemma segment_below (t T ts k : nat) :
  t < T -> k <= ts -> t * (ts + 1) + k < T * (ts + 1).
Proof.
  intros Ht Hk.
  assert (H : (t + 1) * (ts + 1) <= T * (ts + 1))
    by (apply Nat.mul_le_mono_r; lia).
  lia.
Qed.

Lemma segments_apart (t1 t2 ts k1 k2 : nat) :
  t1 <> t2 -> k1 <= ts -> k2 <= ts ->
  t1 * (ts + 1) + k1 <> t2 * (ts + 1) + k2.
Proof.
  intros Hne H1 H2.
  destruct (Nat.lt_ge_cases t1 t2) as [Hlt | Hge].
  - assert (H := segment_below t1 t2 ts k1 Hlt H1). lia.
  - assert (H := segment_below t2 t1 ts k2 ltac:(lia) H2). lia.
Qed.

Lemma layout_order (T ts : nat) :
  T * (ts + 2) = T * (ts + 1) + T /\ T * (ts + 3) = T * (ts + 1) + T + T.
Proof. lia. Qed.

Section Commit.

Variable cfg : Config.

Lemma div_ok a b m : 0 < b -> div_ a b m = Ok (a / b, m).
Proof.
  intros H. unfold div_. destruct (Nat.eqb_spec b 0); [lia | reflexivity].
Qed.

Lemma vector_at_ok (v : list ptr) i p m :
  v !! i = Some p -> vector_at v i m = Ok (p, m).
Proof. intros H. unfold vector_at. rewrite H. reflexivity. Qed.

Lemma assertM_ok (c : M bool) m :
  (NDEBUG cfg = false -> c m = Ok (true, m)) -> assertM cfg c m = Ok (tt, m).
Proof.
  intros H. unfold assertM. destruct (NDEBUG cfg); [reflexivity |].
  erewrite bind_ok by (apply H; reflexivity). reflexivity.
Qed.

Lemma usub_ok a b : b <= a -> usub cfg a b = a - b.
Proof.
  intros H. unfold usub. destruct (Nat.leb_spec b a); [reflexivity | lia].
Qed.

(** What [asyncJoinSubset] does to the memory. *)
Lemma asyncJoinSubset_store c subset lower upper m b pre :
  installed c -> _buffer c = Some b ->
  0 < _cap c -> 0 < getTileSize (analytic_model c) ->
  lower / getTileSize (analytic_model c) < getNumTiles (analytic_model c) ->
  b + getNumTiles (analytic_model c) * (getTileSize (analytic_model c) + 3)
    <= length (words m) ->
  words m !! (b + lower / getTileSize (analytic_model c)
                  * (getTileSize (analytic_model c) + 1)) = Some pre ->
  pre <= _n subset -> _n subset <= _cap subset ->
  asyncJoinSubset cfg c subset lower upper m
  = Ok (tt, mkMemory (flags m)
              (<[b + getNumTiles (analytic_model c)
                       * (getTileSize (analytic_model c) + 1)
                   + lower / getTileSize (analytic_model c)
                 := _n subset - pre]> (words m))).
Proof.
  set (ts := getTileSize (analytic_model c)).
  set (T := getNumTiles (analytic_model c)).
  intros Hinst Hb Hcap Hts Ht Hlen Hpre Hle1 Hle2.
  assert (Hseg := installed_segment c b (lower / ts) Hinst Hb Ht).
  fold ts in Hseg.
  destruct Hinst as (_ & Hnn & _). fold ts T in Hnn. rewrite Hb in Hnn.
  simpl in Hnn.
  assert (HT := layout_order T ts).
  unfold asyncJoinSubset. fold ts.
  mstep ltac:(apply assert_ok; apply Nat.ltb_lt; exact Hcap).
  mstep ltac:(apply div_ok; exact Hts).
  mstep ltac:(apply vector_at_ok; exact Hseg).
  mstep ltac:(apply assert_ok; apply Nat.leb_le; exact Hle2).
  mstep ltac:(apply assertM_ok; intros _;
              erewrite bind_ok by (apply load_word_ok; rewrite Nat.add_0_r; exact Hpre);
              unfold ret; do 2 f_equal; apply Nat.leb_le; lia).
  mstep ltac:(apply load_word_ok; rewrite Nat.add_0_r; exact Hpre).
  rewrite Hnn, usub_ok by exact Hle1.
  apply store_word_ok. lia.
Qed.

(** C6: [asyncJoinSubset] records the number of new entries in the tile's
    counter and leaves the flags, the global stack, every tile's segment, the
    other counters and the prefix sums as they were.  (The function has no
    result and no access to the count of the structure, which is a value
    here.) *)
Theorem asyncJoinSubset_frame (c0 c subset : Coordinates) (am : AnalyticModel)
    (m0 m : Memory) (lower upper pre : nat) :
  localCoordinatesInit cfg c0 am m0 = Ok (c, m0) ->
  scratch_fits c m ->
  0 < _cap c -> 0 < getTileSize am ->
  lower / getTileSize am < getNumTiles am ->
  local_count c m (lower / getTileSize am) = Some pre ->
  pre <= _n subset -> _n subset <= _cap subset ->
  exists m',
    asyncJoinSubset cfg c subset lower upper m = Ok (tt, m') /\
    new_count c m' (lower / getTileSize am) = Some (_n subset - pre) /\
    flags m' = flags m /\
    (forall k, k < _cap c -> stack_at c m' k = stack_at c m k) /\
    (forall t, t < getNumTiles am ->
       local_count c m' t = local_count c m t /\
       forall k, k < getTileSize am ->
         local_entry c m' t k = local_entry c m t k) /\
    (forall t, t < getNumTiles am -> t <> lower / getTileSize am ->
       new_count c m' t = new_count c m t) /\
    (forall t, t < getNumTiles am -> prefix_at c m' t = prefix_at c m t).
Proof.
  intros Hinit Hfit Hcap Hts Ht Hpre Hle1 Hle2.
  apply localCoordinatesInit_installs in Hinit
    as (_ & Hinst & Ham & _ & _ & _ & _ & _).
  subst am. unfold scratch_fits in Hfit.
  destruct (_stack c) as [s |] eqn:Hs; [| contradiction].
  destruct (_buffer c) as [b |] eqn:Hb; [| contradiction].
  destruct Hfit as [HsB Hlen].
  set (ts := getTileSize (analytic_model c)) in *.
  set (T := getNumTiles (analytic_model c)) in *.
  assert (Hseg : forall t, t < T -> tile_segment c t = Some (b + t * (ts + 1))).
  { intros t Ht'. apply (installed_tile_segment c b t Hinst Hb Ht'). }
  assert (Hnn : local_new_nnzs c = Some (b + T * (ts + 1))).
  { destruct Hinst as (_ & H & _). rewrite Hb in H. exact H. }
  assert (Hps : pref_sum c = Some (b + T * (ts + 2))).
  { destruct Hinst as (_ & _ & H). rewrite Hb in H. exact H. }
  assert (HT := layout_order T ts).
  unfold local_count in Hpre. rewrite (Hseg _ Ht) in Hpre. simpl in Hpre.
  rewrite Nat.add_0_r in Hpre.
  eexists. split.
  { apply (asyncJoinSubset_store c subset lower upper m b pre); auto. }
  fold ts T.
  split; [| split; [reflexivity |]].
  { unfold new_count. rewrite Hnn. simpl.
    apply list_lookup_insert_eq. lia. }
  split; [| split; [| split]].
  - intros k Hk. unfold stack_at. rewrite Hs. simpl.
    apply list_lookup_insert_ne. lia.
  - intros t Ht'. split.
    + unfold local_count. rewrite (Hseg t Ht'). simpl.
      apply list_lookup_insert_ne.
      assert (H := segment_below t T ts 0 Ht' ltac:(lia)). lia.
    + intros k Hk. unfold local_entry. rewrite (Hseg t Ht'). simpl.
      apply list_lookup_insert_ne.
      assert (H := segment_below t T ts (1 + k) Ht' ltac:(lia)). lia.
  - intros t Ht' Hne. unfold new_count. rewrite Hnn. simpl.
    apply list_lookup_insert_ne. lia.
  - intros t Ht'. unfold prefix_at. rewrite Hps. simpl.
    apply list_lookup_insert_ne. lia.
Qed.

End Commit.

Lemma asyncJoinSubset_frame_witness :
  exists m',
    asyncJoinSubset debug_config scenario commit_view 2 4 commit_memory
    = Ok (tt, m') /\
    new_count scenario m' (2 / getTileSize four_tiles)
    = Some (_n commit_view - 0) /\
    flags m' = flags commit_memory /\
    (forall k, k < _cap scenario ->
       stack_at scenario m' k = stack_at scenario commit_memory k) /\
    (forall t, t < getNumTiles four_tiles ->
       local_count scenario m' t = local_count scenario commit_memory t /\
       forall k, k < getTileSize four_tiles ->
         local_entry scenario m' t k = local_entry scenario commit_memory t k) /\
    (forall t, t < getNumTiles four_tiles -> t <> 2 / getTileSize four_tiles ->
       new_count scenario m' t = new_count scenario commit_memory t) /\
    (forall t, t < getNumTiles four_tiles ->
       prefix_at scenario m' t = prefix_at scenario commit_memory t).
Proof.
  apply (asyncJoinSubset_frame debug_config scenario_bound scenario commit_view
           four_tiles scenario_memory commit_memory 2 4 0).
  - reflexivity.
  - unfold scratch_fits. simpl. lia.
  - simpl. lia.
  - simpl. lia.
  - simpl. lia.
  - reflexivity.
  - simpl. lia.
  - simpl. lia.
Defined.

(** ** Capacity zero *)

Section CapacityZero.

Variable cfg : Config.

(** C8, as the code has it: of the phases of the tile protocol,
    [asyncSubsetInit], [newNonZeroes] and [joinSubset] test for a capacity of
    zero and then return at once, whatever the memory is; [asyncSubset] and
    [asyncJoinSubset] assert a positive capacity instead. *)
Theorem capacity_zero_phases (c subset : Coordinates) (lower upper : nat) :
  _cap c = 0 ->
  (forall m, asyncSubsetInit cfg c lower upper m = Ok (tt, m)) /\
  (forall m, newNonZeroes c m = Ok (false, m)) /\
  (forall m, joinSubset cfg c lower upper m = Ok (tt, m)) /\
  (NDEBUG cfg = false ->
   forall m,
     asyncSubset cfg c lower upper m = Fault AssertionFailure /\
     asyncJoinSubset cfg c subset lower upper m = Fault AssertionFailure).
Proof.
  intros Hcap.
  unfold asyncSubsetInit, newNonZeroes, joinSubset. rewrite Hcap. simpl.
  split; [reflexivity |]. split; [reflexivity |]. split; [reflexivity |].
  intros Hdebug m.
  unfold asyncSubset, asyncJoinSubset, bind, assert_.
  rewrite Hcap, Hdebug. simpl. split; reflexivity.
Qed.

End CapacityZero.

Lemma capacity_zero_phases_witness :
  (forall m, asyncSubsetInit debug_config unbound 0 0 m = Ok (tt, m)) /\
  (forall m, newNonZeroes unbound m = Ok (false, m)) /\
  (forall m, joinSubset debug_config unbound 0 0 m = Ok (tt, m)) /\
  (NDEBUG debug_config = false ->
   forall m,
     asyncSubset debug_config unbound 0 0 m = Fault AssertionFailure /\
     asyncJoinSubset debug_config unbound unbound 0 0 m
     = Fault AssertionFailure).
Proof.
  apply (capacity_zero_phases debug_config unbound unbound 0 0).
  reflexivity.
Defined.

(** C8, as the specification states it, fails: at capacity zero a debug build
    stops [asyncSubset] and [asyncJoinSubset] at their assertion, and a
    release build lets [prefixSumComputation] read a counter, write a prefix
    sum and set the count to what it read. *)
Lemma capacity_zero_not_all_noops :
  _cap unbound = 0 /\
  asyncSubset debug_config unbound 0 0 empty_memory = Fault AssertionFailure /\
  asyncJoinSubset debug_config unbound unbound 0 0 empty_memory
  = Fault AssertionFailure /\
  _cap zero_capacity_tiled = 0 /\
  prefixSumComputation release_config [] [] zero_capacity_tiled
    zero_capacity_memory
  = Ok (with_n zero_capacity_tiled 7, mkMemory [] [5; 5; 7; 7]).
Proof. repeat split; vm_compute; reflexivity. Qed.

(** ** Subset initialisation *)

Section SubsetInit.

Variable cfg : Config.

Lemma NoDup_bounded_length (l : list nat) (n : nat) :
  NoDup l -> (forall x, x ∈ l -> x < n) -> length l <= n.
Proof.
  intros Hnd Hb.
  assert (H : l ⊆+ seq 0 n).
  { apply NoDup_submseteq; [exact Hnd |].
    intros x Hx. apply elem_of_seq. specialize (Hb x Hx). lia. }
  apply submseteq_length in H. rewrite length_seq in H. exact H.
Qed.

Lemma push_local_step b ts count entries v m :
  segment_holds (words m) b count entries ->
  count = length entries -> count < ts ->
  b + ts < length (words m) ->
  exists m',
    push_local (Some b) (Some (b + 1)) v m = Ok (tt, m') /\
    flags m' = flags m /\
    length (words m') = length (words m) /\
    segment_holds (words m') b (count + 1) (entries ++ [v]) /\
    (forall j, ~ b <= j <= b + ts -> words m' !! j = words m !! j).
Proof.
  intros [Hc He] Hcount Hlt Hlen.
  eexists. split.
  { unfold push_local.
    mstep ltac:(apply load_word_ok; rewrite Nat.add_0_r; exact Hc).
    mstep ltac:(apply store_word_ok; lia).
    apply store_word_ok. simpl. rewrite length_insert. lia. }
  simpl. split; [reflexivity |]. rewrite !length_insert.
  split; [reflexivity |]. split; [split |].
  - rewrite list_lookup_insert_ne by lia. rewrite Nat.add_0_r.
    apply list_lookup_insert_eq. lia.
  - intros k x Hk.
    destruct (Nat.eq_dec k count) as [-> | Hne].
    + rewrite lookup_app_r in Hk by lia.
      replace (count - length entries) with 0 in Hk by lia.
      inversion Hk; subst.
      apply list_lookup_insert_eq. rewrite length_insert. lia.
    + assert (Hkl : k < length entries).
      { apply lookup_lt_Some in Hk. rewrite length_app in Hk. simpl in Hk. lia. }
      rewrite lookup_app_l in Hk by exact Hkl.
      rewrite list_lookup_insert_ne by lia.
      rewrite list_lookup_insert_ne by lia. apply He. exact Hk.
  - intros j Hj. rewrite !list_lookup_insert_ne by lia. reflexivity.
Qed.

Lemma offsets_by_range_step c m lower i :
  lower <= i ->
  offsets_by_range c m lower (S i)
  = offsets_by_range c m lower i
    ++ (if flag_at c m i then [i - lower] else []).
Proof.
  intros Hi. unfold offsets_by_range.
  replace (S i - lower) with (S (i - lower)) by lia.
  rewrite seq_S, filter_app, fmap_app.
  replace (lower + (i - lower)) with i by lia.
  f_equal. rewrite (filter_singleton _ _ []).
  destruct (flag_at c m i); case_decide; try reflexivity; congruence.
Qed.

Lemma offsets_by_range_length c m lower upper :
  length (offsets_by_range c m lower upper) <= upper - lower.
Proof.
  unfold offsets_by_range. rewrite length_fmap.
  etransitivity; [apply length_filter |]. rewrite length_seq. lia.
Qed.

Lemma offsets_by_range_elem c m lower upper j :
  j ∈ offsets_by_range c m lower upper
  <-> j < upper - lower /\ flag_at c m (lower + j) = true.
Proof.
  unfold offsets_by_range. rewrite list_elem_of_fmap. split.
  - intros (i & -> & Hi). apply list_elem_of_filter in Hi as [Hf Hi].
    apply elem_of_seq in Hi.
    replace (lower + (i - lower)) with i by lia. split; [lia | exact Hf].
  - intros [Hj Hf]. exists (lower + j). split; [lia |].
    apply list_elem_of_filter. split; [exact Hf |]. apply elem_of_seq. lia.
Qed.

Lemma offsets_by_range_NoDup c m lower upper :
  NoDup (offsets_by_range c m lower upper).
Proof.
  unfold offsets_by_range. apply NoDup_fmap_2_strong.
  - intros x y Hx Hy Heq.
    apply list_elem_of_filter in Hx as [_ Hx]. apply elem_of_seq in Hx.
    apply list_elem_of_filter in Hy as [_ Hy]. apply elem_of_seq in Hy. lia.
  - apply NoDup_filter. apply NoDup_seq.
Qed.

Lemma offsets_by_stack_elem c m lower upper j :
  set_equivalence c m -> upper <= _cap c ->
  j ∈ offsets_by_stack c m lower upper
  <-> j < upper - lower /\ flag_at c m (lower + j) = true.
Proof.
  intros (_ & _ & _ & Hel) Hup.
  unfold offsets_by_stack. rewrite list_elem_of_fmap. split.
  - intros (k & -> & Hk). apply list_elem_of_filter in Hk as [Hr Hk].
    apply Hel in Hk as [_ Hf].
    replace (lower + (k - lower)) with k by lia. split; [lia | exact Hf].
  - intros [Hj Hf]. exists (lower + j). split; [lia |].
    apply list_elem_of_filter. split; [lia |]. apply Hel. split; [lia | exact Hf].
Qed.

Lemma offsets_by_stack_NoDup c m lower upper :
  set_equivalence c m -> NoDup (offsets_by_stack c m lower upper).
Proof.
  intros (_ & _ & Hnd & _).
  unfold offsets_by_stack. apply NoDup_fmap_2_strong.
  - intros x y Hx Hy Heq.
    apply list_elem_of_filter in Hx as [Hx _].
    apply list_elem_of_filter in Hy as [Hy _]. lia.
  - apply NoDup_filter. exact Hnd.
Qed.

(** Both scans collect the same offsets, possibly in another order. *)
Lemma offsets_agree c m lower upper :
  set_equivalence c m -> upper <= _cap c ->
  offsets_by_range c m lower upper ≡ₚ offsets_by_stack c m lower upper.
Proof.
  intros Hinv Hup. apply NoDup_Permutation.
  - apply offsets_by_range_NoDup.
  - apply offsets_by_stack_NoDup. exact Hinv.
  - intros j. rewrite offsets_by_range_elem, offsets_by_stack_elem by assumption.
    reflexivity.
Qed.

End SubsetInit.

Section Scans.

Variable cfg : Config.

Lemma set_equivalence_frame c m m' s :
  _stack c = Some s ->
  set_equivalence c m ->
  flags m' = flags m ->
  length (words m') = length (words m) ->
  (forall k, k < _cap c -> words m' !! (s + k) = words m !! (s + k)) ->
  set_equivalence c m' /\ stack_prefix c m' = stack_prefix c m /\
  forall i, flag_at c m' i = flag_at c m i.
Proof.
  intros Hs (Hb & Hn & Hnd & Hel) Hf Hl Hw.
  assert (Hsp : stack_prefix c m' = stack_prefix c m).
  { unfold stack_prefix. rewrite Hs. apply list_eq. intros k.
    destruct (Nat.lt_ge_cases k (_n c)) as [Hk | Hk].
    - rewrite !lookup_take_lt by exact Hk. rewrite !lookup_drop.
      apply Hw. lia.
    - rewrite !lookup_take_ge by exact Hk. reflexivity. }
  assert (Hfl : forall i, flag_at c m' i = flag_at c m i).
  { intros i. unfold flag_at. rewrite Hf. reflexivity. }
  split; [| split; assumption].
  split; [| split; [exact Hn | split]].
  - unfold bound_in in *. rewrite Hf, Hl. exact Hb.
  - rewrite Hsp. exact Hnd.
  - intros i. rewrite Hsp, Hfl. apply Hel.
Qed.

(** The range scan leaves the offsets of the flagged indices of the tile in
    the segment. *)
Lemma scan_tile_range_spec c a seg width lower upper m :
  _assigned c = Some a ->
  lower <= upper -> upper - lower <= width ->
  a + upper <= length (flags m) ->
  seg + width < length (words m) ->
  segment_holds (words m) seg 0 [] ->
  exists m',
    scan_tile_range c (Some seg) (Some (seg + 1)) lower upper m = Ok (tt, m') /\
    flags m' = flags m /\
    length (words m') = length (words m) /\
    segment_holds (words m') seg
      (length (offsets_by_range c m lower upper))
      (offsets_by_range c m lower upper) /\
    (forall j, ~ seg <= j <= seg + width -> words m' !! j = words m !! j).
Proof.
  intros Ha Hle Hw Hlf Hlw Hinit.
  destruct (for_range_inv
    (fun i (_ : unit) m' =>
       flags m' = flags m /\ length (words m') = length (words m) /\
       segment_holds (words m') seg (length (offsets_by_range c m lower i))
         (offsets_by_range c m lower i) /\
       (forall j, ~ seg <= j <= seg + width -> words m' !! j = words m !! j))
    (fun i (_ : unit) =>
       x <- load_flag (_assigned c) i ;;
       if x then push_local (Some seg) (Some (seg + 1)) (i - lower) else ret tt)
    lower upper tt m Hle) as ([] & m' & Hrun & Hpost).
  - split; [reflexivity |]. split; [reflexivity |]. split; [| reflexivity].
    unfold offsets_by_range. rewrite Nat.sub_diag. simpl. exact Hinit.
  - intros i [] m1 Hi (Hf & Hl & Hseg & Hframe).
    destruct (flag_lookup (flags m) (a + i) ltac:(lia)) as [v Hv].
    assert (Hfi : flag_at c m i = v).
    { unfold flag_at. rewrite Ha, Hv. reflexivity. }
    rewrite offsets_by_range_step by lia. rewrite Hfi. rewrite Ha.
    destruct v.
    + destruct (push_local_step seg width _ _ (i - lower) m1 Hseg eq_refl)
        as (m2 & Hrun & Hf2 & Hl2 & Hseg2 & Hframe2).
      { assert (H := offsets_by_range_length c m lower i). lia. }
      { lia. }
      exists tt, m2. split.
      { mstep ltac:(apply load_flag_ok; rewrite Hf; exact Hv). exact Hrun. }
      split; [congruence |]. split; [congruence |]. split.
      * rewrite length_app. simpl. exact Hseg2.
      * intros j Hj. rewrite Hframe2 by exact Hj. apply Hframe. exact Hj.
    + exists tt, m1. split.
      { mstep ltac:(apply load_flag_ok; rewrite Hf; exact Hv). reflexivity. }
      rewrite app_nil_r. tauto.
  - exists m'. split; [exact Hrun | exact Hpost].
Qed.

Lemma offsets_of_taken_length c m lower upper i :
  set_equivalence c m -> upper <= _cap c ->
  length ((fun k => k - lower)
          <$> filter (fun k => lower <= k < upper) (take i (stack_prefix c m)))
  <= upper - lower.
Proof.
  intros (_ & _ & Hnd & Hel) Hup.
  apply NoDup_bounded_length.
  - apply NoDup_fmap_2_strong.
    + intros x y Hx Hy Heq.
      apply list_elem_of_filter in Hx as [Hx _].
      apply list_elem_of_filter in Hy as [Hy _]. lia.
    + apply NoDup_filter. eapply sublist_NoDup; [exact Hnd | apply sublist_take].
  - intros x Hx. apply list_elem_of_fmap in Hx as (k & -> & Hk).
    apply list_elem_of_filter in Hk as [Hk _]. lia.
Qed.

(** The stack scan leaves the offsets of the stack entries that lie in the
    tile. *)
Lemma scan_global_stack_spec c a s seg width lower upper m :
  _assigned c = Some a -> _stack c = Some s ->
  set_equivalence c m ->
  upper <= _cap c -> upper - lower <= width ->
  s + _cap c <= seg ->
  seg + width < length (words m) ->
  segment_holds (words m) seg 0 [] ->
  exists m',
    scan_global_stack cfg c (Some seg) (Some (seg + 1)) lower upper m
    = Ok (tt, m') /\
    flags m' = flags m /\
    length (words m') = length (words m) /\
    segment_holds (words m') seg
      (length (offsets_by_stack c m lower upper))
      (offsets_by_stack c m lower upper) /\
    (forall j, ~ seg <= j <= seg + width -> words m' !! j = words m !! j).
Proof.
  intros Ha Hs Hinv Hup Hw HsB Hlw Hinit.
  set (taken i := (fun k => k - lower)
          <$> filter (fun k => lower <= k < upper) (take i (stack_prefix c m))).
  assert (Hbound := proj1 Hinv).
  destruct Hinv as (Hb & Hn & Hnd & Hel).
  assert (Hlf : a + _cap c <= length (flags m)).
  { unfold bound_in in Hb. rewrite Ha, Hs in Hb. tauto. }
  destruct (for_range_inv
    (fun i (_ : unit) m' =>
       flags m' = flags m /\ length (words m') = length (words m) /\
       segment_holds (words m') seg (length (taken i)) (taken i) /\
       (forall j, ~ seg <= j <= seg + width -> words m' !! j = words m !! j))
    (fun i (_ : unit) =>
       k <- load_word (_stack c) i ;;
       if (lower <=? k) && (k <? upper) then
         assertM cfg (load_flag (_assigned c) k) ;;
         push_local (Some seg) (Some (seg + 1)) (k - lower)
       else ret tt)
    0 (_n c) tt m ltac:(lia)) as ([] & m' & Hrun & Hf & Hl & Hseg & Hframe).
  - split; [reflexivity |]. split; [reflexivity |]. split; [| reflexivity].
    unfold taken. rewrite take_0. simpl. exact Hinit.
  - intros i [] m1 Hi (Hf & Hl & Hseg & Hframe).
    destruct (word_lookup (words m) (s + i) ltac:(lia)) as [k Hk].
    assert (Hsp : stack_prefix c m !! i = Some k).
    { rewrite (stack_prefix_lookup c m s i Hs) by lia. exact Hk. }
    assert (Hkin : k < _cap c /\ flag_at c m k = true).
    { apply Hel. apply list_elem_of_lookup. exists i. exact Hsp. }
    assert (Hstep : taken (S i)
              = taken i ++ (if (lower <=? k) && (k <? upper)
                            then [k - lower] else [])).
    { unfold taken. rewrite (take_S_r _ _ _ Hsp), filter_app, fmap_app.
      f_equal. rewrite (filter_singleton _ _ []).
      destruct (Nat.leb_spec lower k), (Nat.ltb_spec k upper); simpl;
        case_decide; try reflexivity; lia. }
    assert (Hlen := offsets_of_taken_length c m lower upper (S i)
                      (conj Hb (conj Hn (conj Hnd Hel))) Hup).
    fold (taken (S i)) in Hlen. rewrite Hstep in Hlen. rewrite Hstep.
    rewrite Hs, Ha.
    assert (Hload : load_word (Some s) i m1 = Ok (k, m1)).
    { apply load_word_ok. rewrite Hframe by lia. exact Hk. }
    destruct ((lower <=? k) && (k <? upper)) eqn:Hin.
    + rewrite length_app in Hlen. simpl in Hlen.
      destruct (push_local_step seg width _ _ (k - lower) m1 Hseg eq_refl)
        as (m2 & Hrun & Hf2 & Hl2 & Hseg2 & Hframe2); [lia | lia |].
      exists tt, m2. split.
      { mstep ltac:(exact Hload). rewrite Hin.
        mstep ltac:(apply assertM_ok; intros _; apply load_flag_ok;
                    rewrite Hf; apply (flag_at_true c m a k Ha); tauto).
        exact Hrun. }
      split; [congruence |]. split; [congruence |]. split.
      * rewrite length_app. simpl. exact Hseg2.
      * intros j Hj. rewrite Hframe2 by exact Hj. apply Hframe. exact Hj.
    + exists tt, m1. split.
      { mstep ltac:(exact Hload). rewrite Hin. reflexivity. }
      rewrite app_nil_r. tauto.
  - exists m'. split; [exact Hrun |]. split; [exact Hf |]. split; [exact Hl |].
    split; [| exact Hframe].
    assert (Htake : taken (_n c) = offsets_by_stack c m lower upper).
    { unfold taken, offsets_by_stack. rewrite take_ge; [reflexivity |].
      rewrite (stack_prefix_length c m s Hs); lia. }
    rewrite <- Htake. exact Hseg.
Qed.

End Scans.

(** ** Where the layout puts things *)

Section LayoutFacts.

Variable c : Coordinates.
Variable b : nat.

Lemma local_new_nnzs_at :
  installed c -> _buffer c = Some b ->
  local_new_nnzs c = Some (counters_of c b).
Proof. intros (_ & H & _) Hb. rewrite Hb in H. exact H. Qed.

Lemma pref_sum_at :
  installed c -> _buffer c = Some b -> pref_sum c = Some (sums_of c b).
Proof. intros (_ & _ & H) Hb. rewrite Hb in H. exact H. Qed.

Lemma local_buffer_at t :
  installed c -> _buffer c = Some b ->
  t < getNumTiles (analytic_model c) ->
  local_buffer c !! t = Some (Some (segment_of c b t)).
Proof. intros Hinst Hb Ht. apply (installed_segment c b t Hinst Hb Ht). Qed.

Lemma seg_in_scratch t k :
  t < getNumTiles (analytic_model c) -> k <= getTileSize (analytic_model c) ->
  b <= segment_of c b t + k /\ segment_of c b t + k < counters_of c b.
Proof.
  intros Ht Hk. unfold segment_of, counters_of.
  assert (H := segment_below t _ _ k Ht Hk). lia.
Qed.

Lemma seg_apart t1 t2 k1 k2 :
  t1 <> t2 ->
  k1 <= getTileSize (analytic_model c) ->
  k2 <= getTileSize (analytic_model c) ->
  segment_of c b t1 + k1 <> segment_of c b t2 + k2.
Proof.
  intros Hne H1 H2. unfold segment_of.
  assert (H := segments_apart t1 t2 _ k1 k2 Hne H1 H2). lia.
Qed.

Lemma sums_after_counters :
  sums_of c b = counters_of c b + getNumTiles (analytic_model c).
Proof. unfold sums_of, counters_of. lia. Qed.

Lemma fits_words a m :
  fits c a b m ->
  sums_of c b + getNumTiles (analytic_model c) <= length (words m).
Proof. intros [_ H]. unfold sums_of. lia. Qed.

End LayoutFacts.

(** ** The protocol on a laid-out structure

    [c] is a structure on which [localCoordinatesInit] has installed the tile
    fields; [a], [s] and [b] are where its flags, its stack and its scratch
    buffer start. *)

Section Tiled.

Variable cfg : Config.
Variable c : Coordinates.
Variables a s b : nat.

Let ts := getTileSize (analytic_model c).
Let T := getNumTiles (analytic_model c).

Hypothesis Hinst : installed c.
Hypothesis Ha : _assigned c = Some a.
Hypothesis Hs : _stack c = Some s.
Hypothesis Hb : _buffer c = Some b.
Hypothesis Hts : 0 < ts.
Hypothesis Hcap : 0 < _cap c.
Hypothesis HsB : s + _cap c <= b.

Local Abbreviation fits := (fits c a b).
Local Abbreviation seg := (segment_of c b).
Local Abbreviation counters := (counters_of c b).
Local Abbreviation sums := (sums_of c b).

(** [asyncSubsetInit] on tile [t]. *)
Lemma asyncSubsetInit_spec m lower upper :
  fits m -> set_equivalence c m ->
  lower / ts < T -> lower <= upper -> upper - lower <= ts -> upper <= _cap c ->
  exists m',
    asyncSubsetInit cfg c lower upper m = Ok (tt, m') /\
    flags m' = flags m /\
    length (words m') = length (words m) /\
    (let L := if upper - lower <? _n c
              then offsets_by_range c m lower upper
              else offsets_by_stack c m lower upper in
     segment_holds (words m') (seg (lower / ts)) (length L) L) /\
    words m' !! (counters + lower / ts) = Some 0 /\
    (forall j, ~ seg (lower / ts) <= j <= seg (lower / ts) + ts ->
       j <> counters + lower / ts -> words m' !! j = words m !! j).
Proof.
  intros Hfits Hinv Ht Hle Hw Hup.
  assert (Hsums := fits_words c b a m Hfits). destruct Hfits as [Hlf Hlw].
  remember (lower / ts) as t eqn:Et.
  destruct (seg_in_scratch c b t ts Ht ltac:(lia)) as [Hseg1 Hseg2].
  destruct (seg_in_scratch c b t 0 Ht ltac:(lia)) as [Hseg3 _].
  assert (HT := sums_after_counters c b).
  set (mz := mkMemory (flags m) (<[seg t + 0 := 0]> (words m))).
  assert (Hz : segment_holds (words mz) (seg t) 0 []).
  { split.
    - simpl. rewrite Nat.add_0_r. apply list_lookup_insert_eq. lia.
    - intros k x Hk. rewrite lookup_nil in Hk. discriminate. }
  assert (Hframe_z : set_equivalence c mz /\ stack_prefix c mz = stack_prefix c m
                     /\ forall i, flag_at c mz i = flag_at c m i).
  { apply (set_equivalence_frame c m mz s Hs Hinv); [reflexivity | |].
    - simpl. apply length_insert.
    - intros k Hk. simpl. apply list_lookup_insert_ne. lia. }
  destruct Hframe_z as (Hinv_z & Hsp_z & _).
  assert (Hscan : exists m1,
    (if usub cfg upper lower <? _n c
     then scan_tile_range c (Some (seg t)) (ptr_add (Some (seg t)) 1) lower upper
     else scan_global_stack cfg c (Some (seg t)) (ptr_add (Some (seg t)) 1)
            lower upper) mz = Ok (tt, m1) /\
    flags m1 = flags m /\ length (words m1) = length (words m) /\
    (let L := if upper - lower <? _n c
              then offsets_by_range c m lower upper
              else offsets_by_stack c m lower upper in
     segment_holds (words m1) (seg t) (length L) L) /\
    (forall j, ~ seg t <= j <= seg t + ts -> words m1 !! j = words m !! j)).
  { rewrite usub_ok by exact Hle. simpl ptr_add.
    destruct (upper - lower <? _n c).
    - destruct (scan_tile_range_spec c a (seg t) ts lower upper mz Ha Hle Hw)
        as (m1 & Hrun & Hf1 & Hl1 & Hseg & Hfr); [simpl; lia | | exact Hz |].
      { simpl. rewrite length_insert. lia. }
      exists m1. split; [exact Hrun |]. split; [exact Hf1 |].
      split; [rewrite Hl1; simpl; apply length_insert |]. split; [exact Hseg |].
      intros j Hj. rewrite Hfr by exact Hj. simpl.
      apply list_lookup_insert_ne. lia.
    - destruct (scan_global_stack_spec cfg c a s (seg t) ts lower upper mz
                  Ha Hs Hinv_z Hup Hw)
        as (m1 & Hrun & Hf1 & Hl1 & Hseg & Hfr); [lia | | exact Hz |].
      { simpl. rewrite length_insert. lia. }
      exists m1. split; [exact Hrun |]. split; [exact Hf1 |].
      split; [rewrite Hl1; simpl; apply length_insert |]. split.
      + unfold offsets_by_stack in *. rewrite Hsp_z in Hseg. exact Hseg.
      + intros j Hj. rewrite Hfr by exact Hj. simpl.
        apply list_lookup_insert_ne. lia. }
  destruct Hscan as (m1 & Hrun & Hf1 & Hl1 & Hseg & Hfr).
  eexists. split.
  { unfold asyncSubsetInit. fold ts.
    destruct (Nat.eqb_spec (_cap c) 0) as [? | _]; [lia |].
    mstep ltac:(apply div_ok; exact Hts). rewrite <- Et.
    mstep ltac:(apply vector_at_ok; apply (local_buffer_at c b t Hinst Hb Ht)).
    mstep ltac:(apply store_word_ok; lia).
    fold mz. mstep ltac:(exact Hrun).
    rewrite (local_new_nnzs_at c b Hinst Hb). apply store_word_ok. lia. }
  simpl. split; [exact Hf1 |]. split; [rewrite length_insert; exact Hl1 |].
  split; [| split].
  - destruct Hseg as [Hc He]. split.
    + rewrite list_lookup_insert_ne by lia. exact Hc.
    + intros k x Hk. rewrite list_lookup_insert_ne.
      * apply He. exact Hk.
      * apply lookup_lt_Some in Hk.
        assert (length (if upper - lower <? _n c
                        then offsets_by_range c m lower upper
                        else offsets_by_stack c m lower upper) <= ts).
        { destruct (upper - lower <? _n c).
          - assert (H := offsets_by_range_length c m lower upper). lia.
          - assert (H := offsets_of_taken_length c m lower upper (_n c) Hinv Hup).
            unfold offsets_by_stack. rewrite take_ge in H; [lia |].
            rewrite (stack_prefix_length c m s Hs); [lia |].
            destruct Hinv as (_ & Hn & _). lia. }
        destruct (seg_in_scratch c b t (1 + k) Ht ltac:(lia)). lia.
  - apply list_lookup_insert_eq. lia.
  - intros j Hj1 Hj2. rewrite list_lookup_insert_ne by lia.
    apply Hfr. exact Hj1.
Qed.

End Tiled.

Section SubsetInitClaim.

Variable cfg : Config.

Lemma segment_holds_list (w : list nat) (sg : nat) (L : list nat) :
  segment_holds w sg (length L) L ->
  sg + 1 + length L <= length w ->
  take (length L) (drop (sg + 1) w) = L.
Proof.
  intros [_ He] Hlen. apply list_eq. intros k.
  destruct (Nat.lt_ge_cases k (length L)) as [Hk | Hk].
  - rewrite lookup_take_lt by exact Hk. rewrite lookup_drop.
    destruct (lookup_lt_is_Some_2 L k Hk) as [x Hx].
    rewrite Hx. apply He. exact Hx.
  - rewrite lookup_take_ge by exact Hk. symmetry.
    apply lookup_ge_None_2. exact Hk.
Qed.

Lemma offsets_as_image c m lower upper j :
  lower <= upper ->
  (j < upper - lower /\ flag_at c m (lower + j) = true)
  <-> (exists i, lower <= i < upper /\ flag_at c m i = true /\ j = i - lower).
Proof.
  intros Hle. split.
  - intros [Hj Hf]. exists (lower + j). split; [lia |]. split; [exact Hf | lia].
  - intros (i & Hi & Hf & ->).
    replace (lower + (i - lower)) with i by lia. split; [lia | exact Hf].
Qed.

(** C5: [asyncSubsetInit] leaves in the tile's local stack exactly the offsets
    of the indices of the tile that are present, without repeats, and zero in
    the tile's counter of new nonzeroes; its two scans, run on the same state,
    fill the local stack with the same offsets. *)
Theorem asyncSubsetInit_populates (c0 c : Coordinates) (am : AnalyticModel)
    (m0 m : Memory) (lower upper : nat) :
  localCoordinatesInit cfg c0 am m0 = Ok (c, m0) ->
  set_equivalence c m -> scratch_fits c m ->
  0 < _cap c -> 0 < getTileSize am ->
  lower / getTileSize am < getNumTiles am ->
  lower <= upper -> upper - lower <= getTileSize am -> upper <= _cap c ->
  (exists m',
     asyncSubsetInit cfg c lower upper m = Ok (tt, m') /\
     NoDup (local_stack c m' (lower / getTileSize am)) /\
     (forall j, j ∈ local_stack c m' (lower / getTileSize am) <->
        exists i, lower <= i < upper /\ flag_at c m i = true /\ j = i - lower) /\
     new_count c m' (lower / getTileSize am) = Some 0 /\
     flags m' = flags m /\ stack_prefix c m' = stack_prefix c m) /\
  (exists mz m1 m2,
     store_word (tile_segment c (lower / getTileSize am)) 0 0 m = Ok (tt, mz) /\
     scan_tile_range c (tile_segment c (lower / getTileSize am))
       (ptr_add (tile_segment c (lower / getTileSize am)) 1) lower upper mz
     = Ok (tt, m1) /\
     scan_global_stack cfg c (tile_segment c (lower / getTileSize am))
       (ptr_add (tile_segment c (lower / getTileSize am)) 1) lower upper mz
     = Ok (tt, m2) /\
     local_stack c m1 (lower / getTileSize am)
     ≡ₚ local_stack c m2 (lower / getTileSize am)).
Proof.
  intros Hinit Hinv Hfit Hcap Hts Ht Hle Hw Hup.
  apply localCoordinatesInit_installs in Hinit
    as (_ & Hinst & Ham & _ & _ & _ & _ & _).
  subst am. unfold scratch_fits in Hfit.
  destruct (_stack c) as [s |] eqn:Hs; [| contradiction].
  destruct (_buffer c) as [b |] eqn:Hb; [| contradiction].
  destruct Hfit as [HsB Hlen].
  destruct (bound_in_pointers c m (proj1 Hinv) Hcap)
    as (a & s' & Ha & Hs' & Hla & Hls).
  assert (s' = s) as -> by congruence.
  set (ts := getTileSize (analytic_model c)) in *.
  set (T := getNumTiles (analytic_model c)) in *.
  remember (lower / ts) as t eqn:Et.
  assert (Hfits : fits c a b m) by (split; assumption).
  assert (Hseg : tile_segment c t = Some (segment_of c b t)).
  { apply (installed_tile_segment c b t Hinst Hb Ht). }
  destruct (seg_in_scratch c b t ts Ht ltac:(lia)) as [Hseg1 Hseg2].
  destruct (seg_in_scratch c b t 0 Ht ltac:(lia)) as [Hseg3 _].
  assert (HT := sums_after_counters c b).
  assert (Hsums := fits_words c b a m Hfits). fold T in HT, Hsums.
  assert (Hnn : local_new_nnzs c = Some (counters_of c b))
    by (apply local_new_nnzs_at; assumption).
  split.
  - destruct (asyncSubsetInit_spec cfg c a s b Hinst Ha Hs Hb Hts Hcap HsB
                m lower upper Hfits Hinv) as (m' & Hrun & Hf & Hl & Hseg' & Hnew & Hfr);
      fold ts; rewrite <- ?Et; auto.
    fold ts in Hseg', Hnew, Hfr. rewrite <- Et in Hseg', Hnew, Hfr.
    cbv zeta in Hseg'.
    set (L := if upper - lower <? _n c
              then offsets_by_range c m lower upper
              else offsets_by_stack c m lower upper) in *.
    assert (HLlen : length L <= ts).
    { apply NoDup_bounded_length.
      - unfold L. destruct (upper - lower <? _n c);
          [apply offsets_by_range_NoDup | apply offsets_by_stack_NoDup; exact Hinv].
      - intros x Hx. unfold L in Hx. destruct (upper - lower <? _n c).
        + apply offsets_by_range_elem in Hx. lia.
        + apply offsets_by_stack_elem in Hx; [lia | exact Hinv | exact Hup]. }
    assert (Hls' : local_stack c m' t = L).
    { unfold local_stack. rewrite Hseg. rewrite (proj1 Hseg').
      apply segment_holds_list; [exact Hseg' | lia]. }
    exists m'. split; [exact Hrun |]. rewrite Hls'.
    split; [| split; [| split; [| split]]].
    + unfold L. destruct (upper - lower <? _n c);
        [apply offsets_by_range_NoDup | apply offsets_by_stack_NoDup; exact Hinv].
    + intros j. rewrite <- offsets_as_image by exact Hle.
      unfold L. destruct (upper - lower <? _n c).
      * apply offsets_by_range_elem.
      * apply offsets_by_stack_elem; assumption.
    + unfold new_count. rewrite Hnn. exact Hnew.
    + exact Hf.
    + apply (set_equivalence_frame c m m' s Hs Hinv Hf Hl).
      intros k Hk. apply Hfr; lia.
  - rewrite Hseg. simpl ptr_add.
    set (mz := mkMemory (flags m) (<[segment_of c b t + 0 := 0]> (words m))).
    assert (Hz : segment_holds (words mz) (segment_of c b t) 0 []).
    { split.
      - simpl. rewrite Nat.add_0_r. apply list_lookup_insert_eq. lia.
      - intros k x Hk. rewrite lookup_nil in Hk. discriminate. }
    assert (Hframe_z : set_equivalence c mz /\ stack_prefix c mz = stack_prefix c m
                       /\ forall i, flag_at c mz i = flag_at c m i).
    { apply (set_equivalence_frame c m mz s Hs Hinv); [reflexivity | |].
      - simpl. apply length_insert.
      - intros k Hk. simpl. apply list_lookup_insert_ne. lia. }
    destruct Hframe_z as (Hinv_z & Hsp_z & _).
    destruct (scan_tile_range_spec c a (segment_of c b t) ts lower upper mz Ha Hle Hw)
      as (m1 & Hrun1 & Hf1 & Hl1 & Hseg1' & _); [simpl; lia | | exact Hz |].
    { simpl. rewrite length_insert. lia. }
    destruct (scan_global_stack_spec cfg c a s (segment_of c b t) ts lower upper mz
                Ha Hs Hinv_z Hup Hw)
      as (m2 & Hrun2 & Hf2 & Hl2 & Hseg2' & _); [lia | | exact Hz |].
    { simpl. rewrite length_insert. lia. }
    exists mz, m1, m2. split; [apply store_word_ok; lia |].
    split; [exact Hrun1 |]. split; [exact Hrun2 |].
    assert (Hlen1 := offsets_by_range_length c mz lower upper).
    assert (Hperm := offsets_agree c mz lower upper Hinv_z Hup).
    assert (Hlen2 : length (offsets_by_stack c mz lower upper) <= ts).
    { rewrite <- Hperm. lia. }
    simpl in Hl1, Hl2. rewrite length_insert in Hl1, Hl2.
    unfold local_stack. rewrite Hseg.
    rewrite (proj1 Hseg1'), (proj1 Hseg2').
    rewrite (segment_holds_list _ _ _ Hseg1') by lia.
    rewrite (segment_holds_list _ _ _ Hseg2') by lia.
    exact Hperm.
Qed.

End SubsetInitClaim.

Lemma asyncSubsetInit_populates_witness :
  (exists m',
     asyncSubsetInit debug_config scenario_three 2 4 scenario_three_memory
     = Ok (tt, m') /\
     NoDup (local_stack scenario_three m' (2 / getTileSize four_tiles)) /\
     (forall j, j ∈ local_stack scenario_three m' (2 / getTileSize four_tiles) <->
        exists i, 2 <= i < 4
                  /\ flag_at scenario_three scenario_three_memory i = true
                  /\ j = i - 2) /\
     new_count scenario_three m' (2 / getTileSize four_tiles) = Some 0 /\
     flags m' = flags scenario_three_memory /\
     stack_prefix scenario_three m'
     = stack_prefix scenario_three scenario_three_memory) /\
  (exists mz m1 m2,
     store_word (tile_segment scenario_three (2 / getTileSize four_tiles)) 0 0
       scenario_three_memory = Ok (tt, mz) /\
     scan_tile_range scenario_three
       (tile_segment scenario_three (2 / getTileSize four_tiles))
       (ptr_add (tile_segment scenario_three (2 / getTileSize four_tiles)) 1)
       2 4 mz
     = Ok (tt, m1) /\
     scan_global_stack debug_config scenario_three
       (tile_segment scenario_three (2 / getTileSize four_tiles))
       (ptr_add (tile_segment scenario_three (2 / getTileSize four_tiles)) 1)
       2 4 mz
     = Ok (tt, m2) /\
     local_stack scenario_three m1 (2 / getTileSize four_tiles)
     ≡ₚ local_stack scenario_three m2 (2 / getTileSize four_tiles)).
Proof.
  apply (asyncSubsetInit_populates debug_config scenario_three_bound
           scenario_three four_tiles scenario_memory scenario_three_memory 2 4).
  - reflexivity.
  - apply set_equivalence_check. vm_compute. reflexivity.
  - unfold scratch_fits. simpl. lia.
  - simpl. lia.
  - simpl. lia.
  - simpl. lia.
  - lia.
  - simpl. lia.
  - simpl. lia.
Defined.

(** ** The prefix sum *)

Section RangeSums.

Variable counts : list nat.

Lemma range_sum_empty lo : range_sum counts lo lo = 0.
Proof. unfold range_sum. rewrite Nat.sub_diag. reflexivity. Qed.

Lemma range_sum_step lo i x :
  lo <= i -> counts !! i = Some x ->
  range_sum counts lo (S i) = range_sum counts lo i + x.
Proof.
  intros Hle Hx. unfold range_sum.
  replace (S i - lo) with (S (i - lo)) by lia.
  assert (Hd : drop lo counts !! (i - lo) = Some x).
  { rewrite lookup_drop. replace (lo + (i - lo)) with i by lia. exact Hx. }
  rewrite (take_S_r _ _ _ Hd), sum_list_with_app. simpl. lia.
Qed.

Lemma range_sum_split lo mid hi :
  lo <= mid -> mid <= hi ->
  range_sum counts lo hi = range_sum counts lo mid + range_sum counts mid hi.
Proof.
  intros H1 H2. unfold range_sum.
  replace (hi - lo) with ((mid - lo) + (hi - mid)) by lia.
  rewrite <- (take_drop (mid - lo) (take (mid - lo + (hi - mid)) (drop lo counts))).
  rewrite sum_list_with_app. f_equal.
  - rewrite take_take. f_equal. f_equal. lia.
  - rewrite <- take_drop_commute, drop_drop. f_equal.
    replace (lo + (mid - lo)) with mid by lia. reflexivity.
Qed.

Lemma range_sum_all : range_sum counts 0 (length counts) = sum_list counts.
Proof.
  unfold range_sum. rewrite Nat.sub_0_r, drop_0, take_ge by lia. reflexivity.
Qed.

End RangeSums.

Lemma running_sums_take (counts : list nat) : forall old i,
  i < length counts ->
  running_sums old counts !! i = Some (old + sum_list (take (S i) counts)).
Proof.
  induction counts as [| x rest IH]; intros old i Hi; simpl in Hi; [lia |].
  destruct i as [| i]; simpl.
  - f_equal. lia.
  - rewrite IH by lia. f_equal. lia.
Qed.

Lemma running_sums_lookup (counts : list nat) old i :
  i < length counts ->
  running_sums old counts !! i = Some (old + range_sum counts 0 (S i)).
Proof.
  intros Hi. rewrite running_sums_take by exact Hi.
  unfold range_sum. rewrite Nat.sub_0_r, drop_0. reflexivity.
Qed.

Lemma running_sums_length (counts : list nat) : forall old,
  length (running_sums old counts) = length counts.
Proof.
  induction counts as [| x rest IH]; intros old; simpl; [reflexivity |].
  rewrite IH. reflexivity.
Qed.

Lemma counts_at_lookup nn counts m i x :
  counts_at nn counts m -> counts !! i = Some x ->
  words m !! (nn + i) = Some x.
Proof.
  unfold counts_at. intros Hc Hx.
  assert (Hi : i < length counts) by (apply lookup_lt_Some in Hx; exact Hx).
  rewrite <- Hc in Hx. rewrite lookup_take_lt in Hx by exact Hi.
  rewrite lookup_drop in Hx. exact Hx.
Qed.

Section PrefixSum.

Variable cfg : Config.
Variable c : Coordinates.
Variables nn ps : nat.
Variable counts : list nat.

Let T := length counts.

Hypothesis Hnn : local_new_nnzs c = Some nn.
Hypothesis Hps : pref_sum c = Some ps.
Hypothesis Hapart : nn + T <= ps \/ ps + T <= nn.

Local Abbreviation frame := (sums_frame ps T).

Lemma sums_frame_refl m : frame m m.
Proof. repeat split; reflexivity. Qed.

Lemma sums_frame_store m m' i v :
  frame m m' -> i < T -> ps + T <= length (words m) ->
  exists m'',
    store_word (pref_sum c) i v m' = Ok (tt, m'') /\
    frame m m'' /\
    words m'' !! (ps + i) = Some v /\
    forall j, j <> ps + i -> words m'' !! j = words m' !! j.
Proof.
  intros (Hf & Hl & Hfr) Hi Hlen. rewrite Hps.
  eexists. split; [apply store_word_ok; lia |]. unfold sums_frame. simpl.
  split; [| split].
  - split; [exact Hf |]. split; [rewrite length_insert; exact Hl |].
    intros j Hj. rewrite list_lookup_insert_ne by lia. apply Hfr. exact Hj.
  - apply list_lookup_insert_eq. lia.
  - intros j Hj. apply list_lookup_insert_ne. lia.
Qed.

Lemma counts_at_frame m m' i x :
  counts_at nn counts m -> frame m m' ->
  counts !! i = Some x ->
  load_word (local_new_nnzs c) i m' = Ok (x, m').
Proof.
  intros Hc (_ & _ & Hfr) Hx. rewrite Hnn. apply load_word_ok.
  assert (Hi : i < T) by (apply lookup_lt_Some in Hx; exact Hx).
  rewrite Hfr by lia. apply (counts_at_lookup nn counts m i x Hc Hx).
Qed.

(** The loop both branches share: [pref_sum[ i ] = pref_sum[ i - 1 ] +
    local_new_nnzs[ i ]] for [i] from [lo + 1] to [hi - 1], once
    [pref_sum[ lo ]] holds [base] plus the first count of the range. *)
Lemma accumulate_range m m1 lo hi base :
  counts_at nn counts m -> frame m m1 ->
  ps + T <= length (words m) ->
  lo < hi -> hi <= T ->
  words m1 !! (ps + lo) = Some (base + range_sum counts lo (S lo)) ->
  exists m2,
    for_range (lo + 1) hi (fun i (_ : unit) =>
      p <- load_word (pref_sum c) (i - 1) ;;
      x <- load_word (local_new_nnzs c) i ;;
      store_word (pref_sum c) i (p + x)) tt m1 = Ok (tt, m2) /\
    frame m m2 /\
    (forall i, lo <= i < hi ->
       words m2 !! (ps + i) = Some (base + range_sum counts lo (S i))) /\
    (forall j, ~ ps + lo <= j < ps + hi -> words m2 !! j = words m1 !! j).
Proof.
  intros Hc Hfr Hlen Hlt Hhi Hfirst.
  destruct (for_range_inv
    (fun i (_ : unit) m2 =>
       frame m m2 /\
       (forall k, lo <= k < i ->
          words m2 !! (ps + k) = Some (base + range_sum counts lo (S k))) /\
       (forall j, ~ ps + lo <= j < ps + i -> words m2 !! j = words m1 !! j))
    (fun i (_ : unit) =>
      p <- load_word (pref_sum c) (i - 1) ;;
      x <- load_word (local_new_nnzs c) i ;;
      store_word (pref_sum c) i (p + x))
    (lo + 1) hi tt m1 ltac:(lia)) as ([] & m2 & Hrun & Hpost).
  - split; [exact Hfr |]. split; [| reflexivity].
    intros k Hk. replace k with lo by lia. exact Hfirst.
  - intros i [] m2 Hi (Hfr2 & Hdone & Hrest).
    destruct (lookup_lt_is_Some_2 counts i ltac:(fold T; lia)) as [x Hx].
    destruct (sums_frame_store m m2 i (base + range_sum counts lo (S (i - 1)) + x)
                Hfr2 ltac:(lia) Hlen) as (m3 & Hst & Hfr3 & Hnew & Hold).
    exists tt, m3. split.
    { mstep ltac:(rewrite Hps; apply load_word_ok;
                  replace (ps + (i - 1)) with (ps + (i - 1)) by lia;
                  apply Hdone; lia).
      mstep ltac:(apply (counts_at_frame m m2 i x Hc Hfr2 Hx)).
      exact Hst. }
    split; [exact Hfr3 |]. split.
    + intros k Hk. destruct (Nat.eq_dec k i) as [-> | Hne].
      * rewrite Hnew. f_equal.
        rewrite (range_sum_step counts lo i x) by (lia || exact Hx).
        replace (S (i - 1)) with i by lia. lia.
      * rewrite Hold by lia. apply Hdone. lia.
    + intros j Hj. rewrite Hold by lia. apply Hrest. lia.
  - exists m2. split; [exact Hrun |]. tauto.
Qed.

(** The sequential branch. *)
Lemma prefix_sum_sequential_spec m :
  counts_at nn counts m -> ps + T <= length (words m) -> 0 < T ->
  exists m',
    prefix_sum_sequential c T m = Ok (tt, m') /\
    frame m m' /\
    forall i, i < T ->
      words m' !! (ps + i) = Some (_n c + range_sum counts 0 (S i)).
Proof.
  intros Hc Hlen HT.
  destruct (lookup_lt_is_Some_2 counts 0 HT) as [x Hx].
  destruct (sums_frame_store m m 0 (_n c + x) (sums_frame_refl m) HT Hlen)
    as (m1 & Hst & Hfr1 & Hnew & Hold).
  destruct (accumulate_range m m1 0 T (_n c) Hc Hfr1 Hlen HT ltac:(lia))
    as (m2 & Hrun & Hfr2 & Hsums & _).
  { rewrite Hnew. f_equal.
    rewrite (range_sum_step counts 0 0 x) by (lia || exact Hx).
    rewrite range_sum_empty. lia. }
  exists m2. split.
  { unfold prefix_sum_sequential.
    mstep ltac:(apply (counts_at_frame m m 0 x Hc (sums_frame_refl m) Hx)).
    mstep ltac:(exact Hst).
    exact Hrun. }
  split; [exact Hfr2 |]. intros i Hi. apply Hsums. lia.
Qed.

(** *** The chunks of the parallel branch *)

Variables chunk_size chunks : nat.

Hypothesis Hchunks : chunks_partition cfg T chunk_size chunks = true.

Local Abbreviation lo id := (fst (localRange cfg 0 T chunk_size id chunks)).
Local Abbreviation hi id := (snd (localRange cfg 0 T chunk_size id chunks)).

Lemma chunks_facts :
  0 < chunks /\ lo 0 = 0 /\ hi (chunks - 1) = T /\
  (forall id, id < chunks -> lo id < hi id) /\
  (forall id, id + 1 < chunks -> hi id = lo (id + 1)).
Proof.
  unfold chunks_partition in Hchunks.
  apply andb_true_iff in Hchunks as [H Hall].
  apply andb_true_iff in H as [H Hlast].
  apply andb_true_iff in H as [Hpos Hfirst].
  apply Nat.ltb_lt in Hpos. apply Nat.eqb_eq in Hfirst. apply Nat.eqb_eq in Hlast.
  rewrite forallb_forall in Hall.
  split; [exact Hpos |]. split; [exact Hfirst |]. split; [exact Hlast |].
  split.
  - intros id Hid. specialize (Hall id ltac:(apply in_seq; lia)).
    apply andb_true_iff in Hall as [Hne _]. apply Nat.ltb_lt. exact Hne.
  - intros id Hid. specialize (Hall id ltac:(apply in_seq; lia)).
    apply andb_true_iff in Hall as [_ Hadj].
    destruct (Nat.ltb_spec (id + 1) chunks) as [_ | ?]; [| lia].
    simpl in Hadj. apply Nat.eqb_eq. exact Hadj.
Qed.

Lemma chunks_ordered id k :
  id + k < chunks -> lo id + k <= lo (id + k) /\ (0 < k -> hi id <= lo (id + k)).
Proof.
  destruct chunks_facts as (_ & _ & _ & Hne & Hadj).
  induction k as [| k IH]; intros Hk.
  - rewrite !Nat.add_0_r. split; lia.
  - destruct (IH ltac:(lia)) as [IH1 IH2].
    assert (H1 := Hne (id + k) ltac:(lia)).
    assert (H2 := Hadj (id + k) ltac:(lia)).
    replace (id + S k) with (id + k + 1) by lia.
    destruct k as [| k'].
    + rewrite Nat.add_0_r in *. split; lia.
    + specialize (IH2 ltac:(lia)). split; lia.
Qed.

Lemma chunks_apart id id' i :
  id < chunks -> id' < chunks -> id <> id' ->
  lo id <= i < hi id -> ~ lo id' <= i < hi id'.
Proof.
  intros H1 H2 Hne Hi Hi'.
  destruct (Nat.lt_ge_cases id id') as [Hlt | Hge].
  - destruct (chunks_ordered id (id' - id) ltac:(lia)) as [_ H].
    replace (id + (id' - id)) with id' in H by lia. specialize (H ltac:(lia)). lia.
  - destruct (chunks_ordered id' (id - id') ltac:(lia)) as [_ H].
    replace (id' + (id - id')) with id in H by lia. specialize (H ltac:(lia)). lia.
Qed.

Lemma chunks_within id : id < chunks -> id <= lo id /\ hi id <= T.
Proof.
  intros Hid.
  destruct chunks_facts as (_ & Hfirst & Hlast & Hne & _).
  destruct (chunks_ordered 0 id ltac:(lia)) as [H0 _]. simpl in H0.
  split; [lia |].
  destruct (Nat.eq_dec id (chunks - 1)) as [-> | Hn]; [lia |].
  destruct (chunks_ordered id (chunks - 1 - id) ltac:(lia)) as [_ H].
  replace (id + (chunks - 1 - id)) with (chunks - 1) in H by lia.
  specialize (H ltac:(lia)). specialize (Hne (chunks - 1) ltac:(lia)). lia.
Qed.

Lemma chunks_cover i :
  i < T -> exists id, id < chunks /\ lo id <= i < hi id.
Proof.
  intros Hi.
  destruct chunks_facts as (Hpos & Hfirst & Hlast & Hne & Hadj).
  assert (H : forall k, k < chunks -> lo (chunks - 1 - k) <= i ->
            exists id, id < chunks /\ lo id <= i < hi id).
  { intros k. induction k as [| k IH]; intros Hk Hlo.
    - exists (chunks - 1). rewrite Nat.sub_0_r in Hlo. split; [lia |]. lia.
    - destruct (Nat.lt_ge_cases i (hi (chunks - 1 - S k))) as [Hlt | Hge].
      + exists (chunks - 1 - S k). split; [lia |]. lia.
      + apply IH; [lia |].
        rewrite (Hadj (chunks - 1 - S k)) in Hge by lia.
        replace (chunks - 1 - S k + 1) with (chunks - 1 - k) in Hge by lia.
        exact Hge. }
  apply (H (chunks - 1)); [lia |].
  replace (chunks - 1 - (chunks - 1)) with 0 by lia. lia.
Qed.

(** *** The first loop *)

Lemma chunk_pass id lps m m1 :
  counts_at nn counts m -> frame m m1 ->
  ps + T <= length (words m) ->
  id < chunks -> length lps = chunks ->
  exists m2,
    prefix_sum_chunk cfg c T chunk_size chunks id lps m1
    = Ok (<[id := Some (range_sum counts (lo id) (hi id))]> lps, m2) /\
    frame m m2 /\
    (forall i, lo id <= i < hi id ->
       words m2 !! (ps + i) = Some (range_sum counts (lo id) (S i))) /\
    (forall j, ~ ps + lo id <= j < ps + hi id ->
       words m2 !! j = words m1 !! j).
Proof.
  intros Hc Hfr Hlen Hid Hlps.
  destruct chunks_facts as (Hpos & _ & Hlast & Hne & _).
  specialize (Hne id Hid).
  destruct (chunks_within id Hid) as [Hidx Hup].
  assert (Hfinal : id = chunks - 1 -> hi id = T) by (intros ->; exact Hlast).
  unfold prefix_sum_chunk.
  destruct (localRange cfg 0 T chunk_size id chunks) as [lower upper].
  simpl in *.
  destruct (lookup_lt_is_Some_2 counts lower ltac:(fold T; lia)) as [x Hx].
  destruct (sums_frame_store m m1 lower x Hfr ltac:(lia) Hlen)
    as (m2 & Hst & Hfr2 & Hnew & Hold).
  destruct (accumulate_range m m2 lower upper 0 Hc Hfr2 Hlen Hne Hup)
    as (m3 & Hrun & Hfr3 & Hsums & Hrest).
  { rewrite Hnew. f_equal.
    rewrite (range_sum_step counts lower lower x) by (lia || exact Hx).
    rewrite range_sum_empty. lia. }
  exists m3. split.
  { mstep ltac:(apply assert_ok; apply Nat.leb_le; lia).
    mstep ltac:(apply assert_ok; rewrite usub_ok by lia;
                destruct (Nat.ltb_spec id (chunks - 1)); [reflexivity |];
                simpl; apply Nat.eqb_eq; apply Hfinal; lia).
    mstep ltac:(apply assert_ok; apply Nat.leb_le; lia).
    mstep ltac:(apply assert_ok; apply Nat.leb_le; lia).
    mstep ltac:(apply (counts_at_frame m m1 lower x Hc Hfr Hx)).
    mstep ltac:(exact Hst).
    mstep ltac:(exact Hrun).
    mstep ltac:(apply index_sub_ok; lia).
    mstep ltac:(rewrite Hps; apply load_word_ok; apply Hsums; lia).
    replace (S (upper - 1)) with upper by lia. simpl.
    apply local_set_ok. lia. }
  split; [exact Hfr3 |]. split.
  - intros i Hi. rewrite Hsums by lia. reflexivity.
  - intros j Hj. rewrite Hrest by lia. apply Hold. lia.
Qed.

Lemma first_loop sched m :
  counts_at nn counts m -> ps + T <= length (words m) ->
  (forall id, id ∈ sched -> id < chunks) ->
  exists lps m1,
    for_each sched (prefix_sum_chunk cfg c T chunk_size chunks)
      (local_array chunks) m = Ok (lps, m1) /\
    frame m m1 /\ length lps = chunks /\
    forall id, id ∈ sched ->
      (forall i, lo id <= i < hi id ->
         words m1 !! (ps + i) = Some (range_sum counts (lo id) (S i))) /\
      lps !! id = Some (Some (range_sum counts (lo id) (hi id))).
Proof.
  intros Hc Hlen Hsched.
  destruct (for_each_inv
    (fun ran lps m1 =>
       frame m m1 /\ length lps = chunks /\
       forall id, id ∈ ran ->
         (forall i, lo id <= i < hi id ->
            words m1 !! (ps + i) = Some (range_sum counts (lo id) (S i))) /\
         lps !! id = Some (Some (range_sum counts (lo id) (hi id))))
    (prefix_sum_chunk cfg c T chunk_size chunks) sched [] (local_array chunks) m)
    as (lps & m1 & Hrun & Hpost).
  - split; [apply sums_frame_refl |].
    split; [unfold local_array; apply length_replicate |].
    intros id Hid. apply elem_of_nil in Hid. contradiction.
  - intros ran id rest lps m1 Heq (Hfr & Hlps & Hdone).
    assert (Hid : id < chunks).
    { apply Hsched. simpl in Heq. rewrite Heq. apply elem_of_app. right.
      apply elem_of_cons. left. reflexivity. }
    destruct (chunk_pass id lps m m1 Hc Hfr Hlen Hid Hlps)
      as (m2 & Hrun & Hfr2 & Hsums & Hrest).
    eexists _, m2. split; [exact Hrun |].
    split; [exact Hfr2 |]. split; [rewrite length_insert; exact Hlps |].
    intros id' Hid'.
    destruct (Nat.eq_dec id' id) as [-> | Hne].
    + split; [exact Hsums |]. apply list_lookup_insert_eq. lia.
    + apply elem_of_app in Hid' as [Hold | Hnew];
        [| apply list_elem_of_singleton in Hnew; contradiction].
      destruct (Hdone id' Hold) as [Hs' Hl'].
      assert (Hid'' : id' < chunks).
      { apply lookup_lt_Some in Hl'. lia. }
      split.
      * intros i Hi. rewrite Hrest; [apply Hs'; exact Hi |].
        assert (Hap := chunks_apart id' id i Hid'' Hid Hne Hi). lia.
      * rewrite list_lookup_insert_ne by lia. exact Hl'.
  - exists lps, m1. split; [exact Hrun |]. exact Hpost.
Qed.

(** *** The single block *)

Lemma totals_pass lps m :
  length lps = chunks ->
  (forall id, id < chunks ->
     lps !! id = Some (Some (range_sum counts (lo id) (hi id)))) ->
  exists lps',
    prefix_sum_totals chunks lps m = Ok (lps', m) /\
    length lps' = chunks /\
    forall id, id < chunks ->
      lps' !! id = Some (Some (range_sum counts 0 (hi id))).
Proof.
  intros Hlen Hlps.
  destruct chunks_facts as (Hpos & Hfirst & _ & Hne & Hadj).
  destruct (for_range_inv
    (fun i l m' =>
       m' = m /\ length l = chunks /\
       (forall k, k < i -> k < chunks ->
          l !! k = Some (Some (range_sum counts 0 (hi k)))) /\
       (forall k, i <= k -> k < chunks ->
          l !! k = Some (Some (range_sum counts (lo k) (hi k)))))
    (fun i l =>
      x <- local_get l i ;;
      y <- local_get l (i - 1) ;;
      local_set l i (x + y))
    1 chunks lps m Hpos) as (lps' & m' & Hrun & Hm & Hl & Hdone & _).
  - split; [reflexivity |]. split; [exact Hlen |]. split.
    + intros k Hk Hkc. replace k with 0 by lia.
      rewrite (Hlps 0) by lia. rewrite Hfirst. reflexivity.
    + intros k Hk Hkc. apply Hlps. exact Hkc.
  - intros i l m1 Hi (-> & Hl & Hdone & Htodo).
    eexists _, m. split.
    { mstep ltac:(apply local_get_ok; apply Htodo; lia).
      mstep ltac:(apply local_get_ok; apply Hdone; lia).
      apply local_set_ok. lia. }
    split; [reflexivity |]. split; [rewrite length_insert; exact Hl |]. split.
    + intros k Hk Hkc. destruct (Nat.eq_dec k i) as [-> | Hn].
      * rewrite list_lookup_insert_eq by lia. do 2 f_equal.
        assert (Ha := Hadj (i - 1) ltac:(lia)).
        replace (i - 1 + 1) with i in Ha by lia. rewrite Ha.
        destruct (chunks_within i ltac:(lia)) as [_ ?].
        specialize (Hne i ltac:(lia)).
        rewrite (range_sum_split counts 0 (lo i) (hi i)) by lia. lia.
      * rewrite list_lookup_insert_ne by lia. apply Hdone; lia.
    + intros k Hk Hkc. rewrite list_lookup_insert_ne by lia. apply Htodo; lia.
  - subst m'. exists lps'. split; [exact Hrun |]. split; [exact Hl |].
    intros id Hid. apply Hdone; lia.
Qed.

(** *** The second loop *)

Lemma add_back_pass id lps m m1 :
  frame m m1 -> ps + T <= length (words m) ->
  id < chunks ->
  (forall k, k < chunks -> lps !! k = Some (Some (range_sum counts 0 (hi k)))) ->
  (forall i, lo id <= i < hi id ->
     words m1 !! (ps + i) = Some (range_sum counts (lo id) (S i))) ->
  exists m2,
    prefix_sum_add_back cfg c T chunk_size chunks lps id tt m1 = Ok (tt, m2) /\
    frame m m2 /\
    (forall i, lo id <= i < hi id ->
       words m2 !! (ps + i) = Some (_n c + range_sum counts 0 (S i))) /\
    (forall j, ~ ps + lo id <= j < ps + hi id ->
       words m2 !! j = words m1 !! j).
Proof.
  intros Hfr Hlen Hid Hlps Hlocal.
  destruct chunks_facts as (Hpos & Hfirst & _ & Hne & Hadj).
  specialize (Hne id Hid).
  destruct (chunks_within id Hid) as [_ Hup].
  assert (Hprev : (if 0 <? id then local_get lps (id - 1) else ret 0) m1
                  = Ok (range_sum counts 0 (lo id), m1)).
  { destruct (Nat.ltb_spec 0 id) as [Hgt | Hz].
    - apply local_get_ok. rewrite Hlps by lia.
      assert (Ha := Hadj (id - 1) ltac:(lia)).
      replace (id - 1 + 1) with id in Ha by lia. rewrite Ha. reflexivity.
    - replace id with 0 by lia. rewrite Hfirst, range_sum_empty. reflexivity. }
  unfold prefix_sum_add_back.
  destruct (localRange cfg 0 T chunk_size id chunks) as [lower upper].
  simpl in *.
  destruct (for_range_inv
    (fun i (_ : unit) m2 =>
       frame m m2 /\
       (forall k, lower <= k < i ->
          words m2 !! (ps + k) = Some (_n c + range_sum counts 0 (S k))) /\
       (forall k, i <= k < upper ->
          words m2 !! (ps + k) = Some (range_sum counts lower (S k))) /\
       (forall j, ~ ps + lower <= j < ps + upper ->
          words m2 !! j = words m1 !! j))
    (fun i (_ : unit) =>
      p <- load_word (pref_sum c) i ;;
      store_word (pref_sum c) i
        (p + (_n c + range_sum counts 0 lower)))
    lower upper tt m1 ltac:(lia)) as ([] & m2 & Hrun & Hfr2 & Hdone & _ & Hrest).
  - split; [exact Hfr |]. split; [intros k Hk; lia |].
    split; [intros k Hk; apply Hlocal; lia | reflexivity].
  - intros i [] m2 Hi (Hfr2 & Hdone & Htodo & Hrest).
    destruct (sums_frame_store m m2 i
                (range_sum counts lower (S i) + (_n c + range_sum counts 0 lower))
                Hfr2 ltac:(lia) Hlen) as (m3 & Hst & Hfr3 & Hnew & Hold).
    exists tt, m3. split.
    { mstep ltac:(rewrite Hps; apply load_word_ok; apply Htodo; lia).
      exact Hst. }
    split; [exact Hfr3 |]. split; [| split].
    + intros k Hk. destruct (Nat.eq_dec k i) as [-> | Hn].
      * rewrite Hnew. f_equal.
        rewrite (range_sum_split counts 0 lower (S i)) by lia. lia.
      * rewrite Hold by lia. apply Hdone. lia.
    + intros k Hk. rewrite Hold by lia. apply Htodo. lia.
    + intros j Hj. rewrite Hold by lia. apply Hrest. exact Hj.
  - exists m2. split.
    { mstep ltac:(exact Hprev). exact Hrun. }
    split; [exact Hfr2 |]. split; [| exact Hrest].
    intros i Hi. apply Hdone. lia.
Qed.

Lemma second_loop sched lps m m1 :
  frame m m1 -> ps + T <= length (words m) ->
  NoDup sched -> (forall id, id ∈ sched -> id < chunks) ->
  (forall k, k < chunks -> lps !! k = Some (Some (range_sum counts 0 (hi k)))) ->
  (forall id i, id < chunks -> lo id <= i < hi id ->
     words m1 !! (ps + i) = Some (range_sum counts (lo id) (S i))) ->
  exists m2,
    for_each sched (prefix_sum_add_back cfg c T chunk_size chunks lps) tt m1
    = Ok (tt, m2) /\
    frame m m2 /\
    forall id i, id ∈ sched -> lo id <= i < hi id ->
      words m2 !! (ps + i) = Some (_n c + range_sum counts 0 (S i)).
Proof.
  intros Hfr Hlen Hnd Hsched Hlps Hlocal.
  destruct (for_each_inv
    (fun ran (_ : unit) m2 =>
       frame m m2 /\
       forall id i, id < chunks -> lo id <= i < hi id ->
         words m2 !! (ps + i)
         = Some (if decide (id ∈ ran)
                 then _n c + range_sum counts 0 (S i)
                 else range_sum counts (lo id) (S i)))
    (prefix_sum_add_back cfg c T chunk_size chunks lps) sched [] tt m1)
    as ([] & m2 & Hrun & Hfr2 & Hpost).
  - split; [exact Hfr |]. intros id i Hid Hi.
    case_decide as Hin; [apply elem_of_nil in Hin; contradiction |].
    apply Hlocal; assumption.
  - intros ran id rest [] m2 Heq (Hfr2 & Hstate).
    simpl in Heq.
    assert (Hid : id < chunks).
    { apply Hsched. rewrite Heq. apply elem_of_app. right.
      apply elem_of_cons. left. reflexivity. }
    assert (Hfresh : id ∉ ran).
    { rewrite Heq in Hnd. apply NoDup_app in Hnd as (_ & Hd & _).
      intros Hin. apply (Hd id Hin). apply elem_of_cons. left. reflexivity. }
    destruct (add_back_pass id lps m m2 Hfr2 Hlen Hid Hlps)
      as (m3 & Hrun & Hfr3 & Hsums & Hrest).
    { intros i Hi. rewrite (Hstate id i Hid Hi).
      case_decide; [contradiction | reflexivity]. }
    exists tt, m3. split; [exact Hrun |]. split; [exact Hfr3 |].
    intros id' i Hid' Hi.
    destruct (Nat.eq_dec id' id) as [-> | Hne].
    + rewrite (Hsums i Hi). case_decide as Hin; [reflexivity |].
      exfalso. apply Hin. apply elem_of_app. right.
      apply list_elem_of_singleton. reflexivity.
    + rewrite Hrest.
      * rewrite (Hstate id' i Hid' Hi). f_equal.
        repeat case_decide; try reflexivity.
        -- exfalso. match goal with H : ¬ _ |- _ => apply H end.
           apply elem_of_app. left. assumption.
        -- exfalso.
           match goal with H : _ ∈ ran ++ [_] |- _ =>
             apply elem_of_app in H as [? | H];
               [contradiction | apply list_elem_of_singleton in H; contradiction]
           end.
      * assert (Hap := chunks_apart id' id i Hid' Hid Hne Hi). lia.
  - exists m2. split; [exact Hrun |]. split; [exact Hfr2 |].
    intros id i Hin Hi. simpl in Hpost.
    rewrite (Hpost id i (Hsched id Hin) Hi).
    case_decide; [reflexivity | contradiction].
Qed.

(** *** The parallel branch as a whole *)

Lemma prefix_sum_parallel_spec sched1 sched2 m :
  counts_at nn counts m -> ps + T <= length (words m) ->
  sched1 ≡ₚ seq 0 chunks -> sched2 ≡ₚ seq 0 chunks ->
  exists m',
    prefix_sum_parallel cfg sched1 sched2 c T chunk_size chunks m
    = Ok (tt, m') /\
    frame m m' /\
    forall i, i < T ->
      words m' !! (ps + i) = Some (_n c + range_sum counts 0 (S i)).
Proof.
  intros Hc Hlen Hp1 Hp2.
  assert (Hin1 : forall id, id ∈ sched1 <-> id < chunks).
  { intros id. rewrite Hp1, elem_of_seq. lia. }
  assert (Hin2 : forall id, id ∈ sched2 <-> id < chunks).
  { intros id. rewrite Hp2, elem_of_seq. lia. }
  assert (Hnd2 : NoDup sched2) by (rewrite Hp2; apply NoDup_seq).
  destruct (first_loop sched1 m Hc Hlen) as (lps & m1 & Hrun1 & Hfr1 & Hl1 & Hpost1).
  { intros id Hid. apply Hin1. exact Hid. }
  destruct (totals_pass lps m1 Hl1) as (lps' & Hrun2 & Hl2 & Htot).
  { intros id Hid. apply Hpost1. apply Hin1. exact Hid. }
  destruct (second_loop sched2 lps' m m1 Hfr1 Hlen Hnd2) as (m2 & Hrun3 & Hfr2 & Hpost2).
  { intros id Hid. apply Hin2. exact Hid. }
  { exact Htot. }
  { intros id i Hid Hi. apply Hpost1; [apply Hin1; exact Hid | exact Hi]. }
  exists m2. split.
  { unfold prefix_sum_parallel.
    mstep ltac:(exact Hrun1). mstep ltac:(exact Hrun2). exact Hrun3. }
  split; [exact Hfr2 |].
  intros i Hi. destruct (chunks_cover i Hi) as (id & Hid & Hr).
  apply (Hpost2 id i); [apply Hin2; exact Hid | exact Hr].
Qed.

End PrefixSum.

Section PrefixSumClaim.

Variable cfg : Config.

Lemma sums_frame_eq ps len m m1 m2 :
  sums_frame ps len m m1 -> sums_frame ps len m m2 ->
  (forall i, i < len -> words m1 !! (ps + i) = words m2 !! (ps + i)) ->
  m1 = m2.
Proof.
  intros (Hf1 & Hl1 & Hfr1) (Hf2 & Hl2 & Hfr2) Hsame.
  destruct m1 as [f1 w1], m2 as [f2 w2]. simpl in *.
  f_equal; [congruence |].
  apply list_eq. intros j.
  destruct (decide (ps <= j < ps + len)) as [Hj | Hj].
  - replace j with (ps + (j - ps)) by lia. apply Hsame. lia.
  - rewrite Hfr1, Hfr2 by exact Hj. reflexivity.
Qed.

(** The [_DEBUG] block finds the prefix sums equal to its own sequential
    recomputation. *)
Lemma prefix_sum_cross_check_spec c nn ps counts m :
  local_new_nnzs c = Some nn -> pref_sum c = Some ps ->
  counts_at nn counts m -> 0 < length counts ->
  (forall i, i < length counts ->
     words m !! (ps + i) = Some (_n c + range_sum counts 0 (S i))) ->
  prefix_sum_cross_check cfg c (length counts) m = Ok (tt, m).
Proof.
  intros Hnn Hps Hc HT Hsums.
  assert (Hload : forall i x, counts !! i = Some x ->
            load_word (local_new_nnzs c) i m = Ok (x, m)).
  { intros i x Hx. rewrite Hnn. apply load_word_ok.
    apply (counts_at_lookup nn counts m i x Hc Hx). }
  destruct (lookup_lt_is_Some_2 counts 0 HT) as [x0 Hx0].
  unfold prefix_sum_cross_check.
  mstep ltac:(apply (Hload 0 x0 Hx0)).
  mstep ltac:(apply local_set_ok; unfold local_array; rewrite length_replicate;
              exact HT).
  destruct (for_range_inv
    (fun i so m' =>
       m' = m /\ length so = length counts /\
       forall k, k < i -> k < length counts ->
         so !! k = Some (Some (_n c + range_sum counts 0 (S k))))
    (fun i seq_offsets =>
      p <- local_get seq_offsets (i - 1) ;;
      x <- load_word (local_new_nnzs c) i ;;
      local_set seq_offsets i (p + x))
    1 (length counts) (<[0 := Some (_n c + x0)]> (local_array (length counts))) m HT)
    as (so & m' & Hrun & -> & Hl & Hso).
  - split; [reflexivity |].
    split; [rewrite length_insert; unfold local_array; apply length_replicate |].
    intros k Hk Hkc. replace k with 0 by lia.
    rewrite list_lookup_insert_eq
      by (unfold local_array; rewrite length_replicate; lia).
    do 2 f_equal. rewrite (range_sum_step counts 0 0 x0) by (lia || exact Hx0).
    rewrite range_sum_empty. lia.
  - intros i so m1 Hi (-> & Hl & Hso).
    destruct (lookup_lt_is_Some_2 counts i ltac:(lia)) as [x Hx].
    eexists _, m. split.
    { mstep ltac:(apply local_get_ok; apply Hso; lia).
      mstep ltac:(apply (Hload i x Hx)).
      apply local_set_ok. lia. }
    split; [reflexivity |]. split; [rewrite length_insert; exact Hl |].
    intros k Hk Hkc. destruct (Nat.eq_dec k i) as [-> | Hn].
    + rewrite list_lookup_insert_eq by lia. do 2 f_equal.
      rewrite (range_sum_step counts 0 i x) by (lia || exact Hx).
      replace (S (i - 1)) with i by lia. lia.
    + rewrite list_lookup_insert_ne by lia. apply Hso; lia.
  - mstep ltac:(exact Hrun).
    destruct (for_range_inv
      (fun i (_ : unit) m' => m' = m)
      (fun i (_ : unit) =>
         assertM cfg (a <- local_get so i ;;
                      p <- load_word (pref_sum c) i ;;
                      ret (a =? p)))
      0 (length counts) tt m ltac:(lia) eq_refl) as ([] & m' & Hrun2 & ->).
    + intros i [] m1 Hi ->. exists tt, m. split; [| reflexivity].
      apply assertM_ok. intros _.
      mstep ltac:(apply local_get_ok; apply Hso; lia).
      mstep ltac:(rewrite Hps; apply load_word_ok; apply Hsums; lia).
      unfold ret. rewrite Nat.eqb_refl. reflexivity.
    + exact Hrun2.
Qed.

(** The whole function. *)
Lemma prefixSumComputation_spec (c : Coordinates) (m : Memory)
    (nn ps : nat) (counts : list nat) (sched1 sched2 : list nat) :
  local_new_nnzs c = Some nn -> pref_sum c = Some ps ->
  length counts = getNumTiles (analytic_model c) ->
  0 < length counts ->
  counts_at nn counts m ->
  ps + length counts <= length (words m) ->
  nn + length counts <= ps \/ ps + length counts <= nn ->
  (getTileSize (prefix_sum_model cfg (length counts)) <= length counts ->
   chunks_partition cfg (length counts)
     (getTileSize (prefix_sum_model cfg (length counts)))
     (getNumTiles (prefix_sum_model cfg (length counts))) = true /\
   sched1 ≡ₚ seq 0 (getNumTiles (prefix_sum_model cfg (length counts))) /\
   sched2 ≡ₚ seq 0 (getNumTiles (prefix_sum_model cfg (length counts)))) ->
  exists m',
    prefixSumComputation cfg sched1 sched2 c m
    = Ok (with_n c (_n c + sum_list counts), m') /\
    (forall i, i < length counts ->
       words m' !! (ps + i) = Some (_n c + range_sum counts 0 (S i))) /\
    sums_frame ps (length counts) m m' /\
    prefix_sum_sequential c (length counts) m = Ok (tt, m') /\
    (forall chunk_size chunks s1 s2,
       chunks_partition cfg (length counts) chunk_size chunks = true ->
       s1 ≡ₚ seq 0 chunks -> s2 ≡ₚ seq 0 chunks ->
       prefix_sum_parallel cfg s1 s2 c (length counts) chunk_size chunks m
       = Ok (tt, m')).
Proof.
  intros Hnn Hps HT Hpos Hc Hlen Hapart Hpar.
  destruct (prefix_sum_sequential_spec c nn ps counts Hnn Hps Hapart m Hc Hlen Hpos)
    as (m' & Hseq & Hfr & Hsums).
  assert (Hparallel : forall chunk_size chunks s1 s2,
            chunks_partition cfg (length counts) chunk_size chunks = true ->
            s1 ≡ₚ seq 0 chunks -> s2 ≡ₚ seq 0 chunks ->
            prefix_sum_parallel cfg s1 s2 c (length counts) chunk_size chunks m
            = Ok (tt, m')).
  { intros chunk_size chunks s1 s2 Hch Hp1 Hp2.
    destruct (prefix_sum_parallel_spec cfg c nn ps counts Hnn Hps Hapart
                chunk_size chunks Hch s1 s2 m Hc Hlen Hp1 Hp2)
      as (m2 & Hrun & Hfr2 & Hsums2).
    rewrite Hrun. do 2 f_equal.
    apply (sums_frame_eq ps (length counts) m m2 m' Hfr2 Hfr).
    intros i Hi. rewrite Hsums, Hsums2 by exact Hi. reflexivity. }
  assert (Hc' : counts_at nn counts m').
  { unfold counts_at in *. rewrite <- Hc at 2.
    destruct Hfr as (_ & _ & Hfr). apply list_eq. intros i.
    destruct (Nat.lt_ge_cases i (length counts)) as [Hi | Hi].
    - rewrite !lookup_take_lt by exact Hi. rewrite !lookup_drop.
      apply Hfr. lia.
    - rewrite !lookup_take_ge by exact Hi. reflexivity. }
  exists m'. split; [| split; [| split; [exact Hfr | split; assumption]]].
  - unfold prefixSumComputation. rewrite <- HT.
    fold (prefix_sum_model cfg (length counts)).
    assert (Hbranch :
      (if length counts <? getTileSize (prefix_sum_model cfg (length counts))
       then prefix_sum_sequential c (length counts)
       else
         (prefix_sum_parallel cfg sched1 sched2 c (length counts)
            (getTileSize (prefix_sum_model cfg (length counts)))
            (getNumTiles (prefix_sum_model cfg (length counts))) ;;
          if _DEBUG cfg then prefix_sum_cross_check cfg c (length counts)
          else ret tt)) m = Ok (tt, m')).
    { destruct (Nat.ltb_spec (length counts)
                  (getTileSize (prefix_sum_model cfg (length counts))))
        as [Hsmall | Hlarge]; [exact Hseq |].
      destruct (Hpar Hlarge) as (Hch & Hp1 & Hp2).
      mstep ltac:(apply (Hparallel _ _ _ _ Hch Hp1 Hp2)).
      destruct (_DEBUG cfg); [| reflexivity].
      apply (prefix_sum_cross_check_spec c nn ps counts m' Hnn Hps Hc' Hpos Hsums). }
    mstep ltac:(exact Hbranch).
    mstep ltac:(apply index_sub_ok; lia).
    mstep ltac:(rewrite Hps; apply load_word_ok; apply Hsums; lia).
    unfold ret. do 3 f_equal.
    replace (S (length counts - 1)) with (length counts) by lia.
    rewrite range_sum_all. reflexivity.
  - exact Hsums.
Qed.


End PrefixSumClaim.

(** ** The prefix sum in machine words *)

Lemma wrap_to_small bits v : fits_bits bits v -> wrap_to bits v = v.
Proof.
  unfold fits_bits, wrap_to. intros H.
  rewrite N.mod_small by exact H. apply Nat2N.id.
Qed.

Lemma fits_bits_le bits v w : v <= w -> fits_bits bits w -> fits_bits bits v.
Proof. unfold fits_bits. lia. Qed.

Lemma sum_list_take_le (l : list nat) k : sum_list (take k l) <= sum_list l.
Proof.
  rewrite <- (take_drop k l) at 2. rewrite sum_list_with_app. lia.
Qed.

Lemma sum_list_drop_le (l : list nat) k : sum_list (drop k l) <= sum_list l.
Proof.
  rewrite <- (take_drop k l) at 2. rewrite sum_list_with_app. lia.
Qed.

Lemma range_sum_le_total counts lo hi : range_sum counts lo hi <= sum_list counts.
Proof.
  unfold range_sum.
  etransitivity; [apply sum_list_take_le | apply sum_list_drop_le].
Qed.

Lemma range_sum_mono counts lo i hi :
  lo <= i -> i <= hi -> range_sum counts lo i <= range_sum counts lo hi.
Proof.
  intros H1 H2. rewrite (range_sum_split counts lo i hi) by lia. lia.
Qed.

Lemma wrap_to_le bits total v :
  fits_bits bits total -> v <= total -> wrap_to bits v = v.
Proof.
  intros Hfit Hv. apply wrap_to_small. apply (fits_bits_le _ v total Hv Hfit).
Qed.

Lemma in_common_le cfg size_bits total v :
  fits_bits size_bits total -> v <= total -> in_common cfg size_bits v = v.
Proof.
  intros Hfit Hv. apply wrap_to_small. unfold fits_bits in *.
  assert (H : (2 ^ size_bits <= 2 ^ N.max size_bits (index_bits cfg))%N)
    by (apply N.pow_le_mono_r; lia).
  lia.
Qed.

Lemma sum_within_total n counts lo hi :
  n + range_sum counts lo hi <= n + sum_list counts.
Proof. assert (H := range_sum_le_total counts lo hi). lia. Qed.

Section PrefixSumWords.

Variable cfg : Config.
Variable size_bits : N.
Variable c : Coordinates.
Variables nn ps : nat.
Variable counts : list nat.

Local Abbreviation T := (length counts).
Local Abbreviation total := (_n c + sum_list counts).

Hypothesis Hnn : local_new_nnzs c = Some nn.
Hypothesis Hps : pref_sum c = Some ps.
Hypothesis Hapart : nn + T <= ps \/ ps + T <= nn.
Hypothesis Hfit_index : fits_bits (index_bits cfg) total.
Hypothesis Hfit_size : fits_bits size_bits total.

Local Abbreviation frame := (sums_frame ps T).

Lemma to_index_small v : v <= total -> to_index cfg v = v.
Proof. intros Hv. exact (wrap_to_le _ _ _ Hfit_index Hv). Qed.

Lemma to_size_t_small v : v <= total -> to_size_t size_bits v = v.
Proof. intros Hv. exact (wrap_to_le _ _ _ Hfit_size Hv). Qed.

Lemma in_common_small v : v <= total -> in_common cfg size_bits v = v.
Proof. intros Hv. exact (in_common_le cfg _ _ _ Hfit_size Hv). Qed.

Lemma sum_to_bound lo hi : _n c + range_sum counts lo hi <= total.
Proof. exact (sum_within_total (_n c) counts lo hi). Qed.

(** The loop both branches share. *)
Lemma accumulate_range_words m m1 lo hi base :
  counts_at nn counts m -> frame m m1 ->
  ps + T <= length (words m) ->
  lo < hi -> hi <= T ->
  base + range_sum counts lo hi <= total ->
  words m1 !! (ps + lo) = Some (base + range_sum counts lo (S lo)) ->
  exists m2,
    for_range (lo + 1) hi (fun i (_ : unit) =>
      p <- load_word (pref_sum c) (i - 1) ;;
      x <- load_word (local_new_nnzs c) i ;;
      store_word (pref_sum c) i (to_index cfg (p + x))) tt m1 = Ok (tt, m2) /\
    frame m m2 /\
    (forall i, lo <= i < hi ->
       words m2 !! (ps + i) = Some (base + range_sum counts lo (S i))) /\
    (forall j, ~ ps + lo <= j < ps + hi -> words m2 !! j = words m1 !! j).
Proof.
  intros Hc Hfr Hlen Hlt Hhi Hb Hfirst.
  destruct (for_range_inv
    (fun i (_ : unit) m2 =>
       frame m m2 /\
       (forall k, lo <= k < i ->
          words m2 !! (ps + k) = Some (base + range_sum counts lo (S k))) /\
       (forall j, ~ ps + lo <= j < ps + i -> words m2 !! j = words m1 !! j))
    (fun i (_ : unit) =>
      p <- load_word (pref_sum c) (i - 1) ;;
      x <- load_word (local_new_nnzs c) i ;;
      store_word (pref_sum c) i (to_index cfg (p + x)))
    (lo + 1) hi tt m1 ltac:(lia)) as ([] & m2 & Hrun & Hpost).
  - split; [exact Hfr |]. split; [| reflexivity].
    intros k Hk. replace k with lo by lia. exact Hfirst.
  - intros i [] m2 Hi (Hfr2 & Hdone & Hrest).
    destruct (lookup_lt_is_Some_2 counts i ltac:(lia)) as [x Hx].
    assert (Hstep := range_sum_step counts lo i x ltac:(lia) Hx).
    assert (Hmono := range_sum_mono counts lo (S i) hi ltac:(lia) ltac:(lia)).
    destruct (sums_frame_store c nn ps counts Hps Hapart m m2 i
                (base + range_sum counts lo (S (i - 1)) + x)
                Hfr2 ltac:(lia) Hlen) as (m3 & Hst & Hfr3 & Hnew & Hold).
    exists tt, m3. split.
    { mstep ltac:(rewrite Hps; apply load_word_ok; apply Hdone; lia).
      mstep ltac:(apply (counts_at_frame c nn ps counts Hnn Hapart m m2 i x
                           Hc Hfr2 Hx)).
      rewrite to_index_small; [exact Hst |].
      replace (S (i - 1)) with i by lia. lia. }
    split; [exact Hfr3 |]. split.
    + intros k Hk. destruct (Nat.eq_dec k i) as [-> | Hne].
      * rewrite Hnew. f_equal. rewrite Hstep.
        replace (S (i - 1)) with i by lia. lia.
      * rewrite Hold by lia. apply Hdone. lia.
    + intros j Hj. rewrite Hold by lia. apply Hrest. lia.
  - exists m2. split; [exact Hrun |]. tauto.
Qed.

(** The sequential branch. *)
Lemma prefix_sum_sequential_words_spec m :
  counts_at nn counts m -> ps + T <= length (words m) -> 0 < T ->
  exists m',
    prefix_sum_sequential_words cfg size_bits c T m = Ok (tt, m') /\
    frame m m' /\
    forall i, i < T ->
      words m' !! (ps + i) = Some (_n c + range_sum counts 0 (S i)).
Proof.
  intros Hc Hlen HT.
  destruct (lookup_lt_is_Some_2 counts 0 HT) as [x Hx].
  assert (Hfirst : range_sum counts 0 1 = x).
  { rewrite (range_sum_step counts 0 0 x) by (lia || exact Hx).
    rewrite range_sum_empty. lia. }
  assert (Hb0 := sum_to_bound 0 1). rewrite Hfirst in Hb0.
  destruct (sums_frame_store c nn ps counts Hps Hapart m m 0 (_n c + x)
              (sums_frame_refl ps counts m) HT Hlen)
    as (m1 & Hst & Hfr1 & Hnew & Hold).
  destruct (accumulate_range_words m m1 0 T (_n c) Hc Hfr1 Hlen HT ltac:(lia)
              (sum_to_bound 0 T))
    as (m2 & Hrun & Hfr2 & Hsums & _).
  { rewrite Hnew, Hfirst. reflexivity. }
  exists m2. split.
  { unfold prefix_sum_sequential_words.
    mstep ltac:(apply (counts_at_frame c nn ps counts Hnn Hapart m m 0 x Hc
                         (sums_frame_refl ps counts m) Hx)).
    rewrite in_common_small, to_index_small by exact Hb0.
    mstep ltac:(exact Hst).
    exact Hrun. }
  split; [exact Hfr2 |]. intros i Hi. apply Hsums. lia.
Qed.

(** *** The chunks of the parallel branch *)

Variables chunk_size chunks : nat.

Hypothesis Hchunks : chunks_partition cfg T chunk_size chunks = true.

Local Abbreviation lo id := (fst (localRange cfg 0 T chunk_size id chunks)).
Local Abbreviation hi id := (snd (localRange cfg 0 T chunk_size id chunks)).

Lemma chunk_pass_words id lps m m1 :
  counts_at nn counts m -> frame m m1 ->
  ps + T <= length (words m) ->
  id < chunks -> length lps = chunks ->
  exists m2,
    prefix_sum_chunk_words cfg size_bits c T chunk_size chunks id lps m1
    = Ok (<[id := Some (range_sum counts (lo id) (hi id))]> lps, m2) /\
    frame m m2 /\
    (forall i, lo id <= i < hi id ->
       words m2 !! (ps + i) = Some (range_sum counts (lo id) (S i))) /\
    (forall j, ~ ps + lo id <= j < ps + hi id ->
       words m2 !! j = words m1 !! j).
Proof.
  intros Hc Hfr Hlen Hid Hlps.
  destruct (chunks_facts cfg nn ps counts Hapart chunk_size chunks Hchunks)
    as (Hpos & _ & Hlast & Hne & _).
  specialize (Hne id Hid).
  destruct (chunks_within cfg nn ps counts Hapart chunk_size chunks Hchunks
              id Hid) as [Hidx Hup].
  assert (Hfinal : id = chunks - 1 -> hi id = T) by (intros ->; exact Hlast).
  unfold prefix_sum_chunk_words.
  destruct (localRange cfg 0 T chunk_size id chunks) as [lower upper].
  simpl in *.
  destruct (lookup_lt_is_Some_2 counts lower ltac:(lia)) as [x Hx].
  assert (Hb := range_sum_le_total counts lower upper).
  destruct (sums_frame_store c nn ps counts Hps Hapart m m1 lower x Hfr
              ltac:(lia) Hlen) as (m2 & Hst & Hfr2 & Hnew & Hold).
  destruct (accumulate_range_words m m2 lower upper 0 Hc Hfr2 Hlen Hne Hup
              ltac:(lia))
    as (m3 & Hrun & Hfr3 & Hsums & Hrest).
  { rewrite Hnew. f_equal.
    rewrite (range_sum_step counts lower lower x) by (lia || exact Hx).
    rewrite range_sum_empty. lia. }
  exists m3. split.
  { mstep ltac:(apply assert_ok; apply Nat.leb_le; lia).
    mstep ltac:(apply assert_ok; rewrite usub_ok by lia;
                destruct (Nat.ltb_spec id (chunks - 1)); [reflexivity |];
                simpl; apply Nat.eqb_eq; apply Hfinal; lia).
    mstep ltac:(apply assert_ok; apply Nat.leb_le; lia).
    mstep ltac:(apply assert_ok; apply Nat.leb_le; lia).
    mstep ltac:(apply (counts_at_frame c nn ps counts Hnn Hapart m m1 lower x
                         Hc Hfr Hx)).
    mstep ltac:(exact Hst).
    mstep ltac:(exact Hrun).
    mstep ltac:(apply index_sub_ok; lia).
    mstep ltac:(rewrite Hps; apply load_word_ok; apply Hsums; lia).
    replace (S (upper - 1)) with upper by lia. simpl.
    rewrite to_size_t_small by lia.
    apply local_set_ok. lia. }
  split; [exact Hfr3 |]. split.
  - intros i Hi. rewrite Hsums by lia. reflexivity.
  - intros j Hj. rewrite Hrest by lia. apply Hold. lia.
Qed.

Lemma first_loop_words sched m :
  counts_at nn counts m -> ps + T <= length (words m) ->
  (forall id, id ∈ sched -> id < chunks) ->
  exists lps m1,
    for_each sched
      (prefix_sum_chunk_words cfg size_bits c T chunk_size chunks)
      (local_array chunks) m = Ok (lps, m1) /\
    frame m m1 /\ length lps = chunks /\
    forall id, id ∈ sched ->
      (forall i, lo id <= i < hi id ->
         words m1 !! (ps + i) = Some (range_sum counts (lo id) (S i))) /\
      lps !! id = Some (Some (range_sum counts (lo id) (hi id))).
Proof.
  intros Hc Hlen Hsched.
  destruct (for_each_inv
    (fun ran lps m1 =>
       frame m m1 /\ length lps = chunks /\
       forall id, id ∈ ran ->
         (forall i, lo id <= i < hi id ->
            words m1 !! (ps + i) = Some (range_sum counts (lo id) (S i))) /\
         lps !! id = Some (Some (range_sum counts (lo id) (hi id))))
    (prefix_sum_chunk_words cfg size_bits c T chunk_size chunks) sched []
    (local_array chunks) m)
    as (lps & m1 & Hrun & Hpost).
  - split; [apply sums_frame_refl |].
    split; [unfold local_array; apply length_replicate |].
    intros id Hid. apply elem_of_nil in Hid. contradiction.
  - intros ran id rest lps m1 Heq (Hfr & Hlps & Hdone).
    assert (Hid : id < chunks).
    { apply Hsched. simpl in Heq. rewrite Heq. apply elem_of_app. right.
      apply elem_of_cons. left. reflexivity. }
    destruct (chunk_pass_words id lps m m1 Hc Hfr Hlen Hid Hlps)
      as (m2 & Hrun & Hfr2 & Hsums & Hrest).
    eexists _, m2. split; [exact Hrun |].
    split; [exact Hfr2 |]. split; [rewrite length_insert; exact Hlps |].
    intros id' Hid'.
    destruct (Nat.eq_dec id' id) as [-> | Hne].
    + split; [exact Hsums |]. apply list_lookup_insert_eq. lia.
    + apply elem_of_app in Hid' as [Hold | Hnew];
        [| apply list_elem_of_singleton in Hnew; contradiction].
      destruct (Hdone id' Hold) as [Hs' Hl'].
      assert (Hid'' : id' < chunks).
      { apply lookup_lt_Some in Hl'. lia. }
      split.
      * intros i Hi. rewrite Hrest; [apply Hs'; exact Hi |].
        assert (Hap := chunks_apart cfg nn ps counts Hapart chunk_size chunks
                         Hchunks id' id i Hid'' Hid Hne Hi). lia.
      * rewrite list_lookup_insert_ne by lia. exact Hl'.
  - exists lps, m1. split; [exact Hrun |]. exact Hpost.
Qed.

Lemma totals_pass_words lps m :
  length lps = chunks ->
  (forall id, id < chunks ->
     lps !! id = Some (Some (range_sum counts (lo id) (hi id)))) ->
  exists lps',
    prefix_sum_totals_words size_bits chunks lps m = Ok (lps', m) /\
    length lps' = chunks /\
    forall id, id < chunks ->
      lps' !! id = Some (Some (range_sum counts 0 (hi id))).
Proof.
  intros Hlen Hlps.
  destruct (chunks_facts cfg nn ps counts Hapart chunk_size chunks Hchunks)
    as (Hpos & Hfirst & _ & Hne & Hadj).
  destruct (for_range_inv
    (fun i l m' =>
       m' = m /\ length l = chunks /\
       (forall k, k < i -> k < chunks ->
          l !! k = Some (Some (range_sum counts 0 (hi k)))) /\
       (forall k, i <= k -> k < chunks ->
          l !! k = Some (Some (range_sum counts (lo k) (hi k)))))
    (fun i l =>
      x <- local_get l i ;;
      y <- local_get l (i - 1) ;;
      local_set l i (to_size_t size_bits (x + y)))
    1 chunks lps m Hpos) as (lps' & m' & Hrun & Hm & Hl & Hdone & _).
  - split; [reflexivity |]. split; [exact Hlen |]. split.
    + intros k Hk Hkc. replace k with 0 by lia.
      rewrite (Hlps 0) by lia. rewrite Hfirst. reflexivity.
    + intros k Hk Hkc. apply Hlps. exact Hkc.
  - intros i l m1 Hi (-> & Hl & Hdone & Htodo).
    assert (Ha := Hadj (i - 1) ltac:(lia)).
    replace (i - 1 + 1) with i in Ha by lia.
    destruct (chunks_within cfg nn ps counts Hapart chunk_size chunks Hchunks
                i ltac:(lia)) as [_ Hup].
    assert (Hnei := Hne i ltac:(lia)).
    assert (Hsplit := range_sum_split counts 0 (lo i) (hi i) ltac:(lia)
                        ltac:(lia)).
    assert (Hb := range_sum_le_total counts 0 (hi i)).
    eexists _, m. split.
    { mstep ltac:(apply local_get_ok; apply Htodo; lia).
      mstep ltac:(apply local_get_ok; apply Hdone; lia).
      rewrite to_size_t_small by (rewrite Ha; lia).
      apply local_set_ok. lia. }
    split; [reflexivity |]. split; [rewrite length_insert; exact Hl |]. split.
    + intros k Hk Hkc. destruct (Nat.eq_dec k i) as [-> | Hn].
      * rewrite list_lookup_insert_eq by lia. do 2 f_equal.
        rewrite Ha. lia.
      * rewrite list_lookup_insert_ne by lia. apply Hdone; lia.
    + intros k Hk Hkc. rewrite list_lookup_insert_ne by lia. apply Htodo; lia.
  - subst m'. exists lps'. split; [exact Hrun |]. split; [exact Hl |].
    intros id Hid. apply Hdone; lia.
Qed.

Lemma add_back_pass_words id lps m m1 :
  frame m m1 -> ps + T <= length (words m) ->
  id < chunks ->
  (forall k, k < chunks -> lps !! k = Some (Some (range_sum counts 0 (hi k)))) ->
  (forall i, lo id <= i < hi id ->
     words m1 !! (ps + i) = Some (range_sum counts (lo id) (S i))) ->
  exists m2,
    prefix_sum_add_back_words cfg size_bits c T chunk_size chunks lps id tt m1
    = Ok (tt, m2) /\
    frame m m2 /\
    (forall i, lo id <= i < hi id ->
       words m2 !! (ps + i) = Some (_n c + range_sum counts 0 (S i))) /\
    (forall j, ~ ps + lo id <= j < ps + hi id ->
       words m2 !! j = words m1 !! j).
Proof.
  intros Hfr Hlen Hid Hlps Hlocal.
  destruct (chunks_facts cfg nn ps counts Hapart chunk_size chunks Hchunks)
    as (Hpos & Hfirst & _ & Hne & Hadj).
  specialize (Hne id Hid).
  destruct (chunks_within cfg nn ps counts Hapart chunk_size chunks Hchunks
              id Hid) as [_ Hup].
  assert (Hprev : (if 0 <? id then local_get lps (id - 1) else ret 0) m1
                  = Ok (range_sum counts 0 (lo id), m1)).
  { destruct (Nat.ltb_spec 0 id) as [Hgt | Hz].
    - apply local_get_ok. rewrite Hlps by lia.
      assert (Ha := Hadj (id - 1) ltac:(lia)).
      replace (id - 1 + 1) with id in Ha by lia. rewrite Ha. reflexivity.
    - replace id with 0 by lia. rewrite Hfirst, range_sum_empty. reflexivity. }
  unfold prefix_sum_add_back_words.
  destruct (localRange cfg 0 T chunk_size id chunks) as [lower upper].
  simpl in *.
  assert (Hacc : to_size_t size_bits (_n c + range_sum counts 0 lower)
                 = _n c + range_sum counts 0 lower)
    by (apply to_size_t_small; apply sum_to_bound).
  destruct (for_range_inv
    (fun i (_ : unit) m2 =>
       frame m m2 /\
       (forall k, lower <= k < i ->
          words m2 !! (ps + k) = Some (_n c + range_sum counts 0 (S k))) /\
       (forall k, i <= k < upper ->
          words m2 !! (ps + k) = Some (range_sum counts lower (S k))) /\
       (forall j, ~ ps + lower <= j < ps + upper ->
          words m2 !! j = words m1 !! j))
    (fun i (_ : unit) =>
      p <- load_word (pref_sum c) i ;;
      store_word (pref_sum c) i
        (to_index cfg
           (in_common cfg size_bits
              (p + to_size_t size_bits (_n c + range_sum counts 0 lower)))))
    lower upper tt m1 ltac:(lia)) as ([] & m2 & Hrun & Hfr2 & Hdone & _ & Hrest).
  - split; [exact Hfr |]. split; [intros k Hk; lia |].
    split; [intros k Hk; apply Hlocal; lia | reflexivity].
  - intros i [] m2 Hi (Hfr2 & Hdone & Htodo & Hrest).
    assert (Hsplit := range_sum_split counts 0 lower (S i) ltac:(lia)
                        ltac:(lia)).
    assert (Hb := sum_to_bound 0 (S i)).
    destruct (sums_frame_store c nn ps counts Hps Hapart m m2 i
                (range_sum counts lower (S i)
                 + (_n c + range_sum counts 0 lower))
                Hfr2 ltac:(lia) Hlen) as (m3 & Hst & Hfr3 & Hnew & Hold).
    exists tt, m3. split.
    { mstep ltac:(rewrite Hps; apply load_word_ok; apply Htodo; lia).
      rewrite Hacc. rewrite in_common_small, to_index_small by lia.
      exact Hst. }
    split; [exact Hfr3 |]. split; [| split].
    + intros k Hk. destruct (Nat.eq_dec k i) as [-> | Hn].
      * rewrite Hnew. f_equal. lia.
      * rewrite Hold by lia. apply Hdone. lia.
    + intros k Hk. rewrite Hold by lia. apply Htodo. lia.
    + intros j Hj. rewrite Hold by lia. apply Hrest. exact Hj.
  - exists m2. split.
    { mstep ltac:(exact Hprev). exact Hrun. }
    split; [exact Hfr2 |]. split; [| exact Hrest].
    intros i Hi. apply Hdone. lia.
Qed.

Lemma second_loop_words sched lps m m1 :
  frame m m1 -> ps + T <= length (words m) ->
  NoDup sched -> (forall id, id ∈ sched -> id < chunks) ->
  (forall k, k < chunks -> lps !! k = Some (Some (range_sum counts 0 (hi k)))) ->
  (forall id i, id < chunks -> lo id <= i < hi id ->
     words m1 !! (ps + i) = Some (range_sum counts (lo id) (S i))) ->
  exists m2,
    for_each sched
      (prefix_sum_add_back_words cfg size_bits c T chunk_size chunks lps) tt m1
    = Ok (tt, m2) /\
    frame m m2 /\
    forall id i, id ∈ sched -> lo id <= i < hi id ->
      words m2 !! (ps + i) = Some (_n c + range_sum counts 0 (S i)).
Proof.
  intros Hfr Hlen Hnd Hsched Hlps Hlocal.
  destruct (for_each_inv
    (fun ran (_ : unit) m2 =>
       frame m m2 /\
       forall id i, id < chunks -> lo id <= i < hi id ->
         words m2 !! (ps + i)
         = Some (if decide (id ∈ ran)
                 then _n c + range_sum counts 0 (S i)
                 else range_sum counts (lo id) (S i)))
    (prefix_sum_add_back_words cfg size_bits c T chunk_size chunks lps)
    sched [] tt m1)
    as ([] & m2 & Hrun & Hfr2 & Hpost).
  - split; [exact Hfr |]. intros id i Hid Hi.
    case_decide as Hin; [apply elem_of_nil in Hin; contradiction |].
    apply Hlocal; assumption.
  - intros ran id rest [] m2 Heq (Hfr2 & Hstate).
    simpl in Heq.
    assert (Hid : id < chunks).
    { apply Hsched. rewrite Heq. apply elem_of_app. right.
      apply elem_of_cons. left. reflexivity. }
    assert (Hfresh : id ∉ ran).
    { rewrite Heq in Hnd. apply NoDup_app in Hnd as (_ & Hd & _).
      intros Hin. apply (Hd id Hin). apply elem_of_cons. left. reflexivity. }
    destruct (add_back_pass_words id lps m m2 Hfr2 Hlen Hid Hlps)
      as (m3 & Hrun & Hfr3 & Hsums & Hrest).
    { intros i Hi. rewrite (Hstate id i Hid Hi).
      case_decide; [contradiction | reflexivity]. }
    exists tt, m3. split; [exact Hrun |]. split; [exact Hfr3 |].
    intros id' i Hid' Hi.
    destruct (Nat.eq_dec id' id) as [-> | Hne].
    + rewrite (Hsums i Hi). case_decide as Hin; [reflexivity |].
      exfalso. apply Hin. apply elem_of_app. right.
      apply list_elem_of_singleton. reflexivity.
    + rewrite Hrest.
      * rewrite (Hstate id' i Hid' Hi). f_equal.
        repeat case_decide; try reflexivity.
        -- exfalso. match goal with H : ¬ _ |- _ => apply H end.
           apply elem_of_app. left. assumption.
        -- exfalso.
           match goal with H : _ ∈ ran ++ [_] |- _ =>
             apply elem_of_app in H as [? | H];
               [contradiction | apply list_elem_of_singleton in H; contradiction]
           end.
      * assert (Hap := chunks_apart cfg nn ps counts Hapart chunk_size chunks
                         Hchunks id' id i Hid' Hid Hne Hi). lia.
  - exists m2. split; [exact Hrun |]. split; [exact Hfr2 |].
    intros id i Hin Hi. simpl in Hpost.
    rewrite (Hpost id i (Hsched id Hin) Hi).
    case_decide; [reflexivity | contradiction].
Qed.

Lemma prefix_sum_parallel_words_spec sched1 sched2 m :
  counts_at nn counts m -> ps + T <= length (words m) ->
  sched1 ≡ₚ seq 0 chunks -> sched2 ≡ₚ seq 0 chunks ->
  exists m',
    prefix_sum_parallel_words cfg size_bits sched1 sched2 c T chunk_size
      chunks m = Ok (tt, m') /\
    frame m m' /\
    forall i, i < T ->
      words m' !! (ps + i) = Some (_n c + range_sum counts 0 (S i)).
Proof.
  intros Hc Hlen Hp1 Hp2.
  assert (Hin1 : forall id, id ∈ sched1 <-> id < chunks).
  { intros id. rewrite Hp1, elem_of_seq. lia. }
  assert (Hin2 : forall id, id ∈ sched2 <-> id < chunks).
  { intros id. rewrite Hp2, elem_of_seq. lia. }
  assert (Hnd2 : NoDup sched2) by (rewrite Hp2; apply NoDup_seq).
  destruct (first_loop_words sched1 m Hc Hlen)
    as (lps & m1 & Hrun1 & Hfr1 & Hl1 & Hpost1).
  { intros id Hid. apply Hin1. exact Hid. }
  destruct (totals_pass_words lps m1 Hl1) as (lps' & Hrun2 & Hl2 & Htot).
  { intros id Hid. apply Hpost1. apply Hin1. exact Hid. }
  destruct (second_loop_words sched2 lps' m m1 Hfr1 Hlen Hnd2)
    as (m2 & Hrun3 & Hfr2 & Hpost2).
  { intros id Hid. apply Hin2. exact Hid. }
  { exact Htot. }
  { intros id i Hid Hi. apply Hpost1; [apply Hin1; exact Hid | exact Hi]. }
  exists m2. split.
  { unfold prefix_sum_parallel_words.
    mstep ltac:(exact Hrun1). mstep ltac:(exact Hrun2). exact Hrun3. }
  split; [exact Hfr2 |].
  intros i Hi.
  destruct (chunks_cover cfg nn ps counts Hapart chunk_size chunks Hchunks
              i Hi) as (id & Hid & Hr).
  apply (Hpost2 id i); [apply Hin2; exact Hid | exact Hr].
Qed.

End PrefixSumWords.

Section PrefixSumWordsClaim.

Variable cfg : Config.
Variable size_bits : N.

(** The [_DEBUG] block finds the words of [pref_sum] equal to its own
    [size_t] sums when the sums fit both types. *)
Lemma prefix_sum_cross_check_words_spec c nn ps counts m :
  local_new_nnzs c = Some nn -> pref_sum c = Some ps ->
  counts_at nn counts m -> 0 < length counts ->
  fits_bits size_bits (_n c + sum_list counts) ->
  (forall i, i < length counts ->
     words m !! (ps + i) = Some (_n c + range_sum counts 0 (S i))) ->
  prefix_sum_cross_check_words cfg size_bits c (length counts) m = Ok (tt, m).
Proof.
  intros Hnn Hps Hc HT Hfit Hsums.
  assert (Hsmall : forall v, v <= _n c + sum_list counts ->
            to_size_t size_bits (in_common cfg size_bits v) = v).
  { intros v Hv. rewrite (in_common_le cfg _ _ _ Hfit Hv).
    apply (wrap_to_le _ _ _ Hfit Hv). }
  assert (Hload : forall i x, counts !! i = Some x ->
            load_word (local_new_nnzs c) i m = Ok (x, m)).
  { intros i x Hx. rewrite Hnn. apply load_word_ok.
    apply (counts_at_lookup nn counts m i x Hc Hx). }
  destruct (lookup_lt_is_Some_2 counts 0 HT) as [x0 Hx0].
  assert (Hfirst : range_sum counts 0 1 = x0).
  { rewrite (range_sum_step counts 0 0 x0) by (lia || exact Hx0).
    rewrite range_sum_empty. lia. }
  assert (Hb0 := sum_within_total (_n c) counts 0 1). rewrite Hfirst in Hb0.
  unfold prefix_sum_cross_check_words.
  mstep ltac:(apply (Hload 0 x0 Hx0)).
  rewrite (Hsmall _ Hb0).
  mstep ltac:(apply local_set_ok; unfold local_array; rewrite length_replicate;
              exact HT).
  destruct (for_range_inv
    (fun i so m' =>
       m' = m /\ length so = length counts /\
       forall k, k < i -> k < length counts ->
         so !! k = Some (Some (_n c + range_sum counts 0 (S k))))
    (fun i seq_offsets =>
      p <- local_get seq_offsets (i - 1) ;;
      x <- load_word (local_new_nnzs c) i ;;
      local_set seq_offsets i (to_size_t size_bits (in_common cfg size_bits (p + x))))
    1 (length counts) (<[0 := Some (_n c + x0)]> (local_array (length counts))) m HT)
    as (so & m' & Hrun & -> & Hl & Hso).
  - split; [reflexivity |].
    split; [rewrite length_insert; unfold local_array; apply length_replicate |].
    intros k Hk Hkc. replace k with 0 by lia.
    rewrite list_lookup_insert_eq
      by (unfold local_array; rewrite length_replicate; lia).
    rewrite Hfirst. reflexivity.
  - intros i so m1 Hi (-> & Hl & Hso).
    destruct (lookup_lt_is_Some_2 counts i ltac:(lia)) as [x Hx].
    assert (Hstep := range_sum_step counts 0 i x ltac:(lia) Hx).
    assert (Hb := sum_within_total (_n c) counts 0 (S i)).
    eexists _, m. split.
    { mstep ltac:(apply local_get_ok; apply Hso; lia).
      mstep ltac:(apply (Hload i x Hx)).
      rewrite Hsmall by (replace (S (i - 1)) with i by lia; lia).
      apply local_set_ok. lia. }
    split; [reflexivity |]. split; [rewrite length_insert; exact Hl |].
    intros k Hk Hkc. destruct (Nat.eq_dec k i) as [-> | Hn].
    + rewrite list_lookup_insert_eq by lia. do 2 f_equal.
      replace (S (i - 1)) with i by lia. lia.
    + rewrite list_lookup_insert_ne by lia. apply Hso; lia.
  - mstep ltac:(exact Hrun).
    destruct (for_range_inv
      (fun i (_ : unit) m' => m' = m)
      (fun i (_ : unit) =>
         assertM cfg (a <- local_get so i ;;
                      p <- load_word (pref_sum c) i ;;
                      ret (in_common cfg size_bits a
                           =? in_common cfg size_bits p)))
      0 (length counts) tt m ltac:(lia) eq_refl) as ([] & m' & Hrun2 & ->).
    + intros i [] m1 Hi ->. exists tt, m. split; [| reflexivity].
      apply assertM_ok. intros _.
      mstep ltac:(apply local_get_ok; apply Hso; lia).
      mstep ltac:(rewrite Hps; apply load_word_ok; apply Hsums; lia).
      unfold ret. rewrite Nat.eqb_refl. reflexivity.
    + exact Hrun2.
Qed.

(** The whole function, when the new count fits the index type and
    [size_t]. *)
Lemma prefixSumComputation_words_spec (c : Coordinates) (m : Memory)
    (nn ps : nat) (counts : list nat) (sched1 sched2 : list nat) :
  local_new_nnzs c = Some nn -> pref_sum c = Some ps ->
  length counts = getNumTiles (analytic_model c) ->
  0 < length counts ->
  counts_at nn counts m ->
  ps + length counts <= length (words m) ->
  nn + length counts <= ps \/ ps + length counts <= nn ->
  fits_bits (index_bits cfg) (_n c + sum_list counts) ->
  fits_bits size_bits (_n c + sum_list counts) ->
  (getTileSize (prefix_sum_model cfg (length counts)) <= length counts ->
   chunks_partition cfg (length counts)
     (getTileSize (prefix_sum_model cfg (length counts)))
     (getNumTiles (prefix_sum_model cfg (length counts))) = true /\
   sched1 ≡ₚ seq 0 (getNumTiles (prefix_sum_model cfg (length counts))) /\
   sched2 ≡ₚ seq 0 (getNumTiles (prefix_sum_model cfg (length counts)))) ->
  exists m',
    prefixSumComputation_words cfg size_bits sched1 sched2 c m
    = Ok (with_n c (_n c + sum_list counts), m') /\
    (forall i, i < length counts ->
       words m' !! (ps + i) = Some (_n c + range_sum counts 0 (S i))) /\
    sums_frame ps (length counts) m m' /\
    prefix_sum_sequential_words cfg size_bits c (length counts) m
    = Ok (tt, m') /\
    (forall chunk_size chunks s1 s2,
       chunks_partition cfg (length counts) chunk_size chunks = true ->
       s1 ≡ₚ seq 0 chunks -> s2 ≡ₚ seq 0 chunks ->
       prefix_sum_parallel_words cfg size_bits s1 s2 c (length counts)
         chunk_size chunks m = Ok (tt, m')) /\
    prefix_sum_cross_check_words cfg size_bits c (length counts) m'
    = Ok (tt, m').
Proof.
  intros Hnn Hps HT Hpos Hc Hlen Hapart Hfi Hfs Hpar.
  destruct (prefix_sum_sequential_words_spec cfg size_bits c nn ps counts
              Hnn Hps Hapart Hfi Hfs m Hc Hlen Hpos)
    as (m' & Hseq & Hfr & Hsums).
  assert (Hparallel : forall chunk_size chunks s1 s2,
            chunks_partition cfg (length counts) chunk_size chunks = true ->
            s1 ≡ₚ seq 0 chunks -> s2 ≡ₚ seq 0 chunks ->
            prefix_sum_parallel_words cfg size_bits s1 s2 c (length counts)
              chunk_size chunks m = Ok (tt, m')).
  { intros chunk_size chunks s1 s2 Hch Hp1 Hp2.
    destruct (prefix_sum_parallel_words_spec cfg size_bits c nn ps counts
                Hnn Hps Hapart Hfi Hfs chunk_size chunks Hch s1 s2 m Hc Hlen
                Hp1 Hp2)
      as (m2 & Hrun & Hfr2 & Hsums2).
    rewrite Hrun. do 2 f_equal.
    apply (sums_frame_eq ps (length counts) m m2 m' Hfr2 Hfr).
    intros i Hi. rewrite Hsums, Hsums2 by exact Hi. reflexivity. }
  assert (Hc' : counts_at nn counts m').
  { unfold counts_at in *. rewrite <- Hc at 2.
    destruct Hfr as (_ & _ & Hfr). apply list_eq. intros i.
    destruct (Nat.lt_ge_cases i (length counts)) as [Hi | Hi].
    - rewrite !lookup_take_lt by exact Hi. rewrite !lookup_drop.
      apply Hfr. lia.
    - rewrite !lookup_take_ge by exact Hi. reflexivity. }
  assert (Hcheck := prefix_sum_cross_check_words_spec c nn ps counts m'
                      Hnn Hps Hc' Hpos Hfs Hsums).
  exists m'.
  split; [| split; [exact Hsums | split; [exact Hfr | split; [exact Hseq |
          split; [exact Hparallel | exact Hcheck]]]]].
  unfold prefixSumComputation_words. rewrite <- HT.
  fold (prefix_sum_model cfg (length counts)).
  assert (Hbranch :
    (if length counts <? getTileSize (prefix_sum_model cfg (length counts))
     then prefix_sum_sequential_words cfg size_bits c (length counts)
     else
       (prefix_sum_parallel_words cfg size_bits sched1 sched2 c
          (length counts)
          (getTileSize (prefix_sum_model cfg (length counts)))
          (getNumTiles (prefix_sum_model cfg (length counts))) ;;
        if _DEBUG cfg
        then prefix_sum_cross_check_words cfg size_bits c (length counts)
        else ret tt)) m = Ok (tt, m')).
  { destruct (Nat.ltb_spec (length counts)
                (getTileSize (prefix_sum_model cfg (length counts))))
      as [Hsmall | Hlarge]; [exact Hseq |].
    destruct (Hpar Hlarge) as (Hch & Hp1 & Hp2).
    mstep ltac:(apply (Hparallel _ _ _ _ Hch Hp1 Hp2)).
    destruct (_DEBUG cfg); [exact Hcheck | reflexivity]. }
  mstep ltac:(exact Hbranch).
  mstep ltac:(apply index_sub_ok; lia).
  mstep ltac:(rewrite Hps; apply load_word_ok; apply Hsums; lia).
  unfold ret. do 3 f_equal.
  replace (S (length counts - 1)) with (length counts) by lia.
  rewrite range_sum_all. apply (wrap_to_le _ _ _ Hfs). lia.
Qed.

(** When the new count fits, the sums kept as natural numbers are those of
    the machine words: the two renderings of [prefixSumComputation] return
    the same structure and the same memory. *)
Lemma prefixSumComputation_words_agrees (c : Coordinates) (m : Memory)
    (nn ps : nat) (counts : list nat) (sched1 sched2 : list nat) :
  local_new_nnzs c = Some nn -> pref_sum c = Some ps ->
  length counts = getNumTiles (analytic_model c) ->
  0 < length counts ->
  counts_at nn counts m ->
  ps + length counts <= length (words m) ->
  nn + length counts <= ps \/ ps + length counts <= nn ->
  fits_bits (index_bits cfg) (_n c + sum_list counts) ->
  fits_bits size_bits (_n c + sum_list counts) ->
  (getTileSize (prefix_sum_model cfg (length counts)) <= length counts ->
   chunks_partition cfg (length counts)
     (getTileSize (prefix_sum_model cfg (length counts)))
     (getNumTiles (prefix_sum_model cfg (length counts))) = true /\
   sched1 ≡ₚ seq 0 (getNumTiles (prefix_sum_model cfg (length counts))) /\
   sched2 ≡ₚ seq 0 (getNumTiles (prefix_sum_model cfg (length counts)))) ->
  prefixSumComputation_words cfg size_bits sched1 sched2 c m
  = prefixSumComputation cfg sched1 sched2 c m.
Proof.
  intros Hnn Hps HT Hpos Hc Hlen Hapart Hfi Hfs Hpar.
  destruct (prefixSumComputation_words_spec c m nn ps counts sched1 sched2
              Hnn Hps HT Hpos Hc Hlen Hapart Hfi Hfs Hpar)
    as (m1 & Hrun1 & Hsums1 & Hfr1 & _).
  destruct (prefixSumComputation_spec cfg c m nn ps counts sched1 sched2
              Hnn Hps HT Hpos Hc Hlen Hapart Hpar)
    as (m2 & Hrun2 & Hsums2 & Hfr2 & _).
  rewrite Hrun1, Hrun2. do 2 f_equal.
  apply (sums_frame_eq ps (length counts) m m1 m2 Hfr1 Hfr2).
  intros i Hi. rewrite Hsums1, Hsums2 by exact Hi. reflexivity.
Qed.

(** C2: when the old count plus all the counters fits
    [config::VectorIndexType] and [size_t], [prefixSumComputation] leaves in
    [pref_sum] the sums of the sequential recurrence and sets the count to
    the old count plus all the counters; its sequential branch and its
    parallel branch, whichever one the analytic model selects and in whatever
    order the chunks are run, end in the same memory, and the cross-check of
    a debug build passes on it. *)
Theorem prefix_sum_matches_recurrence (c : Coordinates) (m : Memory)
    (nn ps : nat) (counts : list nat) (sched1 sched2 : list nat) :
  local_new_nnzs c = Some nn -> pref_sum c = Some ps ->
  length counts = getNumTiles (analytic_model c) ->
  0 < length counts ->
  counts_at nn counts m ->
  ps + length counts <= length (words m) ->
  nn + length counts <= ps \/ ps + length counts <= nn ->
  fits_bits (index_bits cfg) (_n c + sum_list counts) ->
  fits_bits size_bits (_n c + sum_list counts) ->
  (getTileSize (prefix_sum_model cfg (length counts)) <= length counts ->
   chunks_partition cfg (length counts)
     (getTileSize (prefix_sum_model cfg (length counts)))
     (getNumTiles (prefix_sum_model cfg (length counts))) = true /\
   sched1 ≡ₚ seq 0 (getNumTiles (prefix_sum_model cfg (length counts))) /\
   sched2 ≡ₚ seq 0 (getNumTiles (prefix_sum_model cfg (length counts)))) ->
  exists m',
    prefixSumComputation_words cfg size_bits sched1 sched2 c m
    = Ok (with_n c (_n c + sum_list counts), m') /\
    take (length counts) (drop ps (words m')) = running_sums (_n c) counts /\
    sums_frame ps (length counts) m m' /\
    prefix_sum_sequential_words cfg size_bits c (length counts) m
    = Ok (tt, m') /\
    (forall chunk_size chunks s1 s2,
       chunks_partition cfg (length counts) chunk_size chunks = true ->
       s1 ≡ₚ seq 0 chunks -> s2 ≡ₚ seq 0 chunks ->
       prefix_sum_parallel_words cfg size_bits s1 s2 c (length counts)
         chunk_size chunks m = Ok (tt, m')) /\
    prefix_sum_cross_check_words cfg size_bits c (length counts) m'
    = Ok (tt, m').
Proof.
  intros Hnn Hps HT Hpos Hc Hlen Hapart Hfi Hfs Hpar.
  destruct (prefixSumComputation_words_spec c m nn ps counts sched1 sched2
              Hnn Hps HT Hpos Hc Hlen Hapart Hfi Hfs Hpar)
    as (m' & Hrun & Hsums & Hfr & Hseq & Hparallel & Hcheck).
  exists m'. split; [exact Hrun |]. split; [| tauto].
  apply list_eq. intros i.
  destruct (Nat.lt_ge_cases i (length counts)) as [Hi | Hi].
  - rewrite lookup_take_lt by exact Hi. rewrite lookup_drop.
    rewrite Hsums, running_sums_lookup by exact Hi. reflexivity.
  - rewrite lookup_take_ge by exact Hi. symmetry.
    apply lookup_ge_None_2. rewrite running_sums_length. exact Hi.
Qed.

End PrefixSumWordsClaim.

Lemma prefix_sum_matches_recurrence_witness :
  exists m',
    prefixSumComputation_words debug_config 64 [1; 0] [0; 1] scenario
      scenario_counted_memory
    = Ok (with_n scenario (_n scenario + sum_list scenario_counts), m') /\
    take (length scenario_counts) (drop 24 (words m'))
    = running_sums (_n scenario) scenario_counts /\
    sums_frame 24 (length scenario_counts) scenario_counted_memory m' /\
    prefix_sum_sequential_words debug_config 64 scenario
      (length scenario_counts) scenario_counted_memory = Ok (tt, m') /\
    (forall chunk_size chunks s1 s2,
       chunks_partition debug_config (length scenario_counts) chunk_size chunks
       = true ->
       s1 ≡ₚ seq 0 chunks -> s2 ≡ₚ seq 0 chunks ->
       prefix_sum_parallel_words debug_config 64 s1 s2 scenario
         (length scenario_counts) chunk_size chunks scenario_counted_memory
       = Ok (tt, m')) /\
    prefix_sum_cross_check_words debug_config 64 scenario
      (length scenario_counts) m' = Ok (tt, m').
Proof.
  apply (prefix_sum_matches_recurrence debug_config 64 scenario
           scenario_counted_memory 20 24 scenario_counts [1; 0] [0; 1]).
  - reflexivity.
  - reflexivity.
  - reflexivity.
  - simpl. lia.
  - reflexivity.
  - simpl. lia.
  - simpl. lia.
  - vm_compute. reflexivity.
  - vm_compute. reflexivity.
  - intros _. split; [vm_compute; reflexivity |].
    split; [apply perm_swap | reflexivity].
Defined.

(** ** Beyond the index type *)

Lemma wrap_to_narrower bits bits' v :
  (bits <= bits')%N -> wrap_to bits (wrap_to bits' v) = wrap_to bits v.
Proof.
  intros Hle. unfold wrap_to. rewrite N2Nat.id. f_equal.
  replace bits' with (bits + (bits' - bits))%N by lia.
  rewrite N.pow_add_r, N.Div0.mod_mul_r.
  rewrite (N.mul_comm (2 ^ bits)), N.Div0.mod_add. apply N.Div0.mod_mod.
Qed.

Lemma wrap_to_add bits v x :
  wrap_to bits (wrap_to bits v + x) = wrap_to bits (v + x).
Proof.
  unfold wrap_to. rewrite !Nat2N.inj_add, N2Nat.id.
  rewrite N.Div0.add_mod_idemp_l. reflexivity.
Qed.

Section PrefixSumWraps.

Variable cfg : Config.
Variable size_bits : N.
Variable c : Coordinates.
Variables nn ps : nat.
Variable counts : list nat.

Hypothesis Hnn : local_new_nnzs c = Some nn.
Hypothesis Hps : pref_sum c = Some ps.
Hypothesis Hapart : nn + length counts <= ps \/ ps + length counts <= nn.

(** The sequential branch, whatever the count: every word of [pref_sum]
    holds its sum of the recurrence as [config::VectorIndexType] holds it. *)
Lemma prefix_sum_sequential_words_wraps m :
  counts_at nn counts m -> ps + length counts <= length (words m) ->
  0 < length counts ->
  exists m',
    prefix_sum_sequential_words cfg size_bits c (length counts) m
    = Ok (tt, m') /\
    sums_frame ps (length counts) m m' /\
    forall i, i < length counts ->
      words m' !! (ps + i)
      = Some (to_index cfg (_n c + range_sum counts 0 (S i))).
Proof.
  intros Hc Hlen HT.
  destruct (lookup_lt_is_Some_2 counts 0 HT) as [x Hx].
  assert (Hfirst : range_sum counts 0 1 = x).
  { rewrite (range_sum_step counts 0 0 x) by (lia || exact Hx).
    rewrite range_sum_empty. lia. }
  destruct (sums_frame_store c nn ps counts Hps Hapart m m 0
              (to_index cfg (_n c + x))
              (sums_frame_refl ps counts m) HT Hlen)
    as (m1 & Hst & Hfr1 & Hnew & Hold).
  destruct (for_range_inv
    (fun i (_ : unit) m2 =>
       sums_frame ps (length counts) m m2 /\
       forall k, k < i ->
         words m2 !! (ps + k)
         = Some (to_index cfg (_n c + range_sum counts 0 (S k))))
    (fun i (_ : unit) =>
      p <- load_word (pref_sum c) (i - 1) ;;
      x <- load_word (local_new_nnzs c) i ;;
      store_word (pref_sum c) i (to_index cfg (p + x)))
    1 (length counts) tt m1 HT) as ([] & m2 & Hrun & Hfr2 & Hsums).
  - split; [exact Hfr1 |]. intros k Hk. replace k with 0 by lia.
    rewrite Hnew, Hfirst. reflexivity.
  - intros i [] m2 Hi (Hfr2 & Hdone).
    destruct (lookup_lt_is_Some_2 counts i ltac:(lia)) as [y Hy].
    assert (Hstep := range_sum_step counts 0 i y ltac:(lia) Hy).
    destruct (sums_frame_store c nn ps counts Hps Hapart m m2 i
                (to_index cfg (_n c + range_sum counts 0 (S i)))
                Hfr2 ltac:(lia) Hlen) as (m3 & Hst3 & Hfr3 & Hnew3 & Hold3).
    exists tt, m3. split.
    { mstep ltac:(rewrite Hps; apply load_word_ok; apply Hdone; lia).
      mstep ltac:(apply (counts_at_frame c nn ps counts Hnn Hapart m m2 i y
                           Hc Hfr2 Hy)).
      unfold to_index. rewrite wrap_to_add.
      replace (S (i - 1)) with i by lia.
      replace (_n c + range_sum counts 0 i + y)
        with (_n c + range_sum counts 0 (S i)) by lia.
      exact Hst3. }
    split; [exact Hfr3 |].
    intros k Hk. destruct (Nat.eq_dec k i) as [-> | Hne].
    + exact Hnew3.
    + rewrite Hold3 by lia. apply Hdone. lia.
  - exists m2. split; [| split; [exact Hfr2 | exact Hsums]].
    unfold prefix_sum_sequential_words.
    mstep ltac:(apply (counts_at_frame c nn ps counts Hnn Hapart m m 0 x Hc
                         (sums_frame_refl ps counts m) Hx)).
    unfold to_index, in_common. rewrite wrap_to_narrower by lia.
    mstep ltac:(exact Hst).
    exact Hrun.
Qed.

(** So when the analytic model selects the sequential branch, the new count
    is the old count plus all the counters reduced to the index type. *)
Lemma prefixSumComputation_words_wraps sched1 sched2 m :
  length counts = getNumTiles (analytic_model c) ->
  0 < length counts ->
  counts_at nn counts m ->
  ps + length counts <= length (words m) ->
  length counts < getTileSize (prefix_sum_model cfg (length counts)) ->
  exists m',
    prefixSumComputation_words cfg size_bits sched1 sched2 c m
    = Ok (with_n c
            (to_size_t size_bits (to_index cfg (_n c + sum_list counts))),
          m').
Proof.
  intros HT Hpos Hc Hlen Hseq.
  destruct (prefix_sum_sequential_words_wraps m Hc Hlen Hpos)
    as (m' & Hrun & _ & Hsums).
  exists m'. unfold prefixSumComputation_words. rewrite <- HT.
  fold (prefix_sum_model cfg (length counts)).
  destruct (Nat.ltb_spec (length counts)
              (getTileSize (prefix_sum_model cfg (length counts))))
    as [_ | Hge]; [| lia].
  mstep ltac:(exact Hrun).
  mstep ltac:(apply index_sub_ok; lia).
  mstep ltac:(rewrite Hps; apply load_word_ok; apply Hsums; lia).
  unfold ret. do 4 f_equal.
  replace (S (length counts - 1)) with (length counts) by lia.
  rewrite range_sum_all. reflexivity.
Qed.

End PrefixSumWraps.

Lemma full_count_wraps :
  to_size_t 64
    (to_index release_config (_n scenario_full + sum_list scenario_counts))
  = 3.
Proof.
  unfold to_index, wrap_to.
  change (_n scenario_full) with (N.to_nat 4294967295).
  change (sum_list scenario_counts) with 4.
  rewrite Nat2N.inj_add, N2Nat.id. vm_compute. reflexivity.
Qed.

(** With four-byte stack words, a count of [2 ^ 32 - 1] and the counters 1,
    1, 0 and 2, a release build returns the count 3, not [2 ^ 32 + 3]; and
    with one-byte stack words, a count of 255 and the same counters, a debug
    build stops at the assertion of its cross-check. *)
Lemma prefix_sum_count_wraps :
  (exists m',
     prefixSumComputation_words release_config 64 [] [] scenario_full
       scenario_counted_memory = Ok (with_n scenario_full 3, m')) /\
  _n scenario_full + sum_list scenario_counts <> 3 /\
  prefixSumComputation_words byte_debug_config 64 [1; 0] [0; 1]
    scenario_byte_full scenario_counted_memory = Fault AssertionFailure.
Proof.
  split; [| split].
  - destruct (prefixSumComputation_words_wraps release_config 64 scenario_full
                20 24 scenario_counts eq_refl eq_refl (or_introl (le_n 24))
                [] [] scenario_counted_memory eq_refl
                (Nat.lt_0_succ 3) eq_refl (le_n 28) (le_n 5))
      as (m' & Hrun).
    exists m'. rewrite full_count_wraps in Hrun. exact Hrun.
  - change (_n scenario_full) with (N.to_nat 4294967295).
    change (sum_list scenario_counts) with 4. lia.
  - vm_compute. reflexivity.
Qed.


(** ** The tiles of an installed tiling *)

Section Tiles.

Variable c : Coordinates.

Local Abbreviation ts := (getTileSize (analytic_model c)).
Local Abbreviation T := (getNumTiles (analytic_model c)).

Lemma tile_lower_div t : 0 < ts -> tile_lower c t / ts = t.
Proof. intros H. unfold tile_lower. apply Nat.div_mul. lia. Qed.

Lemma tile_bounds t :
  tiles_partition c -> t < T ->
  tile_lower c t < tile_upper c t /\ tile_upper c t <= _cap c /\
  tile_width c t <= ts /\ 0 < tile_width c t.
Proof.
  intros (Hts & Hlast & Hcover) Ht. unfold tile_width, tile_upper, tile_lower.
  assert (H : t * ts <= (T - 1) * ts) by (apply Nat.mul_le_mono_r; lia).
  assert (H2 : (t + 1) * ts = t * ts + ts) by lia.
  lia.
Qed.

Lemma tile_of_index i :
  tiles_partition c -> i < _cap c ->
  i / ts < T /\ tile_lower c (i / ts) <= i < tile_upper c (i / ts).
Proof.
  intros (Hts & Hlast & Hcover) Hi. unfold tile_upper, tile_lower.
  assert (Hd := Nat.div_mod_eq i ts).
  assert (Hm := Nat.mod_upper_bound i ts ltac:(lia)).
  assert (Hlt : i / ts < T).
  { apply Nat.Div0.div_lt_upper_bound. lia. }
  split; [exact Hlt |]. nia.
Qed.

Lemma tile_unique t i :
  0 < ts -> tile_lower c t <= i < tile_upper c t -> i / ts = t.
Proof.
  unfold tile_upper, tile_lower. intros Hts Hi.
  symmetry. apply (Nat.div_unique i ts t (i - t * ts)); lia.
Qed.

End Tiles.

(** ** A run of insertions *)

Section Insertions.

Variable cfg : Config.

(** [assign] once more, with what it leaves untouched in the two blocks. *)
Lemma assign_step c m a s i :
  _assigned c = Some a -> _stack c = Some s ->
  set_equivalence c m -> i < _cap c ->
  exists r n' m',
    assign cfg c i m = Ok ((r, with_n c n'), m') /\
    set_equivalence (with_n c n') m' /\
    _n c <= n' /\
    length (flags m') = length (flags m) /\
    length (words m') = length (words m) /\
    flags m' !! (a + i) = Some true /\
    (forall k, k <> a + i -> flags m' !! k = flags m !! k) /\
    (forall k, ~ s + _n c <= k < s + n' -> words m' !! k = words m !! k).
Proof.
  intros Ha Hs Hinv Hi.
  assert (Hself : with_n c (_n c) = c) by (destruct c; reflexivity).
  assert (Hb := proj1 Hinv).
  assert (Hn := proj1 (proj2 Hinv)).
  assert (Hla : a + _cap c <= length (flags m) /\ s + _cap c <= length (words m)).
  { unfold bound_in in Hb. rewrite Ha, Hs in Hb. exact Hb. }
  assert (Hsame : _n c = _cap c \/ flag_at c m i = true ->
    exists r n' m',
      assign cfg c i m = Ok ((r, with_n c n'), m') /\
      set_equivalence (with_n c n') m' /\
      _n c <= n' /\
      length (flags m') = length (flags m) /\
      length (words m') = length (words m) /\
      flags m' !! (a + i) = Some true /\
      (forall k, k <> a + i -> flags m' !! k = flags m !! k) /\
      (forall k, ~ s + _n c <= k < s + n' -> words m' !! k = words m !! k)).
  { intros Hcase. exists true, (_n c), m. rewrite Hself.
    split; [apply (assign_present cfg c m i Hb Hi Hcase) |].
    split; [exact Hinv |]. split; [lia |].
    split; [reflexivity |]. split; [reflexivity |].
    split; [| split; reflexivity].
    destruct (assign_invariant cfg c m i Hinv Hi)
      as (r & n' & m' & Hrun & _ & _ & _ & Hfi & _).
    rewrite (assign_present cfg c m i Hb Hi Hcase) in Hrun.
    injection Hrun as _ _ Hm. rewrite <- Hm in Hfi.
    apply (flag_at_true c m a i Ha). exact Hfi. }
  destruct (Nat.eq_dec (_n c) (_cap c)) as [Hd | Hnd'];
    [apply Hsame; left; exact Hd |].
  destruct (bool_dec (flag_at c m i) true) as [Hf | Hf];
    [apply Hsame; right; exact Hf |].
  apply not_true_is_false in Hf.
  destruct (assign_absent cfg c m i Hb Hn Hi Hnd' Hf) as (a' & s' & Ha' & Hs' & Hrun').
  assert (a' = a) as -> by congruence. assert (s' = s) as -> by congruence.
  destruct (assign_invariant cfg c m i Hinv Hi)
    as (r & n' & m' & Hrun & Hinv' & _).
  rewrite Hrun' in Hrun. injection Hrun as _ Hc Hm.
  assert (Hn' : n' = _n c + 1) by lia.
  rewrite <- Hm, Hn' in Hinv'.
  exists false, (_n c + 1), (mkMemory (<[a + i := true]> (flags m))
                             (<[s + _n c := i]> (words m))).
  split; [exact Hrun' |]. split; [exact Hinv' |]. split; [lia |].
  simpl. rewrite !length_insert.
  split; [reflexivity |]. split; [reflexivity |].
  split; [apply list_lookup_insert_eq; lia |]. split.
  - intros k Hk. apply list_lookup_insert_ne. lia.
  - intros k Hk. apply list_lookup_insert_ne. lia.
Qed.

Lemma assign_each_spec ins : forall c m a s,
  _assigned c = Some a -> _stack c = Some s ->
  set_equivalence c m -> (forall i, i ∈ ins -> i < _cap c) ->
  exists n' m',
    assign_each cfg ins c m = Ok (with_n c n', m') /\
    set_equivalence (with_n c n') m' /\
    _n c <= n' /\
    length (flags m') = length (flags m) /\
    length (words m') = length (words m) /\
    (forall i, i < _cap c -> flag_at c m' i = flag_at c m i || memb i ins) /\
    (forall k, ~ a <= k < a + _cap c -> flags m' !! k = flags m !! k) /\
    (forall k, ~ s + _n c <= k < s + n' -> words m' !! k = words m !! k).
Proof.
  induction ins as [| i rest IH]; intros c m a s Ha Hs Hinv Hins.
  - exists (_n c), m.
    replace (with_n c (_n c)) with c by (destruct c; reflexivity).
    split; [reflexivity |]. split; [exact Hinv |]. split; [lia |].
    split; [reflexivity |]. split; [reflexivity |].
    split; [intros i Hi; rewrite orb_false_r; reflexivity |].
    split; reflexivity.
  - assert (Hi : i < _cap c) by (apply Hins; apply elem_of_cons; left; reflexivity).
    destruct (assign_step c m a s i Ha Hs Hinv Hi)
      as (r & n1 & m1 & Hrun & Hinv1 & Hn1 & Hlf1 & Hlw1 & Hset & Hfl1 & Hw1).
    destruct (IH (with_n c n1) m1 a s Ha Hs Hinv1)
      as (n2 & m2 & Hrun2 & Hinv2 & Hn2 & Hlf2 & Hlw2 & Hfl2 & Hout2 & Hw2).
    { intros j Hj. apply Hins. apply elem_of_cons. right. exact Hj. }
    change (_cap (with_n c n1)) with (_cap c) in *.
    change (_n (with_n c n1)) with n1 in *.
    change (with_n (with_n c n1) n2) with (with_n c n2) in *.
    exists n2, m2. split.
    { simpl. erewrite bind_ok by exact Hrun. exact Hrun2. }
    split; [exact Hinv2 |]. split; [lia |].
    split; [congruence |]. split; [congruence |].
    split; [| split].
    + intros j Hj. rewrite <- (flag_at_with_n c n1 m2 j).
      rewrite (Hfl2 j Hj), flag_at_with_n.
      change (memb j (i :: rest)) with ((j =? i) || memb j rest).
      destruct (Nat.eqb_spec j i) as [-> | Hne].
      * assert (Hfi : flag_at c m1 i = true)
          by (apply (flag_at_true c m1 a i Ha); exact Hset).
        rewrite Hfi. simpl. rewrite orb_true_r. reflexivity.
      * simpl. f_equal. unfold flag_at. rewrite Ha. rewrite Hfl1 by lia.
        reflexivity.
    + intros k Hk. rewrite Hout2 by exact Hk. apply Hfl1. lia.
    + intros k Hk. rewrite Hw2 by lia. apply Hw1. lia.
Qed.

End Insertions.

(** ** Frames for the state of a tile *)

Section TileFrames.

Variable c : Coordinates.
Variables a b : nat.

Hypothesis Ha : _assigned c = Some a.

Local Abbreviation ts := (getTileSize (analytic_model c)).
Local Abbreviation seg := (segment_of c b).
Local Abbreviation counters := (counters_of c b).

Lemma take_drop_same (w w' : list nat) (from len : nat) :
  (forall k, k < len -> w' !! (from + k) = w !! (from + k)) ->
  take len (drop from w') = take len (drop from w).
Proof.
  intros H. apply list_eq. intros k.
  destruct (Nat.lt_ge_cases k len) as [Hk | Hk].
  - rewrite !lookup_take_lt by exact Hk. rewrite !lookup_drop. apply H. exact Hk.
  - rewrite !lookup_take_ge by exact Hk. reflexivity.
Qed.

Lemma flag_at_same m m' i :
  flags m' !! (a + i) = flags m !! (a + i) -> flag_at c m' i = flag_at c m i.
Proof. intros H. unfold flag_at. rewrite Ha, H. reflexivity. Qed.

Lemma tile_old_same m m' t :
  tile_same c a b m m' t ->
  (forall pre, words m !! seg t = Some pre -> pre <= ts) ->
  tile_old c b m' t = tile_old c b m t.
Proof.
  intros (Hw & _ & _) Hpre. unfold tile_old.
  assert (H0 := Hw 0 ltac:(lia)). rewrite Nat.add_0_r in H0. rewrite H0.
  destruct (words m !! seg t) as [pre |] eqn:Hp; [| reflexivity].
  specialize (Hpre pre eq_refl).
  apply take_drop_same. intros k Hk.
  replace (seg t + 1 + k) with (seg t + (1 + k)) by lia. apply Hw. lia.
Qed.

Lemma tile_new_same m m' t :
  tile_same c a b m m' t ->
  (forall pre new, words m !! seg t = Some pre ->
     words m !! (counters + t) = Some new -> pre + new <= ts) ->
  tile_new c b m' t = tile_new c b m t.
Proof.
  intros (Hw & Hc & _) Hpre. unfold tile_new.
  assert (H0 := Hw 0 ltac:(lia)). rewrite Nat.add_0_r in H0. rewrite H0, Hc.
  destruct (words m !! seg t) as [pre |] eqn:Hp; [| reflexivity].
  destruct (words m !! (counters + t)) as [new |] eqn:Hn; [| reflexivity].
  specialize (Hpre pre new eq_refl eq_refl).
  apply take_drop_same. intros k Hk.
  replace (seg t + 1 + pre + k) with (seg t + (1 + pre + k)) by lia.
  apply Hw. lia.
Qed.

Lemma tile_old_bounded m0 m t :
  NoDup (tile_old c b m t) ->
  (forall j, j ∈ tile_old c b m t <->
     j < tile_width c t /\ flag_at c m0 (tile_lower c t + j) = true) ->
  length (tile_old c b m t) <= tile_width c t.
Proof.
  intros Hnd Hel. apply NoDup_bounded_length; [exact Hnd |].
  intros x Hx. apply Hel in Hx. tauto.
Qed.

Lemma tile_ready_frame m0 m m' t :
  tile_width c t <= ts ->
  tile_ready c b m0 m t -> tile_same c a b m m' t ->
  tile_ready c b m0 m' t.
Proof.
  intros Hw (Hpre & Hnd & Hel & Hzero & Hfl) Hsame.
  assert (Hb := tile_old_bounded m0 m t Hnd Hel).
  assert (Hold : tile_old c b m' t = tile_old c b m t).
  { apply tile_old_same; [exact Hsame |].
    intros pre Hp. rewrite Hpre in Hp. inversion Hp. lia. }
  destruct Hsame as (Hws & Hcs & Hfs).
  unfold tile_ready. rewrite Hold.
  split; [| split; [exact Hnd | split; [exact Hel | split]]].
  - assert (H0 := Hws 0 ltac:(lia)). rewrite Nat.add_0_r in H0.
    rewrite H0. exact Hpre.
  - rewrite Hcs. exact Hzero.
  - intros j Hj. rewrite <- (Hfl j Hj). apply flag_at_same. apply Hfs. exact Hj.
Qed.

Lemma tile_done_frame ins m0 m m' t :
  tile_width c t <= ts ->
  tile_done c b ins m0 m t -> tile_same c a b m m' t ->
  tile_done c b ins m0 m' t.
Proof.
  intros Hw (Hpre & Hnew & Hnd & Hel0 & Hel & Hfl) Hsame.
  assert (Hb : length (tile_old c b m t ++ tile_new c b m t) <= tile_width c t).
  { apply NoDup_bounded_length; [exact Hnd |].
    intros x Hx. apply Hel in Hx. tauto. }
  rewrite length_app in Hb.
  assert (Hold : tile_old c b m' t = tile_old c b m t).
  { apply tile_old_same; [exact Hsame |].
    intros pre Hp. rewrite Hpre in Hp. inversion Hp. lia. }
  assert (Hnw : tile_new c b m' t = tile_new c b m t).
  { apply tile_new_same; [exact Hsame |].
    intros pre new Hp Hq. rewrite Hpre in Hp. rewrite Hnew in Hq.
    inversion Hp. inversion Hq. lia. }
  destruct Hsame as (Hws & Hcs & Hfs).
  assert (Hflag : forall j, j < tile_width c t ->
            flag_at c m' (tile_lower c t + j) = flag_at c m (tile_lower c t + j)).
  { intros j Hj. apply flag_at_same. apply Hfs. exact Hj. }
  unfold tile_done. rewrite Hold, Hnw.
  split; [| split; [| split; [exact Hnd | split; [exact Hel0 | split]]]].
  - assert (H0 := Hws 0 ltac:(lia)). rewrite Nat.add_0_r in H0.
    rewrite H0. exact Hpre.
  - rewrite Hcs. exact Hnew.
  - intros j. rewrite Hel. split; intros [Hj Hf]; (split; [exact Hj |]).
    + rewrite Hflag by exact Hj. exact Hf.
    + rewrite <- Hflag by exact Hj. exact Hf.
  - intros j Hj. rewrite Hflag by exact Hj. apply Hfl. exact Hj.
Qed.

End TileFrames.

(** ** The phases of an episode *)

Section Phases.

Variable cfg : Config.
Variable c : Coordinates.
Variables a s b : nat.
Variable m0 : Memory.

Hypothesis Hinst : installed c.
Hypothesis Ha : _assigned c = Some a.
Hypothesis Hs : _stack c = Some s.
Hypothesis Hb : _buffer c = Some b.
Hypothesis Hpart : tiles_partition c.
Hypothesis HsB : s + _cap c <= b.
Hypothesis Hinv0 : set_equivalence c m0.
Hypothesis Hfits0 : fits c a b m0.

Local Abbreviation ts := (getTileSize (analytic_model c)).
Local Abbreviation T := (getNumTiles (analytic_model c)).
Local Abbreviation seg := (segment_of c b).
Local Abbreviation counters := (counters_of c b).
Local Abbreviation sums := (sums_of c b).
Local Abbreviation lower := (tile_lower c).
Local Abbreviation upper := (tile_upper c).
Local Abbreviation width := (tile_width c).

Lemma capacity_positive : 0 < _cap c /\ 0 < ts /\ 0 < T.
Proof.
  destruct Hpart as (Hts & Hlast & Hcover).
  split; [lia |]. split; [exact Hts |].
  destruct T; [simpl in Hcover; lia | lia].
Qed.

(** *** Phase 1: every tile is initialised *)

Lemma init_tile m t :
  t < T ->
  flags m = flags m0 -> length (words m) = length (words m0) ->
  (forall k, ~ b <= k -> words m !! k = words m0 !! k) ->
  exists m',
    asyncSubsetInit cfg c (lower t) (upper t) m = Ok (tt, m') /\
    flags m' = flags m0 /\ length (words m') = length (words m0) /\
    (forall k, ~ seg t <= k <= seg t + ts -> k <> counters + t ->
       words m' !! k = words m !! k) /\
    tile_ready c b m0 m' t.
Proof.
  intros Ht Hf Hl Hlow.
  destruct capacity_positive as (Hcap & Hts & HT).
  destruct (tile_bounds c t Hpart Ht) as (Hlt & Hup & Hw & Hwpos).
  unfold tile_width in Hw, Hwpos.
  assert (Hfits : fits c a b m).
  { destruct Hfits0 as [H1 H2]. split; [rewrite Hf | rewrite Hl]; assumption. }
  assert (Hframe := set_equivalence_frame c m0 m s Hs Hinv0 Hf Hl
                      ltac:(intros k Hk; apply Hlow; lia)).
  destruct Hframe as (Hinv & Hsp & Hfl).
  destruct (asyncSubsetInit_spec cfg c a s b Hinst Ha Hs Hb Hts Hcap HsB
              m (lower t) (upper t) Hfits Hinv)
    as (m' & Hrun & Hf' & Hl' & Hseg & Hzero & Hfr);
    rewrite ?tile_lower_div by exact Hts; try lia.
  rewrite tile_lower_div in Hseg, Hzero, Hfr by exact Hts. cbv zeta in Hseg.
  set (L := if upper t - lower t <? _n c
            then offsets_by_range c m (lower t) (upper t)
            else offsets_by_stack c m (lower t) (upper t)) in *.
  assert (HLnd : NoDup L).
  { unfold L. destruct (upper t - lower t <? _n c);
      [apply offsets_by_range_NoDup | apply offsets_by_stack_NoDup; exact Hinv]. }
  assert (HLel : forall j, j ∈ L <->
            j < width t /\ flag_at c m0 (lower t + j) = true).
  { intros j. rewrite <- Hfl. unfold L, tile_width.
    destruct (upper t - lower t <? _n c).
    - apply offsets_by_range_elem.
    - apply offsets_by_stack_elem; assumption. }
  assert (HLlen : length L <= ts).
  { etransitivity; [| exact Hw]. apply NoDup_bounded_length; [exact HLnd |].
    intros x Hx. apply HLel in Hx. unfold tile_width in Hx. tauto. }
  destruct (seg_in_scratch c b t ts Ht ltac:(lia)) as [_ Hseg2].
  assert (HT2 := sums_after_counters c b).
  assert (Hsums := fits_words c b a m Hfits).
  assert (Hold : tile_old c b m' t = L).
  { unfold tile_old. rewrite (proj1 Hseg).
    apply segment_holds_list; [exact Hseg | lia]. }
  exists m'. split; [exact Hrun |]. split; [congruence |]. split; [congruence |].
  split; [exact Hfr |].
  unfold tile_ready. rewrite Hold.
  split; [exact (proj1 Hseg) |]. split; [exact HLnd |]. split; [exact HLel |].
  split; [exact Hzero |].
  intros j Hj. unfold flag_at. rewrite Hf', Hf. reflexivity.
Qed.

Lemma tiles_apart t t' j :
  t <> t' -> j < width t' -> ~ lower t <= lower t' + j < upper t.
Proof.
  intros Hne Hj Hin.
  destruct capacity_positive as (_ & Hts & _).
  assert (H1 := tile_unique c t (lower t' + j) Hts Hin).
  assert (H2 := tile_unique c t' (lower t' + j) Hts
                  ltac:(unfold tile_width in Hj; lia)).
  congruence.
Qed.

Lemma tile_same_apart m m' t t' :
  t < T -> t' < T -> t <> t' ->
  (forall k, ~ a + lower t <= k < a + upper t -> flags m' !! k = flags m !! k) ->
  (forall k, ~ seg t <= k <= seg t + ts -> k <> counters + t ->
     words m' !! k = words m !! k) ->
  tile_same c a b m m' t'.
Proof.
  intros Ht Ht' Hne Hf Hfr.
  split; [| split].
  - intros k Hk. apply Hfr.
    + intros [H1 H2].
      apply (seg_apart c b t' t k (seg t' + k - seg t) ltac:(lia) Hk); lia.
    + destruct (seg_in_scratch c b t' k Ht' Hk). lia.
  - apply Hfr; [| lia].
    destruct (seg_in_scratch c b t ts Ht ltac:(lia)). lia.
  - intros j Hj. apply Hf.
    assert (H := tiles_apart t t' j Hne Hj). lia.
Qed.

Lemma init_phase order :
  (forall t, t ∈ order -> t < T) ->
  exists m1,
    for_each order (fun t (_ : unit) =>
      asyncSubsetInit cfg c (lower t) (upper t)) tt m0 = Ok (tt, m1) /\
    flags m1 = flags m0 /\ length (words m1) = length (words m0) /\
    (forall k, ~ b <= k < sums -> words m1 !! k = words m0 !! k) /\
    forall t, t ∈ order -> tile_ready c b m0 m1 t.
Proof.
  intros Horder.
  destruct (for_each_inv
    (fun ran (_ : unit) m1 =>
       flags m1 = flags m0 /\ length (words m1) = length (words m0) /\
       (forall k, ~ b <= k < sums -> words m1 !! k = words m0 !! k) /\
       forall t, t ∈ ran -> tile_ready c b m0 m1 t)
    (fun t (_ : unit) => asyncSubsetInit cfg c (lower t) (upper t))
    order [] tt m0) as ([] & m1 & Hrun & Hpost).
  - split; [reflexivity |]. split; [reflexivity |]. split; [reflexivity |].
    intros t Ht. apply elem_of_nil in Ht. contradiction.
  - intros ran t rest [] m Heq (Hf & Hl & Hout & Hready).
    assert (Ht : t < T).
    { apply Horder. simpl in Heq. rewrite Heq. apply elem_of_app. right.
      apply elem_of_cons. left. reflexivity. }
    destruct (init_tile m t Ht Hf Hl) as (m' & Hrun & Hf' & Hl' & Hfr & Hnew).
    { intros k Hk. apply Hout. lia. }
    assert (HT2 := sums_after_counters c b).
    exists tt, m'. split; [exact Hrun |]. split; [exact Hf' |].
    split; [exact Hl' |]. split.
    + intros k Hk. rewrite Hfr; [apply Hout; exact Hk | |].
      * destruct (seg_in_scratch c b t ts Ht ltac:(lia)).
        destruct (seg_in_scratch c b t 0 Ht ltac:(lia)). lia.
      * destruct (seg_in_scratch c b t 0 Ht ltac:(lia)). lia.
    + intros t' Ht'. destruct (Nat.eq_dec t' t) as [-> | Hne]; [exact Hnew |].
      apply elem_of_app in Ht' as [Hold | Hin];
        [| apply list_elem_of_singleton in Hin; contradiction].
      assert (Ht'' : t' < T).
      { apply Horder. simpl in Heq. rewrite Heq. apply elem_of_app. left. exact Hold. }
      apply (tile_ready_frame c a b Ha m0 m m' t').
      * destruct (tile_bounds c t' Hpart Ht''). tauto.
      * apply Hready. exact Hold.
      * apply (tile_same_apart m m' t t' Ht Ht'' ltac:(lia)); [| exact Hfr].
        intros k _. rewrite Hf', Hf. reflexivity.
  - exists m1. split; [exact Hrun |]. exact Hpost.
Qed.

(** *** Phase 2: every tile is worked on through its view *)

Lemma aligned_word k :
  aligned_stack cfg (k * Pos.to_nat (sizeof_StackType cfg)) = k.
Proof.
  unfold aligned_stack. cbv zeta.
  assert (Hpos : 0 < Pos.to_nat (sizeof_StackType cfg)) by apply Pos2Nat.is_pos.
  rewrite Nat.Div0.mod_mul. simpl. apply Nat.div_mul. lia.
Qed.

Lemma asyncSubset_view m t pre new :
  t < T -> fits c a b m ->
  words m !! seg t = Some pre -> words m !! (counters + t) = Some new ->
  pre + new <= width t ->
  exists view,
    asyncSubset cfg c (lower t) (upper t) m = Ok (view, m) /\
    _assigned view = Some (a + lower t) /\
    _stack view = Some (seg t + 1) /\
    _n view = pre + new /\ _cap view = width t.
Proof.
  intros Ht Hfits Hpre Hnew Hle.
  destruct capacity_positive as (Hcap & Hts & HT).
  destruct (tile_bounds c t Hpart Ht) as (Hlt & Hup & Hw & Hwpos).
  eexists. split.
  { unfold asyncSubset.
    mstep ltac:(apply assert_ok; apply Nat.ltb_lt; exact Hcap).
    mstep ltac:(apply div_ok; exact Hts).
    rewrite tile_lower_div by exact Hts.
    mstep ltac:(apply vector_at_ok; apply (local_buffer_at c b t Hinst Hb Ht)).
    rewrite usub_ok by lia. fold (width t).
    mstep ltac:(apply assert_ok; apply Nat.leb_le; exact Hw).
    rewrite Ha. simpl ptr_add. simpl to_void. unfold set. cbv zeta.
    rewrite andb_false_r.
    mstep ltac:(apply ret_ok). mstep ltac:(apply ret_ok).
    mstep ltac:(apply load_word_ok; rewrite Nat.add_0_r; exact Hpre).
    rewrite (local_new_nnzs_at c b Hinst Hb).
    mstep ltac:(apply load_word_ok; exact Hnew).
    mstep ltac:(apply assert_ok; apply Nat.leb_le; simpl; exact Hle).
    reflexivity. }
  simpl. split; [reflexivity |]. split; [| split; reflexivity].
  f_equal. apply (aligned_word (seg t + 1)).
Qed.

Lemma memb_shifted lo ins j :
  (forall i, i ∈ ins -> lo <= i) ->
  memb j ((fun i => i - lo) <$> ins) = memb (lo + j) ins.
Proof.
  induction ins as [| i rest IH]; intros Hins; [reflexivity |].
  rewrite fmap_cons. simpl.
  rewrite IH by (intros k Hk; apply Hins; apply elem_of_cons; right; exact Hk).
  f_equal. assert (Hi := Hins i ltac:(apply elem_of_cons; left; reflexivity)).
  destruct (Nat.eqb_spec j (i - lo)), (Nat.eqb_spec (lo + j) i);
    try reflexivity; lia.
Qed.

Lemma take_split (l : list nat) (n k : nat) :
  take (n + k) l = take n l ++ take k (drop n l).
Proof.
  rewrite <- (take_drop n (take (n + k) l)).
  rewrite take_take. replace (n `min` (n + k)) with n by lia.
  f_equal. rewrite take_drop_commute. reflexivity.
Qed.

Lemma worker_tile ins m t :
  t < T ->
  (forall i, i ∈ ins -> lower t <= i < upper t) ->
  length (flags m) = length (flags m0) ->
  length (words m) = length (words m0) ->
  tile_ready c b m0 m t ->
  exists m',
    tile_worker cfg c ins t m = Ok (tt, m') /\
    length (flags m') = length (flags m0) /\
    length (words m') = length (words m0) /\
    (forall k, ~ a + lower t <= k < a + upper t ->
       flags m' !! k = flags m !! k) /\
    (forall k, ~ seg t <= k <= seg t + ts -> k <> counters + t ->
       words m' !! k = words m !! k) /\
    tile_done c b ins m0 m' t.
Proof.
  intros Ht Hins Hlf Hlw (Hpre & Hnd & Hel & Hzero & Hfl).
  destruct capacity_positive as (Hcap & Hts & HT).
  destruct (tile_bounds c t Hpart Ht) as (Hlt & Hup & Hw & Hwpos).
  assert (Hwdef : lower t + width t = upper t) by (unfold tile_width; lia).
  assert (Hfits : fits c a b m).
  { destruct Hfits0 as [H1 H2]. split; [rewrite Hlf | rewrite Hlw]; assumption. }
  destruct (seg_in_scratch c b t ts Ht ltac:(lia)) as [Hseg1 Hseg2].
  destruct (seg_in_scratch c b t 0 Ht ltac:(lia)) as [Hseg3 _].
  assert (HT2 := sums_after_counters c b).
  assert (Hsums := fits_words c b a m Hfits).
  assert (Hob := tile_old_bounded c b m0 m t Hnd Hel).
  set (old := tile_old c b m t) in *.
  destruct (asyncSubset_view m t (length old) 0 Ht Hfits Hpre Hzero ltac:(lia))
    as (view & Hview & Hva & Hvs & Hvn & Hvc).
  rewrite Nat.add_0_r in Hvn.
  assert (Hold_eq : old = take (length old) (drop (seg t + 1) (words m))).
  { unfold old at 1. unfold tile_old. rewrite Hpre. reflexivity. }
  assert (Hsp : stack_prefix view m = old).
  { unfold stack_prefix. rewrite Hvs, Hvn. symmetry. exact Hold_eq. }
  assert (Hvflag : forall m' j, flag_at view m' j = flag_at c m' (lower t + j)).
  { intros m' j. unfold flag_at. rewrite Hva, Ha.
    replace (a + lower t + j) with (a + (lower t + j)) by lia. reflexivity. }
  assert (Hvinv : set_equivalence view m).
  { split; [| split; [| split]].
    - unfold bound_in. rewrite Hva, Hvs, Hvc. destruct Hfits as [H1 H2]. lia.
    - lia.
    - rewrite Hsp. exact Hnd.
    - intros j. rewrite Hsp, Hvc, Hvflag, Hel. split; intros [Hj Hf].
      + rewrite Hfl by exact Hj. tauto.
      + rewrite <- Hfl by exact Hj. tauto. }
  destruct (assign_each_spec cfg ((fun i => i - lower t) <$> ins) view m
              (a + lower t) (seg t + 1) Hva Hvs Hvinv)
    as (n' & m2 & Hrun2 & Hvinv2 & Hn' & Hlf2 & Hlw2 & Hfl2 & Hfout & Hwout).
  { intros j Hj. apply list_elem_of_fmap in Hj as (i & -> & Hi).
    specialize (Hins i Hi). rewrite Hvc. unfold tile_width. lia. }
  rewrite Hvn, Hvc in *.
  assert (Hn'w : n' <= width t).
  { destruct Hvinv2 as (_ & H & _). simpl in H. rewrite Hvc in H. exact H. }
  assert (Hpre2 : words m2 !! seg t = Some (length old)).
  { rewrite Hwout by lia. exact Hpre. }
  set (m3 := mkMemory (flags m2)
               (<[counters + t := n' - length old]> (words m2))).
  assert (Hjoin : asyncJoinSubset cfg c (with_n view n') (lower t) (upper t) m2
                  = Ok (tt, m3)).
  { pose proof (asyncJoinSubset_store cfg c (with_n view n') (lower t) (upper t)
                  m2 b (length old) Hinst Hb Hcap Hts) as H.
    rewrite tile_lower_div in H by exact Hts.
    apply H; clear H.
    - exact Ht.
    - rewrite Hlw2. destruct Hfits as [_ H2]. exact H2.
    - exact Hpre2.
    - simpl. exact Hn'.
    - simpl. rewrite Hvc. exact Hn'w. }
  assert (Hold3 : tile_old c b m3 t = old).
  { unfold tile_old. simpl. rewrite list_lookup_insert_ne by lia. rewrite Hpre2.
    etransitivity; [| symmetry; exact Hold_eq].
    apply take_drop_same. intros k Hk.
    rewrite list_lookup_insert_ne by lia. apply Hwout. lia. }
  assert (Hnew3 : tile_new c b m3 t
                  = take (n' - length old) (drop (seg t + 1 + length old) (words m2))).
  { unfold tile_new. simpl. rewrite list_lookup_insert_ne by lia. rewrite Hpre2.
    rewrite list_lookup_insert_eq by lia.
    apply take_drop_same. intros k Hk. apply list_lookup_insert_ne. lia. }
  assert (Hsp2 : stack_prefix (with_n view n') m2
                 = tile_old c b m3 t ++ tile_new c b m3 t).
  { unfold stack_prefix. simpl. rewrite Hvs.
    replace n' with (length old + (n' - length old)) at 1 by lia.
    rewrite take_split, drop_drop, Hold3, Hnew3. f_equal.
    etransitivity; [| symmetry; exact Hold_eq].
    apply take_drop_same. intros k Hk. apply Hwout. lia. }
  exists m3. split.
  { unfold tile_worker. cbv zeta.
    mstep ltac:(exact Hview). mstep ltac:(exact Hrun2). exact Hjoin. }
  simpl. rewrite length_insert.
  split; [congruence |]. split; [congruence |]. split; [| split].
  - intros k Hk. apply Hfout. lia.
  - intros k Hk1 Hk2. rewrite list_lookup_insert_ne by lia. apply Hwout. lia.
  - destruct Hvinv2 as (_ & _ & Hnd2 & Hel2). rewrite Hsp2 in Hnd2, Hel2.
    assert (Hflag3 : forall j, j < width t ->
              flag_at c m3 (lower t + j)
              = flag_at c m0 (lower t + j) || memb (lower t + j) ins).
    { intros j Hj.
      change (flag_at c m3 (lower t + j)) with (flag_at c m2 (lower t + j)).
      rewrite <- Hvflag, (Hfl2 j Hj), Hvflag, (Hfl j Hj).
      f_equal. apply memb_shifted. intros i Hi. apply Hins. exact Hi. }
    unfold tile_done.
    split; [| split; [| split; [exact Hnd2 | split; [| split; [| exact Hflag3]]]]].
    + simpl. rewrite list_lookup_insert_ne by lia. rewrite Hold3. exact Hpre2.
    + simpl. rewrite list_lookup_insert_eq by lia. rewrite Hnew3.
      rewrite length_take, length_drop. f_equal. lia.
    + rewrite Hold3. exact Hel.
    + intros j. rewrite Hel2. simpl _cap. rewrite Hvc.
      rewrite flag_at_with_n, Hvflag. reflexivity.
Qed.

Lemma work_phase (ins : list (list nat)) order m1 :
  (forall t i, i ∈ nth t ins [] -> lower t <= i < upper t) ->
  NoDup order -> (forall t, t ∈ order -> t < T) ->
  length (flags m1) = length (flags m0) ->
  length (words m1) = length (words m0) ->
  (forall k, ~ b <= k < sums -> words m1 !! k = words m0 !! k) ->
  (forall t, t < T -> tile_ready c b m0 m1 t) ->
  exists m2,
    for_each order (fun t (_ : unit) => tile_worker cfg c (nth t ins []) t) tt m1
    = Ok (tt, m2) /\
    length (flags m2) = length (flags m0) /\
    length (words m2) = length (words m0) /\
    (forall k, ~ b <= k < sums -> words m2 !! k = words m0 !! k) /\
    (forall t, t ∈ order -> tile_done c b (nth t ins []) m0 m2 t) /\
    (forall t, t < T -> t ∉ order -> tile_ready c b m0 m2 t).
Proof.
  intros Hins Hnd Horder Hlf Hlw Hout Hready.
  assert (HT2 := sums_after_counters c b).
  destruct (for_each_inv
    (fun ran (_ : unit) m2 =>
       length (flags m2) = length (flags m0) /\
       length (words m2) = length (words m0) /\
       (forall k, ~ b <= k < sums -> words m2 !! k = words m0 !! k) /\
       (forall t, t ∈ ran -> tile_done c b (nth t ins []) m0 m2 t) /\
       (forall t, t < T -> t ∉ ran -> tile_ready c b m0 m2 t))
    (fun t (_ : unit) => tile_worker cfg c (nth t ins []) t)
    order [] tt m1) as ([] & m2 & Hrun & Hpost).
  - split; [exact Hlf |]. split; [exact Hlw |]. split; [exact Hout |]. split.
    + intros t Ht. apply elem_of_nil in Ht. contradiction.
    + intros t Ht _. apply Hready. exact Ht.
  - intros ran t rest [] m Heq (Hlf' & Hlw' & Hout' & Hdone & Htodo).
    simpl in Heq.
    assert (Hin : t ∈ order).
    { rewrite Heq. apply elem_of_app. right. apply elem_of_cons. left. reflexivity. }
    assert (Ht := Horder t Hin).
    assert (Hfresh : t ∉ ran).
    { rewrite Heq in Hnd. apply NoDup_app in Hnd as (_ & Hd & _).
      intros Hr. apply (Hd t Hr). apply elem_of_cons. left. reflexivity. }
    destruct (worker_tile (nth t ins []) m t Ht (Hins t) Hlf' Hlw'
                (Htodo t Ht Hfresh))
      as (m' & Hrun & Hlf2 & Hlw2 & Hff & Hwf & Hnew).
    exists tt, m'. split; [exact Hrun |]. split; [exact Hlf2 |].
    split; [exact Hlw2 |].
    assert (Hother : forall t', t' < T -> t' <> t -> tile_same c a b m m' t').
    { intros t' Ht' Hne.
      apply (tile_same_apart m m' t t' Ht Ht' ltac:(lia) Hff Hwf). }
    split; [| split].
    + intros k Hk. rewrite Hwf; [apply Hout'; exact Hk | |].
      * destruct (seg_in_scratch c b t ts Ht ltac:(lia)).
        destruct (seg_in_scratch c b t 0 Ht ltac:(lia)). lia.
      * destruct (seg_in_scratch c b t 0 Ht ltac:(lia)). lia.
    + intros t' Ht'. destruct (Nat.eq_dec t' t) as [-> | Hne]; [exact Hnew |].
      apply elem_of_app in Ht' as [Hold | Hnow];
        [| apply list_elem_of_singleton in Hnow; contradiction].
      assert (Ht'' : t' < T).
      { apply Horder. rewrite Heq. apply elem_of_app. left. exact Hold. }
      apply (tile_done_frame c a b Ha (nth t' ins []) m0 m m' t').
      * destruct (tile_bounds c t' Hpart Ht''). tauto.
      * apply Hdone. exact Hold.
      * apply Hother; assumption.
    + intros t' Ht' Hnot.
      assert (Hne : t' <> t).
      { intros ->. apply Hnot. apply elem_of_app. right.
        apply list_elem_of_singleton. reflexivity. }
      apply (tile_ready_frame c a b Ha m0 m m' t').
      * destruct (tile_bounds c t' Hpart Ht'). tauto.
      * apply Htodo; [exact Ht' |]. intros Hr. apply Hnot.
        apply elem_of_app. left. exact Hr.
      * apply Hother; assumption.
  - exists m2. split; [exact Hrun |]. simpl in Hpost. exact Hpost.
Qed.

(** *** What the tiles hold when all workers are done *)

Section AllDone.

Variable ins : list (list nat).
Variable m2 : Memory.

Hypothesis Hdone : forall t, t < T -> tile_done c b (nth t ins []) m0 m2 t.

Lemma tile_counts_lookup t :
  t < T -> tile_counts c b m2 !! t = Some (length (tile_new c b m2 t)).
Proof.
  intros Ht. unfold tile_counts. rewrite list_lookup_fmap.
  rewrite lookup_seq_lt by exact Ht. reflexivity.
Qed.

Lemma tile_counts_length : length (tile_counts c b m2) = T.
Proof. unfold tile_counts. rewrite length_fmap. apply length_seq. Qed.

Lemma joined_step k :
  joined c b m2 (S k)
  = joined c b m2 k ++ ((fun j => j + lower k) <$> tile_new c b m2 k).
Proof.
  unfold joined. rewrite seq_S, bind_app. simpl. rewrite app_nil_r. reflexivity.
Qed.

Lemma joined_length k :
  k <= T -> length (joined c b m2 k) = range_sum (tile_counts c b m2) 0 k.
Proof.
  induction k as [| k IH]; intros Hk.
  - rewrite range_sum_empty. reflexivity.
  - rewrite joined_step, length_app, length_fmap, IH by lia.
    rewrite (range_sum_step _ 0 k (length (tile_new c b m2 k)));
      [reflexivity | lia | apply tile_counts_lookup; lia].
Qed.

Lemma joined_elem x k :
  x ∈ joined c b m2 k <->
  exists t j, t < k /\ j ∈ tile_new c b m2 t /\ x = j + lower t.
Proof.
  unfold joined. rewrite list_elem_of_bind. split.
  - intros (t & Hx & Ht). apply elem_of_seq in Ht.
    apply list_elem_of_fmap in Hx as (j & -> & Hj).
    exists t, j. split; [lia |]. split; [exact Hj | reflexivity].
  - intros (t & j & Ht & Hj & ->). exists t. split.
    + apply list_elem_of_fmap. exists j. split; [reflexivity | exact Hj].
    + apply elem_of_seq. lia.
Qed.

Lemma tile_new_entry t j :
  t < T -> j ∈ tile_new c b m2 t ->
  j < width t /\ flag_at c m2 (lower t + j) = true /\
  flag_at c m0 (lower t + j) = false.
Proof.
  intros Ht Hj.
  destruct (Hdone t Ht) as (_ & _ & Hnd & Hel0 & Hel & _).
  assert (Hin : j ∈ tile_old c b m2 t ++ tile_new c b m2 t)
    by (apply elem_of_app; right; exact Hj).
  apply Hel in Hin as [Hw Hf]. split; [exact Hw |]. split; [exact Hf |].
  apply not_true_is_false. intros Hf0.
  assert (Hold : j ∈ tile_old c b m2 t) by (apply Hel0; split; assumption).
  apply NoDup_app in Hnd as (_ & Hd & _). exact (Hd j Hold Hj).
Qed.

Lemma joined_NoDup k : k <= T -> NoDup (joined c b m2 k).
Proof.
  intros Hk. unfold joined.
  destruct capacity_positive as (_ & Hts & _).
  apply NoDup_bind; [| | apply NoDup_seq].
  - intros t1 t2 x H1 H2 Hx1 Hx2.
    apply elem_of_seq in H1. apply elem_of_seq in H2.
    apply list_elem_of_fmap in Hx1 as (j1 & -> & Hj1).
    apply list_elem_of_fmap in Hx2 as (j2 & Heq & Hj2).
    destruct (tile_new_entry t1 j1 ltac:(lia) Hj1) as (Hw1 & _).
    destruct (tile_new_entry t2 j2 ltac:(lia) Hj2) as (Hw2 & _).
    unfold tile_width in Hw1, Hw2.
    rewrite <- (tile_unique c t1 (j1 + lower t1) Hts ltac:(lia)).
    rewrite Heq. apply (tile_unique c t2 (j2 + lower t2) Hts). lia.
  - intros t Ht. apply elem_of_seq in Ht.
    destruct (Hdone t ltac:(lia)) as (_ & _ & Hnd & _).
    apply NoDup_app in Hnd as (_ & _ & Hnd).
    apply NoDup_fmap_2_strong; [| exact Hnd]. intros x y _ _ Heq. lia.
Qed.

Lemma flags_grow x :
  x < _cap c -> flag_at c m0 x = true -> flag_at c m2 x = true.
Proof.
  intros Hx Hf.
  destruct (tile_of_index c x Hpart Hx) as (Ht & Hr).
  destruct (Hdone _ Ht) as (_ & _ & _ & _ & _ & Hfl).
  specialize (Hfl (x - lower (x / ts)) ltac:(unfold tile_width; lia)).
  replace (lower (x / ts) + (x - lower (x / ts))) with x in Hfl by lia.
  rewrite Hfl, Hf. reflexivity.
Qed.

(** The stack of [m0] followed by the new indices of all tiles: no repeats,
    and exactly the indices that are present when the workers are done. *)
Lemma merged_elem x :
  x ∈ stack_prefix c m0 ++ joined c b m2 T <->
  x < _cap c /\ flag_at c m2 x = true.
Proof.
  destruct Hinv0 as (_ & _ & _ & Hel0).
  rewrite elem_of_app, joined_elem. split.
  - intros [Hold | (t & j & Ht & Hj & ->)].
    + apply Hel0 in Hold as [Hx Hf]. split; [exact Hx |].
      apply flags_grow; assumption.
    + destruct (tile_new_entry t j Ht Hj) as (Hw & Hf & _).
      destruct (tile_bounds c t Hpart Ht) as (_ & Hup & _).
      unfold tile_width in Hw.
      replace (j + lower t) with (lower t + j) by lia. split; [lia | exact Hf].
  - intros [Hx Hf].
    destruct (tile_of_index c x Hpart Hx) as (Ht & Hr).
    destruct (Hdone _ Ht) as (_ & _ & _ & Hold & Hall & _).
    assert (Hin : x - lower (x / ts)
                  ∈ tile_old c b m2 (x / ts) ++ tile_new c b m2 (x / ts)).
    { apply Hall. replace (lower (x / ts) + (x - lower (x / ts))) with x by lia.
      split; [unfold tile_width; lia | exact Hf]. }
    apply elem_of_app in Hin as [Hin | Hin].
    + left. apply Hel0. apply Hold in Hin as [_ Hf0].
      replace (lower (x / ts) + (x - lower (x / ts))) with x in Hf0 by lia.
      split; assumption.
    + right. exists (x / ts), (x - lower (x / ts)).
      split; [exact Ht |]. split; [exact Hin | lia].
Qed.

Lemma merged_NoDup : NoDup (stack_prefix c m0 ++ joined c b m2 T).
Proof.
  destruct Hinv0 as (_ & _ & Hnd0 & Hel0).
  apply NoDup_app. split; [exact Hnd0 |]. split; [| apply joined_NoDup; lia].
  intros x Hold Hnew. apply Hel0 in Hold as [_ Hf0].
  apply joined_elem in Hnew as (t & j & Ht & Hj & ->).
  destruct (tile_new_entry t j Ht Hj) as (_ & _ & Hf).
  replace (j + lower t) with (lower t + j) in Hf0 by lia. congruence.
Qed.

Lemma merged_count :
  _n c + range_sum (tile_counts c b m2) 0 T <= _cap c.
Proof.
  assert (Hn0 : length (stack_prefix c m0) = _n c).
  { apply (stack_prefix_length c m0 s Hs).
    destruct Hinv0 as (Hbd & Hn & _). unfold bound_in in Hbd.
    rewrite Ha, Hs in Hbd. lia. }
  rewrite <- Hn0, <- joined_length, <- length_app by lia.
  apply NoDup_bounded_length; [apply merged_NoDup |].
  intros x Hx. apply merged_elem in Hx. tauto.
Qed.

End AllDone.

(** *** Phase 4: every tile is joined *)

Lemma tile_new_lookup m t pre new j :
  words m !! seg t = Some pre -> words m !! (counters + t) = Some new ->
  j < new ->
  tile_new c b m t !! j = words m !! (seg t + 1 + pre + j).
Proof.
  intros Hpre Hnew Hj. unfold tile_new. rewrite Hpre, Hnew.
  rewrite lookup_take_lt by exact Hj. apply lookup_drop.
Qed.

Lemma join_tile nf ins_t m t pos :
  t < T ->
  tile_done c b ins_t m0 m t ->
  words m !! (sums + t) = Some (pos + length (tile_new c b m t)) ->
  pos + length (tile_new c b m t) <= _cap c ->
  length (flags m) = length (flags m0) ->
  length (words m) = length (words m0) ->
  exists m',
    joinSubset cfg (with_n c nf) (lower t) (upper t) m = Ok (tt, m') /\
    flags m' = flags m /\
    length (words m') = length (words m) /\
    (forall j x, tile_new c b m t !! j = Some x ->
       words m' !! (s + pos + j) = Some (x + lower t)) /\
    words m' !! (counters + t) = Some 0 /\
    (forall k, ~ s + pos <= k < s + pos + length (tile_new c b m t) ->
       k <> counters + t -> words m' !! k = words m !! k).
Proof.
  intros Ht (Hpre & Hnew & Hnd & _ & Hel & _) Hsum Hfit Hlf Hlw.
  destruct capacity_positive as (Hcap & Hts & HT).
  destruct (tile_bounds c t Hpart Ht) as (Hlt & Hup & Hw & Hwpos).
  assert (Hwdef : lower t + width t = upper t) by (unfold tile_width; lia).
  destruct (seg_in_scratch c b t ts Ht ltac:(lia)) as [Hseg1 Hseg2].
  destruct (seg_in_scratch c b t 0 Ht ltac:(lia)) as [Hseg3 _].
  assert (HT2 := sums_after_counters c b).
  assert (Hfits : fits c a b m).
  { destruct Hfits0 as [H1 H2]. split; [rewrite Hlf | rewrite Hlw]; assumption. }
  assert (Hsums := fits_words c b a m Hfits). destruct Hfits as [Hfa Hfb].
  set (old := tile_old c b m t) in *. set (new := tile_new c b m t) in *.
  assert (Hlen : length (old ++ new) <= width t).
  { apply NoDup_bounded_length; [exact Hnd |]. intros x Hx. apply Hel in Hx. tauto. }
  rewrite length_app in Hlen.
  destruct (for_range_inv
    (fun k p m' =>
       p = pos + (k - length old) /\ flags m' = flags m /\
       length (words m') = length (words m) /\
       (forall j x, j < k - length old -> new !! j = Some x ->
          words m' !! (s + pos + j) = Some (x + lower t)) /\
       (forall k', ~ s + pos <= k' < s + pos + (k - length old) ->
          words m' !! k' = words m !! k'))
    (fun k p =>
      local_index <- load_word (Some (seg t + 1)) k ;;
      assert_ cfg (lower t <=? local_index + lower t) ;;
      assert_ cfg (local_index + lower t <? upper t) ;;
      assertM cfg (load_flag (_assigned c) (local_index + lower t)) ;;
      assert_ cfg (p <? _cap c) ;;
      store_word (_stack c) p (local_index + lower t) ;;
      ret (p + 1))
    (length old) (length old + length new) pos m ltac:(lia))
    as (p & m1 & Hrun & Hp & Hf1 & Hl1 & Hwritten & Hrest).
  - split; [lia |]. split; [reflexivity |]. split; [reflexivity |].
    split; [intros j x Hj; lia | reflexivity].
  - intros k p m1 Hk (-> & Hf1 & Hl1 & Hwritten & Hrest).
    destruct (lookup_lt_is_Some_2 new (k - length old) ltac:(lia)) as [x Hx].
    assert (Hraw : words m !! (seg t + 1 + k) = Some x).
    { unfold new in Hx.
      rewrite (tile_new_lookup m t (length old) (length new) _ Hpre Hnew) in Hx
        by lia.
      replace (seg t + 1 + length old + (k - length old)) with (seg t + 1 + k)
        in Hx by lia. exact Hx. }
    assert (Hin : x ∈ old ++ new).
    { apply elem_of_app. right. apply list_elem_of_lookup. eauto. }
    apply Hel in Hin as [Hxw Hxf].
    apply (flag_at_true c m a (lower t + x) Ha) in Hxf.
    eexists _, _. split.
    { mstep ltac:(apply load_word_ok; rewrite Hrest by lia; exact Hraw).
      mstep ltac:(apply assert_ok; apply Nat.leb_le; lia).
      mstep ltac:(apply assert_ok; apply Nat.ltb_lt; lia).
      mstep ltac:(apply assertM_ok; intros _; rewrite Ha; apply load_flag_ok;
                  rewrite Hf1; replace (a + (x + lower t)) with (a + (lower t + x))
                    by lia; exact Hxf).
      mstep ltac:(apply assert_ok; apply Nat.ltb_lt; lia).
      rewrite Hs.
      mstep ltac:(apply store_word_ok; lia).
      reflexivity. }
    simpl. split; [lia |]. split; [exact Hf1 |].
    split; [rewrite length_insert; exact Hl1 |]. split.
    + intros j y Hj Hy.
      destruct (Nat.eq_dec j (k - length old)) as [-> | Hne].
      * rewrite Hx in Hy. inversion Hy; subst.
        replace (s + pos + (k - length old)) with (s + (pos + (k - length old)))
          by lia.
        apply list_lookup_insert_eq. lia.
      * rewrite list_lookup_insert_ne by lia. apply Hwritten; [lia | exact Hy].
    + intros k' Hk'. rewrite list_lookup_insert_ne by lia. apply Hrest. lia.
  - exists (mkMemory (flags m1) (<[counters + t := 0]> (words m1))).
    split.
    { unfold joinSubset. cbn [with_n _cap analytic_model local_buffer
        local_new_nnzs pref_sum _stack _assigned].
      destruct (Nat.eqb_spec (_cap c) 0) as [? | _]; [lia |].
      mstep ltac:(apply div_ok; exact Hts).
      rewrite tile_lower_div by exact Hts.
      mstep ltac:(apply vector_at_ok; apply (local_buffer_at c b t Hinst Hb Ht)).
      mstep ltac:(apply load_word_ok; rewrite Nat.add_0_r; exact Hpre).
      rewrite (local_new_nnzs_at c b Hinst Hb).
      mstep ltac:(apply load_word_ok; exact Hnew).
      mstep ltac:(apply assert_ok; apply Nat.leb_le; lia).
      rewrite (pref_sum_at c b Hinst Hb).
      mstep ltac:(apply load_word_ok; exact Hsum).
      rewrite usub_ok by lia.
      replace (pos + length new - length new) with pos by lia.
      simpl ptr_add.
      mstep ltac:(exact Hrun).
      apply store_word_ok. lia. }
    simpl. split; [exact Hf1 |]. split; [rewrite length_insert; exact Hl1 |].
    split; [| split].
    + intros j x Hx. assert (Hj := lookup_lt_Some _ _ _ Hx).
      rewrite list_lookup_insert_ne by lia.
      apply Hwritten; [lia | exact Hx].
    + apply list_lookup_insert_eq. lia.
    + intros k Hk1 Hk2. rewrite list_lookup_insert_ne by lia.
      apply Hrest. lia.
Qed.

Lemma tile_done_fits ins_t m t pre new :
  tile_done c b ins_t m0 m t ->
  words m !! seg t = Some pre -> words m !! (counters + t) = Some new ->
  pre + new <= width t.
Proof.
  intros (Hpre & Hnew & Hnd & _ & Hel & _) Hp Hq.
  rewrite Hpre in Hp. rewrite Hnew in Hq. inversion Hp. inversion Hq.
  rewrite <- length_app. apply NoDup_bounded_length; [exact Hnd |].
  intros x Hx. apply Hel in Hx. tauto.
Qed.

Section Joining.

Variable ins : list (list nat).
Variable m3 : Memory.
Variable nf : nat.

Hypothesis Hdone : forall t, t < T -> tile_done c b (nth t ins []) m0 m3 t.
Hypothesis Hlf : length (flags m3) = length (flags m0).
Hypothesis Hlw : length (words m3) = length (words m0).
Hypothesis Hsum : forall t, t < T ->
  words m3 !! (sums + t)
  = Some (_n c + range_sum (tile_counts c b m3) 0 (S t)).

Local Abbreviation before := (range_sum (tile_counts c b m3) 0).

Lemma before_step t :
  t < T -> before (S t) = before t + length (tile_new c b m3 t).
Proof.
  intros Ht. apply range_sum_step; [lia |]. apply tile_counts_lookup. exact Ht.
Qed.

Lemma before_mono t1 t2 : t1 <= t2 -> before t1 <= before t2.
Proof.
  intros H. rewrite (range_sum_split _ 0 t1 t2) by lia. lia.
Qed.

Lemma before_apart t1 t2 j1 j2 :
  t1 < T -> t2 < T -> t1 <> t2 ->
  j1 < length (tile_new c b m3 t1) -> j2 < length (tile_new c b m3 t2) ->
  before t1 + j1 <> before t2 + j2.
Proof.
  intros H1 H2 Hne Hj1 Hj2.
  assert (Hs1 := before_step t1 H1). assert (Hs2 := before_step t2 H2).
  destruct (Nat.lt_ge_cases t1 t2) as [Hlt | Hge].
  - assert (H := before_mono (S t1) t2 ltac:(lia)). lia.
  - assert (H := before_mono (S t2) t1 ltac:(lia)). lia.
Qed.

Lemma before_bounded t j :
  t < T -> j < length (tile_new c b m3 t) -> _n c + before t + j < _cap c.
Proof.
  intros Ht Hj. assert (Hs1 := before_step t Ht).
  assert (H := before_mono (S t) T ltac:(lia)).
  assert (Hc := merged_count ins m3 Hdone). lia.
Qed.

Lemma join_phase order :
  NoDup order -> (forall t, t ∈ order -> t < T) ->
  exists m',
    for_each order (fun t (_ : unit) =>
      joinSubset cfg (with_n c nf) (lower t) (upper t)) tt m3 = Ok (tt, m') /\
    flags m' = flags m3 /\
    length (words m') = length (words m3) /\
    (forall t, t ∈ order -> forall j x, tile_new c b m3 t !! j = Some x ->
       words m' !! (s + (_n c + before t) + j) = Some (x + lower t)) /\
    (forall k, ~ s + _n c <= k < s + _cap c ->
       (forall t, t ∈ order -> k <> counters + t) ->
       words m' !! k = words m3 !! k).
Proof.
  intros Hnd Horder.
  assert (HT2 := sums_after_counters c b).
  destruct (for_each_inv
    (fun ran (_ : unit) m' =>
       flags m' = flags m3 /\
       length (words m') = length (words m3) /\
       (forall t, t ∈ ran -> forall j x, tile_new c b m3 t !! j = Some x ->
          words m' !! (s + (_n c + before t) + j) = Some (x + lower t)) /\
       (forall k, ~ s + _n c <= k < s + _cap c ->
          (forall t, t ∈ ran -> k <> counters + t) ->
          words m' !! k = words m3 !! k))
    (fun t (_ : unit) => joinSubset cfg (with_n c nf) (lower t) (upper t))
    order [] tt m3) as ([] & m' & Hrun & Hpost).
  - split; [reflexivity |]. split; [reflexivity |]. split; [| reflexivity].
    intros t Ht. apply elem_of_nil in Ht. contradiction.
  - intros ran t rest [] m Heq (Hf & Hl & Hwritten & Hrest).
    simpl in Heq.
    assert (Hin : t ∈ order).
    { rewrite Heq. apply elem_of_app. right. apply elem_of_cons. left. reflexivity. }
    assert (Ht := Horder t Hin).
    assert (Hfresh : t ∉ ran).
    { rewrite Heq in Hnd. apply NoDup_app in Hnd as (_ & Hd & _).
      intros Hr. apply (Hd t Hr). apply elem_of_cons. left. reflexivity. }
    assert (Hran : forall t', t' ∈ ran -> t' < T /\ t' <> t).
    { intros t' Hr. split.
      - apply Horder. rewrite Heq. apply elem_of_app. left. exact Hr.
      - intros ->. contradiction. }
    destruct (tile_bounds c t Hpart Ht) as (Hlt & Hup & Hw & Hwpos).
    destruct (seg_in_scratch c b t 0 Ht ltac:(lia)) as [Hseg0 Hseg1].
    assert (Hsame : tile_same c a b m3 m t).
    { split; [| split].
      - intros k Hk. destruct (seg_in_scratch c b t k Ht Hk).
        apply Hrest; [lia |]. intros t' Hr. lia.
      - apply Hrest; [lia |]. intros t' Hr. destruct (Hran t' Hr). lia.
      - intros j Hj. rewrite Hf. reflexivity. }
    assert (Hd := tile_done_frame c a b Ha _ m0 m3 m t Hw (Hdone t Ht) Hsame).
    assert (Hnew : tile_new c b m t = tile_new c b m3 t).
    { apply (tile_new_same c a b m3 m t Hsame). intros pre new Hp Hq.
      assert (H := tile_done_fits _ m3 t pre new (Hdone t Ht) Hp Hq). lia. }
    assert (Hstep := before_step t Ht).
    assert (Hmono := before_mono (S t) T ltac:(lia)).
    assert (Hcount := merged_count ins m3 Hdone).
    destruct (join_tile nf (nth t ins []) m t (_n c + before t) Ht Hd)
      as (m' & Hrun & Hf' & Hl' & Hw' & Hzero & Hfr').
    { rewrite Hnew, Hrest; [| lia | intros t' Hr; destruct (Hran t' Hr); lia].
      rewrite (Hsum t Ht). f_equal. lia. }
    { rewrite Hnew. lia. }
    { rewrite Hf. exact Hlf. }
    { rewrite Hl. exact Hlw. }
    rewrite Hnew in Hw', Hfr'.
    exists tt, m'. split; [exact Hrun |]. split; [congruence |].
    split; [congruence |]. split.
    + intros t' Hr j x Hx.
      apply elem_of_app in Hr as [Hr | Hr].
      * destruct (Hran t' Hr) as [Ht' Hne].
        assert (Hj := lookup_lt_Some _ _ _ Hx).
        assert (Hbd := before_bounded t' j Ht' Hj).
        rewrite Hfr'; [apply Hwritten; assumption | | lia].
        intros [H1 H2].
        apply (before_apart t' t j (s + (_n c + before t') + j
                 - (s + (_n c + before t))) Ht' Ht Hne Hj); lia.
      * apply list_elem_of_singleton in Hr. subst t'. apply Hw'. exact Hx.
    + intros k Hk Hnot.
      rewrite Hfr'; [apply Hrest; [exact Hk |] | lia |].
      * intros t' Hr. apply Hnot. apply elem_of_app. left. exact Hr.
      * apply Hnot. apply elem_of_app. right.
        apply list_elem_of_singleton. reflexivity.
  - exists m'. split; [exact Hrun |]. simpl in Hpost. exact Hpost.
Qed.

(** *** The global stack after the last join *)

Section Joined.

Variable m5 : Memory.

Hypothesis Hlow : forall k, ~ b <= k -> words m3 !! k = words m0 !! k.
Hypothesis Hf5 : flags m5 = flags m3.
Hypothesis Hl5 : length (words m5) = length (words m3).
Hypothesis Hwritten : forall t, t < T ->
  forall j x, tile_new c b m3 t !! j = Some x ->
    words m5 !! (s + (_n c + before t) + j) = Some (x + lower t).
Hypothesis Hkept : forall k, k < s + _n c -> words m5 !! k = words m3 !! k.

Lemma joined_segment k :
  k <= T ->
  take (before k) (drop (s + _n c) (words m5)) = joined c b m3 k.
Proof.
  induction k as [| k IH]; intros Hk.
  - rewrite range_sum_empty. reflexivity.
  - rewrite before_step, take_split, IH, (joined_step m3) by lia. f_equal.
    rewrite drop_drop. apply list_eq. intros i.
    destruct (Nat.lt_ge_cases i (length (tile_new c b m3 k))) as [Hi | Hi].
    + destruct (lookup_lt_is_Some_2 _ _ Hi) as [x Hx].
      rewrite lookup_take_lt, lookup_drop by exact Hi.
      rewrite list_lookup_fmap, Hx. simpl.
      replace (s + _n c + before k + i) with (s + (_n c + before k) + i) by lia.
      apply Hwritten; [lia | exact Hx].
    + rewrite lookup_take_ge by exact Hi. symmetry.
      apply lookup_ge_None_2. rewrite length_fmap. exact Hi.
Qed.

Lemma joined_stack :
  stack_prefix (with_n c (_n c + before T)) m5
  = stack_prefix c m0 ++ joined c b m3 T.
Proof.
  destruct Hinv0 as (_ & Hn & _).
  unfold stack_prefix. cbn [with_n _stack _n]. rewrite Hs.
  rewrite take_split, drop_drop. f_equal.
  - apply take_drop_same. intros k Hk.
    rewrite Hkept by lia. apply Hlow. lia.
  - apply joined_segment. lia.
Qed.

Lemma joined_invariant :
  set_equivalence (with_n c (_n c + before T)) m5 /\
  forall i, flag_at c m5 i = flag_at c m3 i.
Proof.
  assert (Hflag : forall i, flag_at c m5 i = flag_at c m3 i).
  { intros i. unfold flag_at. rewrite Hf5. reflexivity. }
  split; [| exact Hflag].
  destruct Hfits0 as [Hfa Hfb].
  split; [| split; [| split]].
  - unfold bound_in. cbn [with_n _assigned _stack _cap]. rewrite Ha, Hs.
    rewrite Hf5, Hl5, Hlf, Hlw. lia.
  - apply (merged_count ins m3 Hdone).
  - rewrite joined_stack. apply (merged_NoDup ins m3 Hdone).
  - intros i. rewrite joined_stack, (merged_elem ins m3 Hdone).
    rewrite flag_at_with_n, Hflag. reflexivity.
Qed.

End Joined.

End Joining.

(** *** The counters and the flags in terms of the insertions *)

Lemma tile_new_fresh ins_t m t :
  (forall i, i ∈ ins_t -> lower t <= i < upper t) ->
  tile_done c b ins_t m0 m t ->
  length (tile_new c b m t) = length (fresh c m0 ins_t).
Proof.
  intros Hins (_ & _ & Hnd & Hel0 & Hel & Hfl).
  rewrite <- (length_fmap (fun j => j + lower t)).
  apply Permutation_length. apply NoDup_Permutation.
  - apply NoDup_app in Hnd as (_ & _ & Hnd).
    apply NoDup_fmap_2_strong; [| exact Hnd]. intros x y _ _ Heq. lia.
  - apply NoDup_remove_dups.
  - intros x. unfold fresh.
    rewrite list_elem_of_fmap, elem_of_remove_dups, list_elem_of_filter. split.
    + intros (j & -> & Hj).
      assert (Hin : j ∈ tile_old c b m t ++ tile_new c b m t)
        by (apply elem_of_app; right; exact Hj).
      apply Hel in Hin as [Hw Hf].
      assert (Hf0 : flag_at c m0 (lower t + j) = false).
      { apply not_true_is_false. intros Hf0.
        assert (Hold : j ∈ tile_old c b m t) by (apply Hel0; split; assumption).
        apply NoDup_app in Hnd as (_ & Hd & _). exact (Hd j Hold Hj). }
      rewrite (Hfl j Hw), Hf0 in Hf. simpl in Hf. apply memb_elem_of in Hf.
      replace (j + lower t) with (lower t + j) by lia. split; assumption.
    + intros [Hf0 Hx]. assert (Hr := Hins x Hx).
      exists (x - lower t). split; [lia |].
      assert (Hw : x - lower t < width t) by (unfold tile_width; lia).
      assert (Hin : x - lower t ∈ tile_old c b m t ++ tile_new c b m t).
      { apply Hel. split; [exact Hw |]. rewrite (Hfl _ Hw).
        replace (lower t + (x - lower t)) with x by lia.
        apply orb_true_iff. right. apply memb_elem_of. exact Hx. }
      apply elem_of_app in Hin as [Hin | Hin]; [| exact Hin].
      apply Hel0 in Hin as [_ Hf].
      replace (lower t + (x - lower t)) with x in Hf by lia. congruence.
Qed.

Lemma memb_tile (ins : list (list nat)) i :
  insertions_in_tiles c ins -> i < _cap c ->
  memb i (concat ins) = memb i (nth (i / ts) ins []).
Proof.
  intros [Hlen Hins] Hi.
  destruct capacity_positive as (_ & Hts & _).
  destruct (tile_of_index c i Hpart Hi) as [Ht Hr].
  apply eq_true_iff_eq. rewrite !memb_elem_of, list_elem_of_In, in_concat.
  split.
  - intros (l & Hl & Hx).
    apply list_elem_of_In in Hl. apply list_elem_of_In in Hx.
    apply list_elem_of_lookup in Hl as [t Hl].
    assert (Hn := nth_lookup_Some ins t [] l Hl).
    assert (Hin : i ∈ nth t ins []) by (rewrite Hn; exact Hx).
    rewrite (tile_unique c t i Hts (Hins t i Hin)). exact Hin.
  - intros Hx. exists (nth (i / ts) ins []). split.
    + apply nth_In. lia.
    + apply list_elem_of_In. exact Hx.
Qed.

(** *** The whole episode *)

Lemma episode_spec order1 order2 order3 sched1 sched2 (ins : list (list nat)) :
  insertions_in_tiles c ins ->
  order1 ≡ₚ seq 0 T -> order2 ≡ₚ seq 0 T -> order3 ≡ₚ seq 0 T ->
  (getTileSize (prefix_sum_model cfg T) <= T ->
   chunks_partition cfg T (getTileSize (prefix_sum_model cfg T))
     (getNumTiles (prefix_sum_model cfg T)) = true /\
   sched1 ≡ₚ seq 0 (getNumTiles (prefix_sum_model cfg T)) /\
   sched2 ≡ₚ seq 0 (getNumTiles (prefix_sum_model cfg T))) ->
  exists mp,
    episode cfg order1 order2 order3 sched1 sched2 ins c m0
    = Ok (with_n c (_n c + sum_list (fresh_counts c m0 ins)), mp) /\
    set_equivalence (with_n c (_n c + sum_list (fresh_counts c m0 ins))) mp /\
    (forall i, i < _cap c ->
       flag_at c mp i = flag_at c m0 i || memb i (concat ins)) /\
    take T (drop sums (words mp)) = running_sums (_n c) (fresh_counts c m0 ins).
Proof.
  intros Hins H1 H2 H3 Hpar.
  destruct capacity_positive as (Hcap & Hts & HT).
  assert (HT2 := sums_after_counters c b).
  assert (Hsums0 := fits_words c b a m0 Hfits0).
  destruct (seg_in_scratch c b 0 0 HT ltac:(lia)) as [Hb0 Hb1].
  assert (Hn0 : _n c <= _cap c) by (destruct Hinv0 as (_ & Hn & _); exact Hn).
  assert (Hin : forall order, order ≡ₚ seq 0 T -> forall t, t ∈ order <-> t < T).
  { intros order Hp t. rewrite Hp, elem_of_seq. lia. }
  assert (Hnd : forall order, order ≡ₚ seq 0 T -> NoDup order).
  { intros order Hp. rewrite Hp. apply NoDup_seq. }
  destruct (init_phase order1) as (m1 & Hrun1 & Hf1 & Hl1 & Hout1 & Hready1).
  { intros t Ht. apply (Hin order1 H1). exact Ht. }
  destruct (work_phase ins order2 m1 (proj2 Hins) (Hnd order2 H2))
    as (m2 & Hrun2 & Hlf2 & Hlw2 & Hout2 & Hdone2 & _).
  { intros t Ht. apply (Hin order2 H2). exact Ht. }
  { rewrite Hf1. reflexivity. }
  { exact Hl1. }
  { exact Hout1. }
  { intros t Ht. apply Hready1. apply (Hin order1 H1). exact Ht. }
  assert (Hdone : forall t, t < T -> tile_done c b (nth t ins []) m0 m2 t).
  { intros t Ht. apply Hdone2. apply (Hin order2 H2). exact Ht. }
  assert (Hcounts : tile_counts c b m2 = fresh_counts c m0 ins).
  { unfold tile_counts, fresh_counts. apply list_fmap_ext. intros i t Hl.
    apply lookup_seq in Hl as [Heq Hi]. simpl in Heq. subst i. simpl.
    apply tile_new_fresh; [apply (proj2 Hins) | apply Hdone; exact Hi]. }
  assert (Hlen : length (tile_counts c b m2) = T) by apply tile_counts_length.
  assert (Hca : counts_at counters (tile_counts c b m2) m2).
  { unfold counts_at. rewrite Hlen. apply list_eq. intros i.
    destruct (Nat.lt_ge_cases i T) as [Hi | Hi].
    - rewrite lookup_take_lt, lookup_drop by exact Hi.
      destruct (Hdone i Hi) as (_ & Hnew & _). rewrite Hnew.
      symmetry. apply tile_counts_lookup. exact Hi.
    - rewrite lookup_take_ge by exact Hi. symmetry.
      apply lookup_ge_None_2. lia. }
  destruct (prefixSumComputation_spec cfg c m2 counters sums
              (tile_counts c b m2) sched1 sched2)
    as (m3 & Hrun3 & Hsums3 & (Hf3 & Hl3 & Hfr3) & _).
  { apply (local_new_nnzs_at c b Hinst Hb). }
  { apply (pref_sum_at c b Hinst Hb). }
  { exact Hlen. }
  { lia. }
  { exact Hca. }
  { lia. }
  { left. lia. }
  { rewrite Hlen. exact Hpar. }
  rewrite Hlen in Hsums3, Hfr3.
  assert (Hsame : forall t, t < T -> tile_same c a b m2 m3 t).
  { intros t Ht. split; [| split].
    - intros k Hk. destruct (seg_in_scratch c b t k Ht Hk). apply Hfr3. lia.
    - apply Hfr3. lia.
    - intros j Hj. rewrite Hf3. reflexivity. }
  assert (Hdone3 : forall t, t < T -> tile_done c b (nth t ins []) m0 m3 t).
  { intros t Ht. destruct (tile_bounds c t Hpart Ht) as (_ & _ & Hw & _).
    apply (tile_done_frame c a b Ha _ m0 m2 m3 t Hw (Hdone t Ht) (Hsame t Ht)). }
  assert (Hcounts3 : tile_counts c b m3 = tile_counts c b m2).
  { unfold tile_counts. apply list_fmap_ext. intros i t Hl.
    apply lookup_seq in Hl as [Heq Hi]. simpl in Heq. subst i. simpl. f_equal.
    destruct (tile_bounds c t Hpart Hi) as (_ & _ & Hw & _).
    apply (tile_new_same c a b m2 m3 t (Hsame t Hi)). intros pre new Hp Hq.
    assert (H := tile_done_fits _ m2 t pre new (Hdone t Hi) Hp Hq). lia. }
  destruct (join_phase ins m3 (_n c + sum_list (tile_counts c b m2)) Hdone3)
    with (order := order3) as (m5 & Hrun5 & Hf5 & Hl5 & Hw5 & Hfr5).
  { rewrite Hf3. exact Hlf2. }
  { rewrite Hl3. exact Hlw2. }
  { intros t Ht. rewrite Hcounts3. apply Hsums3. exact Ht. }
  { exact (Hnd order3 H3). }
  { intros t Ht. apply (Hin order3 H3). exact Ht. }
  assert (Hinv5 := joined_invariant ins m3 Hdone3).
  destruct Hinv5 with (m5 := m5) as [Hinv5' Hflag5].
  { rewrite Hf3. exact Hlf2. }
  { rewrite Hl3. exact Hlw2. }
  { intros k Hk. rewrite Hfr3 by lia. apply Hout2. lia. }
  { exact Hf5. }
  { exact Hl5. }
  { intros t Ht. apply Hw5. apply (Hin order3 H3). exact Ht. }
  { intros k Hk. apply Hfr5; [lia |]. intros t Ht. lia. }
  assert (Htotal : range_sum (tile_counts c b m3) 0 T
                   = sum_list (tile_counts c b m2)).
  { rewrite Hcounts3, <- Hlen. apply range_sum_all. }
  rewrite Htotal in Hinv5'. rewrite <- Hcounts.
  exists m5. split; [| split; [exact Hinv5' | split]].
  - unfold episode.
    mstep ltac:(exact Hrun1). mstep ltac:(exact Hrun2).
    mstep ltac:(exact Hrun3). mstep ltac:(exact Hrun5). reflexivity.
  - intros i Hi. rewrite Hflag5.
    assert (Hf32 : flag_at c m3 i = flag_at c m2 i).
    { unfold flag_at. rewrite Hf3. reflexivity. }
    rewrite Hf32, (memb_tile ins i Hins Hi).
    destruct (tile_of_index c i Hpart Hi) as [Ht Hr].
    destruct (Hdone _ Ht) as (_ & _ & _ & _ & _ & Hfl).
    specialize (Hfl (i - lower (i / ts)) ltac:(unfold tile_width; lia)).
    replace (lower (i / ts) + (i - lower (i / ts))) with i in Hfl by lia.
    exact Hfl.
  - apply list_eq. intros i.
    destruct (Nat.lt_ge_cases i T) as [Hi | Hi].
    + rewrite lookup_take_lt, lookup_drop by exact Hi.
      rewrite Hfr5; [| lia | intros t Ht; apply (Hin order3 H3) in Ht; lia].
      rewrite Hsums3 by exact Hi.
      rewrite running_sums_lookup by lia. reflexivity.
    + rewrite lookup_take_ge by exact Hi. symmetry.
      apply lookup_ge_None_2. rewrite running_sums_length. lia.
Qed.

End Phases.

(** ** The protocol against sequential insertion *)

Lemma laid_out c m :
  set_equivalence c m -> scratch_fits c m ->
  exists a s b,
    _assigned c = Some a /\ _stack c = Some s /\ _buffer c = Some b /\
    s + _cap c <= b /\ fits c a b m.
Proof.
  intros (Hbd & _) Hfit. unfold bound_in in Hbd. unfold scratch_fits in Hfit.
  unfold fits.
  destruct (_assigned c) as [a |], (_stack c) as [s |], (_buffer c) as [b |];
    try contradiction.
  exists a, s, b. repeat split; try reflexivity; lia.
Qed.

Lemma same_flags_same_stack c1 m1 c2 m2 :
  set_equivalence c1 m1 -> set_equivalence c2 m2 ->
  _cap c1 = _cap c2 ->
  (forall i, i < _cap c1 -> flag_at c1 m1 i = flag_at c2 m2 i) ->
  stack_prefix c1 m1 ≡ₚ stack_prefix c2 m2.
Proof.
  intros (_ & _ & Hnd1 & Hel1) (_ & _ & Hnd2 & Hel2) Hcap Hflags.
  apply NoDup_Permutation; [exact Hnd1 | exact Hnd2 |].
  intros i. rewrite Hel1, Hel2, <- Hcap. split.
  - intros [Hi Hf]. rewrite <- (Hflags i Hi). split; assumption.
  - intros [Hi Hf]. rewrite (Hflags i Hi). split; assumption.
Qed.

Lemma stack_prefix_count c m :
  set_equivalence c m -> 0 < _cap c -> length (stack_prefix c m) = _n c.
Proof.
  intros (Hbd & Hn & _) Hcap. unfold bound_in in Hbd.
  destruct (_assigned c) as [a |] eqn:Ha, (_stack c) as [s |] eqn:Hs;
    try contradiction; [| lia].
  apply (stack_prefix_length c m s Hs). lia.
Qed.

Section Protocol.

Variable cfg : Config.


End Protocol.


(** * Further properties of the member functions *)

(** ** The queries *)

(** A stack without repeats that is as long as the capacity holds every
    index. *)
Lemma dense_full c m i :
  set_equivalence c m -> _n c = _cap c -> i < _cap c ->
  i ∈ stack_prefix c m.
Proof.
  intros Hinv Hd Hi.
  assert (Hlen := stack_prefix_count c m Hinv ltac:(lia)).
  destruct Hinv as (_ & _ & Hnd & Hel).
  assert (Hsub : stack_prefix c m ⊆+ seq 0 (_cap c)).
  { apply NoDup_submseteq; [exact Hnd |]. intros x Hx.
    apply Hel in Hx. apply elem_of_seq. lia. }
  apply submseteq_length_Permutation in Hsub;
    [| rewrite length_seq; lia].
  rewrite Hsub. apply elem_of_seq. lia.
Qed.

Lemma stack_is_flagged c m :
  set_equivalence c m -> stack_prefix c m ≡ₚ flagged c m.
Proof.
  intros (_ & _ & Hnd & Hel).
  apply NoDup_Permutation; [exact Hnd | |].
  - apply NoDup_filter, NoDup_seq.
  - intros i. unfold flagged.
    rewrite Hel, list_elem_of_filter, elem_of_seq. split; intros []; split;
      try assumption; lia.
Qed.

Lemma flags_split c m :
  length (flagged c m) + length (unflagged c m) = _cap c.
Proof.
  unfold flagged, unflagged. rewrite <- length_app.
  transitivity (length (seq 0 (_cap c))); [| apply length_seq].
  apply Permutation_length.
  etransitivity;
    [| apply (filter_app_complement (fun i => flag_at c m i = true))].
  apply Permutation_app; [reflexivity |].
  apply Permutation_refl'. apply list_filter_iff. intros i.
  destruct (flag_at c m i); split; intros H;
    first [ congruence | intros ?; congruence | exfalso; apply H; reflexivity ].
Qed.

Section Membership.

Variable cfg : Config.

(** X1: [assigned] answers whether the index is on the stack, also when it
    takes the dense shortcut and does not look at the flag; a debug build
    stops at its assertion when the index is not below the capacity. *)
Theorem assigned_reflects_membership (c : Coordinates) (m : Memory) (i : nat) :
  set_equivalence c m ->
  (i < _cap c ->
   assigned cfg c i m = Ok (memb i (stack_prefix c m), m)) /\
  (NDEBUG cfg = false -> _cap c <= i ->
   assigned cfg c i m = Fault AssertionFailure).
Proof.
  intros Hinv. split.
  - intros Hi. unfold assigned.
    mstep ltac:(apply assert_ok; apply Nat.ltb_lt; exact Hi).
    destruct (Nat.eqb_spec (_n c) (_cap c)) as [Hd | Hd].
    + assert (Hin := dense_full c m i Hinv Hd Hi).
      apply memb_elem_of in Hin. rewrite Hin. reflexivity.
    + destruct Hinv as (Hbd & _ & _ & Hel).
      destruct (bound_in_pointers c m Hbd ltac:(lia))
        as (a & s & Ha & Hs & Hfa & Hfs).
      destruct (lookup_lt_is_Some_2 (flags m) (a + i) ltac:(lia)) as [v Hv].
      rewrite Ha. rewrite (load_flag_ok a i v m Hv). do 2 f_equal.
      assert (Hf : flag_at c m i = v) by (unfold flag_at; rewrite Ha, Hv; reflexivity).
      apply eq_true_iff_eq. rewrite memb_elem_of, Hel, Hf. split.
      * intros ->. split; [exact Hi | reflexivity].
      * intros [_ ->]. reflexivity.
  - intros Hdebug Hi. unfold assigned, assert_, bind. rewrite Hdebug.
    destruct (Nat.ltb_spec i (_cap c)); [lia | reflexivity].
Qed.

(** X2: as [k] runs below the count, [index] runs through the represented set
    once: through the stack, or through [0, capacity) in order when the
    structure is dense, which is the same set.  A debug build stops at the
    assertion for any other [k]. *)
Theorem index_enumerates (c : Coordinates) (m : Memory) :
  set_equivalence c m ->
  enumeration c m ≡ₚ stack_prefix c m /\
  (forall k, k < _n c ->
     exists x, enumeration c m !! k = Some x /\ index cfg c k m = Ok (x, m)) /\
  (NDEBUG cfg = false ->
   forall k, _n c <= k -> index cfg c k m = Fault AssertionFailure).
Proof.
  intros Hinv. split; [| split].
  - unfold enumeration, isDense.
    destruct (Nat.eqb_spec (_n c) (_cap c)) as [Hd | Hd]; [| reflexivity].
    symmetry. apply NoDup_Permutation.
    + destruct Hinv as (_ & _ & Hnd & _). exact Hnd.
    + apply NoDup_seq.
    + intros i. rewrite elem_of_seq. split.
      * intros Hi. destruct Hinv as (_ & _ & _ & Hel). apply Hel in Hi. lia.
      * intros Hi. apply (dense_full c m i Hinv Hd). lia.
  - intros k Hk. unfold index, enumeration.
    rewrite (bind_ok _ _ m tt m)
      by (apply assert_ok; apply Nat.ltb_lt; exact Hk).
    unfold isDense. destruct (Nat.eqb_spec (_n c) (_cap c)) as [Hd | Hd].
    + exists k. split; [| reflexivity]. apply lookup_seq. lia.
    + destruct Hinv as (Hbd & Hn & _).
      destruct (bound_in_pointers c m Hbd ltac:(lia))
        as (a & s & Ha & Hs & Hfa & Hfs).
      destruct (lookup_lt_is_Some_2 (words m) (s + k) ltac:(lia)) as [x Hx].
      exists x. split.
      * rewrite (stack_prefix_lookup c m s k Hs Hk). exact Hx.
      * rewrite Hs. apply load_word_ok. exact Hx.
  - intros Hdebug k Hk. unfold index, assert_, bind. rewrite Hdebug.
    destruct (Nat.ltb_spec k (_n c)); [lia | reflexivity].
Qed.

(** X3: the count is the number of set flags: [nonzeroes] returns it,
    [isDense] holds exactly when every flag of the range is set and [isEmpty]
    exactly when none is. *)
Theorem count_matches_flags (c : Coordinates) (m : Memory) :
  set_equivalence c m ->
  nonzeroes cfg c m = Ok (length (flagged c m), m) /\
  (isDense c = true <-> forall i, i < _cap c -> flag_at c m i = true) /\
  (isEmpty c = true <-> forall i, i < _cap c -> flag_at c m i = false).
Proof.
  intros Hinv.
  assert (Hperm := stack_is_flagged c m Hinv).
  assert (Hcount : length (flagged c m) = _n c).
  { rewrite <- Hperm. unfold stack_prefix.
    destruct Hinv as (Hbd & Hn & _). unfold bound_in in Hbd.
    destruct (_assigned c) as [a |], (_stack c) as [s |]; try contradiction.
    - rewrite length_take, length_drop. lia.
    - simpl. lia. }
  assert (Hn : _n c <= _cap c) by (destruct Hinv as (_ & Hn & _); exact Hn).
  split; [| split].
  - unfold nonzeroes.
    rewrite (bind_ok _ _ m tt m) by (apply assert_ok; apply Nat.leb_le; exact Hn).
    rewrite Hcount. reflexivity.
  - unfold isDense. rewrite Nat.eqb_eq. split.
    + intros Hd i Hi.
      assert (Hin := dense_full c m i Hinv Hd Hi).
      destruct Hinv as (_ & _ & _ & Hel). apply Hel in Hin. tauto.
    + intros Hall. assert (Hsplit := flags_split c m).
      destruct (unflagged c m) as [| i rest] eqn:Hun; [simpl in Hsplit; lia |].
      assert (Hin : i ∈ unflagged c m)
        by (rewrite Hun; apply elem_of_cons; left; reflexivity).
      apply list_elem_of_filter in Hin as [Hf Hi]. apply elem_of_seq in Hi.
      rewrite Hall in Hf by lia. discriminate.
  - unfold isEmpty. destruct (Nat.eqb_spec (_n c) 0) as [Hz | Hz].
    + split; [intros _ | reflexivity]. intros i Hi.
      apply not_true_is_false. intros Hf.
      assert (Hin : i ∈ flagged c m).
      { apply list_elem_of_filter. split; [exact Hf | apply elem_of_seq; lia]. }
      destruct (flagged c m); [apply elem_of_nil in Hin; contradiction |].
      simpl in Hcount. lia.
    + split; [discriminate |]. intros Hnone. exfalso.
      destruct (flagged c m) as [| i rest] eqn:Hfl; [simpl in Hcount; lia |].
      assert (Hin : i ∈ flagged c m) by (rewrite Hfl; apply elem_of_cons; left; reflexivity).
      apply list_elem_of_filter in Hin as [Hf Hi]. apply elem_of_seq in Hi.
      rewrite Hnone in Hf by lia. discriminate.
Qed.

End Membership.

(** ** Filling in what is missing *)

Lemma unflagged_prefix c m i :
  i <= _cap c ->
  length (filter (fun j => flag_at c m j = false) (seq 0 i))
  <= length (unflagged c m).
Proof.
  intros Hi. unfold unflagged.
  replace (_cap c) with (i + (_cap c - i)) by lia.
  rewrite seq_app, filter_app, length_app. lia.
Qed.

Section Filling.

Variable cfg : Config.

Lemma fill_missing c m a s :
  _assigned c = Some a -> _stack c = Some s -> set_equivalence c m ->
  exists m',
    for_range 0 (_cap c) (fun i n =>
      f <- load_flag (_assigned c) i ;;
      if negb f then
        store_flag (_assigned c) i true ;;
        store_word (_stack c) n i ;;
        ret (n + 1)
      else ret n) (_n c) m = Ok (_cap c, m') /\
    length (flags m') = length (flags m) /\
    length (words m') = length (words m) /\
    (forall j, flags m' !! j
       = if decide (a <= j < a + _cap c) then Some true else flags m !! j) /\
    take (_cap c) (drop s (words m')) = stack_prefix c m ++ unflagged c m /\
    (forall k, ~ s + _n c <= k < s + _cap c -> words m' !! k = words m !! k).
Proof.
  intros Ha Hs Hinv.
  assert (Hperm := stack_is_flagged c m Hinv).
  assert (Hsplit := flags_split c m).
  destruct Hinv as (Hbd & Hn & Hnd & Hel).
  unfold bound_in in Hbd. rewrite Ha, Hs in Hbd. destruct Hbd as [Hfa Hfs].
  assert (Hcount : length (flagged c m) = _n c).
  { rewrite <- Hperm. apply (stack_prefix_length c m s Hs). lia. }
  destruct (for_range_inv
    (fun i n m' =>
       n = _n c + length (filter (fun j => flag_at c m j = false) (seq 0 i)) /\
       length (flags m') = length (flags m) /\
       length (words m') = length (words m) /\
       (forall j, flags m' !! j
          = if decide (a <= j < a + i) then Some true else flags m !! j) /\
       take n (drop s (words m'))
       = stack_prefix c m ++ filter (fun j => flag_at c m j = false) (seq 0 i) /\
       (forall k, ~ s + _n c <= k < s + _cap c ->
          words m' !! k = words m !! k))
    (fun i n =>
      f <- load_flag (_assigned c) i ;;
      if negb f then
        store_flag (_assigned c) i true ;;
        store_word (_stack c) n i ;;
        ret (n + 1)
      else ret n)
    0 (_cap c) (_n c) m ltac:(lia))
    as (n & m' & Hrun & Hn' & Hlf & Hlw & Hfl & Hst & Hfr).
  - simpl. split; [lia |]. split; [reflexivity |]. split; [reflexivity |].
    split; [| split; [| reflexivity]].
    + intros j. destruct (decide (a <= j < a + 0)); [lia | reflexivity].
    + rewrite app_nil_r. unfold stack_prefix. rewrite Hs. reflexivity.
  - intros i n m1 Hi (-> & Hlf & Hlw & Hfl & Hst & Hfr).
    assert (Hbound := unflagged_prefix c m (S i) ltac:(lia)).
    rewrite seq_S, filter_app, length_app in Hbound. simpl in Hbound.
    destruct (lookup_lt_is_Some_2 (flags m) (a + i) ltac:(lia)) as [v Hv].
    assert (Hf : flag_at c m i = v)
      by (unfold flag_at; rewrite Ha, Hv; reflexivity).
    assert (Hv1 : flags m1 !! (a + i) = Some v).
    { rewrite Hfl. destruct (decide (a <= a + i < a + i)); [lia | exact Hv]. }
    rewrite Ha, Hs. rewrite seq_S, filter_app. simpl.
    destruct v.
    + rewrite filter_cons_False, filter_nil by (rewrite Hf; discriminate).
      rewrite app_nil_r.
      eexists _, m1. split.
      { mstep ltac:(apply load_flag_ok; exact Hv1). reflexivity. }
      split; [reflexivity |]. split; [exact Hlf |]. split; [exact Hlw |].
      split; [| split; [exact Hst | exact Hfr]].
      intros j. rewrite Hfl.
      destruct (decide (a <= j < a + i)), (decide (a <= j < a + S i));
        try reflexivity; try lia.
      assert (j = a + i) by lia. subst j. exact Hv.
    + rewrite filter_cons_True, filter_nil by exact Hf.
      rewrite filter_cons_True, filter_nil in Hbound by exact Hf.
      simpl in Hbound.
      set (k := length (filter (fun j => flag_at c m j = false) (seq 0 i))) in *.
      eexists _, _. split.
      { mstep ltac:(apply load_flag_ok; exact Hv1). simpl.
        mstep ltac:(apply store_flag_ok; lia).
        mstep ltac:(apply store_word_ok; simpl; lia).
        reflexivity. }
      simpl. split; [rewrite length_app; simpl; lia |].
      split; [rewrite length_insert; exact Hlf |].
      split; [rewrite length_insert; exact Hlw |].
      split; [| split].
      * intros j. destruct (Nat.eq_dec j (a + i)) as [-> | Hne].
        -- rewrite list_lookup_insert_eq by lia.
           destruct (decide (a <= a + i < a + S i)); [reflexivity | lia].
        -- rewrite list_lookup_insert_ne by lia. rewrite Hfl.
           destruct (decide (a <= j < a + i)), (decide (a <= j < a + S i));
             try reflexivity; lia.
      * rewrite take_drop_insert_end by lia. rewrite Hst, app_assoc. reflexivity.
      * intros k' Hk'. rewrite list_lookup_insert_ne by lia. apply Hfr. exact Hk'.
  - assert (Hfull : n = _cap c).
    { rewrite Hn'. fold (unflagged c m). lia. }
    clear Hn'. subst n. exists m'.
    split; [exact Hrun |]. split; [exact Hlf |]. split; [exact Hlw |].
    split; [exact Hfl |]. split; [exact Hst | exact Hfr].
Qed.

Lemma dense_nothing_missing c m :
  set_equivalence c m -> _n c = _cap c ->
  unflagged c m = [] /\ forall i, i < _cap c -> flag_at c m i = true.
Proof.
  intros Hinv Hd.
  assert (Hall : forall i, i < _cap c -> flag_at c m i = true).
  { intros i Hi. assert (Hin := dense_full c m i Hinv Hd Hi).
    destruct Hinv as (_ & _ & _ & Hel). apply Hel in Hin. tauto. }
  split; [| exact Hall].
  destruct (unflagged c m) as [| i rest] eqn:Hun; [reflexivity |].
  assert (Hin : i ∈ unflagged c m)
    by (rewrite Hun; apply elem_of_cons; left; reflexivity).
  apply list_elem_of_filter in Hin as [Hf Hi]. apply elem_of_seq in Hi.
  rewrite Hall in Hf by lia. discriminate.
Qed.

Lemma with_n_same c : with_n c (_n c) = c.
Proof. destruct c. reflexivity. Qed.

(** X4: [local_assignAllNotAlreadyAssigned] makes the structure dense by
    appending to the stack, in increasing order, exactly the indices that were
    not present; what was on the stack stays where it was.  It writes no flag
    outside its range and no word outside the free part of its stack, so the
    counter in front of a view's stack is left alone. *)
Theorem assignAllNotAlreadyAssigned_appends (c : Coordinates) (m : Memory)
    (maybe_invalid : bool) :
  set_equivalence c m ->
  exists m',
    local_assignAllNotAlreadyAssigned cfg maybe_invalid c m
    = Ok (with_n c (_cap c), m') /\
    stack_prefix (with_n c (_cap c)) m' = stack_prefix c m ++ unflagged c m /\
    (forall i, i < _cap c -> flag_at c m' i = true) /\
    set_equivalence (with_n c (_cap c)) m' /\
    (forall a j, _assigned c = Some a -> ~ a <= j < a + _cap c ->
       flags m' !! j = flags m !! j) /\
    (forall s k, _stack c = Some s -> ~ s + _n c <= k < s + _cap c ->
       words m' !! k = words m !! k).
Proof.
  intros Hinv.
  assert (Hsame : _n c = _cap c ->
    local_assignAllNotAlreadyAssigned cfg maybe_invalid c m = Ok (c, m) ->
    exists m',
      local_assignAllNotAlreadyAssigned cfg maybe_invalid c m
      = Ok (with_n c (_cap c), m') /\
      stack_prefix (with_n c (_cap c)) m' = stack_prefix c m ++ unflagged c m /\
      (forall i, i < _cap c -> flag_at c m' i = true) /\
      set_equivalence (with_n c (_cap c)) m' /\
      (forall a j, _assigned c = Some a -> ~ a <= j < a + _cap c ->
         flags m' !! j = flags m !! j) /\
      (forall s k, _stack c = Some s -> ~ s + _n c <= k < s + _cap c ->
         words m' !! k = words m !! k)).
  { intros Hd Hrun. destruct (dense_nothing_missing c m Hinv Hd) as [Hun Hall].
    rewrite <- Hd, with_n_same, Hun, app_nil_r. exists m.
    split; [exact Hrun |]. split; [reflexivity |].
    split; [rewrite Hd; exact Hall |]. split; [exact Hinv |].
    split; reflexivity. }
  assert (Hinv' := Hinv). destruct Hinv' as (Hbd & Hn & Hnd & Hel).
  unfold bound_in in Hbd.
  destruct (_assigned c) as [a |] eqn:Ha, (_stack c) as [s |] eqn:Hs;
    try contradiction.
  - destruct (maybe_invalid || negb (_n c =? _cap c)) eqn:Hgo.
    + destruct (fill_missing c m a s Ha Hs Hinv)
        as (m' & Hrun & Hlf & Hlw & Hfl & Hst & Hfr).
      assert (Hflag : forall i, i < _cap c -> flag_at c m' i = true).
      { intros i Hi. unfold flag_at. rewrite Ha, Hfl.
        destruct (decide (a <= a + i < a + _cap c)); [reflexivity | lia]. }
      assert (Hstack : stack_prefix (with_n c (_cap c)) m'
                       = stack_prefix c m ++ unflagged c m).
      { unfold stack_prefix at 1. cbn [with_n _stack _n]. rewrite Hs. exact Hst. }
      exists m'. split; [| split; [exact Hstack | split; [exact Hflag | split]]].
      * unfold local_assignAllNotAlreadyAssigned. rewrite Hgo, Ha, Hs. simpl.
        mstep ltac:(apply assert_ok; reflexivity).
        mstep ltac:(apply assert_ok; destruct maybe_invalid; [reflexivity |];
                    simpl in Hgo; apply negb_true_iff, Nat.eqb_neq in Hgo;
                    apply Nat.ltb_lt; lia).
        mstep ltac:(apply assert_ok; destruct maybe_invalid; [| reflexivity];
                    apply Nat.leb_le; exact Hn).
        rewrite <- Ha, <- Hs.
        mstep ltac:(exact Hrun).
        mstep ltac:(apply assert_ok; apply Nat.eqb_refl).
        reflexivity.
      * split; [| split; [| split]].
        -- unfold bound_in. cbn [with_n _assigned _stack _cap].
           rewrite Ha, Hs, Hlf, Hlw. exact Hbd.
        -- cbn [with_n _n _cap]. lia.
        -- rewrite Hstack. apply NoDup_app. split; [exact Hnd |].
           split; [| apply NoDup_filter, NoDup_seq].
           intros x Hx Hy. apply Hel in Hx as [_ Hx].
           apply list_elem_of_filter in Hy as [Hy _]. congruence.
        -- intros i. rewrite Hstack, flag_at_with_n. cbn [with_n _cap].
           rewrite elem_of_app, Hel. unfold unflagged.
           rewrite list_elem_of_filter, elem_of_seq. split.
           ++ intros [[Hi _] | [_ Hi]]; (split; [lia | apply Hflag; lia]).
           ++ intros [Hi _]. destruct (flag_at c m i) eqn:Hf.
              ** left. split; [exact Hi | reflexivity].
              ** right. split; [reflexivity | lia].
      * split.
        -- intros a' j [= <-] Hj. rewrite Hfl.
           destruct (decide (a <= j < a + _cap c)); [lia | reflexivity].
        -- intros s' k [= <-] Hk. apply Hfr. exact Hk.
    + apply orb_false_iff in Hgo as [-> Hgo].
      apply negb_false_iff, Nat.eqb_eq in Hgo.
      apply Hsame; [exact Hgo |].
      unfold local_assignAllNotAlreadyAssigned.
      rewrite Hgo, Nat.eqb_refl. reflexivity.
  - apply Hsame; [lia |].
    unfold local_assignAllNotAlreadyAssigned. rewrite Ha.
    destruct (maybe_invalid || negb (_n c =? _cap c)); reflexivity.
Qed.

End Filling.

(** ** Clearing a view *)

Section LocalClear.

Variable cfg : Config.

(** [local_clear] is [clear] followed by the store to the counter word. *)
Lemma local_clear_as_clear c m mc :
  clear cfg c m = Ok (with_n c 0, mc) ->
  local_clear cfg c m
  = (store_word (ptr_sub (_stack c) 1) 0 0 ;; ret (with_n c 0)) mc.
Proof.
  unfold clear, local_clear, bind. cbn [with_n _stack].
  destruct (_n c =? _cap c).
  - destruct (assert_ cfg _ m) as [[[] m1] |]; [| discriminate].
    destruct (for_range _ _ _ _ m1) as [[[] m2] |]; [| discriminate].
    intros [= <-]. reflexivity.
  - destruct (_n c <? minLoopSize cfg);
      (destruct (for_range _ _ _ _ m) as [[[] m2] |]; [| discriminate]);
      intros [= <-]; reflexivity.
Qed.

(** X5: on a structure whose stack has a word in front of it, as the stack of
    a view has, [local_clear] does what [clear] does (every flag of the range
    cleared, count zero) and also zeroes that word, the tile's counter of
    initial entries; nothing else changes. *)
Theorem local_clear_resets (c : Coordinates) (m : Memory) (s : nat) :
  set_equivalence c m -> _stack c = Some s -> 1 <= s ->
  exists mc,
    clear cfg c m = Ok (with_n c 0, mc) /\
    local_clear cfg c m
    = Ok (with_n c 0, mkMemory (flags mc) (<[s - 1 := 0]> (words m))) /\
    (forall i, i < _cap c -> flag_at c mc i = false) /\
    (forall a j, _assigned c = Some a -> ~ a <= j < a + _cap c ->
       flags mc !! j = flags m !! j) /\
    set_equivalence (with_n c 0)
      (mkMemory (flags mc) (<[s - 1 := 0]> (words m))).
Proof.
  intros Hinv Hs Hpos.
  destruct (clear_spec cfg c m Hinv) as (fl & Hrun & Hl & Hf & Hfr).
  exists (mkMemory fl (words m)). split; [exact Hrun |].
  assert (Hbd : s + _cap c <= length (words m)).
  { destruct Hinv as (Hbd & _). unfold bound_in in Hbd. rewrite Hs in Hbd.
    destruct (_assigned c); [lia | contradiction]. }
  split; [| split; [exact Hf | split; [exact Hfr |]]].
  - rewrite (local_clear_as_clear c m _ Hrun), Hs.
    rewrite ptr_sub_ok by exact Hpos.
    mstep ltac:(apply store_word_ok; simpl; lia).
    rewrite Nat.add_0_r. reflexivity.
  - destruct Hinv as (Hb & Hn & _ & _).
    assert (Hnil : forall m', stack_prefix (with_n c 0) m' = []).
    { intros m'. unfold stack_prefix. simpl. destruct (_stack c); reflexivity. }
    split; [| split; [| split]].
    + unfold bound_in in *. simpl. rewrite length_insert, Hl.
      destruct (_assigned c), (_stack c); simpl in *; tauto.
    + simpl. lia.
    + rewrite Hnil. apply NoDup_nil_2.
    + intros i. rewrite Hnil. split.
      * intros Hi. apply elem_of_nil in Hi. contradiction.
      * intros [Hi Ht]. simpl in Hi. assert (Hff := Hf i Hi).
        unfold flag_at in *. simpl in *. congruence.
Qed.

(** X6: the counter word is a precondition of the view operations: on a
    structure whose stack is null (an unbound structure) or starts at the very
    beginning of its block, [local_clear] and [local_assignAll] end in a store
    through [_stack - 1] that hits no memory, while [clear] returns. *)
Theorem counter_word_needed (c : Coordinates) (m : Memory)
    (maybe_invalid : bool) :
  set_equivalence c m ->
  _stack c = None \/ _stack c = Some 0 ->
  local_clear cfg c m = Fault MemoryFault /\
  local_assignAll cfg maybe_invalid c m = Fault MemoryFault /\
  exists mc, clear cfg c m = Ok (with_n c 0, mc).
Proof.
  intros Hinv Hstack.
  destruct (clear_spec cfg c m Hinv) as (fl & Hrun & _).
  assert (Hnone : ptr_sub (_stack c) 1 = None)
    by (destruct Hstack as [-> | ->]; reflexivity).
  split; [| split; [| eauto]].
  - rewrite (local_clear_as_clear c m _ Hrun), Hnone. reflexivity.
  - destruct Hinv as (Hbd & Hn & _). unfold bound_in in Hbd.
    unfold local_assignAll.
    destruct (maybe_invalid || negb (_n c =? _cap c)) eqn:Hgo.
    + destruct (_assigned c) as [a |] eqn:Ha, (_stack c) as [s |] eqn:Hs;
        try contradiction.
      * destruct Hbd as [Hfa Hfs].
        destruct (fill_identity a s (_cap c) m Hfa Hfs)
          as (fl' & w' & Hfill & _).
        cbn [is_null negb with_n _n _assigned _stack]. rewrite ?Ha, ?Hs.
        mstep ltac:(apply assert_ok; reflexivity).
        mstep ltac:(apply assert_ok; destruct maybe_invalid; [reflexivity |];
                    simpl in Hgo; apply negb_true_iff, Nat.eqb_neq in Hgo;
                    apply Nat.ltb_lt; lia).
        mstep ltac:(apply assert_ok; destruct maybe_invalid; [| reflexivity];
                    apply Nat.leb_le; exact Hn).
        mstep ltac:(exact Hfill).
        rewrite (bind_ok _ _ _ _ _ (ret_ok _ _)).
        cbn [with_n _stack]. rewrite ?Hs, Hnone. reflexivity.
      * cbn [is_null negb]. rewrite (bind_ok _ _ _ _ _ (ret_ok _ _)).
        rewrite Hs, Hnone. reflexivity.
    + rewrite (bind_ok _ _ _ _ _ (ret_ok _ _)). rewrite Hnone. reflexivity.
Qed.

End LocalClear.

(** ** Binding *)

Lemma aligned_stack_bounds cfg buf :
  buf <= aligned_stack cfg buf * Pos.to_nat (sizeof_StackType cfg) /\
  aligned_stack cfg buf * Pos.to_nat (sizeof_StackType cfg)
  < buf + Pos.to_nat (sizeof_StackType cfg).
Proof.
  unfold aligned_stack. cbv zeta.
  assert (Hpos : 0 < Pos.to_nat (sizeof_StackType cfg)) by apply Pos2Nat.is_pos.
  set (size := Pos.to_nat (sizeof_StackType cfg)) in *.
  assert (Hdm := Nat.div_mod_eq buf size).
  assert (Hlt := Nat.mod_upper_bound buf size ltac:(lia)).
  destruct (Nat.eqb_spec (buf mod size) 0) as [Hz | Hnz]; simpl.
  - rewrite Hz, Nat.add_0_r in Hdm. lia.
  - replace (buf + (size - buf mod size)) with ((buf / size + 1) * size) by nia.
    rewrite Nat.div_mul by lia. nia.
Qed.

Section Sizing.

Variable cfg : Config.

(** X7: [set] places the stack at the first word boundary at or after [buf]
    and the scratch buffer right behind the stack's [dim] words, and a block
    of [bufferSize( dim )] bytes at [buf] holds both, whatever the alignment
    of [buf]. *)
Theorem set_layout_within_bufferSize (c0 : Coordinates) (m : Memory)
    (a buf dim : nat) (parallel : bool) :
  a + dim <= length (flags m) ->
  (parallel = true -> init_ranges_cover cfg dim = true) ->
  exists c m' s,
    set cfg c0 (Some a) false (Some buf) dim parallel m = Ok (c, m') /\
    _stack c = Some s /\ _buffer c = Some (s + dim) /\
    _buf c = vectorBufferSize cfg dim /\
    buf <= s * Pos.to_nat (sizeof_StackType cfg) /\
    s * Pos.to_nat (sizeof_StackType cfg)
    < buf + Pos.to_nat (sizeof_StackType cfg) /\
    (s + dim + _buf c) * Pos.to_nat (sizeof_StackType cfg)
    <= buf + bufferSize cfg dim.
Proof.
  intros Hfl Hcover.
  destruct (set_fresh cfg c0 m a buf dim parallel Hfl Hcover)
    as (fl & Hrun & _).
  destruct (aligned_stack_bounds cfg buf) as [Hlo Hhi].
  eexists _, _, (aligned_stack cfg buf). split; [exact Hrun |].
  cbn [with_pointers _stack _buffer _buf].
  split; [reflexivity |]. split; [reflexivity |]. split; [reflexivity |].
  split; [exact Hlo |]. split; [exact Hhi |].
  unfold bufferSize, stackSize, parbufSize, prefixbufSize. cbv zeta.
  destruct (Nat.eqb_spec dim 0) as [-> | Hd]; nia.
Qed.

(** X8: a call of [set] with a null pointer unbinds the structure and touches
    no memory; a debug build insists that then both pointers are null and the
    dimension is zero and stops at the assertion otherwise, a release build
    unbinds whatever the other arguments are. *)
Theorem set_null_arguments (c0 : Coordinates) (m : Memory) (arr buf : ptr)
    (arr_initialized parallel : bool) (dim : nat) :
  arr = None \/ buf = None ->
  (NDEBUG cfg = true \/ (arr = None /\ buf = None /\ dim = 0) ->
   set cfg c0 arr arr_initialized buf dim parallel m
   = Ok (with_pointers c0 None None None 0 0 0, m)) /\
  (NDEBUG cfg = false -> ~ (arr = None /\ buf = None /\ dim = 0) ->
   set cfg c0 arr arr_initialized buf dim parallel m = Fault AssertionFailure).
Proof.
  intros Hnull.
  assert (Hset : set cfg c0 arr arr_initialized buf dim parallel
                 = (assert_ cfg (is_null arr) ;;
                    assert_ cfg (is_null buf) ;;
                    assert_ cfg (dim =? 0) ;;
                    ret (with_pointers c0 None None None 0 0 0))).
  { unfold set. destruct arr, buf; try reflexivity.
    destruct Hnull; discriminate. }
  rewrite Hset. unfold assert_, bind, ret, fail. split.
  - intros [-> | (-> & -> & ->)]; [reflexivity |].
    simpl. rewrite !orb_true_r. reflexivity.
  - intros -> Hnot. simpl.
    destruct arr as [x |]; [reflexivity |].
    destruct buf as [y |]; [reflexivity |]. simpl.
    destruct (Nat.eqb_spec dim 0) as [-> | Hd]; [| reflexivity].
    exfalso. apply Hnot. repeat split.
Qed.

End Sizing.

(** ** Views on tiles *)

Section Views.

Variable cfg : Config.
Variable c : Coordinates.
Variables a s b : nat.

Hypothesis Hinst : installed c.
Hypothesis Ha : _assigned c = Some a.
Hypothesis Hs : _stack c = Some s.
Hypothesis Hb : _buffer c = Some b.
Hypothesis Hpart : tiles_partition c.
Hypothesis HsB : s + _cap c <= b.

Local Abbreviation ts := (getTileSize (analytic_model c)).
Local Abbreviation T := (getNumTiles (analytic_model c)).
Local Abbreviation seg := (segment_of c b).
Local Abbreviation counters := (counters_of c b).
Local Abbreviation sums := (sums_of c b).
Local Abbreviation lower := (tile_lower c).
Local Abbreviation upper := (tile_upper c).
Local Abbreviation width := (tile_width c).

Lemma tile_view_fields t n :
  t < T ->
  tile_view cfg c t n
  = mkCoordinates (Some (a + lower t)) (Some (seg t + 1))
      (Some (seg t + 1 + width t)) n (width t) 0 [] None None
      (AnalyticModel_default cfg).
Proof.
  intros Ht. unfold tile_view.
  rewrite (installed_tile_segment c b t Hinst Hb Ht), Ha. cbn [ptr_add].
  unfold segment_of. rewrite (Nat.add_assoc _ 1 (width t)). reflexivity.
Qed.

Lemma asyncSubset_explicit m t pre new :
  t < T ->
  b + T * (ts + 3) <= length (words m) ->
  words m !! seg t = Some pre -> words m !! (counters + t) = Some new ->
  pre + new <= width t ->
  asyncSubset cfg c (lower t) (upper t) m
  = Ok (tile_view cfg c t (pre + new), m).
Proof.
  intros Ht Hfits Hpre Hnew Hle.
  destruct (capacity_positive c s b Hpart HsB) as (Hcap & Hts & HT).
  destruct (tile_bounds c t Hpart Ht) as (Hlt & Hup & Hw & Hwpos).
  rewrite (tile_view_fields t _ Ht).
  unfold asyncSubset.
  mstep ltac:(apply assert_ok; apply Nat.ltb_lt; exact Hcap).
  mstep ltac:(apply div_ok; exact Hts).
  rewrite tile_lower_div by exact Hts.
  mstep ltac:(apply vector_at_ok; apply (local_buffer_at c b t Hinst Hb Ht)).
  rewrite usub_ok by lia. fold (width t).
  mstep ltac:(apply assert_ok; apply Nat.leb_le; exact Hw).
  rewrite Ha. simpl ptr_add. simpl to_void. unfold set. cbv zeta.
  rewrite andb_false_r.
  mstep ltac:(apply ret_ok). mstep ltac:(apply ret_ok).
  mstep ltac:(apply load_word_ok; rewrite Nat.add_0_r; exact Hpre).
  rewrite (local_new_nnzs_at c b Hinst Hb).
  mstep ltac:(apply load_word_ok; exact Hnew).
  mstep ltac:(apply assert_ok; apply Nat.leb_le; simpl; exact Hle).
  assert (Hal := aligned_word cfg c s b HsB (seg t + 1)).
  unfold aligned_stack in Hal. cbv zeta in Hal.
  unfold ret, with_buf, with_n, with_pointers, Coordinates_default.
  cbn [_assigned _stack _buffer _n _cap _buf local_buffer local_new_nnzs
       pref_sum analytic_model ptr_add].
  rewrite Hal. reflexivity.
Qed.

Lemma tile_view_flag t n m j :
  t < T -> flag_at (tile_view cfg c t n) m j = flag_at c m (lower t + j).
Proof.
  intros Ht. rewrite (tile_view_fields t n Ht). unfold flag_at. simpl.
  rewrite Ha. replace (a + lower t + j) with (a + (lower t + j)) by lia.
  reflexivity.
Qed.

Lemma view_ready m0 m1 t :
  t < T -> fits c a b m1 -> tile_ready c b m0 m1 t ->
  asyncSubset cfg c (lower t) (upper t) m1
  = Ok (tile_view cfg c t (length (tile_old c b m1 t)), m1) /\
  set_equivalence (tile_view cfg c t (length (tile_old c b m1 t))) m1.
Proof.
  intros Ht Hfits (Hpre & Hnd & Hel & Hzero & Hfl).
  destruct (tile_bounds c t Hpart Ht) as (Hlt & Hup & Hw & Hwpos).
  assert (Hob := tile_old_bounded c b m0 m1 t Hnd Hel).
  assert (Hview := asyncSubset_explicit m1 t (length (tile_old c b m1 t)) 0 Ht
                     (proj2 Hfits) Hpre Hzero ltac:(lia)).
  rewrite Nat.add_0_r in Hview. split; [exact Hview |].
  assert (Hsp : stack_prefix (tile_view cfg c t (length (tile_old c b m1 t))) m1
                = tile_old c b m1 t).
  { rewrite (tile_view_fields t _ Ht). unfold stack_prefix. simpl.
    unfold tile_old at 2. rewrite Hpre. reflexivity. }
  destruct (seg_in_scratch c b t ts Ht ltac:(lia)) as [Hseg1 Hseg2].
  assert (HT2 := sums_after_counters c b).
  assert (Hsums := fits_words c b a m1 Hfits).
  split; [| split; [| split]].
  - rewrite (tile_view_fields t _ Ht). unfold bound_in. simpl.
    destruct Hfits as [H1 H2]. unfold tile_width in *. lia.
  - rewrite (tile_view_fields t _ Ht). simpl. exact Hob.
  - rewrite Hsp. exact Hnd.
  - intros j. rewrite Hsp, (tile_view_flag t _ m1 j Ht), Hel.
    rewrite (tile_view_fields t _ Ht). simpl _cap.
    split; intros [Hj Hf].
    + rewrite Hfl by exact Hj. tauto.
    + rewrite <- Hfl by exact Hj. tauto.
Qed.

Lemma view_round_trip m t pre n :
  t < T -> b + T * (ts + 3) <= length (words m) ->
  words m !! seg t = Some pre -> pre <= n -> n <= width t ->
  asyncJoinSubset cfg c (tile_view cfg c t n) (lower t) (upper t) m
  = Ok (tt, mkMemory (flags m) (<[counters + t := n - pre]> (words m))) /\
  asyncSubset cfg c (lower t) (upper t)
    (mkMemory (flags m) (<[counters + t := n - pre]> (words m)))
  = Ok (tile_view cfg c t n,
        mkMemory (flags m) (<[counters + t := n - pre]> (words m))).
Proof.
  intros Ht Hlen Hpre Hle1 Hle2.
  destruct (capacity_positive c s b Hpart HsB) as (Hcap & Hts & HT).
  destruct (seg_in_scratch c b t 0 Ht ltac:(lia)) as [Hseg1 Hseg2].
  assert (HT2 := sums_after_counters c b).
  assert (Hend : sums + T <= length (words m)) by (unfold sums_of; lia).
  split.
  - pose proof (asyncJoinSubset_store cfg c (tile_view cfg c t n) (lower t)
                  (upper t) m b pre Hinst Hb Hcap Hts) as H.
    rewrite tile_lower_div in H by exact Hts.
    apply H; clear H; try assumption.
  - replace n with (pre + (n - pre)) at 2 by lia.
    apply asyncSubset_explicit.
    + exact Ht.
    + simpl. rewrite length_insert. exact Hlen.
    + simpl. rewrite list_lookup_insert_ne by lia. exact Hpre.
    + simpl. apply list_lookup_insert_eq. lia.
    + lia.
Qed.

End Views.

Section ViewClaims.

Variable cfg : Config.

(** X9: after [asyncSubsetInit] has prepared a tile, [asyncSubset] returns a
    view that is itself a well-formed structure: its capacity is the width of
    the tile, its flags are the parent's flags of the tile's range, and its
    stack holds, as offsets into the tile, exactly the indices of the tile that
    are present in the parent. *)
Theorem view_after_init (c : Coordinates) (m : Memory) (t : nat) :
  installed c -> set_equivalence c m -> scratch_fits c m ->
  tiles_partition c -> t < getNumTiles (analytic_model c) ->
  exists m1 n,
    asyncSubsetInit cfg c (tile_lower c t) (tile_upper c t) m = Ok (tt, m1) /\
    asyncSubset cfg c (tile_lower c t) (tile_upper c t) m1
    = Ok (tile_view cfg c t n, m1) /\
    set_equivalence (tile_view cfg c t n) m1 /\
    (forall j, flag_at (tile_view cfg c t n) m1 j
               = flag_at c m (tile_lower c t + j)) /\
    (forall j, j ∈ stack_prefix (tile_view cfg c t n) m1 <->
       j < tile_width c t /\ flag_at c m (tile_lower c t + j) = true).
Proof.
  intros Hinst Hinv Hfit Hpart Ht.
  destruct (laid_out c m Hinv Hfit) as (a & s & b & Ha & Hs & Hb & HsB & Hfits).
  destruct (init_tile cfg c a s b m Hinst Ha Hs Hb Hpart HsB Hinv Hfits m t Ht)
    as (m1 & Hrun & Hf1 & Hl1 & _ & Hready); try reflexivity.
  assert (Hfits1 : fits c a b m1).
  { destruct Hfits as [H1 H2]. split; [rewrite Hf1 | rewrite Hl1]; assumption. }
  destruct (view_ready cfg c a s b Hinst Ha Hb Hpart HsB m m1 t Ht Hfits1 Hready)
    as [Hview Hvinv].
  assert (Hflag : forall j, flag_at (tile_view cfg c t (length (tile_old c b m1 t))) m1 j
                            = flag_at c m (tile_lower c t + j)).
  { intros j. rewrite (tile_view_flag cfg c a s b Hinst Ha Hb HsB t _ m1 j Ht).
    unfold flag_at. rewrite Hf1. reflexivity. }
  exists m1, (length (tile_old c b m1 t)).
  split; [exact Hrun |]. split; [exact Hview |]. split; [exact Hvinv |].
  split; [exact Hflag |].
  intros j. destruct Hvinv as (_ & _ & _ & Hel). rewrite Hel, Hflag.
  unfold tile_view. simpl _cap. reflexivity.
Qed.

(** X10: what [asyncJoinSubset] saves, [asyncSubset] gives back: when a view
    of a tile has grown to [n] entries, committing it stores the [n - pre]
    new ones in the tile's counter and a later [asyncSubset] of the same tile
    returns the very same view, count included. *)
Theorem view_saved_and_restored (c : Coordinates) (m : Memory)
    (t pre n : nat) :
  installed c -> bound_in c m -> scratch_fits c m ->
  tiles_partition c -> t < getNumTiles (analytic_model c) ->
  local_count c m t = Some pre -> pre <= n -> n <= tile_width c t ->
  exists m',
    asyncJoinSubset cfg c (tile_view cfg c t n) (tile_lower c t)
      (tile_upper c t) m = Ok (tt, m') /\
    asyncSubset cfg c (tile_lower c t) (tile_upper c t) m'
    = Ok (tile_view cfg c t n, m') /\
    new_count c m' t = Some (n - pre) /\
    local_count c m' t = Some pre /\
    flags m' = flags m.
Proof.
  intros Hinst Hbd Hfit Hpart Ht Hpre Hle1 Hle2.
  assert (Hcap : 0 < _cap c) by (destruct Hpart as (? & ? & ?); lia).
  destruct (bound_in_pointers c m Hbd Hcap) as (a & s & Ha & Hs & Hfa & Hfs).
  unfold scratch_fits in Hfit. rewrite Hs in Hfit.
  destruct (_buffer c) as [b |] eqn:Hb; [| contradiction].
  destruct Hfit as [HsB Hlen].
  assert (Hseg := installed_tile_segment c b t Hinst Hb Ht).
  assert (Hpre' : words m !! segment_of c b t = Some pre).
  { unfold local_count, word_at in Hpre. rewrite Hseg in Hpre.
    rewrite Nat.add_0_r in Hpre. exact Hpre. }
  destruct (view_round_trip cfg c a s b Hinst Ha Hb Hpart HsB m t pre n
              Ht Hlen Hpre' Hle1 Hle2) as [Hjoin Hback].
  destruct (seg_in_scratch c b t 0 Ht ltac:(lia)) as [Hseg1 Hseg2].
  assert (HT2 := sums_after_counters c b).
  eexists. split; [exact Hjoin |]. split; [exact Hback |].
  split; [| split; [| reflexivity]].
  - unfold new_count, word_at.
    rewrite (local_new_nnzs_at c b Hinst Hb). simpl.
    apply list_lookup_insert_eq. unfold sums_of, counters_of in *. lia.
  - unfold local_count, word_at. rewrite Hseg. simpl.
    rewrite list_lookup_insert_ne by (unfold segment_of, counters_of in *; lia).
    rewrite Nat.add_0_r. exact Hpre'.
Qed.

End ViewClaims.

(** ** The tile operations before [localCoordinatesInit] *)

Section Unprepared.

Variable cfg : Config.

(** X11: the tile operations rely on [localCoordinatesInit] having run: on a
    structure of positive capacity whose [local_buffer] is still empty, each
    of them divides by a tile size of zero or, if the tile size is set,
    indexes the empty vector, in a debug build as in a release build. *)
Theorem tile_phases_need_layout (c subset : Coordinates) (m : Memory)
    (lower upper : nat) :
  0 < _cap c -> local_buffer c = [] ->
  asyncSubsetInit cfg c lower upper m = Fault (unprepared_fault c) /\
  asyncSubset cfg c lower upper m = Fault (unprepared_fault c) /\
  asyncJoinSubset cfg c subset lower upper m = Fault (unprepared_fault c) /\
  joinSubset cfg c lower upper m = Fault (unprepared_fault c).
Proof.
  intros Hcap Hempty.
  assert (Hpos : (0 <? _cap c) = true) by (apply Nat.ltb_lt; exact Hcap).
  assert (Hnz : (_cap c =? 0) = false) by (apply Nat.eqb_neq; lia).
  assert (Hstep : forall (A : Type) (k : nat -> ptr -> M A),
            (tile_id <- div_ lower (getTileSize (analytic_model c)) ;;
             lb <- vector_at (local_buffer c) tile_id ;; k tile_id lb) m
            = Fault (unprepared_fault c)).
  { intros A k. unfold bind, div_, vector_at, unprepared_fault.
    rewrite Hempty.
    destruct (getTileSize (analytic_model c) =? 0); reflexivity. }
  repeat split.
  - unfold asyncSubsetInit. rewrite Hnz.
    apply (Hstep _ (fun tile_id lb => _)).
  - unfold asyncSubset.
    rewrite (bind_ok _ _ m tt m)
      by (unfold assert_; rewrite Hpos, orb_true_r; reflexivity).
    apply (Hstep _ (fun tile_id lb => _)).
  - unfold asyncJoinSubset.
    rewrite (bind_ok _ _ m tt m)
      by (unfold assert_; rewrite Hpos, orb_true_r; reflexivity).
    apply (Hstep _ (fun tile_id lb => _)).
  - unfold joinSubset. rewrite Hnz.
    apply (Hstep _ (fun tile_id lb => _)).
Qed.

End Unprepared.

(** ** New nonzeroes *)

Lemma newNonZeroes_loop_spec c nn counts m : forall k i,
  local_new_nnzs c = Some nn -> counts_at nn counts m ->
  i + k = length counts ->
  newNonZeroes_loop c i k m
  = Ok (existsb (fun x => 0 <? x) (drop i counts), m).
Proof.
  induction k as [| k IH]; intros i Hnn Hc Hlen.
  - rewrite drop_ge by lia. reflexivity.
  - destruct (lookup_lt_is_Some_2 counts i ltac:(lia)) as [x Hx].
    rewrite (drop_S _ _ _ Hx). simpl. rewrite Hnn.
    rewrite (bind_ok _ _ m x m)
      by (apply load_word_ok; apply (counts_at_lookup nn counts m i x Hc Hx)).
    destruct (0 <? x); [reflexivity |].
    apply IH; [exact Hnn | exact Hc | lia].
Qed.

Lemma no_positive_sum (counts : list nat) :
  existsb (fun x => 0 <? x) counts = false -> sum_list counts = 0.
Proof.
  induction counts as [| x rest IH]; simpl; [reflexivity |].
  intros H. apply orb_false_iff in H as [Hx Hrest].
  apply Nat.ltb_ge in Hx. rewrite (IH Hrest). lia.
Qed.

Section NewNonZeroes.

Variable cfg : Config.

(** X12: [newNonZeroes] reports whether some tile's counter of new entries is
    positive and changes nothing; and when it reports none,
    [prefixSumComputation] leaves the global count as it is, for a count that
    fits [config::VectorIndexType] and [size_t]. *)
Theorem newNonZeroes_reads_counters (size_bits : N) (c : Coordinates)
    (m : Memory) (nn ps : nat) (counts : list nat)
    (sched1 sched2 : list nat) :
  0 < _cap c ->
  local_new_nnzs c = Some nn -> pref_sum c = Some ps ->
  length counts = getNumTiles (analytic_model c) ->
  0 < length counts ->
  counts_at nn counts m ->
  ps + length counts <= length (words m) ->
  nn + length counts <= ps \/ ps + length counts <= nn ->
  fits_bits (index_bits cfg) (_n c) ->
  fits_bits size_bits (_n c) ->
  (getTileSize (prefix_sum_model cfg (length counts)) <= length counts ->
   chunks_partition cfg (length counts)
     (getTileSize (prefix_sum_model cfg (length counts)))
     (getNumTiles (prefix_sum_model cfg (length counts))) = true /\
   sched1 ≡ₚ seq 0 (getNumTiles (prefix_sum_model cfg (length counts))) /\
   sched2 ≡ₚ seq 0 (getNumTiles (prefix_sum_model cfg (length counts)))) ->
  newNonZeroes c m = Ok (existsb (fun x => 0 <? x) counts, m) /\
  (newNonZeroes c m = Ok (false, m) ->
   exists m',
     prefixSumComputation_words cfg size_bits sched1 sched2 c m
     = Ok (c, m')).
Proof.
  intros Hcap Hnn Hps HT Hpos Hc Hlen Hapart Hfi Hfs Hpar.
  assert (Hrun : newNonZeroes c m = Ok (existsb (fun x => 0 <? x) counts, m)).
  { unfold newNonZeroes.
    destruct (Nat.eqb_spec (_cap c) 0) as [? | _]; [lia |].
    rewrite <- HT.
    rewrite (newNonZeroes_loop_spec c nn counts m (length counts) 0 Hnn Hc)
      by reflexivity.
    rewrite drop_0. reflexivity. }
  split; [exact Hrun |].
  intros Hnone. rewrite Hrun in Hnone.
  assert (Hz : existsb (fun x => 0 <? x) counts = false) by congruence.
  assert (Hsum := no_positive_sum counts Hz).
  destruct (prefixSumComputation_words_spec cfg size_bits c m nn ps counts
              sched1 sched2 Hnn Hps HT Hpos Hc Hlen Hapart)
    as (m' & Hres & _).
  { rewrite Hsum, Nat.add_0_r. exact Hfi. }
  { rewrite Hsum, Nat.add_0_r. exact Hfs. }
  { exact Hpar. }
  rewrite Hsum, Nat.add_0_r, with_n_same in Hres.
  exists m'. exact Hres.
Qed.

End NewNonZeroes.

(** ** Joining one tile *)

Section Joins.

Variable cfg : Config.
Variable c : Coordinates.
Variables a s b : nat.

Hypothesis Hinst : installed c.
Hypothesis Ha : _assigned c = Some a.
Hypothesis Hs : _stack c = Some s.
Hypothesis Hb : _buffer c = Some b.
Hypothesis Hpart : tiles_partition c.
Hypothesis HsB : s + _cap c <= b.

Local Abbreviation ts := (getTileSize (analytic_model c)).
Local Abbreviation T := (getNumTiles (analytic_model c)).
Local Abbreviation seg := (segment_of c b).
Local Abbreviation counters := (counters_of c b).
Local Abbreviation sums := (sums_of c b).
Local Abbreviation lower := (tile_lower c).
Local Abbreviation upper := (tile_upper c).

Lemma joinSubset_inactive m t pre p :
  t < T -> b + T * (ts + 3) <= length (words m) ->
  words m !! seg t = Some pre -> words m !! (counters + t) = Some 0 ->
  words m !! (sums + t) = Some p ->
  joinSubset cfg c (lower t) (upper t) m = Ok (tt, m).
Proof.
  intros Ht Hlen Hpre Hzero Hsum.
  destruct (capacity_positive c s b Hpart HsB) as (Hcap & Hts & HT).
  assert (HT2 := sums_after_counters c b).
  unfold joinSubset.
  destruct (Nat.eqb_spec (_cap c) 0) as [? | _]; [lia |].
  mstep ltac:(apply div_ok; exact Hts).
  rewrite tile_lower_div by exact Hts.
  mstep ltac:(apply vector_at_ok; apply (local_buffer_at c b t Hinst Hb Ht)).
  mstep ltac:(apply load_word_ok; rewrite Nat.add_0_r; exact Hpre).
  rewrite (local_new_nnzs_at c b Hinst Hb).
  mstep ltac:(apply load_word_ok; exact Hzero).
  mstep ltac:(apply assert_ok; apply Nat.leb_le; lia).
  rewrite (pref_sum_at c b Hinst Hb).
  mstep ltac:(apply load_word_ok; exact Hsum).
  rewrite Nat.add_0_r. unfold for_range. rewrite Nat.sub_diag. simpl for_loop.
  mstep ltac:(apply ret_ok).
  rewrite store_word_ok by (unfold sums_of in *; lia).
  rewrite (list_insert_id _ _ _ Hzero). destruct m; reflexivity.
Qed.

Lemma joinSubset_commits m t pre new pos :
  t < T -> b + T * (ts + 3) <= length (words m) ->
  words m !! seg t = Some pre -> words m !! (counters + t) = Some new ->
  words m !! (sums + t) = Some (pos + new) ->
  pos + new <= _cap c -> pre + new <= ts ->
  (forall j, j < new ->
     exists x, words m !! (seg t + 1 + pre + j) = Some x /\
       lower t + x < upper t /\ flag_at c m (lower t + x) = true) ->
  exists m',
    joinSubset cfg c (lower t) (upper t) m = Ok (tt, m') /\
    flags m' = flags m /\
    length (words m') = length (words m) /\
    (forall j x, j < new -> words m !! (seg t + 1 + pre + j) = Some x ->
       words m' !! (s + pos + j) = Some (x + lower t)) /\
    words m' !! (counters + t) = Some 0 /\
    (forall k, ~ s + pos <= k < s + pos + new -> k <> counters + t ->
       words m' !! k = words m !! k).
Proof.
  intros Ht Hlen Hpre Hnew Hsum Hfit Hroom Hentries.
  destruct (capacity_positive c s b Hpart HsB) as (Hcap & Hts & HT).
  destruct (seg_in_scratch c b t ts Ht ltac:(lia)) as [Hseg1 Hseg2].
  destruct (seg_in_scratch c b t 0 Ht ltac:(lia)) as [Hseg3 _].
  assert (HT2 := sums_after_counters c b).
  assert (Hend : sums + T <= length (words m)) by (unfold sums_of; lia).
  destruct (for_range_inv
    (fun k p m' =>
       p = pos + (k - pre) /\ flags m' = flags m /\
       length (words m') = length (words m) /\
       (forall j x, j < k - pre ->
          words m !! (seg t + 1 + pre + j) = Some x ->
          words m' !! (s + pos + j) = Some (x + lower t)) /\
       (forall k', ~ s + pos <= k' < s + pos + (k - pre) ->
          words m' !! k' = words m !! k'))
    (fun k p =>
      local_index <- load_word (Some (seg t + 1)) k ;;
      assert_ cfg (lower t <=? local_index + lower t) ;;
      assert_ cfg (local_index + lower t <? upper t) ;;
      assertM cfg (load_flag (_assigned c) (local_index + lower t)) ;;
      assert_ cfg (p <? _cap c) ;;
      store_word (_stack c) p (local_index + lower t) ;;
      ret (p + 1))
    pre (pre + new) pos m ltac:(lia))
    as (p & m1 & Hrun & Hp & Hf1 & Hl1 & Hwritten & Hrest).
  - split; [lia |]. split; [reflexivity |]. split; [reflexivity |].
    split; [intros j x Hj; lia | reflexivity].
  - intros k p m1 Hk (-> & Hf1 & Hl1 & Hwritten & Hrest).
    destruct (Hentries (k - pre) ltac:(lia)) as (x & Hx & Hxu & Hxf).
    replace (seg t + 1 + pre + (k - pre)) with (seg t + 1 + k) in Hx by lia.
    apply (flag_at_true c m a (lower t + x) Ha) in Hxf.
    eexists _, _. split.
    { mstep ltac:(apply load_word_ok; rewrite Hrest by lia; exact Hx).
      mstep ltac:(apply assert_ok; apply Nat.leb_le; lia).
      mstep ltac:(apply assert_ok; apply Nat.ltb_lt; lia).
      mstep ltac:(apply assertM_ok; intros _; rewrite Ha; apply load_flag_ok;
                  rewrite Hf1; replace (a + (x + lower t)) with (a + (lower t + x))
                    by lia; exact Hxf).
      mstep ltac:(apply assert_ok; apply Nat.ltb_lt; lia).
      rewrite Hs.
      mstep ltac:(apply store_word_ok; lia).
      reflexivity. }
    simpl. split; [lia |]. split; [exact Hf1 |].
    split; [rewrite length_insert; exact Hl1 |]. split.
    + intros j y Hj Hy.
      destruct (Nat.eq_dec j (k - pre)) as [-> | Hne].
      * replace (seg t + 1 + pre + (k - pre)) with (seg t + 1 + k) in Hy by lia.
        rewrite Hx in Hy. inversion Hy; subst.
        replace (s + pos + (k - pre)) with (s + (pos + (k - pre))) by lia.
        apply list_lookup_insert_eq. lia.
      * rewrite list_lookup_insert_ne by lia. apply Hwritten; [lia | exact Hy].
    + intros k' Hk'. rewrite list_lookup_insert_ne by lia. apply Hrest. lia.
  - replace (pre + new - pre) with new in Hwritten, Hrest by lia.
    exists (mkMemory (flags m1) (<[counters + t := 0]> (words m1))).
    split.
    { unfold joinSubset.
      destruct (Nat.eqb_spec (_cap c) 0) as [? | _]; [lia |].
      mstep ltac:(apply div_ok; exact Hts).
      rewrite tile_lower_div by exact Hts.
      mstep ltac:(apply vector_at_ok; apply (local_buffer_at c b t Hinst Hb Ht)).
      mstep ltac:(apply load_word_ok; rewrite Nat.add_0_r; exact Hpre).
      rewrite (local_new_nnzs_at c b Hinst Hb).
      mstep ltac:(apply load_word_ok; exact Hnew).
      mstep ltac:(apply assert_ok; apply Nat.leb_le; lia).
      rewrite (pref_sum_at c b Hinst Hb).
      mstep ltac:(apply load_word_ok; exact Hsum).
      rewrite usub_ok by lia.
      replace (pos + new - new) with pos by lia.
      simpl ptr_add.
      mstep ltac:(exact Hrun).
      apply store_word_ok. lia. }
    simpl. split; [exact Hf1 |]. split; [rewrite length_insert; exact Hl1 |].
    split; [| split].
    + intros j x Hj Hx. rewrite list_lookup_insert_ne by lia.
      apply Hwritten; assumption.
    + apply list_lookup_insert_eq. lia.
    + intros k Hk1 Hk2. rewrite list_lookup_insert_ne by lia.
      apply Hrest. exact Hk1.
Qed.

End Joins.

Section JoinClaims.

Variable cfg : Config.

(** X13: [joinSubset] appends the tile's new entries, turned back into global
    indices, to the global stack from the position the prefix sum assigned to
    the tile, leaves the stack below that position and all flags alone, and
    resets the tile's counter: the tile is inactive, and a second [joinSubset]
    of the same tile changes nothing. *)
Theorem joinSubset_commits_once (c : Coordinates) (m : Memory)
    (t pre new pos : nat) :
  installed c -> bound_in c m -> scratch_fits c m ->
  tiles_partition c -> t < getNumTiles (analytic_model c) ->
  local_count c m t = Some pre -> new_count c m t = Some new ->
  prefix_at c m t = Some (pos + new) ->
  pos + new <= _cap c -> pre + new <= getTileSize (analytic_model c) ->
  (forall j, j < new ->
     exists x, local_entry c m t (pre + j) = Some x /\
       tile_lower c t + x < tile_upper c t /\
       flag_at c m (tile_lower c t + x) = true) ->
  exists m',
    joinSubset cfg c (tile_lower c t) (tile_upper c t) m = Ok (tt, m') /\
    (forall j x, j < new -> local_entry c m t (pre + j) = Some x ->
       stack_at c m' (pos + j) = Some (x + tile_lower c t)) /\
    (forall k, k < pos -> stack_at c m' k = stack_at c m k) /\
    new_count c m' t = Some 0 /\
    flags m' = flags m /\
    joinSubset cfg c (tile_lower c t) (tile_upper c t) m' = Ok (tt, m').
Proof.
  intros Hinst Hbd Hfit Hpart Ht Hpre Hnew Hsum Hroom Hts Hentries.
  assert (Hcap : 0 < _cap c) by (destruct Hpart as (? & ? & ?); lia).
  destruct (bound_in_pointers c m Hbd Hcap) as (a & s & Ha & Hs & Hfa & Hfs).
  unfold scratch_fits in Hfit. rewrite Hs in Hfit.
  destruct (_buffer c) as [b |] eqn:Hb; [| contradiction].
  destruct Hfit as [HsB Hlen].
  assert (Hseg := installed_tile_segment c b t Hinst Hb Ht).
  assert (Hnn := local_new_nnzs_at c b Hinst Hb).
  assert (Hps := pref_sum_at c b Hinst Hb).
  assert (Hentry : forall m' k,
            local_entry c m' t k = words m' !! (segment_of c b t + 1 + k)).
  { intros m' k. unfold local_entry, word_at. rewrite Hseg.
    unfold segment_of. f_equal. lia. }
  unfold local_count, word_at in Hpre. rewrite Hseg, Nat.add_0_r in Hpre.
  unfold new_count, word_at in Hnew. rewrite Hnn in Hnew.
  unfold prefix_at, word_at in Hsum. rewrite Hps in Hsum.
  destruct (joinSubset_commits cfg c a s b Hinst Ha Hs Hb Hpart HsB m t pre new
              pos Ht Hlen Hpre Hnew Hsum Hroom Hts)
    as (m' & Hrun & Hf & Hl & Hwritten & Hzero & Hrest).
  { intros j Hj. destruct (Hentries j Hj) as (x & Hx & Hxu & Hxf).
    exists x. rewrite Hentry in Hx.
    replace (segment_of c b t + 1 + (pre + j))
      with (segment_of c b t + 1 + pre + j) in Hx by lia.
    split; [exact Hx |]. split; assumption. }
  destruct (seg_in_scratch c b t 0 Ht ltac:(lia)) as [Hseg1 Hseg2].
  assert (HT2 := sums_after_counters c b).
  exists m'. split; [exact Hrun |]. split; [| split; [| split; [| split]]].
  - intros j x Hj Hx. unfold stack_at, word_at. rewrite Hs.
    rewrite Hentry in Hx.
    replace (segment_of c b t + 1 + (pre + j))
      with (segment_of c b t + 1 + pre + j) in Hx by lia.
    replace (s + (pos + j)) with (s + pos + j) by lia.
    apply Hwritten; assumption.
  - intros k Hk. unfold stack_at, word_at. rewrite Hs. apply Hrest; lia.
  - unfold new_count, word_at. rewrite Hnn. exact Hzero.
  - exact Hf.
  - apply (joinSubset_inactive cfg c s b Hinst Hb Hpart HsB m' t pre (pos + new)).
    + exact Ht.
    + rewrite Hl. exact Hlen.
    + rewrite Hrest by lia. exact Hpre.
    + exact Hzero.
    + rewrite Hrest by lia. exact Hsum.
Qed.

End JoinClaims.

(** ** The order of insertion *)

Section InsertionOrder.

Variable cfg : Config.

Lemma assign_records c m i :
  set_equivalence c m -> i < _cap c ->
  exists n' m',
    assign cfg c i m = Ok ((memb i (stack_prefix c m), with_n c n'), m') /\
    set_equivalence (with_n c n') m' /\
    stack_prefix (with_n c n') m'
    = if memb i (stack_prefix c m) then stack_prefix c m
      else stack_prefix c m ++ [i].
Proof.
  intros Hinv Hi.
  assert (Hinv' := Hinv). destruct Hinv' as (Hbd & Hn & Hnd & Hel).
  destruct (bound_in_pointers c m Hbd ltac:(lia))
    as (a & s & Ha & Hs & Hfa & Hfs).
  destruct (assign_step cfg c m a s i Ha Hs Hinv Hi)
    as (r & n1 & m1 & Hrun & Hinv1 & _).
  destruct (memb i (stack_prefix c m)) eqn:Hmem.
  - assert (Hin : i ∈ stack_prefix c m) by (apply memb_elem_of; exact Hmem).
    apply Hel in Hin as [_ Hf].
    assert (Hpresent := assign_present cfg c m i Hbd Hi (or_intror Hf)).
    exists (_n c), m. rewrite with_n_same.
    split; [exact Hpresent |]. split; [exact Hinv | reflexivity].
  - assert (Hf : flag_at c m i = false).
    { apply not_true_is_false. intros Hf.
      assert (Hin : i ∈ stack_prefix c m) by (apply Hel; split; assumption).
      apply memb_elem_of in Hin. congruence. }
    assert (Hsparse : _n c <> _cap c).
    { intros Hd. assert (Hin := dense_full c m i Hinv Hd Hi).
      apply memb_elem_of in Hin. congruence. }
    destruct (assign_absent cfg c m i Hbd Hn Hi Hsparse Hf)
      as (a' & s' & Ha' & Hs' & Habsent).
    rewrite Habsent in Hrun. injection Hrun as _ Hc Hm.
    eexists _, _. split; [exact Habsent |].
    split; [rewrite Hc, Hm; exact Hinv1 |].
    assert (s' = s) as -> by congruence.
    unfold stack_prefix. cbn [with_n _stack _n words]. rewrite Hs.
    apply take_drop_insert_end. lia.
Qed.

(** X14: [assign] tells whether the index was already present, and the stack
    keeps the indices in the order of their first insertion: what was on the
    stack stays in place and every index that was not yet present is appended,
    so that insertion order is what [index] later runs through. *)
Theorem stack_keeps_insertion_order (c : Coordinates) (m : Memory)
    (order : list nat) :
  set_equivalence c m ->
  (forall i, i ∈ order -> i < _cap c) ->
  (forall i, i < _cap c ->
     exists c' m',
       assign cfg c i m = Ok ((memb i (stack_prefix c m), c'), m')) /\
  exists n' m',
    assign_each cfg order c m = Ok (with_n c n', m') /\
    stack_prefix (with_n c n') m' = insertion_order (stack_prefix c m) order /\
    set_equivalence (with_n c n') m'.
Proof.
  intros Hinv Hins. split.
  { intros i Hi. destruct (assign_records c m i Hinv Hi) as (n' & m' & Hrun & _).
    eauto. }
  revert c m Hinv Hins.
  induction order as [| i rest IH]; intros c m Hinv Hins.
  - exists (_n c), m. rewrite with_n_same.
    split; [reflexivity |]. split; [reflexivity | exact Hinv].
  - assert (Hi : i < _cap c) by (apply Hins; apply elem_of_cons; left; reflexivity).
    destruct (assign_records c m i Hinv Hi) as (n1 & m1 & Hrun & Hinv1 & Hst).
    destruct (IH (with_n c n1) m1 Hinv1) as (n2 & m2 & Hrun2 & Hst2 & Hinv2).
    { intros j Hj. apply Hins. apply elem_of_cons. right. exact Hj. }
    change (with_n (with_n c n1) n2) with (with_n c n2) in *.
    exists n2, m2. split; [| split; [| exact Hinv2]].
    + simpl. erewrite bind_ok by exact Hrun. exact Hrun2.
    + rewrite Hst2, Hst. reflexivity.
Qed.

End InsertionOrder.

(** ** The layout of the scratch buffer *)

Section Layout2.

Variable cfg : Config.

(** X15: [localCoordinatesInit] changes no memory and none of the bound
    fields; a debug build first insists on at least one tile, on no more than
    [maxBufferTiles( _cap )] tiles and on [_buf >= 4 * num_tiles], and stops
    at the assertion otherwise.  The layout it installs gives every tile its
    own [tile_size + 1] words, followed by one counter and one prefix-sum slot
    per tile: no two of these words coincide, and together they are the
    [num_tiles * ( tile_size + 3 )] words from [_buffer] on. *)
Theorem localCoordinatesInit_layout (c0 : Coordinates) (am : AnalyticModel)
    (m : Memory) (b : nat) :
  _buffer c0 = Some b ->
  (NDEBUG cfg = true \/
   (0 < getNumTiles am /\ getNumTiles am <= maxBufferTiles cfg (_cap c0) /\
    4 * getNumTiles am <= _buf c0) ->
   exists c,
     localCoordinatesInit cfg c0 am m = Ok (c, m) /\
     analytic_model c = am /\
     _assigned c = _assigned c0 /\ _stack c = _stack c0 /\
     _n c = _n c0 /\ _cap c = _cap c0 /\
     length (local_buffer c) = getNumTiles am /\
     (forall t, t < getNumTiles am ->
        tile_segment c t = Some (segment_of c b t)) /\
     local_new_nnzs c = Some (counters_of c b) /\
     pref_sum c = Some (sums_of c b) /\
     (forall t1 t2 k1 k2,
        k1 <= getTileSize am -> k2 <= getTileSize am ->
        segment_of c b t1 + k1 = segment_of c b t2 + k2 ->
        t1 = t2 /\ k1 = k2) /\
     (forall t k, t < getNumTiles am -> k <= getTileSize am ->
        b <= segment_of c b t + k < counters_of c b) /\
     counters_of c b + getNumTiles am = sums_of c b /\
     sums_of c b + getNumTiles am
     = b + getNumTiles am * (getTileSize am + 3)) /\
  (NDEBUG cfg = false ->
   ~ (0 < getNumTiles am /\ getNumTiles am <= maxBufferTiles cfg (_cap c0) /\
      4 * getNumTiles am <= _buf c0) ->
   localCoordinatesInit cfg c0 am m = Fault AssertionFailure).
Proof.
  intros Hb. split.
  - intros Hok.
    assert (Hrun : exists c, localCoordinatesInit cfg c0 am m = Ok (c, m)).
    { unfold localCoordinatesInit, assert_, bind.
      destruct Hok as [-> | (H1 & H2 & H3)]; [simpl; eauto |].
      apply Nat.ltb_lt in H1. apply Nat.leb_le in H2. apply Nat.leb_le in H3.
      rewrite H1, H2, H3, !orb_true_r. simpl. eauto. }
    destruct Hrun as [c Hrun]. exists c. split; [exact Hrun |].
    destruct (localCoordinatesInit_installs cfg c0 am m c m Hrun)
      as (_ & Hinst & Ham & Hca & Hcs & Hcb & Hcn & Hcc).
    rewrite Hb in Hcb.
    split; [exact Ham |]. split; [exact Hca |]. split; [exact Hcs |].
    split; [exact Hcn |]. split; [exact Hcc |].
    rewrite <- Ham.
    split; [| split; [| split; [| split; [| split; [| split; [| split]]]]]].
    + destruct Hinst as (Hlb & _). rewrite Hlb, length_map, length_seq.
      reflexivity.
    + intros t Ht. apply (installed_tile_segment c b t Hinst Hcb Ht).
    + apply (local_new_nnzs_at c b Hinst Hcb).
    + apply (pref_sum_at c b Hinst Hcb).
    + intros t1 t2 k1 k2 Hk1 Hk2 Heq.
      destruct (Nat.eq_dec t1 t2) as [-> | Hne].
      * split; [reflexivity |]. unfold segment_of in Heq. lia.
      * exfalso. apply (seg_apart c b t1 t2 k1 k2 Hne Hk1 Hk2). exact Heq.
    + intros t k Ht Hk. apply (seg_in_scratch c b t k Ht Hk).
    + symmetry. apply sums_after_counters.
    + unfold sums_of. lia.
  - intros Hdebug Hnot.
    unfold localCoordinatesInit, assert_, bind. rewrite Hdebug. cbn [orb].
    destruct (0 <? getNumTiles am) eqn:H1; [| reflexivity].
    destruct (getNumTiles am <=? maxBufferTiles cfg (_cap c0)) eqn:H2;
      [| reflexivity].
    destruct (4 * getNumTiles am <=? _buf c0) eqn:H3; [| reflexivity].
    exfalso. apply Hnot.
    apply Nat.ltb_lt in H1. apply Nat.leb_le in H2. apply Nat.leb_le in H3.
    repeat split; assumption.
Qed.

End Layout2.

(** ** The further properties on concrete structures *)

Lemma assigned_reflects_membership_witness :
  assigned debug_config sparse_three 1 sparse_three_memory
  = Ok (true, sparse_three_memory) /\
  assigned debug_config sparse_three 2 sparse_three_memory
  = Ok (false, sparse_three_memory) /\
  assigned debug_config reversed_dense 1 reversed_dense_memory
  = Ok (true, reversed_dense_memory).
Proof.
  split; [| split].
  - apply (assigned_reflects_membership debug_config sparse_three
             sparse_three_memory 1).
    + apply set_equivalence_check. reflexivity.
    + simpl. lia.
  - apply (assigned_reflects_membership debug_config sparse_three
             sparse_three_memory 2).
    + apply set_equivalence_check. reflexivity.
    + simpl. lia.
  - apply (assigned_reflects_membership debug_config reversed_dense
             reversed_dense_memory 1).
    + apply set_equivalence_check. reflexivity.
    + simpl. lia.
Defined.

Lemma index_enumerates_witness :
  enumeration reversed_dense reversed_dense_memory
  ≡ₚ stack_prefix reversed_dense reversed_dense_memory /\
  (forall k, k < _n reversed_dense ->
     exists x,
       enumeration reversed_dense reversed_dense_memory !! k = Some x /\
       index debug_config reversed_dense k reversed_dense_memory
       = Ok (x, reversed_dense_memory)) /\
  (NDEBUG debug_config = false ->
   forall k, _n reversed_dense <= k ->
     index debug_config reversed_dense k reversed_dense_memory
     = Fault AssertionFailure).
Proof.
  apply (index_enumerates debug_config reversed_dense reversed_dense_memory).
  apply set_equivalence_check. reflexivity.
Defined.

Lemma count_matches_flags_witness :
  nonzeroes debug_config sparse_three sparse_three_memory
  = Ok (1, sparse_three_memory) /\
  (isDense sparse_three = true <->
   forall i, i < _cap sparse_three ->
     flag_at sparse_three sparse_three_memory i = true) /\
  (isEmpty sparse_three = true <->
   forall i, i < _cap sparse_three ->
     flag_at sparse_three sparse_three_memory i = false).
Proof.
  apply (count_matches_flags debug_config sparse_three sparse_three_memory).
  apply set_equivalence_check. reflexivity.
Defined.

Lemma assignAllNotAlreadyAssigned_appends_witness :
  exists m',
    local_assignAllNotAlreadyAssigned debug_config false sparse_three
      sparse_three_memory = Ok (with_n sparse_three 3, m') /\
    stack_prefix (with_n sparse_three 3) m' = [1; 0; 2] /\
    (forall i, i < 3 -> flag_at sparse_three m' i = true) /\
    set_equivalence (with_n sparse_three 3) m' /\
    (forall a j, _assigned sparse_three = Some a -> ~ a <= j < a + 3 ->
       flags m' !! j = flags sparse_three_memory !! j) /\
    (forall s k, _stack sparse_three = Some s -> ~ s + 1 <= k < s + 3 ->
       words m' !! k = words sparse_three_memory !! k).
Proof.
  apply (assignAllNotAlreadyAssigned_appends debug_config sparse_three
           sparse_three_memory false).
  apply set_equivalence_check. reflexivity.
Defined.

Lemma local_clear_resets_witness :
  exists mc,
    clear debug_config dense_hundred dense_hundred_memory
    = Ok (with_n dense_hundred 0, mc) /\
    local_clear debug_config dense_hundred dense_hundred_memory
    = Ok (with_n dense_hundred 0,
          mkMemory (flags mc) (<[1 - 1 := 0]> (words dense_hundred_memory))) /\
    (forall i, i < _cap dense_hundred -> flag_at dense_hundred mc i = false) /\
    (forall a j, _assigned dense_hundred = Some a ->
       ~ a <= j < a + _cap dense_hundred ->
       flags mc !! j = flags dense_hundred_memory !! j) /\
    set_equivalence (with_n dense_hundred 0)
      (mkMemory (flags mc) (<[1 - 1 := 0]> (words dense_hundred_memory))).
Proof.
  apply (local_clear_resets debug_config dense_hundred dense_hundred_memory 1).
  - apply set_equivalence_check. vm_compute. reflexivity.
  - reflexivity.
  - lia.
Defined.

Lemma counter_word_needed_witness :
  local_clear debug_config sparse_three sparse_three_memory
  = Fault MemoryFault /\
  local_assignAll debug_config false sparse_three sparse_three_memory
  = Fault MemoryFault /\
  exists mc,
    clear debug_config sparse_three sparse_three_memory
    = Ok (with_n sparse_three 0, mc).
Proof.
  apply (counter_word_needed debug_config sparse_three sparse_three_memory
           false).
  - apply set_equivalence_check. reflexivity.
  - right. reflexivity.
Defined.

Lemma set_layout_within_bufferSize_witness :
  exists c m' s,
    set debug_config Coordinates_default_debug (Some 0) false (Some 3) 2 false
      stale_memory = Ok (c, m') /\
    _stack c = Some s /\ _buffer c = Some (s + 2) /\
    _buf c = vectorBufferSize debug_config 2 /\
    3 <= s * 4 /\ s * 4 < 3 + 4 /\
    (s + 2 + _buf c) * 4 <= 3 + bufferSize debug_config 2.
Proof.
  apply (set_layout_within_bufferSize debug_config Coordinates_default_debug
           stale_memory 0 3 2 false).
  - simpl. lia.
  - discriminate.
Defined.

Lemma set_null_arguments_witness :
  (NDEBUG debug_config = true \/ (@None nat = None /\ Some 0 = None /\ 3 = 0) ->
   set debug_config sparse_three None true (Some 0) 3 false sparse_three_memory
   = Ok (with_pointers sparse_three None None None 0 0 0,
         sparse_three_memory)) /\
  (NDEBUG debug_config = false ->
   ~ (@None nat = None /\ Some 0 = None /\ 3 = 0) ->
   set debug_config sparse_three None true (Some 0) 3 false sparse_three_memory
   = Fault AssertionFailure).
Proof.
  apply (set_null_arguments debug_config sparse_three sparse_three_memory
           None (Some 0) true false 3).
  left. reflexivity.
Defined.

Lemma view_after_init_witness :
  exists m1 n,
    asyncSubsetInit debug_config scenario_three
      (tile_lower scenario_three 1) (tile_upper scenario_three 1)
      scenario_three_memory = Ok (tt, m1) /\
    asyncSubset debug_config scenario_three
      (tile_lower scenario_three 1) (tile_upper scenario_three 1) m1
    = Ok (tile_view debug_config scenario_three 1 n, m1) /\
    set_equivalence (tile_view debug_config scenario_three 1 n) m1 /\
    (forall j, flag_at (tile_view debug_config scenario_three 1 n) m1 j
               = flag_at scenario_three scenario_three_memory
                   (tile_lower scenario_three 1 + j)) /\
    (forall j, j ∈ stack_prefix (tile_view debug_config scenario_three 1 n) m1
       <-> j < tile_width scenario_three 1 /\
           flag_at scenario_three scenario_three_memory
             (tile_lower scenario_three 1 + j) = true).
Proof.
  apply (view_after_init debug_config scenario_three scenario_three_memory 1).
  - repeat split; reflexivity.
  - apply set_equivalence_check. reflexivity.
  - unfold scratch_fits. simpl. lia.
  - unfold tiles_partition. simpl. lia.
  - simpl. lia.
Defined.

Lemma view_saved_and_restored_witness :
  exists m',
    asyncJoinSubset debug_config scenario (tile_view debug_config scenario 1 1)
      (tile_lower scenario 1) (tile_upper scenario 1) commit_memory
    = Ok (tt, m') /\
    asyncSubset debug_config scenario (tile_lower scenario 1)
      (tile_upper scenario 1) m'
    = Ok (tile_view debug_config scenario 1 1, m') /\
    new_count scenario m' 1 = Some (1 - 0) /\
    local_count scenario m' 1 = Some 0 /\
    flags m' = flags commit_memory.
Proof.
  apply (view_saved_and_restored debug_config scenario commit_memory 1 0 1).
  - repeat split; reflexivity.
  - unfold bound_in. simpl. lia.
  - unfold scratch_fits. simpl. lia.
  - unfold tiles_partition. simpl. lia.
  - simpl. lia.
  - reflexivity.
  - lia.
  - unfold tile_width, tile_upper, tile_lower. simpl. lia.
Defined.

Lemma tile_phases_need_layout_witness :
  asyncSubsetInit debug_config scenario_bound 2 4 scenario_memory
  = Fault DivisionByZero /\
  asyncSubset debug_config scenario_bound 2 4 scenario_memory
  = Fault DivisionByZero /\
  asyncJoinSubset debug_config scenario_bound commit_view 2 4 scenario_memory
  = Fault DivisionByZero /\
  joinSubset debug_config scenario_bound 2 4 scenario_memory
  = Fault DivisionByZero.
Proof.
  apply (tile_phases_need_layout debug_config scenario_bound commit_view
           scenario_memory 2 4).
  - simpl. lia.
  - reflexivity.
Defined.

Lemma newNonZeroes_reads_counters_witness :
  newNonZeroes scenario scenario_counted_memory
  = Ok (true, scenario_counted_memory) /\
  newNonZeroes scenario_three scenario_idle_memory
  = Ok (false, scenario_idle_memory) /\
  exists m',
    prefixSumComputation_words debug_config 64 [1; 0] [0; 1] scenario_three
      scenario_idle_memory = Ok (scenario_three, m').
Proof.
  split.
  - apply (newNonZeroes_reads_counters debug_config 64 scenario
             scenario_counted_memory 20 24 scenario_counts [1; 0] [0; 1]).
    + simpl. lia.
    + reflexivity.
    + reflexivity.
    + reflexivity.
    + simpl. lia.
    + reflexivity.
    + simpl. lia.
    + simpl. lia.
    + vm_compute. reflexivity.
    + vm_compute. reflexivity.
    + intros _. split; [vm_compute; reflexivity |].
      split; [apply perm_swap | reflexivity].
  - destruct (newNonZeroes_reads_counters debug_config 64 scenario_three
                scenario_idle_memory 20 24 [0; 0; 0; 0] [1; 0] [0; 1])
      as [Hrun Hnone].
    + simpl. lia.
    + reflexivity.
    + reflexivity.
    + reflexivity.
    + simpl. lia.
    + reflexivity.
    + simpl. lia.
    + simpl. lia.
    + vm_compute. reflexivity.
    + vm_compute. reflexivity.
    + intros _. split; [vm_compute; reflexivity |].
      split; [apply perm_swap | reflexivity].
    + split; [exact Hrun |]. apply Hnone. exact Hrun.
Defined.

Lemma joinSubset_commits_once_witness :
  exists m',
    joinSubset debug_config scenario (tile_lower scenario 1)
      (tile_upper scenario 1) join_memory = Ok (tt, m') /\
    (forall j x, j < 1 -> local_entry scenario join_memory 1 (0 + j) = Some x ->
       stack_at scenario m' (0 + j) = Some (x + tile_lower scenario 1)) /\
    (forall k, k < 0 -> stack_at scenario m' k = stack_at scenario join_memory k) /\
    new_count scenario m' 1 = Some 0 /\
    flags m' = flags join_memory /\
    joinSubset debug_config scenario (tile_lower scenario 1)
      (tile_upper scenario 1) m' = Ok (tt, m').
Proof.
  apply (joinSubset_commits_once debug_config scenario join_memory 1 0 1 0).
  - repeat split; reflexivity.
  - unfold bound_in. simpl. lia.
  - unfold scratch_fits. simpl. lia.
  - unfold tiles_partition. simpl. lia.
  - simpl. lia.
  - reflexivity.
  - reflexivity.
  - reflexivity.
  - simpl. lia.
  - simpl. lia.
  - intros j Hj. assert (j = 0) as -> by lia. exists 1.
    split; [reflexivity |]. split; [| reflexivity].
    unfold tile_upper, tile_lower. simpl. lia.
Defined.

Lemma stack_keeps_insertion_order_witness :
  (forall i, i < _cap sparse_three ->
     exists c' m',
       assign debug_config sparse_three i sparse_three_memory
       = Ok ((memb i (stack_prefix sparse_three sparse_three_memory), c'), m')) /\
  exists n' m',
    assign_each debug_config [2; 1; 0; 2] sparse_three sparse_three_memory
    = Ok (with_n sparse_three n', m') /\
    stack_prefix (with_n sparse_three n') m' = [1; 2; 0] /\
    set_equivalence (with_n sparse_three n') m'.
Proof.
  apply (stack_keeps_insertion_order debug_config sparse_three
           sparse_three_memory [2; 1; 0; 2]).
  - apply set_equivalence_check. reflexivity.
  - intros i Hi. simpl.
    repeat (apply elem_of_cons in Hi as [-> | Hi]; [lia |]).
    apply elem_of_nil in Hi. contradiction.
Defined.

Lemma localCoordinatesInit_layout_witness :
  exists c,
    localCoordinatesInit debug_config scenario_bound four_tiles scenario_memory
    = Ok (c, scenario_memory) /\
    analytic_model c = four_tiles /\
    length (local_buffer c) = 4 /\
    local_new_nnzs c = Some 20 /\ pref_sum c = Some 24 /\
    sums_of c 8 + 4 = 28.
Proof.
  destruct (localCoordinatesInit_layout debug_config scenario_bound four_tiles
              scenario_memory 8 eq_refl) as [Hok _].
  destruct Hok as (c & Hrun & Ham & _ & _ & _ & _ & Hlen & _ & Hnn & Hps & _
                   & _ & _ & Hend).
  { right. simpl. lia. }
  exists c. rewrite Hnn, Hps. unfold counters_of, sums_of. rewrite Ham.
  repeat split; try assumption; reflexivity.
Defined.

(** ** Making a view dense *)

Section AssignAllClaims.

Variable cfg : Config.

(** X27: [local_assignAll] makes the view dense and zeroes its counter.  On
    a structure satisfying the invariant whose stack has a word in front of
    it, it returns with the count at the capacity, every flag of the range
    set and the word [_stack[-1]] zero.  Unless the structure was dense and
    [maybe_invalid] is false, the stack is rewritten to 0, 1, ... in order,
    whatever order it held; otherwise the stack is left as it is.  No flag
    outside the range and no word outside the stack and its counter is
    written, and the invariant holds afterwards. *)
Theorem local_assignAll_rewrites (c : Coordinates) (m : Memory)
    (maybe_invalid : bool) (a s : nat) :
  set_equivalence c m ->
  _assigned c = Some a -> _stack c = Some s -> 1 <= s ->
  exists m',
    local_assignAll cfg maybe_invalid c m = Ok (with_n c (_cap c), m') /\
    (forall i, i < _cap c -> flag_at (with_n c (_cap c)) m' i = true) /\
    stack_prefix (with_n c (_cap c)) m'
    = (if maybe_invalid || negb (_n c =? _cap c) then seq 0 (_cap c)
       else stack_prefix c m) /\
    words m' !! (s - 1) = Some 0 /\
    (forall j, ~ a <= j < a + _cap c -> flags m' !! j = flags m !! j) /\
    (forall j, j <> s - 1 -> ~ s <= j < s + _cap c ->
       words m' !! j = words m !! j) /\
    set_equivalence (with_n c (_cap c)) m'.
Proof.
  intros Hinv Ha Hs Hs1.
  assert (Hinv0 := Hinv). destruct Hinv as (Hbd & Hn & Hnd & Hiff).
  assert (Hbd0 := Hbd). unfold bound_in in Hbd. rewrite Ha, Hs in Hbd.
  destruct Hbd as [Hfa Hfs].
  unfold local_assignAll.
  destruct (maybe_invalid || negb (_n c =? _cap c)) eqn:Hgo.
  - destruct (fill_identity a s (_cap c) m Hfa Hfs)
      as (fl & w & Hfill & Hlf & Hlw & Hfl & Hw).
    exists (mkMemory fl (<[s - 1 := 0]> w)).
    split; [| split; [| split; [| split; [| split; [| split]]]]].
    + cbn [is_null negb with_n _n _assigned _stack]. rewrite ?Ha, ?Hs.
      cbn [is_null negb].
      mstep ltac:(apply assert_ok; reflexivity).
      mstep ltac:(apply assert_ok; destruct maybe_invalid; [reflexivity |];
                  simpl in Hgo; apply negb_true_iff, Nat.eqb_neq in Hgo;
                  apply Nat.ltb_lt; lia).
      mstep ltac:(apply assert_ok; destruct maybe_invalid; [| reflexivity];
                  apply Nat.leb_le; exact Hn).
      mstep ltac:(exact Hfill).
      rewrite (bind_ok _ _ _ _ _ (ret_ok _ _)).
      cbn [with_n _stack]. rewrite ?Hs, ptr_sub_ok by exact Hs1.
      mstep ltac:(apply store_word_ok; simpl; lia).
      cbn [flags words]. rewrite Nat.add_0_r. reflexivity.
    + intros i Hi. unfold flag_at. cbn [with_n _assigned flags].
      rewrite Ha, Hfl. case_decide; [reflexivity | lia].
    + unfold stack_prefix. cbn [with_n _stack _n words]. rewrite Hs.
      apply list_eq. intros k.
      destruct (Nat.lt_ge_cases k (_cap c)) as [Hk | Hk].
      * rewrite lookup_take_lt by exact Hk. rewrite lookup_drop.
        rewrite list_lookup_insert_ne by lia. rewrite Hw.
        case_decide; [| lia]. rewrite lookup_seq_lt by exact Hk.
        f_equal. lia.
      * rewrite lookup_take_ge by exact Hk.
        rewrite lookup_seq_ge by exact Hk. reflexivity.
    + cbn [words]. apply list_lookup_insert_eq. lia.
    + intros j Hj. cbn [flags]. rewrite Hfl. case_decide; [lia | reflexivity].
    + intros j Hj1 Hj2. cbn [words].
      rewrite list_lookup_insert_ne by lia. rewrite Hw.
      case_decide; [lia | reflexivity].
    + assert (Hstack : stack_prefix (with_n c (_cap c))
                         (mkMemory fl (<[s - 1 := 0]> w)) = seq 0 (_cap c)).
      { unfold stack_prefix. cbn [with_n _stack _n words]. rewrite Hs.
        apply list_eq. intros k.
        destruct (Nat.lt_ge_cases k (_cap c)) as [Hk | Hk].
        - rewrite lookup_take_lt by exact Hk. rewrite lookup_drop.
          rewrite list_lookup_insert_ne by lia. rewrite Hw.
          case_decide; [| lia]. rewrite lookup_seq_lt by exact Hk.
          f_equal. lia.
        - rewrite lookup_take_ge by exact Hk.
          rewrite lookup_seq_ge by exact Hk. reflexivity. }
      split; [| split; [| split]].
      * unfold bound_in. cbn [with_n _assigned _stack _cap flags words].
        rewrite Ha, Hs, length_insert. lia.
      * cbn [with_n _n _cap]. lia.
      * rewrite Hstack. apply NoDup_seq.
      * intros i. rewrite Hstack, elem_of_seq. cbn [with_n _cap].
        unfold flag_at. cbn [with_n _assigned flags]. rewrite Ha, Hfl.
        split.
        -- intros Hi. split; [lia |]. case_decide; [reflexivity | lia].
        -- intros [Hi _]. lia.
  - apply orb_false_iff in Hgo as [-> Hgo].
    apply negb_false_iff, Nat.eqb_eq in Hgo.
    exists (mkMemory (flags m) (<[s - 1 := 0]> (words m))).
    rewrite <- Hgo, with_n_same.
    destruct (set_equivalence_frame c m
                (mkMemory (flags m) (<[s - 1 := 0]> (words m))) s Hs Hinv0)
      as (Hinv' & Hstack & Hflag).
    { reflexivity. }
    { cbn [words]. apply length_insert. }
    { intros k Hk. cbn [words]. apply list_lookup_insert_ne. lia. }
    split; [| split; [| split; [| split; [| split; [| split]]]]].
    + rewrite (bind_ok _ _ _ _ _ (ret_ok _ _)).
      rewrite Hs, ptr_sub_ok by exact Hs1.
      mstep ltac:(apply store_word_ok; simpl; lia).
      rewrite Nat.add_0_r. reflexivity.
    + intros i Hi. rewrite Hflag. apply Hiff.
      apply (dense_full c m i Hinv0 Hgo). lia.
    + exact Hstack.
    + cbn [words]. apply list_lookup_insert_eq. lia.
    + intros j _. reflexivity.
    + intros j Hj _. cbn [words]. apply list_lookup_insert_ne. lia.
    + exact Hinv'.
Qed.

End AssignAllClaims.

(** * The row generators *)

(** ** Arithmetic on [std::size_t] *)

Lemma gbind_ok {A B : Type} (c : G A) (k : A -> G B) a :
  c = inr a -> gbind c k = k a.
Proof. intros ->. reflexivity. Qed.

Lemma array_at_ok (l : list N) i x : l !! i = Some x -> array_at l i = inr x.
Proof. intros H. unfold array_at. rewrite H. reflexivity. Qed.

Lemma array_set_ok (l : list N) i v :
  i < length l -> array_set l i v = inr (<[i := v]> l).
Proof.
  intros H. unfold array_set.
  destruct (Nat.ltb_spec i (length l)); [reflexivity | lia].
Qed.

Lemma size_div_ok a b : (0 < b)%N -> size_div a b = inr (a / b)%N.
Proof.
  intros H. unfold size_div.
  destruct (N.eqb_spec b 0); [lia | reflexivity].
Qed.

Lemma size_mod_ok a b : (0 < b)%N -> size_mod a b = inr (a mod b)%N.
Proof.
  intros H. unfold size_mod.
  destruct (N.eqb_spec b 0); [lia | reflexivity].
Qed.

Section SizeArith.

Variable size_bits : N.

Lemma size_wrap_small x : (x < 2 ^ size_bits)%N -> size_wrap size_bits x = x.
Proof. intros H. apply N.mod_small. exact H. Qed.

Lemma size_add_exact a b :
  (a + b < 2 ^ size_bits)%N -> size_add size_bits a b = (a + b)%N.
Proof. apply size_wrap_small. Qed.

Lemma size_mul_exact a b :
  (a * b < 2 ^ size_bits)%N -> size_mul size_bits a b = (a * b)%N.
Proof. apply size_wrap_small. Qed.

Lemma size_sub_exact a b :
  (b <= a)%N -> (a < 2 ^ size_bits)%N -> size_sub size_bits a b = (a - b)%N.
Proof.
  intros Hle Hlt. unfold size_sub.
  rewrite (size_wrap_small b) by lia. unfold size_wrap.
  replace (a + 2 ^ size_bits - b)%N with (a - b + 1 * 2 ^ size_bits)%N by lia.
  rewrite N.Div0.mod_add. apply N.mod_small. lia.
Qed.

End SizeArith.

(** ** Strides *)

Lemma size_prod_app l1 l2 :
  size_prod (l1 ++ l2) = (size_prod l1 * size_prod l2)%N.
Proof.
  unfold size_prod. induction l1 as [| x l1 IH]; simpl; [lia |].
  rewrite IH. lia.
Qed.

Lemma stride_S sizes i d :
  sizes !! i = Some d -> stride sizes (S i) = (stride sizes i * d)%N.
Proof.
  intros H. unfold stride. rewrite (take_S_r _ _ _ H), size_prod_app.
  unfold size_prod at 2. simpl. lia.
Qed.

Lemma stride_0 sizes : stride sizes 0 = 1%N.
Proof. reflexivity. Qed.

Lemma stride_positive sizes i :
  Forall (fun d => (0 < d)%N) sizes -> (0 < stride sizes i)%N.
Proof.
  intros Hpos. unfold stride.
  assert (H : Forall (fun d => (0 < d)%N) (take i sizes))
    by (apply Forall_take; exact Hpos).
  induction H as [| x l Hx _ IH]; [reflexivity |].
  unfold size_prod in *. simpl. nia.
Qed.

Lemma stride_mono sizes i j :
  Forall (fun d => (0 < d)%N) sizes -> i <= j ->
  (stride sizes i <= stride sizes j)%N.
Proof.
  intros Hpos Hle. induction Hle as [| j Hle IH]; [lia |].
  destruct (sizes !! j) as [d |] eqn:Hd.
  - rewrite (stride_S sizes j d Hd).
    assert (0 < d)%N by (apply (Forall_lookup_1 _ _ _ _ Hpos Hd)).
    assert (H0 := stride_positive sizes i Hpos). nia.
  - apply lookup_ge_None in Hd. unfold stride in *.
    rewrite (take_ge sizes (S j)) by lia.
    rewrite (take_ge sizes j) in IH by lia. exact IH.
Qed.

(** ** The value of a list of coordinates *)

Lemma row_value_mono sizes a i j :
  i <= j -> (row_value sizes a i <= row_value sizes a j)%N.
Proof.
  intros Hle. induction Hle as [| j Hle IH]; [lia |]. simpl. lia.
Qed.

Lemma nth_insert_eq (a : list N) i x :
  i < length a -> nth i (<[i := x]> a) 0%N = x.
Proof.
  intros H. apply nth_lookup_Some. apply list_lookup_insert_eq. exact H.
Qed.

Lemma nth_insert_ne (a : list N) i j x :
  i <> j -> nth j (<[i := x]> a) 0%N = nth j a 0%N.
Proof.
  intros H. rewrite !nth_lookup. rewrite list_lookup_insert_ne by exact H.
  reflexivity.
Qed.

Lemma row_value_insert_above sizes a i x k :
  k <= i -> row_value sizes (<[i := x]> a) k = row_value sizes a k.
Proof.
  induction k as [| k IH]; intros Hk; [reflexivity |].
  simpl. rewrite IH by lia. rewrite nth_insert_ne by lia. reflexivity.
Qed.

Lemma row_value_insert sizes a i x k :
  i < k -> i < length a ->
  (row_value sizes (<[i := x]> a) k + nth i a 0 * stride sizes i
   = row_value sizes a k + x * stride sizes i)%N.
Proof.
  induction k as [| k IH]; intros Hk Hi; [lia |].
  simpl. destruct (Nat.eq_dec i k) as [-> | Hne].
  - rewrite row_value_insert_above by lia. rewrite nth_insert_eq by exact Hi.
    lia.
  - rewrite nth_insert_ne by exact Hne.
    assert (H := IH ltac:(lia) Hi). lia.
Qed.

Lemma strides_recoverable_at sizes k :
  strides_recoverable sizes = true -> 2 <= k -> k < length sizes ->
  (stride sizes k / nth k sizes 1 = stride sizes (k - 1))%N.
Proof.
  intros H H2 Hk. unfold strides_recoverable in H.
  rewrite forallb_forall in H. apply N.eqb_eq. apply H.
  apply in_seq. lia.
Qed.

Section GeneratorLoops.

Variable size_bits : N.
Variable sizes : list N.

Hypothesis Hpos : Forall (fun d => (0 < d)%N) sizes.

Lemma row_to_coords_scale_spec : forall count i,
  i + count <= length sizes ->
  (stride sizes (i + count) < 2 ^ size_bits)%N ->
  row_to_coords_scale size_bits sizes i count (stride sizes i)
  = inr (stride sizes (i + count)).
Proof.
  induction count as [| k IH]; intros i Hlen Hfit.
  - rewrite Nat.add_0_r. reflexivity.
  - destruct (lookup_lt_is_Some_2 sizes i ltac:(lia)) as [d Hd].
    simpl. rewrite (gbind_ok _ _ d) by (apply array_at_ok; exact Hd).
    assert (Hm := stride_mono sizes (S i) (i + S k) Hpos ltac:(lia)).
    rewrite size_mul_exact by (rewrite <- (stride_S sizes i d Hd); lia).
    rewrite <- (stride_S sizes i d Hd).
    replace (i + S k) with (S i + k) in * by lia.
    apply IH; [lia | exact Hfit].
Qed.

Lemma row_to_coords_split_spec : forall i coords r s,
  strides_recoverable sizes = true ->
  length coords = length sizes -> i < length coords ->
  (1 <= i -> s = stride sizes i) ->
  (r < 2 ^ size_bits)%N ->
  exists coords' r',
    row_to_coords_split size_bits sizes i coords r s = inr (coords', r') /\
    length coords' = length coords /\
    (forall j, i < j -> coords' !! j = coords !! j) /\
    (1 <= i -> (r' < stride sizes 1)%N) /\
    (i = 0 -> r' = r) /\
    (r' + row_value sizes (<[0%nat := 0%N]> coords') (S i) = r)%N /\
    (forall j d x, 1 <= j -> j <= i ->
       (j = i -> (r < stride sizes (S i))%N) ->
       sizes !! j = Some d -> coords' !! j = Some x -> (x < d)%N).
Proof.
  induction i as [| i IH]; intros coords r s Hchain Hlen Hi Hs Hr.
  - exists coords, r. split; [reflexivity |]. split; [reflexivity |].
    split; [reflexivity |]. split; [lia |]. split; [reflexivity |].
    split; [| intros j d x Hj1 Hj2; lia].
    simpl. destruct coords as [| c0 rest]; simpl; lia.
  - rewrite (Hs ltac:(lia)).
    assert (Hsp := stride_positive sizes (S i) Hpos).
    destruct (lookup_lt_is_Some_2 sizes (S i) ltac:(lia)) as [d Hd].
    assert (Hdpos : (0 < d)%N) by (apply (Forall_lookup_1 _ _ _ _ Hpos Hd)).
    set (P := stride sizes (S i)) in *.
    set (q := (r / P)%N).
    assert (Hdm := N.Div0.div_mod r P).
    assert (Hmb := N.mod_upper_bound r P ltac:(lia)).
    assert (Hqs : (q * P <= r)%N).
    { unfold q. rewrite N.mul_comm. apply N.Div0.mul_div_le. }
    assert (Hqr : (q * P + r mod P = r)%N).
    { unfold q. rewrite (N.mul_comm (r / P)%N P). symmetry. exact Hdm. }
    assert (Hsub : size_sub size_bits r (size_mul size_bits q P) = (r mod P)%N).
    { rewrite size_mul_exact by lia. rewrite size_sub_exact by lia. lia. }
    destruct (IH (<[S i := q]> coords) (r mod P)%N (P / d)%N Hchain)
      as (coords' & r' & Hrun & Hlen' & Hframe & Hlow & Hzero & Hval & Hrange).
    { rewrite length_insert. exact Hlen. }
    { rewrite length_insert. lia. }
    { intros Hi1. unfold P.
      assert (Hc := strides_recoverable_at sizes (S i) Hchain ltac:(lia) ltac:(lia)).
      rewrite (nth_lookup_Some _ _ _ _ Hd) in Hc. rewrite Hc.
      f_equal. lia. }
    { lia. }
    rewrite length_insert in Hlen'.
    assert (Hq : coords' !! S i = Some q).
    { rewrite Hframe by lia. apply list_lookup_insert_eq. lia. }
    exists coords', r'. split.
    { simpl. fold P.
      rewrite (gbind_ok _ _ q) by (apply size_div_ok; lia).
      rewrite (gbind_ok _ _ (<[S i := q]> coords))
        by (apply array_set_ok; lia).
      rewrite Hsub.
      rewrite (gbind_ok _ _ d) by (apply array_at_ok; exact Hd).
      rewrite (gbind_ok _ _ (P / d)%N) by (apply size_div_ok; exact Hdpos).
      exact Hrun. }
    split; [exact Hlen' |]. split; [| split; [| split; [lia | split]]].
    + intros j Hj. rewrite Hframe by lia. apply list_lookup_insert_ne. lia.
    + intros _. destruct i as [| i'].
      * rewrite (Hzero eq_refl). exact Hmb.
      * apply Hlow. lia.
    + change (row_value sizes (<[0%nat := 0%N]> coords') (S (S i)))
        with (row_value sizes (<[0%nat := 0%N]> coords') (S i)
              + nth (S i) (<[0%nat := 0%N]> coords') 0 * stride sizes (S i))%N.
      rewrite nth_insert_ne by lia. rewrite (nth_lookup_Some _ _ _ _ Hq).
      fold P. nia.
    + intros j dj x Hj1 Hj2 Htop Hdj Hx.
      destruct (Nat.eq_dec j (S i)) as [-> | Hne].
      * rewrite Hq in Hx. inversion Hx; subst x.
        rewrite Hd in Hdj. inversion Hdj; subst dj.
        specialize (Htop eq_refl).
        rewrite (stride_S sizes (S i) d Hd) in Htop. fold P in Htop.
        unfold q. apply N.Div0.div_lt_upper_bound. lia.
      * apply (Hrange j dj x Hj1 ltac:(lia)); [| exact Hdj | exact Hx].
        intros ->. destruct (lookup_lt_is_Some_2 sizes i ltac:(lia)) as [di Hdi].
        exact Hmb.
Qed.

Lemma coords_to_rowcol_loop_spec a : forall count i row s,
  length a = length sizes ->
  i + count = length a ->
  row = row_value sizes a i ->
  (i < length a -> s = stride sizes i) ->
  (row_value sizes a (length a) < 2 ^ size_bits)%N ->
  (stride sizes (length a - 1) < 2 ^ size_bits)%N ->
  coords_to_rowcol_loop size_bits sizes a i count row s
  = inr (row_value sizes a (length a)).
Proof.
  induction count as [| k IH]; intros i row s Hlen Hic Hrow Hs Hfit Hstr.
  - simpl. rewrite Hrow. do 2 f_equal. lia.
  - destruct (lookup_lt_is_Some_2 a i ltac:(lia)) as [x Hx].
    destruct (lookup_lt_is_Some_2 sizes i ltac:(lia)) as [d Hd].
    simpl. rewrite (gbind_ok _ _ x) by (apply array_at_ok; exact Hx).
    rewrite (gbind_ok _ _ d) by (apply array_at_ok; exact Hd).
    rewrite (Hs ltac:(lia)).
    assert (Hnext : row_value sizes a (S i)
                    = (row + x * stride sizes i)%N).
    { simpl. rewrite (nth_lookup_Some _ _ _ _ Hx), Hrow. reflexivity. }
    assert (Hm := row_value_mono sizes a (S i) (length a) ltac:(lia)).
    apply IH; try assumption.
    + lia.
    + rewrite size_mul_exact by lia. rewrite size_add_exact by lia.
      rewrite Hnext. lia.
    + intros Hi.
      assert (Hsm := stride_mono sizes (S i) (length a - 1) Hpos ltac:(lia)).
      rewrite (stride_S sizes i d Hd) in *.
      rewrite size_mul_exact by lia. reflexivity.
Qed.

End GeneratorLoops.

Lemma check_sizes_zero sizes :
  Exists (fun d => d = 0%N) sizes ->
  check_sizes sizes = inl (invalid_argument sizes_must_be_positive).
Proof.
  induction sizes as [| d rest IH]; intros H; [inversion H |].
  simpl. destruct (N.eqb_spec d 0) as [| Hd]; [reflexivity |].
  apply IH. inversion H; [contradiction | assumption].
Qed.

Lemma check_sizes_ok sizes :
  Forall (fun d => (0 < d)%N) sizes -> check_sizes sizes = inr tt.
Proof.
  induction 1 as [| d rest Hd _ IH]; [reflexivity |].
  simpl. destruct (N.eqb_spec d 0); [lia | exact IH].
Qed.

Lemma stride_1 sizes d : sizes !! 0 = Some d -> stride sizes 1 = d.
Proof.
  intros H. rewrite (stride_S sizes 0 d H), stride_0. lia.
Qed.

Section GeneratorClaims.

Variable size_bits : N.

Lemma row_to_coords_round_trip (sizes coords : list N) (rowcol : N) :
  Forall (fun d => (0 < d)%N) sizes ->
  2 <= length sizes -> length coords = length sizes ->
  strides_recoverable sizes = true ->
  (stride sizes (length sizes - 1) < 2 ^ size_bits)%N ->
  (rowcol < 2 ^ size_bits)%N ->
  exists coords',
    row_to_coords size_bits (mkRowGenerator sizes coords) rowcol
    = inr (mkRowGenerator sizes coords') /\
    length coords' = length sizes /\
    coords_in_range sizes coords' /\
    row_value sizes coords' (length sizes) = rowcol.
Proof.
  intros Hpos Hn Hlen Hchain Hstr Hr.
  destruct (lookup_lt_is_Some_2 sizes 0 ltac:(lia)) as [d0 Hd0].
  assert (Hd0pos : (0 < d0)%N) by (apply (Forall_lookup_1 _ _ _ _ Hpos Hd0)).
  assert (Hscale := row_to_coords_scale_spec size_bits sizes Hpos
                      (length sizes - 1) 0 ltac:(lia) Hstr).
  destruct (row_to_coords_split_spec size_bits sizes Hpos (length sizes - 1)
              coords rowcol (stride sizes (length sizes - 1)) Hchain Hlen
              ltac:(lia) ltac:(reflexivity) Hr)
    as (coords' & r' & Hrun & Hlen' & _ & Hlow & _ & Hval & Hrange).
  specialize (Hlow ltac:(lia)). rewrite (stride_1 sizes d0 Hd0) in Hlow.
  replace (S (length sizes - 1)) with (length sizes) in Hval by lia.
  exists (<[0 := r']> coords').
  split; [| split; [| split]].
  - unfold row_to_coords. cbn [row_coords physical_sizes]. rewrite Hlen.
    rewrite (gbind_ok _ _ _ Hscale). rewrite (gbind_ok _ _ _ Hrun).
    rewrite (gbind_ok _ _ d0) by (apply array_at_ok; exact Hd0).
    cbn [fst snd].
    rewrite (gbind_ok _ _ (r' mod d0)%N) by (apply size_mod_ok; exact Hd0pos).
    rewrite (gbind_ok _ _ (<[0 := (r' mod d0)%N]> coords'))
      by (apply array_set_ok; lia).
    rewrite N.mod_small by exact Hlow. reflexivity.
  - rewrite length_insert. lia.
  - intros j d x Hj Hd Hx. rewrite length_insert in Hj.
    destruct j as [| j].
    + rewrite list_lookup_insert_eq in Hx by lia. inversion Hx; subst x.
      rewrite Hd0 in Hd. inversion Hd; subst d. exact Hlow.
    + rewrite list_lookup_insert_ne in Hx by lia.
      apply (Hrange (S j) d x ltac:(lia) ltac:(lia)); [lia | exact Hd | exact Hx].
  - assert (H := row_value_insert sizes (<[0 := 0%N]> coords') 0 r'
                   (length sizes) ltac:(lia)
                   ltac:(rewrite length_insert; lia)).
    rewrite list_insert_insert_eq in H.
    rewrite nth_insert_eq in H by lia. rewrite stride_0 in H. lia.
Qed.

Lemma coords_to_rowcol_spec (g : row_generator) (a : list N) :
  Forall (fun d => (0 < d)%N) (physical_sizes g) ->
  length a = length (physical_sizes g) ->
  (row_value (physical_sizes g) a (length a) < 2 ^ size_bits)%N ->
  (stride (physical_sizes g) (length a - 1) < 2 ^ size_bits)%N ->
  coords_to_rowcol size_bits g a
  = inr (row_value (physical_sizes g) a (length a)).
Proof.
  intros Hpos Hlen Hfit Hstr. unfold coords_to_rowcol.
  apply (coords_to_rowcol_loop_spec size_bits (physical_sizes g) Hpos a);
    try assumption; try reflexivity.
Qed.

(** X16: the constructor of [row_generator] throws [std::invalid_argument]
    when a size is zero.  Otherwise, for at least two dimensions, sizes whose
    strides [row_to_coords] can recover (as when all sizes but the first are
    equal, or with two dimensions)
    and rows and strides that fit [std::size_t], it ends with every
    coordinate but the last within its dimension and with coordinates that
    [coords_to_rowcol] turns back into the row it was given, whatever the
    coordinates held before. *)
Theorem row_generator_round_trip (sizes uninitialized : list N)
    (first_row : N) :
  (Exists (fun d => d = 0%N) sizes ->
   row_generator_new size_bits sizes first_row uninitialized
   = inl (invalid_argument sizes_must_be_positive)) /\
  (Forall (fun d => (0 < d)%N) sizes ->
   2 <= length sizes -> length uninitialized = length sizes ->
   strides_recoverable sizes = true ->
   (stride sizes (length sizes - 1) < 2 ^ size_bits)%N ->
   (first_row < 2 ^ size_bits)%N ->
   exists g,
     row_generator_new size_bits sizes first_row uninitialized = inr g /\
     physical_sizes g = sizes /\
     length (row_coords g) = length sizes /\
     coords_in_range sizes (row_coords g) /\
     coords_to_rowcol size_bits g (row_coords g) = inr first_row).
Proof.
  split.
  - intros Hzero. unfold row_generator_new.
    rewrite (check_sizes_zero sizes Hzero). reflexivity.
  - intros Hpos Hn Hlen Hchain Hstr Hr.
    destruct (row_to_coords_round_trip sizes uninitialized first_row
                Hpos Hn Hlen Hchain Hstr Hr)
      as (coords' & Hrun & Hlen' & Hrange & Hval).
    exists (mkRowGenerator sizes coords').
    split; [| split; [reflexivity | split; [exact Hlen' | split; [exact Hrange |]]]].
    + unfold row_generator_new. rewrite (check_sizes_ok sizes Hpos). exact Hrun.
    + cbn [row_coords].
      assert (H := coords_to_rowcol_spec (mkRowGenerator sizes coords') coords').
      cbn [physical_sizes] in H. rewrite Hlen', Hval in H.
      apply H; first [assumption | reflexivity].
Qed.

End GeneratorClaims.

(** ** The next row *)

Lemma row_value_last sizes a n :
  (nth n a 0 * stride sizes n <= row_value sizes a (S n))%N.
Proof. simpl. lia. Qed.

Section NextRow.

Variable size_bits : N.
Variable sizes : list N.

Hypothesis Hpos : Forall (fun d => (0 < d)%N) sizes.
Hypothesis Hwrap : dimensions_wrap sizes.
Hypothesis Hstr : (stride sizes (length sizes - 1) < 2 ^ size_bits)%N.

Lemma inner_size_fits j d :
  S j < length sizes -> sizes !! j = Some d -> (d < 2 ^ size_bits)%N.
Proof.
  intros Hj Hd.
  assert (Hm := stride_mono sizes (S j) (length sizes - 1) Hpos ltac:(lia)).
  rewrite (stride_S sizes j d Hd) in Hm.
  assert (H0 := stride_positive sizes j Hpos). nia.
Qed.

Lemma increment_row_loop_spec : forall remaining i coords,
  length coords = length sizes ->
  i + remaining + 2 = length sizes ->
  coords_in_range sizes coords ->
  exists coords' rewind,
    increment_row_loop size_bits sizes remaining i coords
    = inr (coords', rewind) /\
    length coords' = length coords /\
    coords' !! (length sizes - 1) = coords !! (length sizes - 1) /\
    coords_in_range sizes coords' /\
    (row_value sizes coords' (length sizes)
     + (if rewind then stride sizes (length sizes - 1) else 0)
     = row_value sizes coords (length sizes) + stride sizes i)%N.
Proof.
  induction remaining as [| rem IH]; intros i coords Hlen Hi Hrange.
  - destruct (lookup_lt_is_Some_2 coords i ltac:(lia)) as [x Hx].
    destruct (lookup_lt_is_Some_2 sizes i ltac:(lia)) as [d Hd].
    assert (Hxd : (x < d)%N) by (apply (Hrange i d x); [lia | exact Hd | exact Hx]).
    assert (Hd2 : (2 <= d)%N) by (apply (Hwrap i d); [lia | exact Hd]).
    assert (Hdf := inner_size_fits i d ltac:(lia) Hd).
    assert (Hins := fun v => row_value_insert sizes coords i v (length sizes)
                               ltac:(lia) ltac:(lia)).
    rewrite (nth_lookup_Some _ _ _ _ Hx) in Hins.
    assert (HS : stride sizes (length sizes - 1) = (stride sizes i * d)%N).
    { replace (length sizes - 1) with (S i) by lia. apply stride_S. exact Hd. }
    simpl. rewrite (gbind_ok _ _ x) by (apply array_at_ok; exact Hx).
    rewrite (gbind_ok _ _ d) by (apply array_at_ok; exact Hd).
    rewrite size_add_exact by lia.
    rewrite (gbind_ok _ _ ((x + 1) mod d)%N) by (apply size_mod_ok; lia).
    rewrite (gbind_ok _ _ (<[i := ((x + 1) mod d)%N]> coords))
      by (apply array_set_ok; lia).
    eexists _, _. split; [reflexivity |].
    split; [apply length_insert |].
    split; [apply list_lookup_insert_ne; lia |].
    destruct (N.eq_dec (x + 1)%N d) as [Heq | Hne].
    + rewrite Heq, N.Div0.mod_same.
      split.
      * intros j dj y Hj Hdj Hy. rewrite length_insert in Hj.
        destruct (Nat.eq_dec j i) as [-> | Hji].
        -- rewrite list_lookup_insert_eq in Hy by lia. inversion Hy; subst y.
           apply (Forall_lookup_1 _ _ _ _ Hpos Hdj).
        -- rewrite list_lookup_insert_ne in Hy by lia.
           apply (Hrange j dj y Hj Hdj Hy).
      * assert (Hrw : (0 <? x)%N = true) by (apply N.ltb_lt; lia).
        rewrite Hrw, HS. specialize (Hins 0%N). nia.
    + rewrite N.mod_small by lia.
      split.
      * intros j dj y Hj Hdj Hy. rewrite length_insert in Hj.
        destruct (Nat.eq_dec j i) as [-> | Hji].
        -- rewrite list_lookup_insert_eq in Hy by lia. inversion Hy; subst y.
           rewrite Hd in Hdj. inversion Hdj; subst dj. lia.
        -- rewrite list_lookup_insert_ne in Hy by lia.
           apply (Hrange j dj y Hj Hdj Hy).
      * assert (Hrw : (x + 1 <? x)%N = false) by (apply N.ltb_ge; lia).
        rewrite Hrw. specialize (Hins (x + 1)%N). nia.
  - destruct (lookup_lt_is_Some_2 coords i ltac:(lia)) as [x Hx].
    destruct (lookup_lt_is_Some_2 sizes i ltac:(lia)) as [d Hd].
    assert (Hxd : (x < d)%N) by (apply (Hrange i d x); [lia | exact Hd | exact Hx]).
    assert (Hd2 : (2 <= d)%N) by (apply (Hwrap i d); [lia | exact Hd]).
    assert (Hdf := inner_size_fits i d ltac:(lia) Hd).
    assert (Hins := fun v => row_value_insert sizes coords i v (length sizes)
                               ltac:(lia) ltac:(lia)).
    rewrite (nth_lookup_Some _ _ _ _ Hx) in Hins.
    assert (HS := stride_S sizes i d Hd).
    simpl. rewrite (gbind_ok _ _ x) by (apply array_at_ok; exact Hx).
    rewrite (gbind_ok _ _ d) by (apply array_at_ok; exact Hd).
    rewrite size_add_exact by lia.
    rewrite (gbind_ok _ _ ((x + 1) mod d)%N) by (apply size_mod_ok; lia).
    rewrite (gbind_ok _ _ (<[i := ((x + 1) mod d)%N]> coords))
      by (apply array_set_ok; lia).
    destruct (N.eq_dec (x + 1)%N d) as [Heq | Hne].
    + rewrite Heq, N.Div0.mod_same.
      assert (Hrw : (0 <? x)%N = true) by (apply N.ltb_lt; lia).
      rewrite Hrw.
      destruct (IH (S i) (<[i := 0%N]> coords))
        as (coords' & rewind & Hrun & Hlen' & Hlast & Hrange' & Hval).
      { rewrite length_insert. exact Hlen. }
      { lia. }
      { intros j dj y Hj Hdj Hy. rewrite length_insert in Hj.
        destruct (Nat.eq_dec j i) as [-> | Hji].
        - rewrite list_lookup_insert_eq in Hy by lia. inversion Hy; subst y.
          apply (Forall_lookup_1 _ _ _ _ Hpos Hdj).
        - rewrite list_lookup_insert_ne in Hy by lia.
          apply (Hrange j dj y Hj Hdj Hy). }
      rewrite length_insert in Hlen'.
      exists coords', rewind. split; [exact Hrun |]. split; [exact Hlen' |].
      split; [rewrite Hlast; apply list_lookup_insert_ne; lia |].
      split; [exact Hrange' |].
      rewrite Hval, HS. specialize (Hins 0%N). nia.
    + rewrite N.mod_small by lia.
      assert (Hrw : (x + 1 <? x)%N = false) by (apply N.ltb_ge; lia).
      rewrite Hrw.
      eexists _, _. split; [reflexivity |].
      split; [apply length_insert |].
      split; [apply list_lookup_insert_ne; lia |].
      split.
      * intros j dj y Hj Hdj Hy. rewrite length_insert in Hj.
        destruct (Nat.eq_dec j i) as [-> | Hji].
        -- rewrite list_lookup_insert_eq in Hy by lia. inversion Hy; subst y.
           rewrite Hd in Hdj. inversion Hdj; subst dj. lia.
        -- rewrite list_lookup_insert_ne in Hy by lia.
           apply (Hrange j dj y Hj Hdj Hy).
      * specialize (Hins (x + 1)%N). nia.
Qed.

End NextRow.

Section NextRowClaim.

Variable size_bits : N.

Lemma increment_row_spec (g : row_generator) :
  Forall (fun d => (0 < d)%N) (physical_sizes g) ->
  dimensions_wrap (physical_sizes g) ->
  2 <= length (physical_sizes g) ->
  length (row_coords g) = length (physical_sizes g) ->
  coords_in_range (physical_sizes g) (row_coords g) ->
  (stride (physical_sizes g) (length (physical_sizes g) - 1)
   < 2 ^ size_bits)%N ->
  (row_value (physical_sizes g) (row_coords g) (length (physical_sizes g)) + 1
   < 2 ^ size_bits)%N ->
  exists g' v,
    increment_row size_bits g = inr g' /\
    physical_sizes g' = physical_sizes g /\
    length (row_coords g') = length (physical_sizes g) /\
    coords_in_range (physical_sizes g) (row_coords g') /\
    coords_to_rowcol size_bits g (row_coords g) = inr v /\
    coords_to_rowcol size_bits g' (row_coords g') = inr (v + 1)%N /\
    v = row_value (physical_sizes g) (row_coords g)
          (length (physical_sizes g)) /\
    row_value (physical_sizes g) (row_coords g') (length (physical_sizes g))
    = (v + 1)%N.
Proof.
  destruct g as [sizes coords]. cbn [physical_sizes row_coords].
  intros Hpos Hwrap Hn Hlen Hrange Hstr Hfit.
  set (n := length sizes) in *.
  destruct (increment_row_loop_spec size_bits sizes Hpos Hwrap Hstr
              (n - 1 - 1) 0 coords Hlen ltac:(unfold n in *; lia) Hrange)
    as (coords1 & rewind & Hrun & Hlen1 & Hlast & Hrange1 & Hval).
  fold n in Hlast, Hval. rewrite stride_0 in Hval.
  assert (Hbefore : coords_to_rowcol size_bits (mkRowGenerator sizes coords)
                      coords = inr (row_value sizes coords n)).
  { assert (H := coords_to_rowcol_spec size_bits (mkRowGenerator sizes coords)
                   coords).
    cbn [physical_sizes] in H. rewrite Hlen in H. fold n in H.
    apply H; first [assumption | reflexivity | lia]. }
  assert (Hafter : forall coords2,
            length coords2 = n ->
            row_value sizes coords2 n = (row_value sizes coords n + 1)%N ->
            coords_to_rowcol size_bits (mkRowGenerator sizes coords2) coords2
            = inr (row_value sizes coords n + 1)%N).
  { intros coords2 Hl2 Hv2.
    assert (H := coords_to_rowcol_spec size_bits (mkRowGenerator sizes coords2)
                   coords2).
    cbn [physical_sizes] in H. rewrite Hl2, Hv2 in H.
    apply H; first [assumption | reflexivity]. }
  destruct rewind.
  - destruct (lookup_lt_is_Some_2 coords (n - 1) ltac:(lia)) as [x Hx].
    assert (Hx1 : coords1 !! (n - 1) = Some x) by (rewrite Hlast; exact Hx).
    assert (Hxfit : (x + 1 < 2 ^ size_bits)%N).
    { assert (H := row_value_last sizes coords (n - 1)).
      replace (S (n - 1)) with n in H by lia.
      rewrite (nth_lookup_Some _ _ _ _ Hx) in H.
      assert (H0 := stride_positive sizes (n - 1) Hpos). nia. }
    assert (Hins := row_value_insert sizes coords1 (n - 1) (x + 1)%N n
                      ltac:(lia) ltac:(lia)).
    rewrite (nth_lookup_Some _ _ _ _ Hx1) in Hins.
    exists (mkRowGenerator sizes (<[n - 1 := (x + 1)%N]> coords1)),
           (row_value sizes coords n).
    split; [| split; [reflexivity | split; [| split; [| split; [exact Hbefore |]]]]].
    + unfold increment_row. cbn [physical_sizes row_coords]. rewrite Hlen.
      fold n. rewrite (gbind_ok _ _ _ Hrun). cbn [fst snd].
      rewrite (gbind_ok _ _ x) by (apply array_at_ok; exact Hx1).
      rewrite size_add_exact by exact Hxfit.
      rewrite (gbind_ok _ _ (<[n - 1 := (x + 1)%N]> coords1))
        by (apply array_set_ok; lia).
      reflexivity.
    + cbn [row_coords]. rewrite length_insert. lia.
    + cbn [row_coords]. intros j dj y Hj Hdj Hy. rewrite length_insert in Hj.
      rewrite list_lookup_insert_ne in Hy by lia.
      apply (Hrange1 j dj y ltac:(lia) Hdj Hy).
    + assert (Hnew : row_value sizes (<[n - 1 := (x + 1)%N]> coords1) n
                     = (row_value sizes coords n + 1)%N) by nia.
      cbn [row_coords].
      split; [apply Hafter; [rewrite length_insert; lia | exact Hnew] |].
      split; [reflexivity | exact Hnew].
  - exists (mkRowGenerator sizes coords1), (row_value sizes coords n).
    split; [| split; [reflexivity | split; [| split; [| split; [exact Hbefore |]]]]].
    + unfold increment_row. cbn [physical_sizes row_coords]. rewrite Hlen.
      fold n. rewrite (gbind_ok _ _ _ Hrun). reflexivity.
    + cbn [row_coords]. lia.
    + exact Hrange1.
    + assert (Hnew : row_value sizes coords1 n
                     = (row_value sizes coords n + 1)%N) by lia.
      cbn [row_coords].
      split; [apply Hafter; [lia | exact Hnew] |].
      split; [reflexivity | exact Hnew].
Qed.

(** X17: [increment_row] moves to the next row: for at least two dimensions,
    no inner dimension of size one, and coordinates within their dimensions
    (the last one is unbounded), the row [coords_to_rowcol] computes from the
    coordinates goes up by exactly one and the coordinates stay within their
    dimensions, as long as rows and strides fit [std::size_t]. *)
Theorem increment_row_next (g : row_generator) :
  Forall (fun d => (0 < d)%N) (physical_sizes g) ->
  dimensions_wrap (physical_sizes g) ->
  2 <= length (physical_sizes g) ->
  length (row_coords g) = length (physical_sizes g) ->
  coords_in_range (physical_sizes g) (row_coords g) ->
  (stride (physical_sizes g) (length (physical_sizes g) - 1)
   < 2 ^ size_bits)%N ->
  (row_value (physical_sizes g) (row_coords g) (length (physical_sizes g)) + 1
   < 2 ^ size_bits)%N ->
  exists g' v,
    increment_row size_bits g = inr g' /\
    physical_sizes g' = physical_sizes g /\
    length (row_coords g') = length (physical_sizes g) /\
    coords_in_range (physical_sizes g) (row_coords g') /\
    coords_to_rowcol size_bits g (row_coords g) = inr v /\
    coords_to_rowcol size_bits g' (row_coords g') = inr (v + 1)%N.
Proof.
  intros Hpos Hwrap Hn Hlen Hrange Hstr Hfit.
  destruct (increment_row_spec g Hpos Hwrap Hn Hlen Hrange Hstr Hfit)
    as (g' & v & Hrun & Hsizes & Hlen' & Hrange' & Hv & Hv' & _).
  exists g', v. repeat split; assumption.
Qed.

End NextRowClaim.

Lemma row_generator_round_trip_witness :
  exists g,
    row_generator_new 64 [3; 3; 3]%N 14%N [7; 7; 7]%N = inr g /\
    physical_sizes g = [3; 3; 3]%N /\
    length (row_coords g) = 3 /\
    coords_in_range [3; 3; 3]%N (row_coords g) /\
    coords_to_rowcol 64 g (row_coords g) = inr 14%N.
Proof.
  apply (row_generator_round_trip 64 [3; 3; 3]%N [7; 7; 7]%N 14%N).
  - repeat constructor.
  - simpl. lia.
  - reflexivity.
  - reflexivity.
  - reflexivity.
  - reflexivity.
Defined.

Lemma increment_row_next_witness :
  exists g' v,
    increment_row 64 (mkRowGenerator [4; 3; 2]%N [3; 2; 0]%N) = inr g' /\
    physical_sizes g' = [4; 3; 2]%N /\
    length (row_coords g') = 3 /\
    coords_in_range [4; 3; 2]%N (row_coords g') /\
    coords_to_rowcol 64 (mkRowGenerator [4; 3; 2]%N [3; 2; 0]%N) [3; 2; 0]%N
    = inr v /\
    coords_to_rowcol 64 g' (row_coords g') = inr (v + 1)%N.
Proof.
  apply (increment_row_next 64 (mkRowGenerator [4; 3; 2]%N [3; 2; 0]%N)).
  - repeat constructor.
  - intros j d Hj Hd. simpl in Hj.
    destruct j as [| [| j]]; simpl in Hd; [| | lia];
      inversion Hd; subst d; lia.
  - simpl. lia.
  - reflexivity.
  - intros j d x Hj Hd Hx. simpl in Hj.
    destruct j as [| [| j]]; simpl in Hd, Hx; [| | lia];
      inversion Hd; inversion Hx; subst; lia.
  - reflexivity.
  - reflexivity.
Defined.

(** ** Arithmetic modulo the width of [std::size_t] *)

Section Modular.

Variable size_bits : N.

Local Abbreviation wrap := (size_wrap size_bits).

Lemma wrap_wrap a : wrap (wrap a) = wrap a.
Proof. unfold size_wrap. apply N.Div0.mod_mod. Qed.

Lemma wrap_add a b a' b' :
  wrap a = wrap a' -> wrap b = wrap b' -> wrap (a + b) = wrap (a' + b').
Proof.
  unfold size_wrap. intros Ha Hb.
  rewrite (N.Div0.add_mod a b), (N.Div0.add_mod a' b'), Ha, Hb. reflexivity.
Qed.

Lemma wrap_mul a b a' b' :
  wrap a = wrap a' -> wrap b = wrap b' -> wrap (a * b) = wrap (a' * b').
Proof.
  unfold size_wrap. intros Ha Hb.
  rewrite (N.Div0.mul_mod a b), (N.Div0.mul_mod a' b'), Ha, Hb. reflexivity.
Qed.

Lemma coords_to_rowcol_loop_wraps sizes a : forall count i row s,
  length a = length sizes ->
  i + count = length a ->
  row = wrap (row_value sizes a i) ->
  wrap s = wrap (stride sizes i) ->
  coords_to_rowcol_loop size_bits sizes a i count row s
  = inr (wrap (row_value sizes a (length a))).
Proof.
  induction count as [| k IH]; intros i row s Hlen Hic Hrow Hs.
  - simpl. rewrite Hrow. do 3 f_equal. lia.
  - destruct (lookup_lt_is_Some_2 a i ltac:(lia)) as [x Hx].
    destruct (lookup_lt_is_Some_2 sizes i ltac:(lia)) as [d Hd].
    simpl. rewrite (gbind_ok _ _ x) by (apply array_at_ok; exact Hx).
    rewrite (gbind_ok _ _ d) by (apply array_at_ok; exact Hd).
    apply IH; [exact Hlen | lia | |].
    + simpl. rewrite (nth_lookup_Some _ _ _ _ Hx), Hrow.
      unfold size_add, size_mul.
      apply wrap_add; [apply wrap_wrap |].
      rewrite wrap_wrap. rewrite (N.mul_comm x).
      apply wrap_mul; [exact Hs | reflexivity].
    + rewrite (stride_S sizes i d Hd). unfold size_mul. rewrite wrap_wrap.
      apply wrap_mul; [exact Hs | reflexivity].
Qed.

Lemma coords_to_finer_col_loop_wraps sizes finer step coords :
  forall count i row s,
  length coords = length sizes -> length step = length sizes ->
  length finer = length sizes ->
  (forall j st d, step !! j = Some st -> sizes !! j = Some d ->
     finer !! j = Some (st * d)%N) ->
  i + count = length coords ->
  row = wrap (row_value finer (finer_point size_bits step coords) i) ->
  wrap s = wrap (stride finer i) ->
  coords_to_finer_col_loop size_bits sizes step coords i count row s
  = inr (wrap (row_value finer (finer_point size_bits step coords)
                 (length coords))).
Proof.
  induction count as [| k IH]; intros i row s Hlc Hls Hlf Hfiner Hic Hrow Hs.
  - simpl. rewrite Hrow. do 3 f_equal. lia.
  - destruct (lookup_lt_is_Some_2 coords i ltac:(lia)) as [x Hx].
    destruct (lookup_lt_is_Some_2 sizes i ltac:(lia)) as [d Hd].
    destruct (lookup_lt_is_Some_2 step i ltac:(lia)) as [st Hst].
    assert (Hf := Hfiner i st d Hst Hd).
    assert (Hp : finer_point size_bits step coords !! i
                 = Some (size_mul size_bits st x)).
    { unfold finer_point. rewrite lookup_zip_with, Hst. simpl.
      rewrite Hx. reflexivity. }
    simpl. rewrite (gbind_ok _ _ st) by (apply array_at_ok; exact Hst).
    rewrite (gbind_ok _ _ x) by (apply array_at_ok; exact Hx).
    rewrite (gbind_ok _ _ d) by (apply array_at_ok; exact Hd).
    apply IH; try assumption; [lia | |].
    + simpl. rewrite (nth_lookup_Some _ _ _ _ Hp), Hrow.
      unfold size_add, size_mul.
      apply wrap_add; [apply wrap_wrap |].
      rewrite wrap_wrap.
      transitivity (wrap (stride finer i * st * x)).
      * apply wrap_mul; [| reflexivity]. rewrite wrap_wrap.
        apply wrap_mul; [exact Hs | reflexivity].
      * rewrite <- N.mul_assoc, (N.mul_comm (stride finer i)).
        apply wrap_mul; [| reflexivity]. symmetry. apply wrap_wrap.
    + rewrite (stride_S finer i _ Hf). unfold size_mul.
      rewrite N.mul_assoc, wrap_wrap.
      apply wrap_mul; [| reflexivity]. rewrite wrap_wrap.
      apply wrap_mul; [exact Hs | reflexivity].
Qed.

End Modular.

(** ** What a generator that was built looks like *)

Lemma gbind_inv {A B : Type} (c : G A) (k : A -> G B) b :
  gbind c k = inr b -> exists a, c = inr a /\ k a = inr b.
Proof.
  destruct c as [e | a]; simpl; intros H; [discriminate |].
  exists a. split; [reflexivity | exact H].
Qed.

Lemma array_set_inv (l : list N) i v l' :
  array_set l i v = inr l' -> l' = <[i := v]> l /\ i < length l.
Proof.
  unfold array_set. destruct (Nat.ltb_spec i (length l)) as [Hi | Hi];
    intros Hset; [| discriminate].
  inversion Hset. split; [reflexivity | exact Hi].
Qed.

Lemma check_sizes_inv sizes :
  check_sizes sizes = inr tt -> Forall (fun d => (0 < d)%N) sizes.
Proof.
  induction sizes as [| d rest IH]; intros H; [constructor |].
  simpl in H. destruct (N.eqb_spec d 0) as [| Hd]; [discriminate |].
  constructor; [lia | apply IH; exact H].
Qed.

Lemma row_to_coords_split_length size_bits sizes : forall i coords rowcol s r,
  row_to_coords_split size_bits sizes i coords rowcol s = inr r ->
  length (fst r) = length coords.
Proof.
  induction i as [| i IH]; intros coords rowcol s r H.
  - inversion H. reflexivity.
  - simpl in H.
    apply gbind_inv in H as (q & _ & H).
    apply gbind_inv in H as (coords1 & Hset & H).
    apply gbind_inv in H as (d & _ & H).
    apply gbind_inv in H as (s1 & _ & H).
    apply IH in H. apply array_set_inv in Hset as [-> _].
    rewrite H, length_insert. reflexivity.
Qed.

Lemma row_generator_new_shape size_bits sizes first_row uninitialized g :
  row_generator_new size_bits sizes first_row uninitialized = inr g ->
  Forall (fun d => (0 < d)%N) sizes /\
  physical_sizes g = sizes /\
  length (row_coords g) = length uninitialized.
Proof.
  unfold row_generator_new. intros H.
  apply gbind_inv in H as ([] & Hcheck & H).
  split; [apply check_sizes_inv; exact Hcheck |].
  unfold row_to_coords in H. cbn [physical_sizes row_coords] in H.
  apply gbind_inv in H as (s & _ & H).
  apply gbind_inv in H as (r & Hsplit & H).
  apply gbind_inv in H as (d & _ & H).
  apply gbind_inv in H as (x & _ & H).
  apply gbind_inv in H as (coords & Hset & H).
  inversion H. cbn [physical_sizes row_coords].
  apply array_set_inv in Hset as [-> _].
  apply row_to_coords_split_length in Hsplit.
  rewrite length_insert, Hsplit. split; reflexivity.
Qed.

(** ** The coarsening generator *)

Section CoarsenerLoops.

Variable size_bits : N.
Variables coarser finer ratios : list N.

Hypothesis Hcoarser : Forall (fun d => (0 < d)%N) coarser.

Lemma exact_multiple_step c k :
  (0 < c)%N -> (0 < k)%N ->
  ((k * c / c =? 0) = false)%N /\ (k * c / (k * c / c) =? c)%N = true.
Proof.
  intros Hc Hk. rewrite N.div_mul by lia. split.
  - apply N.eqb_neq. lia.
  - apply N.eqb_eq. rewrite N.mul_comm. apply N.div_mul. lia.
Qed.

Lemma coarsener_steps_exact : forall count i step_array,
  length ratios = length coarser ->
  Forall (fun k => (0 < k)%N) ratios ->
  finer = zip_with N.mul ratios coarser ->
  length step_array = length coarser ->
  i + count = length coarser ->
  take i step_array = take i ratios ->
  coarsener_steps coarser finer i count step_array = inr ratios.
Proof.
  induction count as [| n IH];
    intros i step_array Hlr Hratios Hfiner Hls Hic Htake.
  - simpl. rewrite Nat.add_0_r in Hic.
    rewrite <- (take_ge step_array i), <- (take_ge ratios i) by lia.
    rewrite Htake. reflexivity.
  - destruct (lookup_lt_is_Some_2 coarser i ltac:(lia)) as [c Hc].
    destruct (lookup_lt_is_Some_2 ratios i ltac:(lia)) as [k Hk].
    assert (Hf : finer !! i = Some (k * c)%N).
    { rewrite Hfiner, lookup_zip_with, Hk. simpl. rewrite Hc. reflexivity. }
    assert (Hcpos : (0 < c)%N)
      by (apply (Forall_lookup_1 _ _ _ _ Hcoarser Hc)).
    assert (Hkpos : (0 < k)%N)
      by (apply (Forall_lookup_1 _ _ _ _ Hratios Hk)).
    destruct (exact_multiple_step c k Hcpos Hkpos) as [Hnz Hback].
    simpl. rewrite (gbind_ok _ _ _ (array_at_ok _ _ _ Hf)).
    rewrite (gbind_ok _ _ _ (array_at_ok _ _ _ Hc)).
    rewrite (gbind_ok _ _ _ (size_div_ok _ _ Hcpos)).
    rewrite Hnz.
    rewrite (gbind_ok _ _ (k * c / (k * c / c))%N)
      by (apply size_div_ok; rewrite N.div_mul by lia; exact Hkpos).
    simpl. rewrite Hback. simpl.
    rewrite (gbind_ok _ _ _ (array_set_ok step_array i _ ltac:(lia))).
    apply IH; try assumption.
    + rewrite length_insert. exact Hls.
    + lia.
    + rewrite (take_S_r ratios i k Hk).
      rewrite (take_S_r _ i (k * c / c)%N)
        by (apply list_lookup_insert_eq; lia).
      rewrite take_insert_ge by lia. rewrite Htake, N.div_mul by lia.
      reflexivity.
Qed.

Lemma coarsener_steps_short : forall count i j step_array f c,
  (forall l cl, i <= l < j -> coarser !! l = Some cl ->
     exists k, (0 < k)%N /\ finer !! l = Some (k * cl)%N) ->
  finer !! j = Some f -> coarser !! j = Some c -> (f < c)%N ->
  length step_array = length coarser ->
  i <= j < i + count -> i + count <= length coarser ->
  coarsener_steps coarser finer i count step_array
  = inl (invalid_argument (finer_not_multiple j)).
Proof.
  induction count as [| n IH];
    intros i j step_array f c Hbefore Hf Hc Hlt Hls Hij Hic; [lia |].
  destruct (Nat.eq_dec i j) as [-> | Hne].
  - assert (Hcpos : (0 < c)%N) by lia.
    simpl. rewrite (gbind_ok _ _ _ (array_at_ok _ _ _ Hf)).
    rewrite (gbind_ok _ _ _ (array_at_ok _ _ _ Hc)).
    rewrite (gbind_ok _ _ _ (size_div_ok _ _ Hcpos)).
    rewrite N.div_small by exact Hlt. reflexivity.
  - destruct (lookup_lt_is_Some_2 coarser i ltac:(lia)) as [ci Hci].
    destruct (Hbefore i ci ltac:(lia) Hci) as (k & Hkpos & Hfi).
    assert (Hcpos : (0 < ci)%N)
      by (apply (Forall_lookup_1 _ _ _ _ Hcoarser Hci)).
    destruct (exact_multiple_step ci k Hcpos Hkpos) as [Hnz Hback].
    simpl. rewrite (gbind_ok _ _ _ (array_at_ok _ _ _ Hfi)).
    rewrite (gbind_ok _ _ _ (array_at_ok _ _ _ Hci)).
    rewrite (gbind_ok _ _ _ (size_div_ok _ _ Hcpos)).
    rewrite Hnz.
    rewrite (gbind_ok _ _ (k * ci / (k * ci / ci))%N)
      by (apply size_div_ok; rewrite N.div_mul by lia; exact Hkpos).
    simpl. rewrite Hback. simpl.
    rewrite (gbind_ok _ _ _ (array_set_ok step_array i _ ltac:(lia))).
    apply (IH (S i) j _ f c); try assumption.
    + intros l cl Hl. apply Hbefore. lia.
    + rewrite length_insert. exact Hls.
    + lia.
    + lia.
Qed.

End CoarsenerLoops.

Lemma finer_point_length size_bits step coords :
  length step = length coords ->
  length (finer_point size_bits step coords) = length coords.
Proof. intros H. unfold finer_point. rewrite length_zip_with. lia. Qed.

Lemma exact_multiples_lookup (sizes finer step : list N) :
  finer = zip_with N.mul step sizes ->
  forall j st d, step !! j = Some st -> sizes !! j = Some d ->
    finer !! j = Some (st * d)%N.
Proof.
  intros -> j st d Hst Hd. rewrite lookup_zip_with, Hst. simpl.
  rewrite Hd. reflexivity.
Qed.

Lemma coords_to_finer_col_spec size_bits (g : row_generator)
    (step finer : list N) :
  length (row_coords g) = length (physical_sizes g) ->
  length step = length (physical_sizes g) ->
  finer = zip_with N.mul step (physical_sizes g) ->
  coords_to_finer_col size_bits g step
  = inr (size_wrap size_bits
           (row_value finer (finer_point size_bits step (row_coords g))
              (length (row_coords g)))) /\
  coords_to_rowcol size_bits
    (mkRowGenerator finer (finer_point size_bits step (row_coords g)))
    (finer_point size_bits step (row_coords g))
  = inr (size_wrap size_bits
           (row_value finer (finer_point size_bits step (row_coords g))
              (length (row_coords g)))).
Proof.
  intros Hlc Hls Hfiner.
  assert (Hlp := finer_point_length size_bits step (row_coords g)
                   ltac:(lia)).
  assert (Hlf : length finer = length (physical_sizes g)).
  { rewrite Hfiner, length_zip_with. lia. }
  split.
  - unfold coords_to_finer_col.
    apply (coords_to_finer_col_loop_wraps size_bits (physical_sizes g) finer
             step (row_coords g)); try assumption; try reflexivity.
    apply exact_multiples_lookup. exact Hfiner.
  - unfold coords_to_rowcol. cbn [physical_sizes].
    rewrite (coords_to_rowcol_loop_wraps size_bits finer
               (finer_point size_bits step (row_coords g)) _ 0 0%N 1%N);
      try reflexivity.
    + rewrite Hlp. reflexivity.
    + lia.
Qed.

Section CoarsenerClaims.

Variable size_bits : N.
Variable T : Type.
Variable one : T.

(** X18: the column of the coarsening matrix is the row the projected point
    has in the finer grid: when every finer size is its step times the
    coarser size, [coords_to_finer_col] returns what [coords_to_rowcol] of a
    generator over the finer sizes returns for the coordinates scaled by the
    steps, wrap-around included. *)
Theorem coarsener_column_projects (g : row_generator) (step finer : list N) :
  length (row_coords g) = length (physical_sizes g) ->
  length step = length (physical_sizes g) ->
  finer = zip_with N.mul step (physical_sizes g) ->
  exists col,
    coords_to_finer_col size_bits g step = inr col /\
    coords_to_rowcol size_bits
      (mkRowGenerator finer (finer_point size_bits step (row_coords g)))
      (finer_point size_bits step (row_coords g)) = inr col.
Proof.
  intros Hlc Hls Hfiner.
  destruct (coords_to_finer_col_spec size_bits g step finer Hlc Hls Hfiner)
    as [Hcol Hrow].
  eexists. split; [exact Hcol | exact Hrow].
Qed.

(** X19: the constructor of [coarsener_generator_iterator], once the
    [row_generator] underneath is built.  When every finer size is a positive
    multiple of the coarser size it keeps the ratios as steps, the given row
    as [i()], the row of the projected point in the finer grid as [j()] and 1
    as value.  When a finer size is below the coarser size, and the
    dimensions before it are positive multiples, it throws
    [std::invalid_argument] for that dimension. *)
Theorem coarsener_new_checks (coarser finer uninitialized : list N)
    (current_row : N) (g : row_generator) :
  row_generator_new size_bits coarser current_row uninitialized = inr g ->
  length uninitialized = length coarser ->
  (forall ratios,
     length ratios = length coarser ->
     Forall (fun k => (0 < k)%N) ratios ->
     finer = zip_with N.mul ratios coarser ->
     exists col,
       coarsener_new size_bits T one coarser finer current_row uninitialized
       = inr (mkCoarsener g finer ratios (current_row, col, one)) /\
       coords_to_rowcol size_bits
         (mkRowGenerator finer (finer_point size_bits ratios (row_coords g)))
         (finer_point size_bits ratios (row_coords g)) = inr col) /\
  (forall j f c,
     finer !! j = Some f -> coarser !! j = Some c -> (f < c)%N ->
     (forall l cl, l < j -> coarser !! l = Some cl ->
        exists k, (0 < k)%N /\ finer !! l = Some (k * cl)%N) ->
     coarsener_new size_bits T one coarser finer current_row uninitialized
     = inl (invalid_argument (finer_not_multiple j))).
Proof.
  intros Hg Hlu.
  destruct (row_generator_new_shape _ _ _ _ _ Hg) as (Hpos & Hsizes & Hlc).
  split.
  - intros ratios Hlr Hratios Hfiner.
    destruct (coords_to_finer_col_spec size_bits g ratios finer)
      as [Hcol Hrow]; [rewrite Hsizes; lia | rewrite Hsizes; lia
                      | rewrite Hsizes; exact Hfiner |].
    eexists. split; [| exact Hrow].
    unfold coarsener_new. rewrite (gbind_ok _ _ _ Hg).
    rewrite (gbind_ok _ _ ratios).
    + rewrite (gbind_ok _ _ _ Hcol). reflexivity.
    + apply (coarsener_steps_exact coarser finer ratios Hpos);
        try assumption; try reflexivity.
      * rewrite length_replicate. reflexivity.
  - intros j f c Hf Hc Hlt Hbefore.
    unfold coarsener_new. rewrite (gbind_ok _ _ _ Hg).
    rewrite (coarsener_steps_short coarser finer Hpos (length coarser) 0 j
               _ f c); try assumption; try reflexivity.
    + intros l cl Hl. apply Hbefore. lia.
    + rewrite length_replicate. reflexivity.
    + apply lookup_lt_Some in Hc. lia.
Qed.

(** X20: [operator++] of the coarsening generator moves to the next row and
    keeps the column its projection: under the conditions of
    [increment_row], and with finer sizes that are the steps times the
    coarser sizes, [i()] goes up by one, the steps and the finer sizes stay,
    and [j()] is the row that the new coordinates, scaled by the steps, have
    in the finer grid. *)
Theorem coarsener_next_advances (c : coarsener_generator_iterator T) :
  Forall (fun d => (0 < d)%N) (physical_sizes (coarsener_base c)) ->
  dimensions_wrap (physical_sizes (coarsener_base c)) ->
  2 <= length (physical_sizes (coarsener_base c)) ->
  length (row_coords (coarsener_base c))
  = length (physical_sizes (coarsener_base c)) ->
  coords_in_range (physical_sizes (coarsener_base c))
    (row_coords (coarsener_base c)) ->
  (stride (physical_sizes (coarsener_base c))
     (length (physical_sizes (coarsener_base c)) - 1) < 2 ^ size_bits)%N ->
  (row_value (physical_sizes (coarsener_base c))
     (row_coords (coarsener_base c))
     (length (physical_sizes (coarsener_base c))) + 1 < 2 ^ size_bits)%N ->
  length (steps c) = length (physical_sizes (coarsener_base c)) ->
  finer_sizes c = zip_with N.mul (steps c) (physical_sizes (coarsener_base c)) ->
  exists c' v,
    coarsener_next size_bits T one c = inr c' /\
    coords_to_rowcol size_bits (coarsener_base c)
      (row_coords (coarsener_base c)) = inr v /\
    coarsener_i T c' = (v + 1)%N /\
    steps c' = steps c /\ finer_sizes c' = finer_sizes c /\
    physical_sizes (coarsener_base c') = physical_sizes (coarsener_base c) /\
    coords_in_range (physical_sizes (coarsener_base c))
      (row_coords (coarsener_base c')) /\
    coords_to_rowcol size_bits
      (mkRowGenerator (finer_sizes c)
         (finer_point size_bits (steps c) (row_coords (coarsener_base c'))))
      (finer_point size_bits (steps c) (row_coords (coarsener_base c')))
    = inr (coarsener_j T c') /\
    snd (coarsener_current_values c') = one.
Proof.
  intros Hpos Hwrap Hn Hlen Hrange Hstr Hfit Hls Hfiner.
  destruct (increment_row_spec size_bits (coarsener_base c) Hpos Hwrap Hn
              Hlen Hrange Hstr Hfit)
    as (g' & v & Hrun & Hsizes & Hlen' & Hrange' & Hv & Hv' & _).
  destruct (coords_to_finer_col_spec size_bits g' (steps c) (finer_sizes c))
    as [Hcol Hrow]; [rewrite Hsizes; lia | rewrite Hsizes; lia
                    | rewrite Hsizes; exact Hfiner |].
  eexists. exists v. split.
  - unfold coarsener_next. rewrite (gbind_ok _ _ _ Hrun).
    rewrite (gbind_ok _ _ _ Hv'). rewrite (gbind_ok _ _ _ Hcol).
    reflexivity.
  - cbn [coarsener_base steps finer_sizes coarsener_current_values
         coarsener_i coarsener_j fst snd].
    repeat split; try assumption; try reflexivity.
Qed.

End CoarsenerClaims.

(** * The matrix generator *)

(** ** Digits and their value *)

Lemma row_value_bound sizes a : forall k,
  k <= length sizes ->
  (forall j d, j < k -> sizes !! j = Some d -> (nth j a 0 < d)%N) ->
  (row_value sizes a k < stride sizes k)%N.
Proof.
  induction k as [| k IH]; intros Hk Hdigits.
  - rewrite stride_0. simpl. lia.
  - destruct (lookup_lt_is_Some_2 sizes k ltac:(lia)) as [d Hd].
    assert (Hx := Hdigits k d ltac:(lia) Hd).
    assert (Hrec := IH ltac:(lia)
                      (fun j dj Hj => Hdigits j dj ltac:(lia))).
    simpl. rewrite (stride_S sizes k d Hd). nia.
Qed.

Lemma offsets_insert (cols lows : list N) i v lo :
  lows !! i = Some lo ->
  zip_with N.sub (<[i := v]> cols) lows
  = <[i := (v - lo)%N]> (zip_with N.sub cols lows).
Proof.
  intros Hlo. rewrite insert_zip_with. rewrite (list_insert_id lows i lo Hlo).
  reflexivity.
Qed.

Lemma in_window_insert lows highs cols i v lo hi :
  in_window lows highs cols ->
  lows !! i = Some lo -> highs !! i = Some hi -> (lo <= v <= hi)%N ->
  in_window lows highs (<[i := v]> cols).
Proof.
  intros Hw Hlo Hhi Hv j lo' hi' x Hlo' Hhi' Hx.
  destruct (Nat.eq_dec i j) as [-> | Hne].
  - apply lookup_lt_Some in Hx as Hj. rewrite length_insert in Hj.
    rewrite list_lookup_insert_eq in Hx by exact Hj.
    rewrite Hlo in Hlo'. rewrite Hhi in Hhi'.
    inversion Hx; inversion Hlo'; inversion Hhi'; subst. exact Hv.
  - rewrite list_lookup_insert_ne in Hx by exact Hne.
    apply (Hw j lo' hi' x Hlo' Hhi' Hx).
Qed.

(** ** The loops over the column coordinates *)

Section ColumnLoop.

Variable size_bits : N.
Variables sizes coords maxes : list N.
Variable _halo : N.

Local Abbreviation lows := (first_columns size_bits _halo coords).
Local Abbreviation widths := (window_widths lows maxes).
Local Abbreviation n := (length sizes).

Hypothesis Hlc : length coords = n.
Hypothesis Hlm : length maxes = n.
Hypothesis Hrep : representable size_bits sizes.
Hypothesis Hmax : forall j hi d,
  maxes !! j = Some hi -> sizes !! j = Some d -> (hi < d)%N.

Lemma lows_lookup i c :
  coords !! i = Some c ->
  lows !! i = Some (first_column_coord size_bits _halo c).
Proof.
  intros H. unfold first_columns. rewrite list_lookup_fmap, H. reflexivity.
Qed.

Lemma widths_lookup i c hi :
  coords !! i = Some c -> maxes !! i = Some hi ->
  widths !! i = Some (hi - first_column_coord size_bits _halo c + 1)%N.
Proof.
  intros Hc Hhi. unfold window_widths.
  rewrite lookup_zip_with, (lows_lookup i c Hc). simpl. rewrite Hhi.
  reflexivity.
Qed.

Lemma offsets_nth cols i c x :
  coords !! i = Some c -> cols !! i = Some x ->
  nth i (zip_with N.sub cols lows) 0%N
  = (x - first_column_coord size_bits _halo c)%N.
Proof.
  intros Hc Hx. apply nth_lookup_Some.
  rewrite lookup_zip_with, Hx. simpl. rewrite (lows_lookup i c Hc).
  reflexivity.
Qed.

Lemma increment_column_loop_spec : forall remaining i cols,
  length cols = n ->
  i + remaining + 1 = n ->
  in_window lows maxes cols ->
  exists cols' rewind,
    increment_column_loop size_bits coords maxes _halo remaining i cols
    = inr (cols', rewind) /\
    length cols' = n /\
    in_window lows maxes cols' /\
    (forall j, j < i -> cols' !! j = cols !! j) /\
    (row_value widths (zip_with N.sub cols' lows) n
     + (if rewind then stride widths n else 0)
     = row_value widths (zip_with N.sub cols lows) n + stride widths i)%N /\
    (rewind = false ->
     (row_value sizes cols n + stride sizes i <= row_value sizes cols' n)%N /\
     exists k, i <= k /\ cols !! k <> maxes !! k) /\
    (rewind = true ->
     forall j, i <= j < n ->
       cols !! j = maxes !! j /\ cols' !! j = lows !! j).
Proof.
  induction remaining as [| rem IH]; intros i cols Hlen Hi Hwin.
  all: destruct (lookup_lt_is_Some_2 cols i ltac:(lia)) as [x Hx].
  all: destruct (lookup_lt_is_Some_2 maxes i ltac:(lia)) as [hi Hhi].
  all: destruct (lookup_lt_is_Some_2 coords i ltac:(lia)) as [c Hc].
  all: destruct (lookup_lt_is_Some_2 sizes i ltac:(lia)) as [d Hd].
  all: assert (Hlo := lows_lookup i c Hc).
  all: set (lo := first_column_coord size_bits _halo c) in *.
  all: assert (Hxw : (lo <= x <= hi)%N) by (apply (Hwin i lo hi x Hlo Hhi Hx)).
  all: assert (Hhd : (hi < d)%N) by (apply (Hmax i hi d Hhi Hd)).
  all: assert (Hdf : (d < 2 ^ size_bits)%N)
         by (apply (Forall_lookup_1 _ _ _ _ Hrep Hd)).
  all: assert (Hw := widths_lookup i c hi Hc Hhi); fold lo in Hw.
  all: assert (Hoff := offsets_nth cols i c x Hc Hx); fold lo in Hoff.
  all: assert (Hrank := fun v =>
         row_value_insert widths (zip_with N.sub cols lows) i v n
           ltac:(lia)
           ltac:(unfold first_columns;
                 rewrite length_zip_with, length_map; lia)).
  all: rewrite Hoff in Hrank.
  all: assert (Hval := fun v =>
         row_value_insert sizes cols i v n ltac:(lia) ltac:(lia)).
  all: rewrite (nth_lookup_Some _ _ _ _ Hx) in Hval.
  all: assert (Hsw := stride_S widths i _ Hw).
  all: assert (Hss := stride_S sizes i d Hd).
  all: simpl.
  all: rewrite (gbind_ok _ _ _ (array_at_ok _ _ _ Hx)).
  all: rewrite (gbind_ok _ _ _ (array_at_ok _ _ _ Hhi)).
  all: destruct (N.eqb_spec x hi) as [Heq | Hne].
  - (* the last dimension, at its maximum *)
    subst x. unfold reset_column_coords.
    rewrite (gbind_ok _ _ _ (array_at_ok _ _ _ Hc)). fold lo.
    rewrite (gbind_ok _ _ _ (array_set_ok cols i lo ltac:(lia))).
    exists (<[i := lo]> cols), true.
    split; [reflexivity |].
    split; [rewrite length_insert; exact Hlen |].
    split; [apply (in_window_insert _ _ _ _ _ lo hi); try assumption; lia |].
    split; [intros j Hj; apply list_lookup_insert_ne; lia |].
    split.
    { rewrite (offsets_insert cols lows i lo lo Hlo).
      specialize (Hrank (lo - lo)%N).
      replace n with (S i) at 2 by lia. rewrite Hsw.
      rewrite N.sub_diag in *. nia. }
    split; [discriminate |].
    intros _ j Hj. assert (j = i) by lia. subst j.
    rewrite Hx, Hhi, Hlo. split; [reflexivity |].
    apply list_lookup_insert_eq. lia.
  - (* the last dimension, below its maximum *)
    rewrite size_add_exact by lia.
    rewrite (gbind_ok _ _ _ (array_set_ok cols i (x + 1)%N ltac:(lia))).
    exists (<[i := (x + 1)%N]> cols), false.
    split; [reflexivity |].
    split; [rewrite length_insert; exact Hlen |].
    split; [apply (in_window_insert _ _ _ _ _ lo hi); try assumption; lia |].
    split; [intros j Hj; apply list_lookup_insert_ne; lia |].
    split.
    { rewrite (offsets_insert cols lows i (x + 1)%N lo Hlo).
      specialize (Hrank (x + 1 - lo)%N). nia. }
    split; [| discriminate].
    intros _. split; [specialize (Hval (x + 1)%N); nia |].
    exists i. split; [lia |]. rewrite Hx, Hhi. intros [= E]. lia.
  - (* an inner dimension, at its maximum *)
    subst x. unfold reset_column_coords.
    rewrite (gbind_ok _ _ _ (array_at_ok _ _ _ Hc)). fold lo.
    rewrite (gbind_ok _ _ _ (array_set_ok cols i lo ltac:(lia))).
    destruct (IH (S i) (<[i := lo]> cols)) as
      (cols' & rewind & Hrun & Hlen' & Hwin' & Hsame & Hrk & Hno & Hyes).
    { rewrite length_insert. exact Hlen. }
    { lia. }
    { apply (in_window_insert _ _ _ _ _ lo hi); try assumption. lia. }
    exists cols', rewind.
    split; [exact Hrun |].
    split; [exact Hlen' |].
    split; [exact Hwin' |].
    split.
    { intros j Hj. rewrite Hsame by lia. apply list_lookup_insert_ne. lia. }
    split.
    { rewrite (offsets_insert cols lows i lo lo Hlo) in Hrk.
      specialize (Hrank (lo - lo)%N). rewrite N.sub_diag in *.
      rewrite Hsw in Hrk. nia. }
    split.
    + intros Hr. destruct (Hno Hr) as (Hup & k & Hk & Hdiff).
      split; [specialize (Hval lo); rewrite Hss in Hup; nia |].
      exists k. split; [lia |].
      rewrite list_lookup_insert_ne in Hdiff by lia. exact Hdiff.
    + intros Hr j Hj. destruct (Nat.eq_dec j i) as [-> | Hji].
      * rewrite Hx, Hhi, Hlo, Hsame by lia.
        split; [reflexivity |]. apply list_lookup_insert_eq. lia.
      * destruct (Hyes Hr j ltac:(lia)) as [H1 H2].
        rewrite list_lookup_insert_ne in H1 by lia. split; assumption.
  - (* an inner dimension, below its maximum *)
    rewrite size_add_exact by lia.
    rewrite (gbind_ok _ _ _ (array_set_ok cols i (x + 1)%N ltac:(lia))).
    exists (<[i := (x + 1)%N]> cols), false.
    split; [reflexivity |].
    split; [rewrite length_insert; exact Hlen |].
    split; [apply (in_window_insert _ _ _ _ _ lo hi); try assumption; lia |].
    split; [intros j Hj; apply list_lookup_insert_ne; lia |].
    split.
    { rewrite (offsets_insert cols lows i (x + 1)%N lo Hlo).
      specialize (Hrank (x + 1 - lo)%N). nia. }
    split; [| discriminate].
    intros _. split; [specialize (Hval (x + 1)%N); nia |].
    exists i. split; [lia |]. rewrite Hx, Hhi. intros [= E]. lia.
Qed.

End ColumnLoop.

Lemma window_rank_bound size_bits (coords maxes cols : list N) _halo :
  length maxes = length coords -> length cols = length coords ->
  in_window (first_columns size_bits _halo coords) maxes cols ->
  (window_rank (first_columns size_bits _halo coords) maxes cols
   < size_prod (window_widths (first_columns size_bits _halo coords) maxes))%N.
Proof.
  intros Hlm Hlen Hwin.
  assert (Hlw : length (window_widths (first_columns size_bits _halo coords)
                          maxes) = length cols).
  { unfold window_widths, first_columns.
    rewrite length_zip_with, length_map. lia. }
  unfold window_rank.
  rewrite <- (take_ge (window_widths _ maxes) (length cols)) at 2 by lia.
  apply row_value_bound; [lia |].
  intros j w Hj Hw.
  destruct (lookup_lt_is_Some_2 cols j ltac:(lia)) as [x Hx].
  destruct (lookup_lt_is_Some_2 maxes j ltac:(lia)) as [hi Hhi].
  destruct (lookup_lt_is_Some_2 coords j ltac:(lia)) as [c Hc].
  rewrite (widths_lookup size_bits coords maxes _halo j c hi Hc Hhi) in Hw.
  inversion Hw; subst w.
  rewrite (offsets_nth size_bits coords _halo cols j c x Hc Hx).
  assert (H := Hwin j _ hi x (lows_lookup size_bits coords _halo j c Hc)
                 Hhi Hx).
  lia.
Qed.

Section ColumnClaims.

Variable size_bits : N.
Variable T : Type.

Lemma increment_column_spec (m : matrix_generator_iterator T) :
  columns_ready size_bits m ->
  exists m' rewind,
    increment_column size_bits T m = inr (m', rewind) /\
    m' = with_col_coords T m (col_coords m') /\
    columns_ready size_bits m' /\
    (rewind = false ->
     col_coords m <> column_max_values m /\
     column_rank size_bits m' = (column_rank size_bits m + 1)%N /\
     (column_value m < column_value m')%N) /\
    (rewind = true ->
     col_coords m = column_max_values m /\
     col_coords m' = matrix_lows size_bits m /\
     (column_rank size_bits m + 1)%N = columns_of_row size_bits m).
Proof.
  intros (Hn & Hlen & Hlc & Hlm & Hrep & Hmax & Hwin).
  destruct (increment_column_loop_spec size_bits
              (physical_sizes (matrix_base m)) (row_coords (matrix_base m))
              (column_max_values m) (halo m) Hlc Hlm Hrep Hmax
              (length (col_coords m) - 1) 0 (col_coords m) Hlen
              ltac:(lia) Hwin)
    as (cols' & rewind & Hrun & Hlen' & Hwin' & _ & Hrank & Hno & Hyes).
  rewrite stride_0 in Hrank.
  exists (with_col_coords T m cols'), rewind.
  split; [| split; [reflexivity | split; [| split]]].
  - unfold increment_column. rewrite (gbind_ok _ _ _ Hrun). reflexivity.
  - unfold columns_ready. cbn [with_col_coords col_coords matrix_base
                               column_max_values].
    split; [lia |]. split; [lia |]. split; [exact Hlc |].
    split; [exact Hlm |]. split; [exact Hrep |]. split; [exact Hmax |].
    exact Hwin'.
  - intros ->. destruct (Hno eq_refl) as (Hup & k & _ & Hdiff).
    split; [intros Heq; apply Hdiff; rewrite Heq; reflexivity |].
    unfold column_rank, column_value, window_rank, matrix_lows.
    cbn [with_col_coords col_coords matrix_base column_max_values halo].
    rewrite Hlen', Hlen. rewrite stride_0 in Hup. split; lia.
  - intros ->. specialize (Hyes eq_refl).
    assert (Hbound := window_rank_bound size_bits
                        (row_coords (matrix_base m)) (column_max_values m)
                        (col_coords m) (halo m) ltac:(lia) ltac:(lia) Hwin).
    cbn [with_col_coords col_coords].
    split; [| split].
    + apply list_eq. intros j.
      destruct (Nat.lt_ge_cases j (length (physical_sizes (matrix_base m))))
        as [Hj | Hj].
      * apply (Hyes j). lia.
      * rewrite !lookup_ge_None_2 by lia. reflexivity.
    + apply list_eq. intros j.
      destruct (Nat.lt_ge_cases j (length (physical_sizes (matrix_base m))))
        as [Hj | Hj].
      * apply (Hyes j). lia.
      * rewrite !lookup_ge_None_2;
          [reflexivity
          | unfold matrix_lows, first_columns; rewrite length_map; lia
          | lia].
    + assert (Hst : stride (window_widths (matrix_lows size_bits m)
                              (column_max_values m))
                      (length (physical_sizes (matrix_base m)))
                    = columns_of_row size_bits m).
      { unfold stride, columns_of_row. rewrite take_ge; [reflexivity |].
        unfold window_widths, matrix_lows, first_columns.
        rewrite length_zip_with, length_map. lia. }
      unfold matrix_lows in Hst. rewrite Hst in Hrank.
      unfold column_rank, window_rank.
      fold (matrix_lows size_bits m) in Hbound.
      fold (columns_of_row size_bits m) in Hbound.
      unfold window_rank in Hbound. unfold matrix_lows in *.
      rewrite Hlen in *. lia.
Qed.

(** X21: [increment_column] steps through the columns of a row in order.
    From column coordinates within the window of the row it either moves to
    the column of the next position in the window, which is a larger column,
    and returns false; or it is on the last column of the window, where every
    coordinate has its largest value, goes back to the first column and
    returns true, having counted as many columns as the window has points.
    It changes nothing but the column coordinates, which stay within the
    window. *)
Theorem increment_column_next (m : matrix_generator_iterator T) :
  columns_ready size_bits m ->
  exists m' rewind,
    increment_column size_bits T m = inr (m', rewind) /\
    m' = with_col_coords T m (col_coords m') /\
    columns_ready size_bits m' /\
    (rewind = false ->
     col_coords m <> column_max_values m /\
     column_rank size_bits m' = (column_rank size_bits m + 1)%N /\
     (column_value m < column_value m')%N) /\
    (rewind = true ->
     col_coords m = column_max_values m /\
     col_coords m' = matrix_lows size_bits m /\
     (column_rank size_bits m + 1)%N = columns_of_row size_bits m).
Proof. exact (increment_column_spec m). Qed.

End ColumnClaims.

(** ** The window of a row *)

Lemma update_column_max_values_loop_spec size_bits sizes coords _halo :
  forall count i maxes,
  length coords = length sizes -> length maxes = length sizes ->
  i + count = length sizes ->
  take i maxes = take i (last_columns size_bits _halo sizes coords) ->
  update_column_max_values_loop size_bits sizes coords _halo i count maxes
  = inr (last_columns size_bits _halo sizes coords).
Proof.
  assert (Hll : length coords = length sizes ->
                length (last_columns size_bits _halo sizes coords)
                = length sizes).
  { intros H. unfold last_columns. rewrite length_zip_with. lia. }
  induction count as [| k IH]; intros i maxes Hlc Hlm Hic Htake.
  - simpl. rewrite Nat.add_0_r in Hic. specialize (Hll Hlc).
    rewrite <- (take_ge maxes i), Htake by lia. rewrite take_ge by lia.
    reflexivity.
  - destruct (lookup_lt_is_Some_2 sizes i ltac:(lia)) as [d Hd].
    destruct (lookup_lt_is_Some_2 coords i ltac:(lia)) as [x Hx].
    simpl. rewrite (gbind_ok _ _ _ (array_at_ok _ _ _ Hd)).
    rewrite (gbind_ok _ _ _ (array_at_ok _ _ _ Hx)).
    rewrite (gbind_ok _ _ _ (array_set_ok maxes i _ ltac:(lia))).
    apply IH; [exact Hlc | rewrite length_insert; exact Hlm | lia |].
    rewrite (take_S_r _ i _ (list_lookup_insert_eq maxes i _ ltac:(lia))).
    rewrite take_insert_ge by lia. rewrite Htake. symmetry.
    apply take_S_r. unfold last_columns.
    rewrite lookup_zip_with, Hd. simpl. rewrite Hx. reflexivity.
Qed.

Lemma reset_all_columns_loop_spec size_bits coords _halo :
  forall count i cols,
  length cols = length coords -> i + count = length coords ->
  take i cols = take i (first_columns size_bits _halo coords) ->
  reset_all_columns_loop size_bits coords _halo i count cols
  = inr (first_columns size_bits _halo coords).
Proof.
  assert (Hll : length (first_columns size_bits _halo coords)
                = length coords).
  { unfold first_columns. apply length_map. }
  induction count as [| k IH]; intros i cols Hlen Hic Htake.
  - simpl. rewrite Nat.add_0_r in Hic.
    rewrite <- (take_ge cols i), Htake by lia. rewrite take_ge by lia.
    reflexivity.
  - destruct (lookup_lt_is_Some_2 coords i ltac:(lia)) as [x Hx].
    simpl. unfold reset_column_coords.
    rewrite (gbind_ok _ _ _ (array_at_ok _ _ _ Hx)).
    rewrite (gbind_ok _ _ _ (array_set_ok cols i _ ltac:(lia))).
    apply IH; [rewrite length_insert; exact Hlen | lia |].
    rewrite (take_S_r _ i _ (list_lookup_insert_eq cols i _ ltac:(lia))).
    rewrite take_insert_ge by lia. rewrite Htake. symmetry.
    apply take_S_r. apply lows_lookup. exact Hx.
Qed.

Lemma first_columns_exact size_bits _halo coords :
  representable size_bits coords ->
  first_columns size_bits _halo coords = map (window_low _halo) coords.
Proof.
  intros Hrep. unfold first_columns. apply map_ext_in. intros x Hx.
  assert (Hfit : (x < 2 ^ size_bits)%N).
  { unfold representable in Hrep. rewrite List.Forall_forall in Hrep.
    apply Hrep. exact Hx. }
  unfold first_column_coord, window_low.
  destruct (N.leb_spec x _halo); [lia |].
  apply size_sub_exact; lia.
Qed.

Lemma last_columns_exact size_bits _halo sizes coords :
  Forall (fun d => (0 < d < 2 ^ size_bits)%N) sizes ->
  Forall (fun x => (x + _halo < 2 ^ size_bits)%N) coords ->
  last_columns size_bits _halo sizes coords
  = zip_with (window_high _halo) sizes coords.
Proof.
  intros Hsizes Hcoords. unfold last_columns. apply list_eq. intros j.
  rewrite !lookup_zip_with.
  destruct (sizes !! j) as [d |] eqn:Hd; [| reflexivity].
  destruct (coords !! j) as [x |] eqn:Hx; [| reflexivity].
  simpl. unfold window_high.
  assert (Hdf := Forall_lookup_1 _ _ _ _ Hsizes Hd).
  assert (Hxf := Forall_lookup_1 _ _ _ _ Hcoords Hx). simpl in Hdf, Hxf.
  rewrite size_sub_exact by lia. rewrite size_add_exact by lia.
  reflexivity.
Qed.

Lemma window_rank_first lows highs : window_rank lows highs lows = 0%N.
Proof.
  unfold window_rank. generalize (length lows) as k.
  induction k as [| k IH]; [reflexivity |].
  simpl. rewrite IH. rewrite nth_lookup, lookup_zip_with.
  destruct (lows !! k) as [x |]; simpl; [rewrite N.sub_diag |]; lia.
Qed.

Lemma first_below_last size_bits _halo sizes coords :
  Forall (fun d => (0 < d < 2 ^ size_bits)%N) sizes ->
  Forall (fun x => (x + _halo < 2 ^ size_bits)%N) coords ->
  (0 < _halo)%N ->
  (forall j d x, sizes !! j = Some d -> coords !! j = Some x -> (x <= d)%N) ->
  in_window (first_columns size_bits _halo coords)
    (last_columns size_bits _halo sizes coords)
    (first_columns size_bits _halo coords).
Proof.
  intros Hsizes Hcoords Hhalo Hin.
  rewrite first_columns_exact, last_columns_exact; try assumption.
  - intros j lo hi x Hlo Hhi Hx. rewrite Hlo in Hx. inversion Hx; subst x.
    split; [lia |].
    rewrite lookup_zip_with in Hhi. rewrite list_lookup_fmap in Hlo.
    destruct (sizes !! j) as [d |] eqn:Hd; [| discriminate].
    destruct (coords !! j) as [c |] eqn:Hc; [| discriminate].
    simpl in Hhi, Hlo. inversion Hhi; inversion Hlo; subst.
    assert (Hdf := Forall_lookup_1 _ _ _ _ Hsizes Hd). simpl in Hdf.
    assert (Hcd := Hin j d c Hd Hc).
    unfold window_low, window_high. lia.
  - unfold representable. eapply Forall_impl; [exact Hcoords |].
    simpl. intros x Hx. lia.
Qed.

Lemma last_within_sizes size_bits _halo sizes coords :
  Forall (fun d => (0 < d < 2 ^ size_bits)%N) sizes ->
  forall j hi d,
    last_columns size_bits _halo sizes coords !! j = Some hi ->
    sizes !! j = Some d -> (hi < d)%N.
Proof.
  intros Hsizes j hi d Hhi Hd. unfold last_columns in Hhi.
  rewrite lookup_zip_with, Hd in Hhi. simpl in Hhi.
  destruct (coords !! j) as [x |]; [| discriminate].
  simpl in Hhi. inversion Hhi; subst hi.
  assert (Hdf := Forall_lookup_1 _ _ _ _ Hsizes Hd). simpl in Hdf.
  rewrite size_sub_exact by lia. lia.
Qed.

Lemma check_halo_ok size_bits sizes _halo :
  (2 * _halo + 1 < 2 ^ size_bits)%N ->
  Forall (fun d => (2 * _halo + 1 <= d)%N) sizes ->
  check_halo size_bits sizes _halo = inr tt.
Proof.
  intros Hfit. induction 1 as [| d rest Hd _ IH]; [reflexivity |].
  simpl. rewrite size_mul_exact by lia. rewrite size_add_exact by lia.
  destruct (N.ltb_spec d (2 * _halo + 1)); [lia | exact IH].
Qed.

Lemma check_halo_short size_bits sizes _halo :
  Exists (fun d =>
            (d < size_add size_bits (size_mul size_bits 2 _halo) 1)%N) sizes ->
  check_halo size_bits sizes _halo = inl (invalid_argument halo_beyond_sizes).
Proof.
  induction sizes as [| d rest IH]; intros H; [inversion H |].
  simpl.
  destruct (N.ltb_spec d (size_add size_bits (size_mul size_bits 2 _halo) 1))
    as [| Hge]; [reflexivity |].
  apply IH. inversion H; [lia | assumption].
Qed.

Lemma coords_to_rowcol_wraps size_bits (g : row_generator) (a : list N) :
  length a = length (physical_sizes g) ->
  coords_to_rowcol size_bits g a
  = inr (size_wrap size_bits (row_value (physical_sizes g) a (length a))).
Proof.
  intros Hlen. unfold coords_to_rowcol.
  apply (coords_to_rowcol_loop_wraps size_bits (physical_sizes g) a);
    try assumption; try reflexivity.
Qed.

Lemma row_generator_new_nonempty size_bits sizes first_row uninitialized g :
  row_generator_new size_bits sizes first_row uninitialized = inr g ->
  1 <= length sizes.
Proof.
  unfold row_generator_new. intros H.
  apply gbind_inv in H as ([] & _ & H).
  unfold row_to_coords in H. cbn [physical_sizes row_coords] in H.
  apply gbind_inv in H as (s & _ & H).
  apply gbind_inv in H as (r & _ & H).
  apply gbind_inv in H as (d & Hd & _).
  unfold array_at in Hd. destruct (sizes !! 0) as [d0 |] eqn:H0;
    [| discriminate].
  apply lookup_lt_Some in H0. lia.
Qed.

Lemma coords_fit size_bits _halo sizes coords :
  length coords = length sizes ->
  Forall (fun d => (d + _halo < 2 ^ size_bits)%N) sizes ->
  (forall j d x, sizes !! j = Some d -> coords !! j = Some x -> (x <= d)%N) ->
  Forall (fun x => (x + _halo < 2 ^ size_bits)%N) coords.
Proof.
  intros Hlen Hsizes Hin. apply Forall_lookup_2. intros j x Hx.
  destruct (lookup_lt_is_Some_2 sizes j) as [d Hd];
    [apply lookup_lt_Some in Hx; lia |].
  assert (Hdf := Forall_lookup_1 _ _ _ _ Hsizes Hd). simpl in Hdf.
  assert (Hxd := Hin j d x Hd Hx). lia.
Qed.

Section MatrixClaims.

Variable size_bits : N.
Variable T : Type.

Lemma matrix_generator_new_runs (sizes : list N) (row _halo : N)
    (diag non_diag : T) (uninitialized : matrix_generator_iterator T)
    (g : row_generator) :
  row_generator_new size_bits sizes row
    (row_coords (matrix_base uninitialized)) = inr g ->
  length (row_coords (matrix_base uninitialized)) = length sizes ->
  length (col_coords uninitialized) = length sizes ->
  length (column_max_values uninitialized) = length sizes ->
  (0 < _halo)%N ->
  check_halo size_bits sizes _halo = inr tt ->
  exists col,
    coords_to_rowcol size_bits g
      (first_columns size_bits _halo (row_coords g)) = inr col /\
    matrix_generator_new size_bits T sizes row _halo diag non_diag
      uninitialized
    = inr (mkMatrixGenerator g _halo diag non_diag
             (first_columns size_bits _halo (row_coords g))
             (last_columns size_bits _halo sizes (row_coords g))
             (row, col, if (col =? row)%N then diag else non_diag)).
Proof.
  intros Hg Hlu Hlcols Hlmax Hhalo Hcheck.
  destruct (row_generator_new_shape _ _ _ _ _ Hg) as (Hpos & Hsizes & Hlc).
  assert (Hlf : length (first_columns size_bits _halo (row_coords g))
                = length (physical_sizes g)).
  { unfold first_columns. rewrite length_map, Hsizes. lia. }
  exists (size_wrap size_bits
            (row_value (physical_sizes g)
               (first_columns size_bits _halo (row_coords g))
               (length (first_columns size_bits _halo (row_coords g))))).
  split; [apply coords_to_rowcol_wraps; exact Hlf |].
  unfold matrix_generator_new. rewrite (gbind_ok _ _ _ Hg).
  destruct (N.leb_spec _halo 0); [lia |].
  rewrite (gbind_ok _ _ _ Hcheck).
  unfold update_column_max_values.
  cbn [set_current_row with_current_values matrix_base halo col_coords
       column_max_values diagonal_value non_diagonal_value
       matrix_current_values].
  rewrite Hsizes.
  rewrite !(gbind_ok _ _ (last_columns size_bits _halo sizes (row_coords g))).
  2:{ apply update_column_max_values_loop_spec;
        [simpl; lia | exact Hlmax | simpl; lia | reflexivity]. }
  cbn [gbind gret]. unfold reset_all_columns.
  cbn [with_column_max_values matrix_base halo col_coords
       column_max_values diagonal_value non_diagonal_value
       matrix_current_values].
  rewrite !(gbind_ok _ _ (first_columns size_bits _halo (row_coords g))).
  2:{ apply reset_all_columns_loop_spec; [simpl; lia | simpl; lia |].
      reflexivity. }
  cbn [gbind gret with_col_coords matrix_base halo col_coords
       column_max_values diagonal_value non_diagonal_value
       matrix_current_values].
  rewrite (gbind_ok _ _ _ (coords_to_rowcol_wraps size_bits g _ Hlf)).
  rewrite Hsizes. reflexivity.
Qed.

Lemma matrix_generator_new_window (sizes : list N) (row _halo : N)
    (diag non_diag : T) (uninitialized : matrix_generator_iterator T)
    (g : row_generator) :
  row_generator_new size_bits sizes row
    (row_coords (matrix_base uninitialized)) = inr g ->
  length (row_coords (matrix_base uninitialized)) = length sizes ->
  length (col_coords uninitialized) = length sizes ->
  length (column_max_values uninitialized) = length sizes ->
  (0 < _halo)%N ->
  Forall (fun d => (2 * _halo + 1 <= d /\ d + _halo < 2 ^ size_bits)%N)
    sizes ->
  coords_inside sizes (row_coords g) ->
  exists m,
    matrix_generator_new size_bits T sizes row _halo diag non_diag
      uninitialized = inr m /\
    matrix_base m = g /\ halo m = _halo /\
    diagonal_value m = diag /\ non_diagonal_value m = non_diag /\
    col_coords m = map (window_low _halo) (row_coords g) /\
    column_max_values m = zip_with (window_high _halo) sizes (row_coords g) /\
    columns_ready size_bits m /\
    column_rank size_bits m = 0%N /\
    matrix_i T m = row /\
    coords_to_rowcol size_bits g (col_coords m) = inr (matrix_j T m) /\
    snd (matrix_current_values m) = matrix_v T m.
Proof.
  intros Hg Hlu Hlcols Hlmax Hhalo Hroom Hin.
  destruct (row_generator_new_shape _ _ _ _ _ Hg) as (Hpos & Hsizes & Hlc).
  assert (Hne := row_generator_new_nonempty _ _ _ _ _ Hg).
  destruct (lookup_lt_is_Some_2 sizes 0 ltac:(lia)) as [d0 Hd0].
  assert (H0 := Forall_lookup_1 _ _ _ _ Hroom Hd0). simpl in H0.
  assert (Hcheck : check_halo size_bits sizes _halo = inr tt).
  { apply check_halo_ok; [lia |].
    eapply Forall_impl; [exact Hroom |]. simpl. intros d Hd. lia. }
  assert (Hsz : Forall (fun d => (0 < d < 2 ^ size_bits)%N) sizes).
  { eapply Forall_impl; [exact Hroom |]. simpl. intros d Hd. lia. }
  assert (Hcf : Forall (fun x => (x + _halo < 2 ^ size_bits)%N)
                  (row_coords g)).
  { apply (coords_fit size_bits _halo sizes); [lia | |].
    - eapply Forall_impl; [exact Hroom |]. simpl. intros d Hd. lia.
    - intros j d x Hd Hx. assert (H := Hin j d x Hd Hx). lia. }
  assert (Hrepc : representable size_bits (row_coords g)).
  { eapply Forall_impl; [exact Hcf |]. simpl. intros x Hx. lia. }
  destruct (matrix_generator_new_runs sizes row _halo diag non_diag
              uninitialized g Hg Hlu Hlcols Hlmax Hhalo Hcheck)
    as (col & Hcol & Hrun).
  eexists. split; [exact Hrun |].
  cbn [matrix_base halo diagonal_value non_diagonal_value col_coords
       column_max_values matrix_current_values].
  split; [reflexivity |]. split; [reflexivity |].
  split; [reflexivity |]. split; [reflexivity |].
  split; [apply first_columns_exact; exact Hrepc |].
  split; [apply last_columns_exact; assumption |].
  split.
  { unfold columns_ready, matrix_lows.
    cbn [matrix_base halo col_coords column_max_values].
    rewrite Hsizes. unfold first_columns, last_columns.
    rewrite length_map, length_zip_with.
    split; [lia |]. split; [lia |]. split; [lia |]. split; [lia |].
    split; [eapply Forall_impl; [exact Hsz |]; simpl; intros d Hd; lia |].
    split; [apply last_within_sizes; exact Hsz |].
    apply first_below_last; try assumption.
    intros j d x Hd Hx. assert (H := Hin j d x Hd Hx). lia. }
  split; [apply window_rank_first |].
  split; [reflexivity |].
  split; [exact Hcol |].
  unfold matrix_v, matrix_i, matrix_j.
  cbn [matrix_current_values diagonal_value non_diagonal_value fst snd].
  reflexivity.
Qed.

(** X22: the constructor of [matrix_generator_iterator], once the
    [row_generator] underneath is built.  It throws [std::invalid_argument]
    for a halo of zero, and for a size below twice the halo plus one, as
    [std::size_t] computes it.  Otherwise, for a halo and sizes that leave
    room in [std::size_t] and a row within the grid, it ends on the first
    column of the window of that row: every column coordinate is the row
    coordinate less the halo, or zero, and the largest one is the row
    coordinate plus the halo, or the size less one; [i()] is the row, [j()]
    the column of these coordinates, and the value the diagonal one exactly
    when the two are equal. *)
Theorem matrix_generator_new_checks (sizes : list N) (row _halo : N)
    (diag non_diag : T) (uninitialized : matrix_generator_iterator T)
    (g : row_generator) :
  row_generator_new size_bits sizes row
    (row_coords (matrix_base uninitialized)) = inr g ->
  length (row_coords (matrix_base uninitialized)) = length sizes ->
  length (col_coords uninitialized) = length sizes ->
  length (column_max_values uninitialized) = length sizes ->
  (_halo = 0%N ->
   matrix_generator_new size_bits T sizes row _halo diag non_diag
     uninitialized = inl (invalid_argument halo_must_be_positive)) /\
  ((0 < _halo)%N ->
   Exists (fun d =>
             (d < size_add size_bits (size_mul size_bits 2 _halo) 1)%N)
     sizes ->
   matrix_generator_new size_bits T sizes row _halo diag non_diag
     uninitialized = inl (invalid_argument halo_beyond_sizes)) /\
  ((0 < _halo)%N ->
   Forall (fun d => (2 * _halo + 1 <= d /\ d + _halo < 2 ^ size_bits)%N)
     sizes ->
   coords_inside sizes (row_coords g) ->
   exists m,
     matrix_generator_new size_bits T sizes row _halo diag non_diag
       uninitialized = inr m /\
     matrix_base m = g /\ halo m = _halo /\
     diagonal_value m = diag /\ non_diagonal_value m = non_diag /\
     col_coords m = map (window_low _halo) (row_coords g) /\
     column_max_values m = zip_with (window_high _halo) sizes (row_coords g) /\
     columns_ready size_bits m /\
     column_rank size_bits m = 0%N /\
     matrix_i T m = row /\
     coords_to_rowcol size_bits g (col_coords m) = inr (matrix_j T m) /\
     snd (matrix_current_values m) = matrix_v T m).
Proof.
  intros Hg Hlu Hlcols Hlmax.
  destruct (row_generator_new_shape _ _ _ _ _ Hg) as (Hpos & Hsizes & Hlc).
  assert (Hne := row_generator_new_nonempty _ _ _ _ _ Hg).
  split; [| split].
  - intros ->. unfold matrix_generator_new. rewrite (gbind_ok _ _ _ Hg).
    reflexivity.
  - intros Hhalo Hshort. unfold matrix_generator_new.
    rewrite (gbind_ok _ _ _ Hg).
    destruct (N.leb_spec _halo 0); [lia |].
    rewrite (check_halo_short size_bits sizes _halo Hshort). reflexivity.
  - intros Hhalo Hroom Hin.
    apply matrix_generator_new_window; assumption.
Qed.

End MatrixClaims.

(** ** From one entry of the matrix to the next *)

Lemma column_value_bound size_bits {T : Type}
    (m : matrix_generator_iterator T) :
  columns_ready size_bits m ->
  (column_value m
   < stride (physical_sizes (matrix_base m))
       (length (physical_sizes (matrix_base m))))%N.
Proof.
  intros (Hn & Hlen & Hlc & Hlm & Hrep & Hmax & Hwin).
  unfold column_value. rewrite Hlen.
  apply row_value_bound; [lia |].
  intros j d Hj Hd.
  destruct (lookup_lt_is_Some_2 (col_coords m) j ltac:(lia)) as [x Hx].
  destruct (lookup_lt_is_Some_2 (column_max_values m) j ltac:(lia))
    as [hi Hhi].
  destruct (lookup_lt_is_Some_2 (row_coords (matrix_base m)) j ltac:(lia))
    as [c Hc].
  rewrite (nth_lookup_Some _ _ _ _ Hx).
  assert (H1 := Hwin j _ hi x
                  (lows_lookup size_bits _ (halo m) j c Hc) Hhi Hx).
  assert (H2 := Hmax j hi d Hhi Hd). lia.
Qed.

Section NextEntry.

Variable size_bits : N.
Variable T : Type.

Ltac matrix_fields :=
  cbn [with_matrix_base with_col_coords with_column_max_values
       with_current_values set_current_row set_current_column
       set_current_value matrix_base halo diagonal_value non_diagonal_value
       col_coords column_max_values matrix_current_values fst snd].

Lemma matrix_next_same_row_spec (m : matrix_generator_iterator T) :
  columns_ready size_bits m ->
  col_coords m <> column_max_values m ->
  exists m',
    matrix_next size_bits T m = inr m' /\
    matrix_base m' = matrix_base m /\
    column_max_values m' = column_max_values m /\
    halo m' = halo m /\
    matrix_i T m' = matrix_i T m /\
    columns_ready size_bits m' /\
    column_rank size_bits m' = (column_rank size_bits m + 1)%N /\
    (column_value m < column_value m')%N /\
    matrix_j T m' = size_wrap size_bits (column_value m') /\
    ((stride (physical_sizes (matrix_base m))
        (length (physical_sizes (matrix_base m))) <= 2 ^ size_bits)%N ->
     matrix_j T m' = column_value m') /\
    snd (matrix_current_values m') = matrix_v T m'.
Proof.
  intros Hready Hnot.
  destruct (increment_column_spec size_bits T m Hready)
    as (m1 & rewind & Hrun & Hm1 & Hready1 & Hno & Hyes).
  destruct rewind; [destruct (Hyes eq_refl) as [Heq _]; contradiction |].
  destruct (Hno eq_refl) as (_ & Hrank & Hup).
  assert (Hlen1 : length (col_coords m1)
                  = length (physical_sizes (matrix_base m1)))
    by (apply Hready1).
  assert (Hcol := coords_to_rowcol_wraps size_bits (matrix_base m1)
                    (col_coords m1) Hlen1).
  eexists. split.
  - unfold matrix_next. rewrite (gbind_ok _ _ _ Hrun). cbn [fst snd].
    rewrite (gbind_ok _ _ m1) by reflexivity.
    rewrite (gbind_ok _ _ _ Hcol). reflexivity.
  - assert (Hbound := column_value_bound size_bits m1 Hready1).
    rewrite Hm1 in *.
    cbn [set_current_value set_current_column with_current_values
         with_col_coords matrix_base column_max_values halo col_coords
         matrix_current_values matrix_i matrix_j matrix_v diagonal_value
         non_diagonal_value fst snd] in *.
    repeat (split; [first [reflexivity | assumption] |]).
    split; [| reflexivity].
    intros Hgrid. unfold column_value. matrix_fields.
    apply size_wrap_small. unfold column_value in Hbound.
    cbn [matrix_base col_coords with_col_coords] in Hbound. lia.
Qed.

(** X23: [operator++] of the matrix generator within a row.  When the
    column coordinates are within the window of the row and not all at their
    largest values, it keeps the row and [i()], moves to the column of the
    next position in the window, which is a larger column, sets [j()] to that
    column as [std::size_t] holds it, which is the column itself when the
    grid has no more points than [std::size_t] has values, and the value to
    the diagonal one exactly when [j()] equals [i()]. *)
Theorem matrix_next_same_row (m : matrix_generator_iterator T) :
  columns_ready size_bits m ->
  col_coords m <> column_max_values m ->
  exists m',
    matrix_next size_bits T m = inr m' /\
    matrix_base m' = matrix_base m /\
    column_max_values m' = column_max_values m /\
    halo m' = halo m /\
    matrix_i T m' = matrix_i T m /\
    columns_ready size_bits m' /\
    column_rank size_bits m' = (column_rank size_bits m + 1)%N /\
    (column_value m < column_value m')%N /\
    matrix_j T m' = size_wrap size_bits (column_value m') /\
    ((stride (physical_sizes (matrix_base m))
        (length (physical_sizes (matrix_base m))) <= 2 ^ size_bits)%N ->
     matrix_j T m' = column_value m') /\
    snd (matrix_current_values m') = matrix_v T m'.
Proof. exact (matrix_next_same_row_spec m). Qed.

Lemma next_row_within (sizes coords coords' : list N) :
  Forall (fun d => (0 < d)%N) sizes ->
  1 <= length sizes ->
  length coords = length sizes -> length coords' = length sizes ->
  coords_inside sizes coords ->
  coords_in_range sizes coords' ->
  row_value sizes coords' (length sizes)
  = (row_value sizes coords (length sizes) + 1)%N ->
  forall j d x, sizes !! j = Some d -> coords' !! j = Some x -> (x <= d)%N.
Proof.
  intros Hpos Hn Hlen Hlen' Hin Hrange Hval j d x Hd Hx.
  destruct (Nat.eq_dec (S j) (length sizes)) as [Hlast | Hinner].
  - assert (Hb : (row_value sizes coords (length sizes)
                  < stride sizes (length sizes))%N).
    { apply row_value_bound; [lia |]. intros i di Hi Hdi.
      destruct (lookup_lt_is_Some_2 coords i ltac:(lia)) as [xi Hxi].
      rewrite (nth_lookup_Some _ _ _ _ Hxi). apply (Hin i di xi Hdi Hxi). }
    assert (Hl := row_value_last sizes coords' j).
    rewrite (nth_lookup_Some _ _ _ _ Hx) in Hl.
    rewrite <- Hlast in Hb, Hval. rewrite (stride_S sizes j d Hd) in Hb.
    assert (H0 := stride_positive sizes j Hpos). nia.
  - apply lookup_lt_Some in Hd as Hj.
    assert (H := Hrange j d x ltac:(lia) Hd Hx). lia.
Qed.

Lemma coords_inside_in_range sizes a :
  coords_inside sizes a -> coords_in_range sizes a.
Proof. intros H j d x _ Hd Hx. apply (H j d x Hd Hx). Qed.

Lemma matrix_next_new_row_spec (m : matrix_generator_iterator T) :
  columns_ready size_bits m ->
  col_coords m = column_max_values m ->
  (0 < halo m)%N ->
  Forall (fun d => (d + halo m < 2 ^ size_bits)%N)
    (physical_sizes (matrix_base m)) ->
  coords_inside (physical_sizes (matrix_base m))
    (row_coords (matrix_base m)) ->
  dimensions_wrap (physical_sizes (matrix_base m)) ->
  2 <= length (physical_sizes (matrix_base m)) ->
  (stride (physical_sizes (matrix_base m))
     (length (physical_sizes (matrix_base m)) - 1) < 2 ^ size_bits)%N ->
  (row_value (physical_sizes (matrix_base m)) (row_coords (matrix_base m))
     (length (physical_sizes (matrix_base m))) + 1 < 2 ^ size_bits)%N ->
  exists m' v,
    matrix_next size_bits T m = inr m' /\
    coords_to_rowcol size_bits (matrix_base m) (row_coords (matrix_base m))
    = inr v /\
    coords_to_rowcol size_bits (matrix_base m') (row_coords (matrix_base m'))
    = inr (v + 1)%N /\
    matrix_i T m' = (v + 1)%N /\
    physical_sizes (matrix_base m') = physical_sizes (matrix_base m) /\
    halo m' = halo m /\
    col_coords m'
    = map (window_low (halo m)) (row_coords (matrix_base m')) /\
    column_max_values m'
    = zip_with (window_high (halo m)) (physical_sizes (matrix_base m))
        (row_coords (matrix_base m')) /\
    columns_ready size_bits m' /\
    column_rank size_bits m' = 0%N /\
    matrix_j T m' = size_wrap size_bits (column_value m') /\
    snd (matrix_current_values m') = matrix_v T m'.
Proof.
  intros Hready Hlast Hhalo Hroom Hin Hwrap Hn Hstr Hfit.
  destruct (increment_column_spec size_bits T m Hready)
    as (m1 & rewind & Hrun & Hm1 & Hready1 & Hno & Hyes).
  destruct rewind; [| destruct (Hno eq_refl) as [Hne _]; contradiction].
  clear Hno Hyes.
  destruct Hready as (_ & Hlen & Hlc & Hlm & Hrep & Hmax & _).
  destruct Hready1 as (_ & Hlen1 & _).
  set (sizes := physical_sizes (matrix_base m)) in *.
  assert (Hpos : Forall (fun d => (0 < d)%N) sizes).
  { apply Forall_lookup_2. intros j d Hd.
    destruct (lookup_lt_is_Some_2 (column_max_values m) j) as [hi Hhi];
      [apply lookup_lt_Some in Hd; lia |].
    assert (H := Hmax j hi d Hhi Hd). lia. }
  destruct (increment_row_spec size_bits (matrix_base m) Hpos Hwrap Hn Hlc
              (coords_inside_in_range _ _ Hin) Hstr Hfit)
    as (g' & v & Hrow & Hsizes & Hlen' & Hrange' & Hv & Hv' & Hveq & Hnew).
  fold sizes in Hsizes, Hlen', Hrange', Hveq, Hnew.
  assert (Hwithin := next_row_within sizes (row_coords (matrix_base m))
                       (row_coords g') Hpos ltac:(lia) Hlc Hlen' Hin Hrange'
                       ltac:(rewrite Hnew, Hveq; reflexivity)).
  assert (Hsz : Forall (fun d => (0 < d < 2 ^ size_bits)%N) sizes).
  { apply Forall_lookup_2. intros j d Hd.
    assert (H1 := Forall_lookup_1 _ _ _ _ Hpos Hd).
    assert (H2 := Forall_lookup_1 _ _ _ _ Hrep Hd). simpl in H1, H2. lia. }
  assert (Hcf := coords_fit size_bits (halo m) sizes (row_coords g')
                   Hlen' Hroom Hwithin).
  assert (Hrepc : representable size_bits (row_coords g')).
  { eapply Forall_impl; [exact Hcf |]. simpl. intros x Hx. lia. }
  assert (Hlf : length (first_columns size_bits (halo m) (row_coords g'))
                = length (physical_sizes g')).
  { unfold first_columns. rewrite length_map, Hsizes. exact Hlen'. }
  assert (Hcol := coords_to_rowcol_wraps size_bits g' _ Hlf).
  assert (Hlen1' : length (col_coords m1) = length sizes).
  { rewrite Hm1 in Hlen1. exact Hlen1. }
  rewrite Hm1 in Hrun.
  exists (mkMatrixGenerator g' (halo m) (diagonal_value m)
            (non_diagonal_value m)
            (first_columns size_bits (halo m) (row_coords g'))
            (last_columns size_bits (halo m) sizes (row_coords g'))
            ((v + 1)%N,
             size_wrap size_bits
               (row_value (physical_sizes g')
                  (first_columns size_bits (halo m) (row_coords g'))
                  (length (first_columns size_bits (halo m)
                             (row_coords g')))),
             if (size_wrap size_bits
                   (row_value (physical_sizes g')
                      (first_columns size_bits (halo m) (row_coords g'))
                      (length (first_columns size_bits (halo m)
                                 (row_coords g')))) =? v + 1)%N
             then diagonal_value m else non_diagonal_value m)), v.
  split.
  { unfold matrix_next. rewrite (gbind_ok _ _ _ Hrun). matrix_fields.
    rewrite (gbind_ok _ _ _ Hrow).
    unfold reset_all_columns. matrix_fields.
    rewrite (gbind_ok _ _ (first_columns size_bits (halo m) (row_coords g'))).
    2:{ apply reset_all_columns_loop_spec; [lia | lia | reflexivity]. }
    cbn [gbind gret]. matrix_fields.
    rewrite (gbind_ok _ _ _ Hv').
    unfold update_column_max_values. matrix_fields.
    rewrite Hsizes.
    rewrite (gbind_ok _ _ (last_columns size_bits (halo m) sizes
                             (row_coords g'))).
    2:{ apply update_column_max_values_loop_spec;
          [lia | exact Hlm | lia | reflexivity]. }
    cbn [gbind gret]. matrix_fields.
    rewrite (gbind_ok _ _ _ Hcol). unfold matrix_i, matrix_j, matrix_v.
    matrix_fields. rewrite Hsizes. reflexivity. }
  cbn [matrix_base halo col_coords column_max_values matrix_current_values
       diagonal_value non_diagonal_value].
  split; [exact Hv |]. split; [exact Hv' |]. split; [reflexivity |].
  split; [exact Hsizes |]. split; [reflexivity |].
  split; [apply first_columns_exact; exact Hrepc |].
  split; [apply last_columns_exact; assumption |].
  split.
  { unfold columns_ready, matrix_lows.
    cbn [matrix_base halo col_coords column_max_values].
    rewrite Hsizes. unfold first_columns at 1 2, last_columns at 1.
    rewrite length_map, length_zip_with.
    split; [lia |]. split; [lia |]. split; [lia |]. split; [lia |].
    split; [exact Hrep |].
    split; [apply last_within_sizes; exact Hsz |].
    apply first_below_last; assumption. }
  split; [apply window_rank_first |].
  split.
  { unfold matrix_j, column_value.
    cbn [matrix_current_values matrix_base col_coords fst snd].
    reflexivity. }
  unfold matrix_v, matrix_i, matrix_j.
  cbn [matrix_current_values diagonal_value non_diagonal_value fst snd].
  reflexivity.
Qed.

(** X24: [operator++] of the matrix generator at the end of a row.  On the
    last column of the window of a row within the grid it moves to the next
    row, as [increment_row] does, and to the first column of the window of
    that row: [i()] goes up by one, every column coordinate is the new row
    coordinate less the halo, or zero, the largest one is the new row
    coordinate plus the halo, or the size less one, and [j()] and the value
    follow them. *)
Theorem matrix_next_new_row (m : matrix_generator_iterator T) :
  columns_ready size_bits m ->
  col_coords m = column_max_values m ->
  (0 < halo m)%N ->
  Forall (fun d => (d + halo m < 2 ^ size_bits)%N)
    (physical_sizes (matrix_base m)) ->
  coords_inside (physical_sizes (matrix_base m))
    (row_coords (matrix_base m)) ->
  dimensions_wrap (physical_sizes (matrix_base m)) ->
  2 <= length (physical_sizes (matrix_base m)) ->
  (stride (physical_sizes (matrix_base m))
     (length (physical_sizes (matrix_base m)) - 1) < 2 ^ size_bits)%N ->
  (row_value (physical_sizes (matrix_base m)) (row_coords (matrix_base m))
     (length (physical_sizes (matrix_base m))) + 1 < 2 ^ size_bits)%N ->
  exists m' v,
    matrix_next size_bits T m = inr m' /\
    coords_to_rowcol size_bits (matrix_base m) (row_coords (matrix_base m))
    = inr v /\
    coords_to_rowcol size_bits (matrix_base m') (row_coords (matrix_base m'))
    = inr (v + 1)%N /\
    matrix_i T m' = (v + 1)%N /\
    physical_sizes (matrix_base m') = physical_sizes (matrix_base m) /\
    halo m' = halo m /\
    col_coords m'
    = map (window_low (halo m)) (row_coords (matrix_base m')) /\
    column_max_values m'
    = zip_with (window_high (halo m)) (physical_sizes (matrix_base m))
        (row_coords (matrix_base m')) /\
    columns_ready size_bits m' /\
    column_rank size_bits m' = 0%N /\
    matrix_j T m' = size_wrap size_bits (column_value m') /\
    snd (matrix_current_values m') = matrix_v T m'.
Proof. exact (matrix_next_new_row_spec m). Qed.

End NextEntry.

(** ** The entries of a row *)

Section RowEntries.

Variable size_bits : N.
Variable T : Type.

Lemma columns_of_row_same (m m' : matrix_generator_iterator T) :
  matrix_base m' = matrix_base m -> halo m' = halo m ->
  column_max_values m' = column_max_values m ->
  columns_of_row size_bits m' = columns_of_row size_bits m.
Proof.
  intros Hb Hh Hm. unfold columns_of_row, matrix_lows.
  rewrite Hb, Hh, Hm. reflexivity.
Qed.

Lemma column_rank_bound (m : matrix_generator_iterator T) :
  columns_ready size_bits m ->
  (column_rank size_bits m < columns_of_row size_bits m)%N.
Proof.
  intros (Hn & Hlen & Hlc & Hlm & Hrep & Hmax & Hwin).
  apply window_rank_bound; [lia | lia | exact Hwin].
Qed.

Lemma last_column_iff (m : matrix_generator_iterator T) :
  columns_ready size_bits m ->
  col_coords m = column_max_values m <->
  (column_rank size_bits m + 1)%N = columns_of_row size_bits m.
Proof.
  intros Hready.
  destruct (increment_column_spec size_bits T m Hready)
    as (m1 & rewind & _ & Hm1 & Hready1 & Hno & Hyes).
  destruct rewind.
  - destruct (Hyes eq_refl) as (Heq & _ & Hlast). split; intros _; assumption.
  - destruct (Hno eq_refl) as (Hne & Hrank & _).
    assert (Hb := column_rank_bound m1 Hready1).
    rewrite (columns_of_row_same m m1) in Hb
      by (rewrite Hm1; reflexivity).
    split; [contradiction | lia].
Qed.

Lemma matrix_advance_spec : forall (k : nat) (m : matrix_generator_iterator T),
  columns_ready size_bits m ->
  (column_rank size_bits m + N.of_nat k < columns_of_row size_bits m)%N ->
  exists m',
    matrix_advance size_bits T k m = inr m' /\
    matrix_base m' = matrix_base m /\
    column_max_values m' = column_max_values m /\
    halo m' = halo m /\
    matrix_i T m' = matrix_i T m /\
    columns_ready size_bits m' /\
    column_rank size_bits m' = (column_rank size_bits m + N.of_nat k)%N /\
    (column_value m + N.of_nat k <= column_value m')%N /\
    (0 < k -> matrix_j T m' = size_wrap size_bits (column_value m')).
Proof.
  induction k as [| k IH]; intros m Hready Hrank.
  - exists m. simpl.
    repeat (split; [first [reflexivity | assumption | lia] |]). lia.
  - assert (Hnot : col_coords m <> column_max_values m).
    { intros Heq. apply (last_column_iff m Hready) in Heq. lia. }
    destruct (matrix_next_same_row_spec size_bits T m Hready Hnot)
      as (m1 & Hrun & Hb1 & Hm1 & Hh1 & Hi1 & Hready1 & Hrank1 & Hup1 & Hj1
          & _).
    destruct (IH m1 Hready1) as
      (m' & Hrun' & Hb & Hm & Hh & Hi & Hready' & Hrank' & Hup & Hj).
    { rewrite (columns_of_row_same m m1 Hb1 Hh1 Hm1). lia. }
    exists m'. split.
    { simpl. rewrite (gbind_ok _ _ _ Hrun). exact Hrun'. }
    split; [congruence |]. split; [congruence |]. split; [congruence |].
    split; [congruence |]. split; [exact Hready' |].
    split; [lia |]. split; [lia |].
    intros _. destruct k as [| k].
    + simpl in Hrun'. inversion Hrun'; subst m'. exact Hj1.
    + apply Hj. lia.
Qed.

(** X25: the entries of a row.  From column coordinates within the window
    of the row, [count] applications of [operator++] that do not reach the
    end of the window stay on the row: [i()], the row generator and the
    window are unchanged, the position in the window goes up by [count], and
    the column by at least as much, so the columns of a row come in strictly
    increasing order; [j()] is the column as [std::size_t] holds it.  The
    generator is on the last column of the row exactly when its position is
    the number of points in the window less one, so a row started on its
    first column has as many entries as the window has points. *)
Theorem matrix_row_entries (m : matrix_generator_iterator T) (count : nat) :
  columns_ready size_bits m ->
  (column_rank size_bits m + N.of_nat count < columns_of_row size_bits m)%N ->
  exists m',
    matrix_advance size_bits T count m = inr m' /\
    matrix_base m' = matrix_base m /\
    column_max_values m' = column_max_values m /\
    halo m' = halo m /\
    matrix_i T m' = matrix_i T m /\
    columns_ready size_bits m' /\
    column_rank size_bits m' = (column_rank size_bits m + N.of_nat count)%N /\
    (column_value m + N.of_nat count <= column_value m')%N /\
    (0 < count -> matrix_j T m' = size_wrap size_bits (column_value m')) /\
    (col_coords m' = column_max_values m' <->
     (column_rank size_bits m + N.of_nat count + 1)%N
     = columns_of_row size_bits m).
Proof.
  intros Hready Hrank.
  destruct (matrix_advance_spec count m Hready Hrank)
    as (m' & Hrun & Hb & Hm & Hh & Hi & Hready' & Hrank' & Hup & Hj).
  exists m'.
  repeat (split; [assumption |]).
  rewrite (last_column_iff m' Hready'), Hrank'.
  rewrite (columns_of_row_same m m' Hb Hh Hm). reflexivity.
Qed.

Lemma size_prod_replicate n w :
  size_prod (replicate n w) = (w ^ N.of_nat n)%N.
Proof.
  induction n as [| n IH]; [reflexivity |].
  rewrite Nat2N.inj_succ, N.pow_succ_r'. unfold size_prod in *. simpl.
  rewrite IH. reflexivity.
Qed.

Lemma interior_widths _halo sizes coords :
  length coords = length sizes ->
  representable size_bits coords ->
  interior _halo sizes coords ->
  window_widths (first_columns size_bits _halo coords)
    (zip_with (window_high _halo) sizes coords)
  = replicate (length sizes) (2 * _halo + 1)%N.
Proof.
  intros Hlen Hrep Hint. apply list_eq. intros j.
  unfold window_widths. rewrite first_columns_exact by exact Hrep.
  rewrite !lookup_zip_with, list_lookup_fmap.
  destruct (Nat.lt_ge_cases j (length sizes)) as [Hj | Hj].
  - destruct (lookup_lt_is_Some_2 sizes j Hj) as [d Hd].
    destruct (lookup_lt_is_Some_2 coords j ltac:(lia)) as [x Hx].
    rewrite Hd, Hx. simpl. rewrite (lookup_replicate_2 _ _ _ Hj).
    destruct (Hint j d x Hd Hx) as [Hlow Hhigh].
    unfold window_low, window_high. f_equal. lia.
  - rewrite (lookup_ge_None_2 coords) by lia. simpl.
    symmetry. apply lookup_ge_None_2. rewrite length_replicate. exact Hj.
Qed.

(** X26: a row away from the borders has as many entries as its window has
    points.  When every coordinate of the row is at least the halo away from
    both borders of its dimension, the constructor leaves the generator on
    the first of [(2 * halo + 1) ^ DIMS] columns: that many applications of
    [operator++] less one stay on the row, with [i()] unchanged and the
    column growing at every step, and end on the last column of the row,
    where every column coordinate has its largest value. *)
Theorem interior_row_entries (sizes : list N) (row _halo : N)
    (diag non_diag : T) (uninitialized : matrix_generator_iterator T)
    (g : row_generator) :
  row_generator_new size_bits sizes row
    (row_coords (matrix_base uninitialized)) = inr g ->
  length (row_coords (matrix_base uninitialized)) = length sizes ->
  length (col_coords uninitialized) = length sizes ->
  length (column_max_values uninitialized) = length sizes ->
  (0 < _halo)%N ->
  Forall (fun d => (d + _halo < 2 ^ size_bits)%N) sizes ->
  interior _halo sizes (row_coords g) ->
  exists m m_last,
    matrix_generator_new size_bits T sizes row _halo diag non_diag
      uninitialized = inr m /\
    columns_of_row size_bits m
    = ((2 * _halo + 1) ^ N.of_nat (length sizes))%N /\
    matrix_advance size_bits T
      (N.to_nat ((2 * _halo + 1) ^ N.of_nat (length sizes) - 1)) m
    = inr m_last /\
    matrix_base m_last = g /\
    matrix_i T m_last = row /\
    col_coords m_last = column_max_values m_last /\
    (column_value m + ((2 * _halo + 1) ^ N.of_nat (length sizes) - 1)
     <= column_value m_last)%N.
Proof.
  intros Hg Hlu Hlcols Hlmax Hhalo Hroom Hint.
  destruct (row_generator_new_shape _ _ _ _ _ Hg) as (Hpos & Hsizes & Hlc).
  assert (Hin : coords_inside sizes (row_coords g)).
  { intros j d x Hd Hx. destruct (Hint j d x Hd Hx). lia. }
  assert (Hroom' : Forall (fun d => (2 * _halo + 1 <= d
                                     /\ d + _halo < 2 ^ size_bits)%N) sizes).
  { apply Forall_lookup_2. intros j d Hd.
    destruct (lookup_lt_is_Some_2 (row_coords g) j) as [x Hx];
      [apply lookup_lt_Some in Hd; lia |].
    destruct (Hint j d x Hd Hx).
    assert (H1 := Forall_lookup_1 _ _ _ _ Hroom Hd). simpl in H1. lia. }
  destruct (matrix_generator_new_window size_bits T sizes row _halo diag
              non_diag uninitialized g Hg Hlu Hlcols Hlmax Hhalo Hroom' Hin)
    as (m & Hrun & Hb & Hh & _ & _ & _ & Hmaxes & Hready & Hrank & Hi & _).
  assert (Hrepc : representable size_bits (row_coords g)).
  { apply Forall_lookup_2. intros j x Hx.
    destruct (lookup_lt_is_Some_2 sizes j) as [d Hd];
      [apply lookup_lt_Some in Hx; lia |].
    destruct (Hint j d x Hd Hx).
    assert (H1 := Forall_lookup_1 _ _ _ _ Hroom Hd). simpl in H1. lia. }
  assert (Hcount : columns_of_row size_bits m
                   = ((2 * _halo + 1) ^ N.of_nat (length sizes))%N).
  { unfold columns_of_row, matrix_lows. rewrite Hb, Hh, Hmaxes.
    rewrite interior_widths; [apply size_prod_replicate | lia | exact Hrepc
                             | exact Hint]. }
  assert (Hone : (0 < (2 * _halo + 1) ^ N.of_nat (length sizes))%N).
  { apply N.neq_0_lt_0. apply N.pow_nonzero. lia. }
  destruct (matrix_advance_spec
              (N.to_nat ((2 * _halo + 1) ^ N.of_nat (length sizes) - 1))
              m Hready)
    as (m' & Hrun' & Hb' & Hm' & Hh' & Hi' & Hready' & Hrank' & Hup & _).
  { rewrite Hrank, Hcount, N2Nat.id. lia. }
  rewrite N2Nat.id in Hrank', Hup.
  exists m, m'.
  split; [exact Hrun |]. split; [exact Hcount |]. split; [exact Hrun' |].
  split; [congruence |]. split; [congruence |]. split; [| exact Hup].
  apply (last_column_iff m' Hready').
  rewrite (columns_of_row_same m m' Hb' Hh' Hm'), Hrank', Hrank, Hcount. lia.
Qed.

End RowEntries.

(** ** The generators at work *)

Ltac by_index j :=
  simpl in *;
  repeat (first [discriminate
                | destruct j as [| j]; simpl in *; [simplify_eq; try lia |]]).

Lemma coarsener_column_projects_witness :
  exists col,
    coords_to_finer_col 64 (mkRowGenerator [2; 3]%N [1; 2]%N) [2; 2]%N
    = inr col /\
    coords_to_rowcol 64
      (mkRowGenerator [4; 6]%N (finer_point 64 [2; 2]%N [1; 2]%N))
      (finer_point 64 [2; 2]%N [1; 2]%N) = inr col.
Proof.
  apply (coarsener_column_projects 64 (mkRowGenerator [2; 3]%N [1; 2]%N)
           [2; 2]%N [4; 6]%N); reflexivity.
Defined.

Lemma coarsener_new_checks_witness :
  (exists col,
     coarsener_new 64 nat 1 [3; 3]%N [6; 9]%N 4%N [0; 0]%N
     = inr (mkCoarsener (mkRowGenerator [3; 3]%N [1; 1]%N) [6; 9]%N
              [2; 3]%N (4%N, col, 1)) /\
     coords_to_rowcol 64
       (mkRowGenerator [6; 9]%N (finer_point 64 [2; 3]%N [1; 1]%N))
       (finer_point 64 [2; 3]%N [1; 1]%N) = inr col) /\
  coarsener_new 64 nat 1 [3; 3]%N [6; 2]%N 4%N [0; 0]%N
  = inl (invalid_argument (finer_not_multiple 1)).
Proof.
  split.
  - destruct (coarsener_new_checks 64 nat 1 [3; 3]%N [6; 9]%N [0; 0]%N 4%N
                (mkRowGenerator [3; 3]%N [1; 1]%N) eq_refl eq_refl)
      as [Hok _].
    apply (Hok [2; 3]%N); [reflexivity | repeat constructor | reflexivity].
  - destruct (coarsener_new_checks 64 nat 1 [3; 3]%N [6; 2]%N [0; 0]%N 4%N
                (mkRowGenerator [3; 3]%N [1; 1]%N) eq_refl eq_refl)
      as [_ Hshort].
    apply (Hshort 1 2%N 3%N); [reflexivity | reflexivity | lia |].
    intros l cl Hl Hcl. by_index l. exists 2%N. split; [lia | reflexivity].
Defined.

Lemma coarsener_next_advances_witness :
  exists c' v,
    coarsener_next 64 nat 1 coarsener_example = inr c' /\
    coords_to_rowcol 64 (coarsener_base coarsener_example)
      (row_coords (coarsener_base coarsener_example)) = inr v /\
    coarsener_i nat c' = (v + 1)%N /\
    steps c' = steps coarsener_example /\
    finer_sizes c' = finer_sizes coarsener_example /\
    physical_sizes (coarsener_base c')
    = physical_sizes (coarsener_base coarsener_example) /\
    coords_in_range (physical_sizes (coarsener_base coarsener_example))
      (row_coords (coarsener_base c')) /\
    coords_to_rowcol 64
      (mkRowGenerator (finer_sizes coarsener_example)
         (finer_point 64 (steps coarsener_example)
            (row_coords (coarsener_base c'))))
      (finer_point 64 (steps coarsener_example)
         (row_coords (coarsener_base c')))
    = inr (coarsener_j nat c') /\
    snd (coarsener_current_values c') = 1.
Proof.
  apply (coarsener_next_advances 64 nat 1 coarsener_example).
  - repeat constructor.
  - intros j d Hj Hd. by_index j.
  - simpl. lia.
  - reflexivity.
  - intros j d x Hj Hd Hx. by_index j.
  - reflexivity.
  - reflexivity.
  - reflexivity.
  - reflexivity.
Defined.

Lemma window_example_ready : columns_ready 64 window_example.
Proof.
  unfold columns_ready. simpl.
  split; [lia |]. split; [reflexivity |]. split; [reflexivity |].
  split; [reflexivity |].
  split; [repeat constructor |].
  split; [intros j hi d Hhi Hd; by_index j |].
  intros j lo hi x Hlo Hhi Hx. by_index j.
  all: unfold first_column_coord; simpl; lia.
Qed.

Lemma window_end_example_ready : columns_ready 64 window_end_example.
Proof.
  unfold columns_ready. simpl.
  split; [lia |]. split; [reflexivity |]. split; [reflexivity |].
  split; [reflexivity |].
  split; [repeat constructor |].
  split; [intros j hi d Hhi Hd; by_index j |].
  intros j lo hi x Hlo Hhi Hx. by_index j.
  all: unfold first_column_coord; simpl; lia.
Qed.

Lemma increment_column_next_witness :
  exists m' rewind,
    increment_column 64 nat window_example = inr (m', rewind) /\
    m' = with_col_coords nat window_example (col_coords m') /\
    columns_ready 64 m' /\
    (rewind = false ->
     col_coords window_example <> column_max_values window_example /\
     column_rank 64 m' = (column_rank 64 window_example + 1)%N /\
     (column_value window_example < column_value m')%N) /\
    (rewind = true ->
     col_coords window_example = column_max_values window_example /\
     col_coords m' = matrix_lows 64 window_example /\
     (column_rank 64 window_example + 1)%N = columns_of_row 64 window_example).
Proof.
  apply (increment_column_next 64 nat window_example window_example_ready).
Defined.

Lemma matrix_generator_new_checks_witness :
  matrix_generator_new 64 nat [4; 4]%N 5%N 0%N 2 1 unbuilt_example
  = inl (invalid_argument halo_must_be_positive) /\
  matrix_generator_new 64 nat [4; 4]%N 5%N 2%N 2 1 unbuilt_example
  = inl (invalid_argument halo_beyond_sizes) /\
  exists m,
    matrix_generator_new 64 nat [4; 4]%N 5%N 1%N 2 1 unbuilt_example
    = inr m /\
    matrix_base m = mkRowGenerator [4; 4]%N [1; 1]%N /\
    col_coords m = [0; 0]%N /\ column_max_values m = [2; 2]%N /\
    matrix_i nat m = 5%N /\ matrix_j nat m = 0%N /\
    snd (matrix_current_values m) = 1.
Proof.
  split; [| split].
  - destruct (matrix_generator_new_checks 64 nat [4; 4]%N 5%N 0%N 2 1
                unbuilt_example (mkRowGenerator [4; 4]%N [1; 1]%N)
                eq_refl eq_refl eq_refl eq_refl) as [Hzero _].
    apply Hzero. reflexivity.
  - destruct (matrix_generator_new_checks 64 nat [4; 4]%N 5%N 2%N 2 1
                unbuilt_example (mkRowGenerator [4; 4]%N [1; 1]%N)
                eq_refl eq_refl eq_refl eq_refl) as (_ & Hshort & _).
    apply Hshort; [lia |]. left. vm_compute. reflexivity.
  - destruct (matrix_generator_new_checks 64 nat [4; 4]%N 5%N 1%N 2 1
                unbuilt_example (mkRowGenerator [4; 4]%N [1; 1]%N)
                eq_refl eq_refl eq_refl eq_refl) as (_ & _ & Hok).
    destruct Hok as (m & Hrun & Hbase & _ & Hdiag & Hnon & Hcols & Hmax & _
                     & _ & Hi & Hj & Hv).
    + lia.
    + repeat constructor; simpl; lia.
    + intros j d x Hd Hx. by_index j.
    + exists m. rewrite Hcols in Hj.
      assert (Hc : coords_to_rowcol 64 (mkRowGenerator [4; 4]%N [1; 1]%N)
                     (map (window_low 1) [1; 1]%N) = inr 0%N)
        by reflexivity.
      simpl row_coords in Hj. rewrite Hc in Hj.
      assert (Hcol : matrix_j nat m = 0%N) by (inversion Hj; reflexivity).
      unfold matrix_v in Hv. rewrite Hcol, Hi, Hdiag, Hnon in Hv.
      repeat split; assumption.
Defined.

Lemma matrix_next_same_row_witness :
  exists m',
    matrix_next 64 nat window_example = inr m' /\
    matrix_base m' = matrix_base window_example /\
    column_max_values m' = column_max_values window_example /\
    halo m' = halo window_example /\
    matrix_i nat m' = matrix_i nat window_example /\
    columns_ready 64 m' /\
    column_rank 64 m' = (column_rank 64 window_example + 1)%N /\
    (column_value window_example < column_value m')%N /\
    matrix_j nat m' = size_wrap 64 (column_value m') /\
    ((stride (physical_sizes (matrix_base window_example))
        (length (physical_sizes (matrix_base window_example))) <= 2 ^ 64)%N ->
     matrix_j nat m' = column_value m') /\
    snd (matrix_current_values m') = matrix_v nat m'.
Proof.
  apply (matrix_next_same_row 64 nat window_example window_example_ready).
  discriminate.
Defined.

Lemma matrix_next_new_row_witness :
  exists m' v,
    matrix_next 64 nat window_end_example = inr m' /\
    coords_to_rowcol 64 (matrix_base window_end_example)
      (row_coords (matrix_base window_end_example)) = inr v /\
    coords_to_rowcol 64 (matrix_base m') (row_coords (matrix_base m'))
    = inr (v + 1)%N /\
    matrix_i nat m' = (v + 1)%N /\
    physical_sizes (matrix_base m')
    = physical_sizes (matrix_base window_end_example) /\
    halo m' = halo window_end_example /\
    col_coords m'
    = map (window_low (halo window_end_example))
        (row_coords (matrix_base m')) /\
    column_max_values m'
    = zip_with (window_high (halo window_end_example))
        (physical_sizes (matrix_base window_end_example))
        (row_coords (matrix_base m')) /\
    columns_ready 64 m' /\
    column_rank 64 m' = 0%N /\
    matrix_j nat m' = size_wrap 64 (column_value m') /\
    snd (matrix_current_values m') = matrix_v nat m'.
Proof.
  apply (matrix_next_new_row 64 nat window_end_example
           window_end_example_ready).
  - reflexivity.
  - simpl. lia.
  - repeat constructor.
  - intros j d x Hd Hx. by_index j.
  - intros j d Hj Hd. by_index j.
  - simpl. lia.
  - reflexivity.
  - reflexivity.
Defined.

Lemma matrix_row_entries_witness :
  exists m',
    matrix_advance 64 nat 3 window_example = inr m' /\
    matrix_base m' = matrix_base window_example /\
    column_max_values m' = column_max_values window_example /\
    halo m' = halo window_example /\
    matrix_i nat m' = matrix_i nat window_example /\
    columns_ready 64 m' /\
    column_rank 64 m' = (column_rank 64 window_example + N.of_nat 3)%N /\
    (column_value window_example + N.of_nat 3 <= column_value m')%N /\
    (0 < 3 -> matrix_j nat m' = size_wrap 64 (column_value m')) /\
    (col_coords m' = column_max_values m' <->
     (column_rank 64 window_example + N.of_nat 3 + 1)%N
     = columns_of_row 64 window_example).
Proof.
  apply (matrix_row_entries 64 nat window_example 3 window_example_ready).
  vm_compute. reflexivity.
Defined.

Lemma interior_row_entries_witness :
  exists m m_last,
    matrix_generator_new 64 nat [4; 4]%N 5%N 1%N 2 1 unbuilt_example
    = inr m /\
    columns_of_row 64 m = ((2 * 1 + 1) ^ N.of_nat 2)%N /\
    matrix_advance 64 nat (N.to_nat ((2 * 1 + 1) ^ N.of_nat 2 - 1)) m
    = inr m_last /\
    matrix_base m_last = mkRowGenerator [4; 4]%N [1; 1]%N /\
    matrix_i nat m_last = 5%N /\
    col_coords m_last = column_max_values m_last /\
    (column_value m + ((2 * 1 + 1) ^ N.of_nat 2 - 1)
     <= column_value m_last)%N.
Proof.
  apply (interior_row_entries 64 nat [4; 4]%N 5%N 1%N 2 1 unbuilt_example
           (mkRowGenerator [4; 4]%N [1; 1]%N)).
  - reflexivity.
  - reflexivity.
  - reflexivity.
  - reflexivity.
  - lia.
  - repeat constructor; simpl; lia.
  - intros j d x Hd Hx. by_index j.
Defined.

Lemma local_assignAll_rewrites_witness :
  exists m',
    local_assignAll debug_config false commit_view commit_memory
    = Ok (with_n commit_view (_cap commit_view), m') /\
    (forall i, i < _cap commit_view ->
       flag_at (with_n commit_view (_cap commit_view)) m' i = true) /\
    stack_prefix (with_n commit_view (_cap commit_view)) m'
    = (if false || negb (_n commit_view =? _cap commit_view)
       then seq 0 (_cap commit_view)
       else stack_prefix commit_view commit_memory) /\
    words m' !! (12 - 1) = Some 0 /\
    (forall j, ~ 2 <= j < 2 + _cap commit_view ->
       flags m' !! j = flags commit_memory !! j) /\
    (forall j, j <> 12 - 1 -> ~ 12 <= j < 12 + _cap commit_view ->
       words m' !! j = words commit_memory !! j) /\
    set_equivalence (with_n commit_view (_cap commit_view)) m'.
Proof.
  apply (local_assignAll_rewrites debug_config commit_view commit_memory
           false 2 12).
  - apply set_equivalence_check. vm_compute. reflexivity.
  - reflexivity.
  - reflexivity.
  - lia.
Defined.
